(** * GormJourney: the callback pipeline of [callbacks.go]

    A shallow embedding of the callback registry ([processor], [callback]),
    of its ordering compiler ([compile], [sortCallbacks], [removeCallbacks],
    [getRIndex]) and of the execution harness ([Execute]), followed by the
    properties established about them.  The builder of the WHERE clause
    ([clause/where.go]) and the parsers of the schema constraints
    ([schema/constraint.go]) are embedded in the modules [Where] and
    [Schema].

    Conventions of the embedding.
    - A Go [func( *DB )] value is a state transformer [DB -> DB] on whatever
      the [*DB] handle reaches; [nil] is [None].
    - [p.callbacks] is a slice of pointers.  Every registration entry point
      of [processor] allocates a fresh [callback], so the pointers held by
      the slice are pairwise distinct and a pointer is identified with its
      position in the slice: the slice is a [list callback] and a write
      through [cs[idx]] is an update of the list at [idx].
    - A computation that does not return normally (unbounded recursion of
      [sortCallback], an index out of range, a call of a nil function) is
      [None]; recursion depth is bounded by a [fuel] argument.
    - Slice indices that can be [-1] are in [Z]; loop counters that are
      never negative are in [nat].
    - The logger is modelled by the list of entries an operation emits. *)

From Stdlib Require Import ZArith.
From stdpp Require Import base list strings gmap.

(** ** Go slices *)

(** [l[i]] with Go's bounds check. *)
Definition index {A} (l : list A) (i : Z) : option A :=
  if (i <? 0)%Z then None else l !! Z.to_nat i.

(** [l[i] = f(l[i])], a write through the element at [i]. *)
Definition update {A} (f : A → A) (i : Z) (l : list A) : option (list A) :=
  match index l i with
  | Some _ => Some (alter f (Z.to_nat i) l)
  | None => None
  end.

(** ** [sort.SliceStable] of the Go standard library

    [sortCallbacks] calls [sort.SliceStable] with a comparison that is not a
    strict weak order, so the result depends on the algorithm; it is
    transcribed here from [sort/zsortfunc.go]: insertion sort on blocks of
    20 elements, then in-place [symMerge] passes.  [Less] and [Swap] act
    on the current contents of the slice.  All indices the algorithm
    computes are in range and its subtractions never go below zero; loops
    whose trip count is not syntactic carry a counter that is never
    exhausted before their own exit test. *)
Section stable_sort.
Context {A : Type} (less : A → A → bool).

Definition Less (data : list A) (i j : nat) : bool :=
  match data !! i, data !! j with
  | Some x, Some y => less x y
  | _, _ => false
  end.

Definition Swap (data : list A) (i j : nat) : list A :=
  match data !! i, data !! j with
  | Some x, Some y => <[j:=x]> (<[i:=y]> data)
  | _, _ => data
  end.

(** [for j := i; j > a && data.Less(j, j-1); j-- { data.Swap(j, j-1) }] *)
Fixpoint insertion_inner (data : list A) (a j : nat) : list A :=
  match j with
  | 0 => data
  | S j' =>
      if (a <? j) && Less data j j'
      then insertion_inner (Swap data j j') a j'
      else data
  end.

(** [for i := a + 1; i < b; i++ { ... }] *)
Definition insertionSort (data : list A) (a b : nat) : list A :=
  foldl (λ d i, insertion_inner d a i) data (seq (a + 1) (b - (a + 1))).

(** [for i := 0; i < n; i++ { data.Swap(a+i, b+i) }] *)
Definition swapRange (data : list A) (a b n : nat) : list A :=
  foldl (λ d i, Swap d (a + i) (b + i)) data (seq 0 n).

Fixpoint rotate_loop (k : nat) (data : list A) (m i j : nat) : list A :=
  match k with
  | 0 => data
  | S k' =>
      if i =? j then swapRange data (m - i) m i
      else if j <? i
           then rotate_loop k' (swapRange data (m - i) m j) m (i - j) j
           else rotate_loop k' (swapRange data (m - i) (m + j - i) i) m i (j - i)
  end.

Definition rotate (data : list A) (a m b : nat) : list A :=
  rotate_loop (b - a) data m (m - a) (b - m).

(** [for i < j { h := int(uint(i+j) >> 1); if test(h) { i = h + 1 } else { j = h } }],
    returning the final [i]. *)
Fixpoint bisect (k : nat) (test : nat → bool) (i j : nat) : nat :=
  match k with
  | 0 => i
  | S k' =>
      if i <? j
      then let h := (i + j) / 2 in
           if test h then bisect k' test (h + 1) j else bisect k' test i h
      else i
  end.

Fixpoint symMerge (k : nat) (data : list A) (a m b : nat) : list A :=
  match k with
  | 0 => data
  | S k' =>
      if m - a =? 1 then
        let i := bisect (b - m) (λ h, Less data h a) m b in
        (* for k := a; k < i-1; k++ { data.Swap(k, k+1) } *)
        foldl (λ d k, Swap d k (k + 1)) data (seq a (i - 1 - a))
      else if b - m =? 1 then
        let i := bisect (m - a) (λ h, negb (Less data m h)) a m in
        (* for k := m; k > i; k-- { data.Swap(k, k-1) } *)
        foldl (λ d k, Swap d k (k - 1)) data (rev (seq (i + 1) (m - i)))
      else
        let mid := (a + b) / 2 in
        let n := mid + m in
        let '(start, r) := if mid <? m then (n - b, mid) else (a, m) in
        let p := n - 1 in
        let start := bisect (r - start) (λ c, negb (Less data (p - c) c)) start r in
        let end_ := n - start in
        let data := if (start <? m) && (m <? end_)
                    then rotate data start m end_ else data in
        let data := if (a <? start) && (start <? mid)
                    then symMerge k' data a start mid else data in
        if (mid <? end_) && (end_ <? b)
        then symMerge k' data mid end_ b else data
  end.

(** [for b <= n { insertionSort(data, a, b); a = b; b += blockSize }] *)
Fixpoint insertion_blocks (k : nat) (data : list A) (n a b : nat) : list A * nat :=
  match k with
  | 0 => (data, a)
  | S k' =>
      if b <=? n then insertion_blocks k' (insertionSort data a b) n b (b + 20)
      else (data, a)
  end.

(** [for b <= n { symMerge(data, a, a+blockSize, b); a = b; b += 2 * blockSize }] *)
Fixpoint merge_blocks (k : nat) (data : list A) (n blockSize a b : nat) : list A * nat :=
  match k with
  | 0 => (data, a)
  | S k' =>
      if b <=? n
      then merge_blocks k' (symMerge n data a (a + blockSize) b) n blockSize b
             (b + 2 * blockSize)
      else (data, a)
  end.

(** [for blockSize < n { ...; blockSize *= 2 }] *)
Fixpoint merge_passes (k : nat) (data : list A) (n blockSize : nat) : list A :=
  match k with
  | 0 => data
  | S k' =>
      if blockSize <? n then
        let '(data, a) := merge_blocks n data n blockSize 0 (2 * blockSize) in
        let m := a + blockSize in
        let data := if m <? n then symMerge n data a m n else data in
        merge_passes k' data n (2 * blockSize)
      else data
  end.

Definition stable (data : list A) (n : nat) : list A :=
  let '(data, a) := insertion_blocks n data n 0 20 in
  let data := insertionSort data a n in
  merge_passes n data n 20.

Definition SliceStable (x : list A) : list A := stable x (length x).

(** What one round of the insertion sort does to a sorted prefix, listed
    from its last element back to its first: [x] sinks past every element
    it compares below. *)
Fixpoint sink (x : A) (r : list A) : list A :=
  match r with
  | [] => [x]
  | y :: r' => if less x y then y :: sink x r' else x :: r
  end.

(** No element compares below an earlier one. *)
Definition no_inversion (data : list A) : Prop :=
  ∀ i j, i < j → Less data j i = false.

(** The elements that satisfy [low] come before all the others. *)
Definition low_first (low : A → Prop) (data : list A) : Prop :=
  ∃ l1 l2, data = l1 ++ l2 ∧ Forall low l1 ∧ Forall (λ x, ¬ low x) l2.

(** Every block of [bs] elements has its [low] elements first. *)
Definition runs (low : A → Prop) (bs : nat) (data : list A) : Prop :=
  ∀ q, low_first low (take bs (drop (q * bs) data)).
End stable_sort.

(** ** The registry *)

Inductive log_entry :=
  | Warn_removing (name : string)
  | Info_replacing (name : string)
  | Warn_duplicated (name : string)
  | Error_compile (err : string).

Section Callbacks.
Context {DB : Type}.

Record callback := Callback {
  name : string;
  before : string;
  after : string;
  remove : bool;
  replace : bool;
  match_ : option (DB → bool);
  handler : option (DB → DB)
}.

Record processor := Processor {
  db : DB;
  Clauses : list string;
  fns : list (option (DB → DB));
  callbacks : list callback
}.

(** [&callback{processor: p}] *)
Definition new_callback : callback :=
  Callback "" "" "" false false None None.

Definition set_name (v : string) (c : callback) : callback :=
  Callback v (before c) (after c) (remove c) (replace c) (match_ c) (handler c).
Definition set_before (v : string) (c : callback) : callback :=
  Callback (name c) v (after c) (remove c) (replace c) (match_ c) (handler c).
Definition set_after (v : string) (c : callback) : callback :=
  Callback (name c) (before c) v (remove c) (replace c) (match_ c) (handler c).
Definition set_remove (v : bool) (c : callback) : callback :=
  Callback (name c) (before c) (after c) v (replace c) (match_ c) (handler c).
Definition set_replace (v : bool) (c : callback) : callback :=
  Callback (name c) (before c) (after c) (remove c) v (match_ c) (handler c).
Definition set_match (v : option (DB → bool)) (c : callback) : callback :=
  Callback (name c) (before c) (after c) (remove c) (replace c) v (handler c).
Definition set_handler (v : option (DB → DB)) (c : callback) : callback :=
  Callback (name c) (before c) (after c) (remove c) (replace c) (match_ c) v.

Definition set_callbacks (v : list callback) (p : processor) : processor :=
  Processor (db p) (Clauses p) (fns p) v.

(** [for i := len(strs) - 1; i >= 0; i-- { if strs[i] == str { return i } }; return -1] *)
Fixpoint getRIndex_loop (strs : list string) (str : string) (n : nat) : Z :=
  match n with
  | 0 => (-1)%Z
  | S i =>
      match strs !! i with
      | Some s => if String.eqb s str then Z.of_nat i else getRIndex_loop strs str i
      | None => getRIndex_loop strs str i
      end
  end.

Definition getRIndex (strs : list string) (str : string) : Z :=
  getRIndex_loop strs str (length strs).

(** [Get]: the handler of the last entry called [name] that is not a
    removal marker; [nil] when there is none. *)
Fixpoint Get_loop (cbs : list callback) (nm : string) (n : nat) : option (DB → DB) :=
  match n with
  | 0 => None
  | S i =>
      match cbs !! i with
      | Some v => if String.eqb (name v) nm && negb (remove v)
                  then handler v else Get_loop cbs nm i
      | None => Get_loop cbs nm i
      end
  end.

Definition Get (p : processor) (nm : string) : option (DB → DB) :=
  Get_loop (callbacks p) nm (length (callbacks p)).

(** The comparison closure handed to [sort.SliceStable]: [less ci cj] is
    the closure at indices [i], [j] with [ci = cs[i]] and [cj = cs[j]]. *)
Definition less_callback (ci cj : callback) : bool :=
  if String.eqb (before cj) "*" && negb (String.eqb (before ci) "*") then true
  else if String.eqb (after cj) "*" && negb (String.eqb (after ci) "*") then true
  else false.

(** The first loop of [sortCallbacks]: collects [names] and emits the
    duplicate-name warnings. *)
Fixpoint collect_names (cs rest : list callback) (names : list string)
    (warns : list log_entry) : option (list string * list log_entry) :=
  match rest with
  | [] => Some (names, warns)
  | c :: rest' =>
      let idx := getRIndex names (name c) in
      dup ← (if (idx >? -1)%Z && negb (replace c) && negb (remove c)
             then d ← index cs idx; Some (negb (remove d))
             else Some false);
      collect_names cs rest' (names ++ [name c])
        (if dup : bool then warns ++ [Warn_duplicated (name c)] else warns)
  end.

(** The state the closure [sortCallback] works on: the callbacks behind
    [cs] (their [before]/[after] fields are written) and [sorted]. *)
Definition sort_state : Type := list callback * list string.

Definition conflict (nm target : string) : string :=
  "conflicting callback " +:+ nm +:+ " with before " +:+ target.

(** [if c.before != "" { ... }] *)
Definition before_branch (names : list string) (c : callback) (st : sort_state)
    : option (sort_state + string) :=
  let '(cs, sorted) := st in
  if negb (String.eqb (before c) "") then
    if String.eqb (before c) "*" && (0 <? length sorted) then
      if (getRIndex sorted (name c) =? -1)%Z
      then Some (inl (cs, [name c] ++ sorted))
      else Some (inl st)
    else
      let sortedIdx := getRIndex sorted (before c) in
      if negb (sortedIdx =? -1)%Z then
        let curIdx := getRIndex sorted (name c) in
        if (curIdx =? -1)%Z then
          Some (inl (cs, take (Z.to_nat sortedIdx) sorted
                         ++ ([name c] ++ drop (Z.to_nat sortedIdx) sorted)))
        else if (curIdx >? sortedIdx)%Z then
          Some (inr (conflict (name c) (before c)))
        else Some (inl st)
      else
        let idx := getRIndex names (before c) in
        if negb (idx =? -1)%Z then
          cs' ← update (set_after (name c)) idx cs; Some (inl (cs', sorted))
        else Some (inl st)
  else Some (inl st).

(** What [if c.after != "" { ... }] does before it recurses. *)
Inductive after_step :=
  | AfterDone (st : sort_state)
  | AfterFail (err : string)
  | AfterRecurse (idx : nat) (st : sort_state).

Definition after_branch (names : list string) (c : callback) (st : sort_state)
    : option after_step :=
  let '(cs, sorted) := st in
  if negb (String.eqb (after c) "") then
    if String.eqb (after c) "*" && (0 <? length sorted) then
      if (getRIndex sorted (name c) =? -1)%Z
      then Some (AfterDone (cs, sorted ++ [name c]))
      else Some (AfterDone st)
    else
      let sortedIdx := getRIndex sorted (after c) in
      if negb (sortedIdx =? -1)%Z then
        let curIdx := getRIndex sorted (name c) in
        if (curIdx =? -1)%Z then Some (AfterDone (cs, sorted ++ [name c]))
        else if (curIdx <? sortedIdx)%Z then
          Some (AfterFail (conflict (name c) (after c)))
        else Some (AfterDone st)
      else
        let idx := getRIndex names (after c) in
        if negb (idx =? -1)%Z then
          a ← index cs idx;
          cs' ← (if String.eqb (before a) ""
                 then update (set_before (name c)) idx cs else Some cs);
          Some (AfterRecurse (Z.to_nat idx) (cs', sorted))
        else Some (AfterDone st)
  else Some (AfterDone st).

(** [if getRIndex(sorted, c.name) == -1 { sorted = append(sorted, c.name) }] *)
Definition append_unsorted (c : callback) (st : sort_state) : sort_state :=
  let '(cs, sorted) := st in
  if (getRIndex sorted (name c) =? -1)%Z then (cs, sorted ++ [name c]) else st.

(** The closure [sortCallback]; [ci] is the position in [cs] of the
    callback it is applied to.  The result carries the state left behind
    and the returned [error]. *)
Fixpoint sortCallback (fuel : nat) (names : list string) (ci : nat)
    (st : sort_state) : option (sort_state * option string) :=
  match fuel with
  | 0 => None
  | S fuel' =>
      c ← st.1 !! ci;
      r ← before_branch names c st;
      match r with
      | inr e => Some (st, Some e)
      | inl st1 =>
          c1 ← st1.1 !! ci;
          r ← after_branch names c1 st1;
          match r with
          | AfterFail e => Some (st1, Some e)
          | AfterDone st2 => Some (append_unsorted c1 st2, None)
          | AfterRecurse idx st2 =>
              '(st3, err) ← sortCallback fuel' names idx st2;
              match err with
              | Some e => Some (st3, Some e)
              | None =>
                  '(st4, err) ← sortCallback fuel' names ci st3;
                  match err with
                  | Some e => Some (st4, Some e)
                  | None =>
                      c4 ← st4.1 !! ci;
                      Some (append_unsorted c4 st4, None)
                  end
              end
          end
      end
  end.

(** [for _, c := range cs { if err = sortCallback(c); err != nil { return } }] *)
Fixpoint sort_each (fuel : nat) (names : list string) (cis : list nat)
    (st : sort_state) : option (sort_state * option string) :=
  match cis with
  | [] => Some (st, None)
  | ci :: rest =>
      '(st', err) ← sortCallback fuel names ci st;
      match err with
      | Some e => Some (st', Some e)
      | None => sort_each fuel names rest st'
      end
  end.

(** [for _, name := range sorted { if idx := getRIndex(names, name);
    !cs[idx].remove { fns = append(fns, cs[idx].handler) } }] *)
Fixpoint collect_fns (cs : list callback) (names sorted : list string)
    (fns : list (option (DB → DB))) : option (list (option (DB → DB))) :=
  match sorted with
  | [] => Some fns
  | nm :: rest =>
      c ← index cs (getRIndex names nm);
      collect_fns cs names rest (if remove c then fns else fns ++ [handler c])
  end.

(** [sortCallbacks]: the slice as it is left behind (sorted in place,
    fields rewritten), the warnings, and the two results [fns], [err]. *)
Definition sortCallbacks (fuel : nat) (cs0 : list callback)
    : option (list callback * list log_entry
              * list (option (DB → DB)) * option string) :=
  let cs := SliceStable less_callback cs0 in
  '(names, warns) ← collect_names cs cs [] [];
  '((cs', sorted), err) ← sort_each fuel names (seq 0 (length cs)) (cs, []);
  match err with
  | Some e => Some (cs', warns, [], Some e)
  | None => fns ← collect_fns cs' names sorted []; Some (cs', warns, fns, None)
  end.

Definition removeCallbacks (cs : list callback) (nameMap : gmap string bool)
    : list callback :=
  foldl (λ acc c, if default false (nameMap !! name c) then acc else acc ++ [c])
    [] cs.

Definition match_ok (d : DB) (c : callback) : bool :=
  match match_ c with
  | None => true
  | Some m => m d
  end.

(** The first loop of [compile]. *)
Definition compile_scan (d : DB) (cbs : list callback)
    : list callback * gmap string bool :=
  foldl (λ '(acc, removedMap) c,
           (if match_ok d c then acc ++ [c] else acc,
            if remove c then <[name c := true]> removedMap else removedMap))
    ([], ∅) cbs.

Definition compile (fuel : nat) (p : processor)
    : option (processor * list log_entry * option string) :=
  let '(cbs, removedMap) := compile_scan (db p) (callbacks p) in
  let cbs := if 0 <? size removedMap then removeCallbacks cbs removedMap else cbs in
  '(cs', warns, fns', err) ← sortCallbacks fuel cbs;
  let p' := Processor (db p) (Clauses p) fns' cs' in
  match err with
  | Some e => Some (p', warns ++ [Error_compile e], Some e)
  | None => Some (p', warns, None)
  end.

(** *** Registration API *)

Definition processor_Before (nm : string) : callback := set_before nm new_callback.
Definition processor_After (nm : string) : callback := set_after nm new_callback.
Definition processor_Match (fc : option (DB → bool)) : callback :=
  set_match fc new_callback.

Definition callback_Before (nm : string) (c : callback) : callback := set_before nm c.
Definition callback_After (nm : string) (c : callback) : callback := set_after nm c.

Definition callback_Register (fuel : nat) (c : callback) (nm : string)
    (fn : option (DB → DB)) (p : processor)
    : option (processor * list log_entry * option string) :=
  let c := set_handler fn (set_name nm c) in
  compile fuel (set_callbacks (callbacks p ++ [c]) p).

Definition callback_Remove (fuel : nat) (c : callback) (nm : string) (p : processor)
    : option (processor * list log_entry * option string) :=
  let c := set_remove true (set_name nm c) in
  '(p', log, err) ← compile fuel (set_callbacks (callbacks p ++ [c]) p);
  Some (p', Warn_removing nm :: log, err).

Definition callback_Replace (fuel : nat) (c : callback) (nm : string)
    (fn : option (DB → DB)) (p : processor)
    : option (processor * list log_entry * option string) :=
  let c := set_replace true (set_handler fn (set_name nm c)) in
  '(p', log, err) ← compile fuel (set_callbacks (callbacks p ++ [c]) p);
  Some (p', Info_replacing nm :: log, err).

Definition Register (fuel : nat) (nm : string) (fn : option (DB → DB)) :=
  callback_Register fuel new_callback nm fn.
Definition Remove (fuel : nat) (nm : string) := callback_Remove fuel new_callback nm.
Definition Replace (fuel : nat) (nm : string) (fn : option (DB → DB)) :=
  callback_Replace fuel new_callback nm fn.
End Callbacks.

Arguments callback : clear implicits.
Arguments processor : clear implicits.
Arguments sort_state : clear implicits.

(** ** Notions used in the statements *)

Section Notions.
Context {DB : Type}.
Implicit Types (c : callback DB) (cs : list (callback DB)) (p : processor DB).
Implicit Types st : sort_state DB.

(** What a registration fixes for good: everything but the two ordering
    fields. *)
Definition core c : string * bool * bool * option (DB → bool) * option (DB → DB) :=
  (name c, remove c, replace c, match_ c, handler c).

(** How [sortCallback] may move its state: the callbacks keep their
    position and their [core]; [sorted] only gains names of callbacks and
    stays duplicate-free. *)
Definition evolves st st' : Prop :=
  core <$> st'.1 = core <$> st.1 ∧
  (∀ x, x ∈ st.2 → x ∈ st'.2) ∧
  (∀ x, x ∈ st'.2 → x ∈ st.2 ∨ x ∈ name <$> st.1) ∧
  (NoDup st.2 → NoDup st'.2).

(** A ranking of names that every declared constraint between two
    registered names respects: a [before] target ranks above the step, an
    [after] target below it. *)
Definition respects (rank : string → nat) (names : list string) cs : Prop :=
  ∀ c, c ∈ cs →
    (before c ∈ names → rank (name c) < rank (before c)) ∧
    (after c ∈ names → rank (after c) < rank (name c)).

(** The declared named constraints can all be met at once. *)
Definition no_contradiction cs : Prop :=
  ∃ rank, respects rank (name <$> cs) cs.

(** The names that carry a removal marker in the registry. *)
Definition removed_names cs : list string :=
  name <$> filter (λ c, remove c = true) cs.

(** The candidate set of a compilation: the registered steps whose
    condition holds and whose name carries no removal marker, in
    registration order. *)
Definition candidates p : list (callback DB) :=
  filter (λ c, match_ok (db p) c = true ∧ name c ∉ removed_names (callbacks p))
    (callbacks p).

(** The processor [initializeCallbacks] creates for a stage. *)
Definition initial (d : DB) : processor DB := Processor d [] [] [].

(** The entry that [p.Register(name, fn)] appends. *)
Definition plain (r : string * option (DB → DB)) : callback DB :=
  set_handler r.2 (set_name r.1 new_callback).

(** [p.Register] called for each pair in turn; the log and the returned
    errors are collected. *)
Fixpoint register_all (fuel : nat) (regs : list (string * option (DB → DB))) p
    : option (processor DB * list log_entry * list (option string)) :=
  match regs with
  | [] => Some (p, [], [])
  | r :: rest =>
      '(p1, log1, e) ← Register fuel r.1 r.2 p;
      '(p2, log2, es) ← register_all fuel rest p1;
      Some (p2, log1 ++ log2, e :: es)
  end.

(** A step without ordering constraint, condition or removal mark. *)
Definition unconstrained c : Prop :=
  before c = "" ∧ after c = "" ∧ remove c = false ∧ match_ c = None.

(** The shapes of a step that declares at most one wildcard anchor and
    names no other step. *)
Definition free_step c : Prop := before c = "" ∧ after c = "".
Definition first_step c : Prop := before c = "*" ∧ after c = "".
Definition last_step c : Prop := before c = "" ∧ after c = "*".

Global Instance free_step_dec c : Decision (free_step c).
Proof. unfold free_step. apply _. Defined.
Global Instance first_step_dec c : Decision (first_step c).
Proof. unfold first_step. apply _. Defined.
Global Instance last_step_dec c : Decision (last_step c).
Proof. unfold last_step. apply _. Defined.

(** A step that declares no wildcard anchor. *)
Definition no_wildcard c : Prop := before c ≠ "*" ∧ after c ≠ "*".

Global Instance no_wildcard_dec c : Decision (no_wildcard c).
Proof. unfold no_wildcard. apply _. Defined.

Definition anchored_only c : Prop :=
  (free_step c ∨ first_step c ∨ last_step c) ∧ remove c = false ∧ match_ c = None.

(** Where [sortCallback] puts such a step: at the front when it declares
    [before = "*"], at the back otherwise, unless its name is placed
    already. *)
Definition place (sorted : list string) c : list string :=
  if decide (name c ∈ sorted) then sorted
  else if decide (first_step c) then name c :: sorted
  else sorted ++ [name c].

(** The three ways to register a step that names no other step:
    [p.Register], [p.Before("*").Register], [p.After("*").Register]. *)
Inductive anchor := Free | First | Last.

Global Instance anchor_eq_dec : EqDecision anchor.
Proof. solve_decision. Defined.

Definition anchored (a : anchor) : callback DB :=
  match a with
  | Free => new_callback
  | First => processor_Before "*"
  | Last => processor_After "*"
  end.

(** The entry such a registration appends. *)
Definition entry (r : anchor * string * option (DB → DB)) : callback DB :=
  set_handler r.2 (set_name r.1.2 (anchored r.1.1)).

(** The actions registered with a given anchor, in registration order. *)
Definition actions_of (a : anchor) (regs : list (anchor * string * option (DB → DB)))
    : list (option (DB → DB)) :=
  snd <$> filter (λ r, r.1.1 = a) regs.

Fixpoint register_anchored (fuel : nat)
    (regs : list (anchor * string * option (DB → DB))) p
    : option (processor DB * list log_entry * list (option string)) :=
  match regs with
  | [] => Some (p, [], [])
  | r :: rest =>
      '(p1, log1, e) ← callback_Register fuel (anchored r.1.1) r.1.2 r.2 p;
      '(p2, log2, es) ← register_anchored fuel rest p1;
      Some (p2, log1 ++ log2, e :: es)
  end.

(** The registry holds the entries of [regs], each class of step in
    registration order. *)
Definition registry_of (regs : list (anchor * string * option (DB → DB))) cs : Prop :=
  cs ≡ₚ entry <$> regs ∧
  filter first_step cs = filter first_step (entry <$> regs) ∧
  filter free_step cs = filter free_step (entry <$> regs) ∧
  filter last_step cs = filter last_step (entry <$> regs).

(** How many entries of [names] are not yet in [sorted]. *)
Definition unsorted (names sorted : list string) : nat :=
  length (filter (λ nm, nm ∉ sorted) names).
End Notions.

(** ** The execution harness

    [Execute] works on one [*DB] handle and on the [*Statement] it points
    to, whose embedded [DB] is that handle again; both are modelled as one
    record holding the fields [Execute] reads or writes.  Everything
    [Execute] calls outside this file is a parameter: [executeScopes], the
    [StatementModifier] assertion on the destination, [Statement.Parse],
    [errors.Is] against [ErrUnsupportedDataType], [AddError], and the
    [reflect] walk through the destination.  [Logger.Trace] is modelled by
    the entry it is called with. *)
Module Harness.
Section Execute.
Context {Value Scope Expr Err RValue Ext : Type}.

Record DB := mkDB {
  scopes : list Scope;
  BuildClauses : list string;
  Dest : option Value;
  Model : option Value;
  Table : string;
  TableExpr : option Expr;
  SQL : string;
  Vars : list Value;
  ReflectValue : option RValue;
  Error : option Err;
  RowsAffected : Z;
  DryRun : bool;
  traces : list (string * list Value * Z * option Err);
  ext : Ext
}.

Definition set_BuildClauses (v : list string) (d : DB) : DB :=
  mkDB (scopes d) v (Dest d) (Model d) (Table d) (TableExpr d) (SQL d) (Vars d)
    (ReflectValue d) (Error d) (RowsAffected d) (DryRun d) (traces d) (ext d).
Definition set_Dest (v : option Value) (d : DB) : DB :=
  mkDB (scopes d) (BuildClauses d) v (Model d) (Table d) (TableExpr d) (SQL d) (Vars d)
    (ReflectValue d) (Error d) (RowsAffected d) (DryRun d) (traces d) (ext d).
Definition set_Model (v : option Value) (d : DB) : DB :=
  mkDB (scopes d) (BuildClauses d) (Dest d) v (Table d) (TableExpr d) (SQL d) (Vars d)
    (ReflectValue d) (Error d) (RowsAffected d) (DryRun d) (traces d) (ext d).
Definition set_SQL (v : string) (d : DB) : DB :=
  mkDB (scopes d) (BuildClauses d) (Dest d) (Model d) (Table d) (TableExpr d) v (Vars d)
    (ReflectValue d) (Error d) (RowsAffected d) (DryRun d) (traces d) (ext d).
Definition set_Vars (v : list Value) (d : DB) : DB :=
  mkDB (scopes d) (BuildClauses d) (Dest d) (Model d) (Table d) (TableExpr d) (SQL d) v
    (ReflectValue d) (Error d) (RowsAffected d) (DryRun d) (traces d) (ext d).
Definition set_ReflectValue (v : option RValue) (d : DB) : DB :=
  mkDB (scopes d) (BuildClauses d) (Dest d) (Model d) (Table d) (TableExpr d) (SQL d)
    (Vars d) v (Error d) (RowsAffected d) (DryRun d) (traces d) (ext d).
Definition set_traces (v : list (string * list Value * Z * option Err)) (d : DB) : DB :=
  mkDB (scopes d) (BuildClauses d) (Dest d) (Model d) (Table d) (TableExpr d) (SQL d)
    (Vars d) (ReflectValue d) (Error d) (RowsAffected d) (DryRun d) v (ext d).

Context (executeScopes : DB → DB).
Context (StatementModifier : Value → option (DB → DB)).
Context (Parse : Value → DB → DB * option Err).
Context (is_ErrUnsupportedDataType : Err → bool).
Context (table_not_set : Err → Err).
Context (ErrInvalidValue : Err).
Context (AddError : Err → DB → DB).
Context (indirect : Value → RValue).
Context (IsValid : RValue → bool).

(** [for len(db.Statement.scopes) > 0 { db = db.executeScopes() }] *)
Fixpoint call_scopes (fuel : nat) (d : DB) : option DB :=
  match fuel with
  | 0 => None
  | S fuel' =>
      if 0 <? length (scopes d) then call_scopes fuel' (executeScopes d) else Some d
  end.

(** [if len(stmt.BuildClauses) == 0 { stmt.BuildClauses = p.Clauses;
    resetBuildClauses = true }] *)
Definition adopt_clauses (p : processor DB) (d : DB) : DB * bool :=
  if length (BuildClauses d) =? 0
  then (set_BuildClauses (Clauses p) d, true) else (d, false).

Definition modify_statement (d : DB) : DB :=
  match Dest d with
  | Some v => match StatementModifier v with Some f => f d | None => d end
  | None => d
  end.

(** "assign model values" *)
Definition assign_model (d : DB) : DB :=
  match Model d with
  | None => set_Model (Dest d) d
  | Some _ => match Dest d with None => set_Dest (Model d) d | Some _ => d end
  end.

(** "parse model values" *)
Definition parse_model (d : DB) : DB :=
  match Model d with
  | None => d
  | Some m =>
      let '(d, err) := Parse m d in
      match err with
      | None => d
      | Some e =>
          let table_unset :=
            String.eqb (Table d) "" && bool_decide (TableExpr d = None) in
          if negb (is_ErrUnsupportedDataType e)
             || (table_unset && (String.length (SQL d) =? 0))
          then if is_ErrUnsupportedDataType e && table_unset
               then AddError (table_not_set e) d
               else AddError e d
          else d
      end
  end.

(** "assign stmt.ReflectValue" *)
Definition assign_ReflectValue (d : DB) : DB :=
  match Dest d with
  | None => d
  | Some v =>
      let rv := indirect v in
      let d := set_ReflectValue (Some rv) d in
      if negb (IsValid rv) then AddError ErrInvalidValue d else d
  end.

(** [for _, f := range p.fns { f(db) }] *)
Fixpoint call_fns (fs : list (option (DB → DB))) (d : DB) : option DB :=
  match fs with
  | [] => Some d
  | Some f :: fs' => call_fns fs' (f d)
  | None :: _ => None
  end.

(** [if stmt.SQL.Len() > 0 { db.Logger.Trace(...) }] *)
Definition trace (d : DB) : DB :=
  if 0 <? String.length (SQL d)
  then set_traces (traces d ++ [(SQL d, Vars d, RowsAffected d, Error d)]) d
  else d.

(** [if !stmt.DB.DryRun { stmt.SQL.Reset(); stmt.Vars = nil }] *)
Definition reset_statement (d : DB) : DB :=
  if negb (DryRun d) then set_Vars [] (set_SQL "" d) else d.

(** [if resetBuildClauses { stmt.BuildClauses = nil }] *)
Definition restore_clauses (resetBuildClauses : bool) (d : DB) : DB :=
  if resetBuildClauses then set_BuildClauses [] d else d.

(** The context as the callbacks and the tracer leave it, with the
    [resetBuildClauses] flag. *)
Definition Execute_run (fuel : nat) (p : processor DB) (d : DB) : option (DB * bool) :=
  d ← call_scopes fuel d;
  let '(d, resetBuildClauses) := adopt_clauses p d in
  let d := modify_statement d in
  let d := assign_model d in
  let d := parse_model d in
  let d := assign_ReflectValue d in
  d ← call_fns (fns p) d;
  Some (trace d, resetBuildClauses).

Definition Execute (fuel : nat) (p : processor DB) (d : DB) : option DB :=
  '(d, resetBuildClauses) ← Execute_run fuel p d;
  Some (restore_clauses resetBuildClauses (reset_statement d)).
End Execute.

(** A context with nothing pending and the dry-run flag off, and a callback
    that writes one statement with one parameter. *)
Definition example_context : @DB nat unit unit unit nat unit :=
  mkDB [] [] None None "" None "" [] None None 0 false [] tt.

Definition example_callback (d : @DB nat unit unit unit nat unit)
    : @DB nat unit unit unit nat unit :=
  set_Vars [7] (set_SQL "SELECT ?" d).
End Harness.

(** ** The WHERE clause of [clause/where.go]

    An [Expression] is one of the condition types of this file, an [Expr]
    or a [NamedExpr] (the two types [buildExprs] switches on; their SQL text
    is the field the code reads), or some other implementation of the
    interface.  Slices hold non-nil expressions.  The [Build] methods of
    [Expr], [NamedExpr] and of the other implementations are declared
    elsewhere, as is every [NegationBuild] method: such a call is recorded as
    one entry of the sequence of calls the builder receives, next to the
    [WriteByte] and [WriteString] calls of this file.  No code of this file
    reads the builder, so that sequence is all it does.  Of the five types
    named here none has a [NegationBuild] method; for the others
    [negation] tells. *)
Module Where.
Import Stdlib.Strings.Ascii.

Section Expressions.
Context {Vars Other : Type}.

#[warnings="-register-all"] Inductive Expression :=
  | Expr (SQL : string) (vars : Vars)
  | NamedExpr (SQL : string) (vars : Vars)
  | AndConditions (Exprs : list Expression)
  | OrConditions (Exprs : list Expression)
  | NotConditions (Exprs : list Expression)
  | OtherExpression (x : Other).

(** What the builder receives. *)
Inductive call :=
  | WriteByte (c : Ascii.ascii)
  | WriteString (s : string)
  | Build_of (e : Expression)
  | NegationBuild_of (e : Expression).

Definition AndWithSpace : string := " AND ".
Definition OrWithSpace : string := " OR ".

(** [c.(NegationExpressionBuilder)] succeeds. *)
Context (negation : Other → bool).
(** [strings.Contains(sql, AndWithSpace) || strings.Contains(sql, OrWithSpace)]
    for [sql := strings.ToUpper(e.SQL)]. *)
Context (contains_join : string → bool).

Definition NegationExpressionBuilder (e : Expression) : bool :=
  match e with
  | OtherExpression x => negation x
  | _ => false
  end.

(** [v, ok := expr.(OrConditions); ok && len(v.Exprs) == 1] *)
Definition single_or (e : Expression) : bool :=
  match e with
  | OrConditions es => length es =? 1
  | _ => false
  end.

(** The [switch v := expr.(type)] of [buildExprs]: the value it leaves in
    [wrapInParentheses], which is [false] when an iteration starts. *)
Definition wrap_of (e : Expression) : bool :=
  match e with
  | OrConditions [Expr sql _] => contains_join sql
  | AndConditions [Expr sql _] => contains_join sql
  | Expr sql _ => contains_join sql
  | NamedExpr sql _ => contains_join sql
  | _ => false
  end.

(** [e, wrapInParentheses := c.(Expr); if wrapInParentheses { ... }] of
    [NotConditions.Build]. *)
Definition wrap_expr (e : Expression) : bool :=
  match e with
  | Expr sql _ => contains_join sql
  | _ => false
  end.

Section loops.
(** [expr.Build], for the expressions of the slice at hand. *)
Context (Build : Expression → list call).

(** The loop of [buildExprs], from index [idx] on; [many] is
    [len(exprs) > 1]. *)
Fixpoint buildExprs_from (many : bool) (joinCond : string) (idx : nat)
    (exprs : list Expression) : list call :=
  match exprs with
  | [] => []
  | expr :: rest =>
      (if 0 <? idx
       then [WriteString (if single_or expr then OrWithSpace else joinCond)]
       else [])
      ++ (if many && wrap_of expr
          then [WriteByte "("%char] ++ Build expr ++ [WriteByte ")"%char]
          else Build expr)
      ++ buildExprs_from many joinCond (S idx) rest
  end.

Definition buildExprs_with (exprs : list Expression) (joinCond : string) : list call :=
  buildExprs_from (1 <? length exprs) joinCond 0 exprs.

(** The loop of [NotConditions.Build] when some expression is a
    [NegationExpressionBuilder]. *)
Fixpoint negation_loop (idx : nat) (exprs : list Expression) : list call :=
  match exprs with
  | [] => []
  | c :: rest =>
      (if 0 <? idx then [WriteString AndWithSpace] else [])
      ++ (if NegationExpressionBuilder c then [NegationBuild_of c]
          else [WriteString "NOT "]
               ++ (if wrap_expr c then [WriteByte "("%char] else [])
               ++ Build c
               ++ (if wrap_expr c then [WriteByte ")"%char] else []))
      ++ negation_loop (S idx) rest
  end.

(** The loop of [NotConditions.Build] otherwise. *)
Fixpoint plain_loop (idx : nat) (exprs : list Expression) : list call :=
  match exprs with
  | [] => []
  | c :: rest =>
      (if 0 <? idx
       then [WriteString (match c with
                          | OrConditions _ => OrWithSpace
                          | _ => AndWithSpace
                          end)]
       else [])
      ++ (if wrap_expr c then [WriteByte "("%char] else [])
      ++ Build c
      ++ (if wrap_expr c then [WriteByte ")"%char] else [])
      ++ plain_loop (S idx) rest
  end.
End loops.

(** [expr.Build(builder)] *)
Fixpoint Build (e : Expression) : list call :=
  match e with
  | AndConditions exprs =>
      if 1 <? length exprs
      then [WriteByte "("%char] ++ buildExprs_with Build exprs AndWithSpace ++ [WriteByte ")"%char]
      else buildExprs_with Build exprs AndWithSpace
  | OrConditions exprs =>
      if 1 <? length exprs
      then [WriteByte "("%char] ++ buildExprs_with Build exprs OrWithSpace ++ [WriteByte ")"%char]
      else buildExprs_with Build exprs OrWithSpace
  | NotConditions exprs =>
      if existsb NegationExpressionBuilder exprs
      then (if 1 <? length exprs then [WriteByte "("%char] else [])
           ++ negation_loop Build 0 exprs
           ++ (if 1 <? length exprs then [WriteByte ")"%char] else [])
      else [WriteString "NOT "]
           ++ (if 1 <? length exprs then [WriteByte "("%char] else [])
           ++ plain_loop Build 0 exprs
           ++ (if 1 <? length exprs then [WriteByte ")"%char] else [])
  | _ => [Build_of e]
  end.

Definition buildExprs (exprs : list Expression) (joinCond : string) : list call :=
  buildExprs_with Build exprs joinCond.

(** [if v, ok := expr.(OrConditions); !ok || len(v.Exprs) > 1] *)
Definition leads (e : Expression) : bool :=
  match e with
  | OrConditions es => 1 <? length es
  | _ => true
  end.

(** The position at which the loop of [Where.Build] breaks. *)
Fixpoint first_lead (idx : nat) (exprs : list Expression) : option nat :=
  match exprs with
  | [] => None
  | expr :: rest => if leads expr then Some idx else first_lead (S idx) rest
  end.

(** [where.Exprs[0], where.Exprs[idx] = where.Exprs[idx], where.Exprs[0]] *)
Definition swap_first (idx : nat) (exprs : list Expression) : list Expression :=
  match exprs !! 0, exprs !! idx with
  | Some a, Some b => <[idx := a]> (<[0 := b]> exprs)
  | _, _ => exprs
  end.

(** The slice [Where.Build] hands to [buildExprs]; the exchange is made in
    place, in the backing array of the slice it has selected. *)
Definition Where_arrange (Exprs : list Expression) : list Expression :=
  let exprs := match Exprs with
               | [AndConditions es] => es
               | _ => Exprs
               end in
  match first_lead 0 exprs with
  | Some idx => if negb (idx =? 0) then swap_first idx exprs else exprs
  | None => exprs
  end.

Definition Where_Build (Exprs : list Expression) : list call :=
  buildExprs (Where_arrange Exprs) AndWithSpace.

Definition Where_Name : string := "WHERE".

(** [clause.Expression]: a [Where], another clause expression, or nil. *)
Inductive clause_expression {Clause : Type} :=
  | IsWhere (Exprs : list Expression)
  | IsOther (x : Clause).

(** [MergeClause]: the [Expression] field of the clause afterwards. *)
Definition MergeClause {Clause : Type} (Exprs : list Expression)
    (clause : option (@clause_expression Clause)) : option (@clause_expression Clause) :=
  match clause with
  | Some (IsWhere w) => Some (IsWhere (w ++ Exprs))
  | _ => Some (IsWhere Exprs)
  end.

(** [And], [Or], [Not]; [nil] is [None]. *)
Definition And (exprs : list Expression) : option Expression :=
  match exprs with
  | [] => None
  | [e] => match e with
           | OrConditions _ => Some (AndConditions exprs)
           | _ => Some e
           end
  | _ => Some (AndConditions exprs)
  end.

Definition Or (exprs : list Expression) : option Expression :=
  match exprs with
  | [] => None
  | _ => Some (OrConditions exprs)
  end.

Definition Not (exprs : list Expression) : option Expression :=
  match exprs with
  | [] => None
  | [AndConditions es] => Some (NotConditions es)
  | _ => Some (NotConditions exprs)
  end.

(** The expressions of a tree whose [Build] is declared elsewhere, from left
    to right. *)
Fixpoint leaves (e : Expression) : list Expression :=
  match e with
  | AndConditions es | OrConditions es | NotConditions es => flat_map leaves es
  | _ => [e]
  end.

(** The expressions the builder was handed to, in the order of the calls. *)
Definition built (cs : list call) : list Expression :=
  omap (λ c, match c with
             | Build_of e | NegationBuild_of e => Some e
             | _ => None
             end) cs.

(** The parentheses open after the calls [cs], when [n] were open before;
    [None] when a closing one has no partner. *)
Fixpoint open_after (n : nat) (cs : list call) : option nat :=
  match cs with
  | [] => Some n
  | WriteByte "("%char :: rest => open_after (S n) rest
  | WriteByte ")"%char :: rest =>
      match n with
      | 0 => None
      | S m => open_after m rest
      end
  | _ :: rest => open_after n rest
  end.
End Expressions.
End Where.

(** ** The constraints of [schema/constraint.go]

    Of a [Field] the code reads the column name, the tag settings and the
    [Unique] flag; of the [Schema] the table name, the slice [Fields] and the
    map [FieldsByDBName]; the two methods of the namer are parameters.  A
    Go string is a sequence of bytes, as a [string] is.  [strings.Split] and
    [strings.Join] are written out for the separator they are called with,
    and the regular expression [^[\w-]+$] as the test it performs: at least
    one byte, each of them an ASCII letter, a digit, [_] or [-]. *)
Module Schema.
Import Stdlib.Strings.Ascii.

Record Field := mkField {
  DBName : string;
  TagSettings : gmap string string;
  Unique : bool
}.

Record Schema := mkSchema {
  Table : string;
  Fields : list Field;
  FieldsByDBName : gmap string Field
}.

Record CheckConstraint := mkCheckConstraint {
  Name : string;
  Constraint : string;
  Field_of : Field
}.

Record UniqueConstraint := mkUniqueConstraint {
  UniqueConstraint_Name : string;
  UniqueConstraint_Field : Field
}.

(** The values [Build] returns as [vars]: a [clause.Column] with its name
    or a [clause.Expr] with its SQL text. *)
Inductive var :=
  | Column (Name : string)
  | Expr (SQL : string).

Definition GetName (chk : CheckConstraint) : string := Name chk.

Definition Build (chk : CheckConstraint) : string * list var :=
  ("CONSTRAINT ? CHECK (?)", [Column (Name chk); Expr (Constraint chk)]).

Definition UniqueConstraint_GetName (uni : UniqueConstraint) : string :=
  UniqueConstraint_Name uni.

Definition UniqueConstraint_Build (uni : UniqueConstraint) : string * list var :=
  ("CONSTRAINT ? UNIQUE (?)",
   [Column (UniqueConstraint_Name uni); Column (DBName (UniqueConstraint_Field uni))]).

(** [strings.Split(s, ",")] *)
Fixpoint Split (s : string) : list string :=
  match s with
  | EmptyString => [EmptyString]
  | String c s' =>
      if Ascii.eqb c ","%char then EmptyString :: Split s'
      else match Split s' with
           | x :: rest => String c x :: rest
           | [] => [String c EmptyString]
           end
  end.

(** [strings.Join(elems, ",")] *)
Fixpoint Join (elems : list string) : string :=
  match elems with
  | [] => EmptyString
  | [x] => x
  | x :: rest => x +:+ String ","%char (Join rest)
  end.

(** A byte of the class [[\w-]]. *)
Definition word_or_midline (c : ascii) : bool :=
  let n := nat_of_ascii c in
  ((48 <=? n) && (n <=? 57)) || ((65 <=? n) && (n <=? 90))
  || ((97 <=? n) && (n <=? 122)) || (n =? 95) || (n =? 45).

(** [regEnLetterAndMidline.MatchString(s)] *)
Definition regEnLetterAndMidline (s : string) : bool :=
  negb (String.eqb s EmptyString) && forallb word_or_midline (String.list_ascii_of_string s).

Section Parse.
(** [schema.namer.CheckerName] and [schema.namer.UniqueName] *)
Context (CheckerName UniqueName : string → string → string).

(** The body of the loop of [ParseCheckConstraints] for one field: the
    constraint it stores, under the constraint's name, if any.  The outer
    [None] is an index out of range. *)
Definition check_of (schema : Schema) (field : Field)
    : option (option CheckConstraint) :=
  let chk := default EmptyString (TagSettings field !! "CHECK") in
  if negb (String.eqb chk EmptyString) then
    let names := Split chk in
    n0 ← names !! 0;
    if (1 <? length names) && regEnLetterAndMidline n0
    then Some (Some (mkCheckConstraint n0 (Join (drop 1 names)) field))
    else
      let chk := if String.eqb n0 EmptyString then Join (drop 1 names) else chk in
      let name := CheckerName (Table schema) (DBName field) in
      Some (Some (mkCheckConstraint name chk field))
  else Some None.

(** [ParseCheckConstraints]; [order] lists the values of
    [schema.FieldsByDBName] in the order in which the [range] over the map
    visits them, which Go leaves open. *)
Fixpoint ParseCheckConstraints_loop (schema : Schema) (order : list Field)
    (checks : gmap string CheckConstraint) : option (gmap string CheckConstraint) :=
  match order with
  | [] => Some checks
  | field :: rest =>
      r ← check_of schema field;
      ParseCheckConstraints_loop schema rest
        (match r with
         | Some chk => <[Name chk := chk]> checks
         | None => checks
         end)
  end.

Definition ParseCheckConstraints (schema : Schema) (order : list Field)
    : option (gmap string CheckConstraint) :=
  ParseCheckConstraints_loop schema order ∅.

(** An order in which the map can be visited. *)
Definition visits (schema : Schema) (order : list Field) : Prop :=
  order ≡ₚ (map_to_list (FieldsByDBName schema)).*2.

Definition ParseUniqueConstraints (schema : Schema) : gmap string UniqueConstraint :=
  foldl (λ uniques field,
           if Unique field
           then let name := UniqueName (Table schema) (DBName field) in
                <[name := mkUniqueConstraint name field]> uniques
           else uniques)
    ∅ (Fields schema).
End Parse.
End Schema.

(** ** Proof automation *)

(** Evaluation of the model on a registry written out element by element,
    with symbolic names. *)
Ltac evaluate :=
  repeat (progress (cbn; simpl; rewrite ?String.eqb_refl)).

Ltac each_callback :=
  simpl; repeat first [apply Forall_nil_2 | apply Forall_cons_2; [by repeat split|]].

(** * Facts about the embedding *)

(** ** [sort.SliceStable] permutes, and leaves an ordered slice alone *)
Section stable_sort_facts.
Context {A : Type} (less : A → A → bool).
Implicit Types data l : list A.

Lemma Swap_perm data i j : Swap data i j ≡ₚ data.
Proof.
  unfold Swap. destruct (data !! i) eqn:Hi, (data !! j) eqn:Hj; try done.
  by apply Permutation_insert_swap.
Qed.

Lemma foldl_perm {B} (f : list A → B → list A) (xs : list B) data :
  (∀ d x, f d x ≡ₚ d) → foldl f data xs ≡ₚ data.
Proof.
  intros Hf. revert data. induction xs as [|x xs IH]; intros data; simpl; [done|].
  by rewrite IH.
Qed.

Lemma insertion_inner_perm data a j : insertion_inner less data a j ≡ₚ data.
Proof.
  revert data. induction j as [|j IH]; intros data; simpl; [done|].
  destruct (_ && _); [|done]. by rewrite IH, Swap_perm.
Qed.

Lemma insertionSort_perm data a b : insertionSort less data a b ≡ₚ data.
Proof. apply foldl_perm. intros. apply insertion_inner_perm. Qed.

Lemma swapRange_perm data a b n : swapRange data a b n ≡ₚ data.
Proof. apply foldl_perm. intros. apply Swap_perm. Qed.

Lemma rotate_perm data a m b : rotate data a m b ≡ₚ data.
Proof.
  unfold rotate. generalize (b - a) (m - a) (b - m). intros k. revert data.
  induction k as [|k IH]; intros data i j; simpl; [done|].
  destruct (i =? j); [apply swapRange_perm|].
  destruct (j <? i); by rewrite IH, swapRange_perm.
Qed.

Lemma symMerge_perm k data a m b : symMerge less k data a m b ≡ₚ data.
Proof.
  revert data a m b. induction k as [|k IH]; intros data a m b; [done|].
  cbn [symMerge].
  destruct (m - a =? 1); [apply foldl_perm; intros; apply Swap_perm|].
  destruct (b - m =? 1); [apply foldl_perm; intros; apply Swap_perm|].
  destruct (if _ <? m then _ else _) as [start r].
  cbv zeta.
  repeat match goal with
  | |- context [if ?c then _ else _] => destruct c
  | |- _ => rewrite IH
  | |- _ => rewrite rotate_perm
  end; done.
Qed.

Lemma insertion_blocks_perm k data n a b :
  (insertion_blocks less k data n a b).1 ≡ₚ data.
Proof.
  revert data a b. induction k as [|k IH]; intros data a b; simpl; [done|].
  destruct (b <=? n); [|done]. by rewrite IH, insertionSort_perm.
Qed.

Lemma merge_blocks_perm k data n bs a b :
  (merge_blocks less k data n bs a b).1 ≡ₚ data.
Proof.
  revert data a b. induction k as [|k IH]; intros data a b; simpl; [done|].
  destruct (b <=? n); [|done]. by rewrite IH, symMerge_perm.
Qed.

Lemma merge_passes_perm k data n bs : merge_passes less k data n bs ≡ₚ data.
Proof.
  revert data bs. induction k as [|k IH]; intros data bs; cbn [merge_passes]; [done|].
  destruct (bs <? n); [|done].
  pose proof (merge_blocks_perm n data n bs 0 (2 * bs)) as Hm.
  destruct (merge_blocks _ _ _ _ _ _ _) as [d a]; simpl in Hm.
  rewrite IH. destruct (_ <? n); [by rewrite symMerge_perm|done].
Qed.

Lemma SliceStable_perm data : SliceStable less data ≡ₚ data.
Proof.
  unfold SliceStable, stable.
  pose proof (insertion_blocks_perm (length data) data (length data) 0 20) as Hb.
  destruct (insertion_blocks _ _ _ _ _ _) as [d a]; simpl in Hb.
  by rewrite merge_passes_perm, insertionSort_perm.
Qed.

Lemma half_bounds i j : i < j → i ≤ (i + j) / 2 < j.
Proof.
  intros. pose proof (Nat.div_mod_eq (i + j) 2).
  pose proof (Nat.mod_upper_bound (i + j) 2). lia.
Qed.

Lemma bisect_false k test i j :
  (∀ h, i ≤ h < j → test h = false) → bisect k test i j = i.
Proof.
  revert j. induction k as [|k IH]; intros j Ht; cbn [bisect]; [done|].
  destruct (Nat.ltb_spec i j) as [Hij|]; [|done].
  pose proof (half_bounds i j Hij). rewrite Ht by lia.
  apply IH. intros. apply Ht. lia.
Qed.

Lemma bisect_true k test i j :
  (∀ h, i ≤ h < j → test h = true) → j - i ≤ k → bisect k test i j = i `max` j.
Proof.
  revert i. induction k as [|k IH]; intros i Ht Hk; cbn [bisect]; [lia|].
  destruct (Nat.ltb_spec i j) as [Hij|]; [|lia].
  pose proof (half_bounds i j Hij). rewrite Ht by lia.
  rewrite IH; [lia| |lia]. intros. apply Ht. lia.
Qed.

Lemma foldl_id {B} (f : list A → B → list A) (xs : list B) data :
  (∀ x, f data x = data) → foldl f data xs = data.
Proof. intros Hf. induction xs as [|x xs IH]; simpl; [done|]. by rewrite Hf. Qed.

Lemma insertion_inner_sorted data a j :
  no_inversion less data → insertion_inner less data a j = data.
Proof.
  intros Hs. destruct j as [|j]; simpl; [done|].
  rewrite Hs by lia. by rewrite andb_false_r.
Qed.

Lemma insertionSort_sorted data a b :
  no_inversion less data → insertionSort less data a b = data.
Proof. intros Hs. apply foldl_id. intros. by apply insertion_inner_sorted. Qed.

Lemma symMerge_sorted k data a m b :
  no_inversion less data → symMerge less k data a m b = data.
Proof.
  intros Hs. revert a m b. induction k as [|k IH]; intros a m b; [done|].
  cbn [symMerge].
  destruct (Nat.eqb_spec (m - a) 1) as [Hma|Hma].
  { rewrite bisect_false; [|intros; apply Hs; lia].
    replace (m - 1 - a) with 0 by lia. done. }
  destruct (Nat.eqb_spec (b - m) 1) as [Hbm|Hbm].
  { rewrite bisect_true; [| |lia].
    - replace (m - a `max` m) with 0 by lia. done.
    - intros. rewrite Hs by lia. done. }
  set (mid := (a + b) / 2).
  destruct (Nat.ltb_spec mid m) as [Hm|Hm]; cbv zeta.
  - rewrite bisect_true; [| |lia].
    2:{ intros. rewrite Hs by lia. done. }
    repeat match goal with
    | |- context [?x <? ?y] => destruct (Nat.ltb_spec x y); simpl
    | |- _ => rewrite IH
    end; try done; lia.
  - rewrite bisect_true; [| |lia].
    2:{ intros. rewrite Hs by lia. done. }
    repeat match goal with
    | |- context [?x <? ?y] => destruct (Nat.ltb_spec x y); simpl
    | |- _ => rewrite IH
    end; try done; lia.
Qed.

Lemma SliceStable_sorted data : no_inversion less data → SliceStable less data = data.
Proof.
  intros Hs. unfold SliceStable, stable.
  assert (∀ k n a b, insertion_blocks less k data n a b = (data, a) ∨
                     ∃ a', insertion_blocks less k data n a b = (data, a')) as Hb.
  { induction k as [|k IH]; intros n a b; simpl; [by left|].
    destruct (b <=? n); [|by left]. rewrite insertionSort_sorted by done.
    right. destruct (IH n b (b + 20)) as [->| [a' ->]]; eauto. }
  assert (∀ k n bs a b, ∃ a', merge_blocks less k data n bs a b = (data, a')) as Hm.
  { induction k as [|k IH]; intros n bs a b; cbn [merge_blocks]; [eauto|].
    destruct (b <=? n); [|eauto]. rewrite symMerge_sorted by done. apply IH. }
  assert (∀ k n bs, merge_passes less k data n bs = data) as Hp.
  { induction k as [|k IH]; intros n bs; cbn [merge_passes]; [done|].
    destruct (bs <? n); [|done].
    destruct (Hm n n bs 0 (2 * bs)) as [a' ->].
    destruct (_ <? n); [rewrite symMerge_sorted by done|]; apply IH. }
  destruct (Hb (length data) (length data) 0 20) as [->|[a' ->]];
    by rewrite insertionSort_sorted, Hp.
Qed.
End stable_sort_facts.

(** ** Slices and [getRIndex] *)

Lemma index_Some {A} (l : list A) i x :
  index l i = Some x ↔ (0 ≤ i)%Z ∧ l !! Z.to_nat i = Some x.
Proof.
  unfold index. destruct (Z.ltb_spec i 0).
  - split; [done|intros [??]; lia].
  - split; [intros ?; split; [lia|done]|intros [_ ?]; done].
Qed.

Lemma index_of_nat {A} (l : list A) (i : nat) : index l (Z.of_nat i) = l !! i.
Proof.
  unfold index. destruct (Z.ltb_spec (Z.of_nat i) 0); [lia|]. by rewrite Nat2Z.id.
Qed.

Lemma update_Some {A} (f : A → A) i (l l' : list A) :
  update f i l = Some l' →
  (0 ≤ i < Z.of_nat (length l))%Z ∧ l' = alter f (Z.to_nat i) l.
Proof.
  unfold update. destruct (index l i) as [x|] eqn:Hi; [|done].
  apply index_Some in Hi as [? Hi]. apply lookup_lt_Some in Hi.
  intros [= <-]. split; [lia|done].
Qed.

Section getRIndex_facts.
Implicit Types strs : list string.

Lemma getRIndex_loop_app strs k str n :
  n ≤ length strs →
  getRIndex_loop (strs ++ k) str n = getRIndex_loop strs str n.
Proof.
  induction n as [|n IH]; intros Hn; simpl; [done|].
  rewrite lookup_app_l by lia. rewrite IH by lia. done.
Qed.

Lemma getRIndex_nil str : getRIndex [] str = (-1)%Z.
Proof. done. Qed.

Lemma getRIndex_snoc strs x str :
  getRIndex (strs ++ [x]) str =
    if String.eqb x str then Z.of_nat (length strs) else getRIndex strs str.
Proof.
  unfold getRIndex. rewrite length_app, Nat.add_1_r. simpl.
  rewrite lookup_app_r, Nat.sub_diag by lia. simpl.
  destruct (String.eqb x str); [done|]. by apply getRIndex_loop_app.
Qed.

Lemma getRIndex_range strs str : (-1 ≤ getRIndex strs str < Z.of_nat (length strs))%Z.
Proof.
  induction strs as [|x strs IH] using rev_ind; [rewrite getRIndex_nil; simpl; lia|].
  rewrite getRIndex_snoc, length_app. simpl. destruct (String.eqb x str); lia.
Qed.

Lemma getRIndex_absent strs str : getRIndex strs str = (-1)%Z ↔ str ∉ strs.
Proof.
  induction strs as [|x strs IH] using rev_ind.
  { rewrite getRIndex_nil. split; [intros _|done]. apply not_elem_of_nil. }
  rewrite getRIndex_snoc, not_elem_of_app, list_elem_of_singleton.
  destruct (String.eqb_spec x str) as [->|Hne].
  - split; [lia|]. intros [_ ?]; done.
  - rewrite IH. split; [intros ?; split; [done|congruence]|]. by intros [? _].
Qed.

Lemma getRIndex_present strs str : getRIndex strs str ≠ (-1)%Z ↔ str ∈ strs.
Proof.
  rewrite getRIndex_absent. split.
  - intros H. destruct (decide (str ∈ strs)); [done|by destruct H].
  - intros H Hn. done.
Qed.

Lemma getRIndex_lookup strs str :
  getRIndex strs str ≠ (-1)%Z → strs !! Z.to_nat (getRIndex strs str) = Some str.
Proof.
  induction strs as [|x strs IH] using rev_ind; [by rewrite getRIndex_nil|].
  rewrite getRIndex_snoc. destruct (String.eqb_spec x str) as [->|Hne]; intros H.
  - rewrite Nat2Z.id, lookup_app_r, Nat.sub_diag by lia. done.
  - pose proof (getRIndex_range strs str).
    rewrite lookup_app_l by lia. by apply IH.
Qed.

Lemma getRIndex_NoDup strs str i :
  NoDup strs → strs !! i = Some str → getRIndex strs str = Z.of_nat i.
Proof.
  intros Hnd Hi.
  assert (getRIndex strs str ≠ (-1)%Z) as Hp.
  { apply getRIndex_present. by eapply list_elem_of_lookup_2. }
  pose proof (getRIndex_lookup _ _ Hp) as Hl.
  pose proof (getRIndex_range strs str).
  pose proof (NoDup_lookup _ _ _ _ Hnd Hi Hl). lia.
Qed.

Lemma getRIndex_eqb_absent strs str :
  (getRIndex strs str =? -1)%Z = true ↔ str ∉ strs.
Proof. rewrite Z.eqb_eq. apply getRIndex_absent. Qed.
End getRIndex_facts.

(** ** What [sortCallback] preserves *)

Section sortCallback_facts.
Context {DB : Type}.
Implicit Types (c : callback DB) (cs : list (callback DB)).
Implicit Types (st : sort_state DB) (names sorted : list string).

Lemma core_name c c' : core c = core c' → name c = name c'.
Proof. unfold core. by intros [= -> _ _ _ _]. Qed.

Lemma fmap_core_name cs cs' : core <$> cs' = core <$> cs → name <$> cs' = name <$> cs.
Proof.
  intros H. change name with ((λ t : _ * bool * bool * option (DB → bool) * option (DB → DB),
    t.1.1.1.1) ∘ (@core DB)).
  by rewrite !list_fmap_compose, H.
Qed.

Lemma fmap_core_length cs cs' : core <$> cs' = core <$> cs → length cs' = length cs.
Proof. intros H. by rewrite <-(length_fmap core cs'), H, length_fmap. Qed.

Lemma fmap_core_lookup cs cs' i c' :
  core <$> cs' = core <$> cs → cs' !! i = Some c' →
  ∃ c, cs !! i = Some c ∧ core c = core c'.
Proof.
  intros H Hi. assert ((core <$> cs) !! i = Some (core c')) as Hc.
  { by rewrite <-H, list_lookup_fmap, Hi. }
  rewrite list_lookup_fmap in Hc. destruct (cs !! i) as [c|]; [|done].
  apply (inj Some) in Hc. by exists c.
Qed.

Lemma alter_core (f : callback DB → callback DB) i cs :
  (∀ c, core (f c) = core c) → core <$> alter f i cs = core <$> cs.
Proof.
  intros Hf. rewrite (list_fmap_alter core f id).
  - by apply list_alter_id.
  - apply Forall_forall. intros; apply Hf.
Qed.

Lemma update_core (f : callback DB → callback DB) i cs cs' :
  (∀ c, core (f c) = core c) → update f i cs = Some cs' → core <$> cs' = core <$> cs.
Proof. intros Hf [_ ->]%update_Some. by apply alter_core. Qed.

Global Instance evolves_refl : Reflexive (@evolves DB).
Proof. intros st. unfold evolves. naive_solver. Qed.

Global Instance evolves_trans : Transitive (@evolves DB).
Proof.
  intros st1 st2 st3 (Hc1 & Hs1 & Hn1 & Hd1) (Hc2 & Hs2 & Hn2 & Hd2).
  split_and!; [congruence|auto| |auto].
  intros x [Hx|Hx]%Hn2; [auto|].
  right. by rewrite <-(fmap_core_name _ _ Hc1).
Qed.

Lemma evolves_cs cs cs' sorted :
  core <$> cs' = core <$> cs → evolves (cs, sorted) (cs', sorted).
Proof. intros H. unfold evolves. simpl. naive_solver. Qed.

Lemma evolves_insert cs sorted i nm :
  nm ∈ name <$> cs → nm ∉ sorted →
  evolves (cs, sorted) (cs, take i sorted ++ [nm] ++ drop i sorted).
Proof.
  intros Hc Hn.
  assert (take i sorted ++ [nm] ++ drop i sorted ≡ₚ nm :: sorted) as Hp.
  { simpl. rewrite <-Permutation_middle. by rewrite take_drop. }
  unfold evolves; simpl. split_and!; [done|..].
  - intros x Hx. rewrite Hp. by right.
  - intros x. rewrite Hp. intros [->|?]%elem_of_cons; [by right|by left].
  - intros Hd. rewrite Hp. by apply NoDup_cons.
Qed.

Lemma evolves_cons cs sorted nm :
  nm ∈ name <$> cs → nm ∉ sorted → evolves (cs, sorted) (cs, [nm] ++ sorted).
Proof. intros Hc Hn. apply (evolves_insert cs sorted 0 nm Hc Hn). Qed.

Lemma evolves_snoc cs sorted nm :
  nm ∈ name <$> cs → nm ∉ sorted → evolves (cs, sorted) (cs, sorted ++ [nm]).
Proof.
  intros Hc Hn. pose proof (evolves_insert cs sorted (length sorted) nm Hc Hn) as H.
  by rewrite take_ge, drop_ge, app_nil_r in H by lia.
Qed.

Lemma before_branch_evolves names c st st' :
  name c ∈ name <$> st.1 → before_branch names c st = Some (inl st') → evolves st st'.
Proof.
  destruct st as [cs sorted]. simpl. intros Hc. unfold before_branch.
  repeat case_match; intros ?; simplify_eq/=; try reflexivity.
  - apply evolves_cons; [done|]. by apply getRIndex_eqb_absent.
  - apply evolves_insert; [done|]. by apply getRIndex_eqb_absent.
  - destruct (update _ _ _) as [cs'|] eqn:Hu; simplify_eq/=.
    apply evolves_cs. eapply update_core; [|done]. done.
Qed.

Lemma before_branch_fail names c st e :
  before_branch names c st = Some (inr e) → e = conflict (name c) (before c).
Proof.
  destruct st as [cs sorted]. unfold before_branch.
  repeat case_match; intros ?; simplify_eq/=; try done.
  destruct (update _ _ _); simplify_eq/=.
Qed.

Lemma append_unsorted_evolves c st :
  name c ∈ name <$> st.1 → evolves st (append_unsorted c st).
Proof.
  destruct st as [cs sorted]. simpl. intros Hc. unfold append_unsorted.
  case_match eqn:H; [|reflexivity].
  apply evolves_snoc; [done|]. by apply getRIndex_eqb_absent.
Qed.

Lemma append_unsorted_elem c st : name c ∈ (append_unsorted c st).2.
Proof.
  destruct st as [cs sorted]. unfold append_unsorted.
  destruct (getRIndex sorted (name c) =? -1)%Z eqn:H; simpl.
  - apply elem_of_app. right. by apply list_elem_of_singleton.
  - apply getRIndex_present. by apply Z.eqb_neq.
Qed.

Lemma after_branch_done names c st st' :
  name c ∈ name <$> st.1 → after_branch names c st = Some (AfterDone st') → evolves st st'.
Proof.
  destruct st as [cs sorted]. simpl. intros Hc. unfold after_branch.
  repeat case_match; intros Hr; simplify_eq/=; try reflexivity.
  - apply evolves_snoc; [done|]. by apply getRIndex_eqb_absent.
  - apply evolves_snoc; [done|]. by apply getRIndex_eqb_absent.
  - apply bind_Some in Hr as (a & _ & Hr). by apply bind_Some in Hr as (cs' & _ & Hr).
Qed.

Lemma after_branch_recurse names c st idx st' :
  after_branch names c st = Some (AfterRecurse idx st') →
  evolves st st' ∧ st'.2 = st.2 ∧
  (after c ∉ st.2) ∧ getRIndex names (after c) = Z.of_nat idx ∧ idx < length st.1.
Proof.
  destruct st as [cs sorted]. simpl. unfold after_branch.
  repeat case_match; intros Hr; simplify_eq/=.
  apply bind_Some in Hr as (a & Ha & Hr). apply bind_Some in Hr as (cs' & Hu & Hr).
  simplify_eq/=. apply index_Some in Ha as [? Ha].
  assert (core <$> cs' = core <$> cs) as Hcore.
  { destruct (String.eqb (before a) ""); simplify_eq/=; [|done].
    eapply update_core; [|done]. done. }
  split_and!; try done.
  - by apply evolves_cs.
  - apply getRIndex_absent. by apply Z.eqb_eq, negb_false_iff.
  - lia.
  - by eapply lookup_lt_Some.
Qed.

Lemma evolves_lookup_name st st' i c c' :
  evolves st st' → st.1 !! i = Some c → st'.1 !! i = Some c' → name c' = name c.
Proof.
  intros (Hc & _) Hi Hi'.
  destruct (fmap_core_lookup _ _ _ _ Hc Hi') as (c0 & Hc0 & Hcore).
  rewrite Hi in Hc0. apply (inj Some) in Hc0 as ->. symmetry. by apply core_name.
Qed.

Lemma evolves_names st st' : evolves st st' → name <$> st'.1 = name <$> st.1.
Proof. intros (Hc & _). by apply fmap_core_name. Qed.

Lemma sortCallback_evolves fuel names ci st st' err :
  sortCallback fuel names ci st = Some (st', err) →
  evolves st st' ∧ (err = None → ∃ c, st.1 !! ci = Some c ∧ name c ∈ st'.2).
Proof.
  revert ci st st' err. induction fuel as [|fuel IH]; intros ci st st' err H; [done|].
  cbn [sortCallback] in H.
  apply bind_Some in H as (c & Hc & H). apply bind_Some in H as (r & Hb & H).
  destruct r as [st1|e]; [|simplify_eq; split; [reflexivity|done]].
  apply bind_Some in H as (c1 & Hc1 & H). apply bind_Some in H as (r & Ha & H).
  assert (name c ∈ name <$> st.1) as Hin.
  { apply list_elem_of_fmap_2. by eapply list_elem_of_lookup_2. }
  assert (evolves st st1) as E1 by by eapply before_branch_evolves.
  pose proof (evolves_lookup_name _ _ _ _ _ E1 Hc Hc1) as Hn1.
  assert (name c1 ∈ name <$> st1.1) as Hin1.
  { apply list_elem_of_fmap_2. by eapply list_elem_of_lookup_2. }
  destruct r as [st2|e|idx st2].
  - simplify_eq. assert (evolves st1 st2) as E2 by by eapply after_branch_done.
    split.
    + etrans; [done|]. etrans; [done|]. apply append_unsorted_evolves.
      by rewrite (evolves_names _ _ E2).
    + intros _. exists c. split; [done|]. rewrite <-Hn1. apply append_unsorted_elem.
  - simplify_eq. split; [done|done].
  - apply after_branch_recurse in Ha as (E2 & _).
    apply bind_Some in H as ([st3 e3] & H3 & H). apply IH in H3 as [E3 _].
    destruct e3 as [e|]; [simplify_eq; split; [by repeat (etrans; [done|])|done]|].
    apply bind_Some in H as ([st4 e4] & H4 & H). apply IH in H4 as [E4 _].
    destruct e4 as [e|]; [simplify_eq; split; [by repeat (etrans; [done|])|done]|].
    apply bind_Some in H as (c4 & Hc4 & H). simplify_eq.
    assert (evolves st st4) as E by by repeat (etrans; [done|]).
    pose proof (evolves_lookup_name _ _ _ _ _ E Hc Hc4) as Hn4.
    split.
    + etrans; [done|]. apply append_unsorted_evolves.
      rewrite (evolves_names _ _ E). by rewrite Hn4.
    + intros _. exists c. split; [done|]. rewrite <-Hn4. apply append_unsorted_elem.
Qed.

Lemma sort_each_evolves fuel names cis st st' err :
  sort_each fuel names cis st = Some (st', err) →
  evolves st st' ∧
  (err = None → ∀ ci c, ci ∈ cis → st.1 !! ci = Some c → name c ∈ st'.2).
Proof.
  revert st. induction cis as [|ci cis IH]; intros st H; simpl in H.
  { simplify_eq. split; [done|]. intros _ ci c Hci. by apply elem_of_nil in Hci. }
  apply bind_Some in H as ([st1 e1] & H1 & H).
  apply sortCallback_evolves in H1 as [E1 Hs1].
  destruct e1 as [e|]; [simplify_eq; done|].
  apply IH in H as [E2 Hs2]. split; [by etrans|].
  intros -> cj c [->|Hcj]%elem_of_cons Hc.
  - destruct (Hs1 eq_refl) as (c' & Hc' & Hin). simplify_eq.
    destruct E2 as (_ & Hsub & _). by apply Hsub.
  - destruct (lookup_lt_is_Some_2 st1.1 cj) as [c1 Hc1].
    { rewrite (fmap_core_length _ _ (proj1 E1)). by eapply lookup_lt_Some. }
    rewrite <-(evolves_lookup_name _ _ _ _ _ E1 Hc Hc1). by eapply Hs2.
Qed.
End sortCallback_facts.

(** ** The three loops of [sortCallbacks] *)

Section sortCallbacks_facts.
Context {DB : Type}.
Implicit Types (c : callback DB) (cs : list (callback DB)).
Implicit Types (st : sort_state DB) (names sorted : list string).
Implicit Types fns : list (option (DB → DB)).

Lemma collect_names_names cs rest names warns names' warns' :
  collect_names cs rest names warns = Some (names', warns') →
  names' = names ++ (name <$> rest).
Proof.
  revert names warns. induction rest as [|c rest IH]; intros names warns H; simpl in H.
  { simplify_eq. by rewrite app_nil_r. }
  apply bind_Some in H as (dup & _ & H). apply IH in H as ->.
  by rewrite <-app_assoc.
Qed.

Lemma collect_fns_Some cs names sorted fns fns' :
  collect_fns cs names sorted fns = Some fns' →
  ∃ cbs, Forall2 (λ nm c, index cs (getRIndex names nm) = Some c) sorted cbs ∧
         fns' = fns ++ (handler <$> filter (λ c, remove c = false) cbs).
Proof.
  revert fns. induction sorted as [|nm sorted IH]; intros fns H; simpl in H.
  { simplify_eq. exists []. split; [constructor|]. by rewrite app_nil_r. }
  apply bind_Some in H as (c & Hc & H). apply IH in H as (cbs & HF & ->).
  exists (c :: cbs). split; [by constructor|].
  rewrite filter_cons. case_decide as Hr.
  - rewrite Hr. by rewrite <-app_assoc.
  - by destruct (remove c).
Qed.

Lemma collect_fns_total cs names sorted fns :
  (∀ nm, nm ∈ sorted → is_Some (index cs (getRIndex names nm))) →
  is_Some (collect_fns cs names sorted fns).
Proof.
  revert fns. induction sorted as [|nm sorted IH]; intros fns H; simpl; [done|].
  destruct (H nm) as [c ->]; [by left|]. simpl. apply IH.
  intros. apply H. by right.
Qed.

Lemma index_getRIndex cs nm :
  nm ∈ name <$> cs →
  ∃ c, index cs (getRIndex (name <$> cs) nm) = Some c ∧ name c = nm ∧ c ∈ cs.
Proof.
  intros Hin%getRIndex_present. pose proof (getRIndex_lookup _ _ Hin) as Hl.
  pose proof (getRIndex_range (name <$> cs) nm).
  rewrite list_lookup_fmap in Hl.
  destruct (cs !! _) as [c|] eqn:Hc; simplify_eq/=.
  exists c. split_and!; [|done|by eapply list_elem_of_lookup_2].
  apply index_Some. split; [lia|done].
Qed.

Lemma NoDup_fmap_inj {A B} (f : A → B) (l : list A) x y :
  NoDup (f <$> l) → x ∈ l → y ∈ l → f x = f y → x = y.
Proof.
  intros Hnd [i Hi]%list_elem_of_lookup [j Hj]%list_elem_of_lookup Hf.
  assert (i = j) as ->; [|congruence].
  eapply NoDup_lookup; [done|..]; rewrite list_lookup_fmap.
  - by rewrite Hi.
  - rewrite Hj. simpl. by rewrite Hf.
Qed.

Lemma lookup_all_names cs sorted cbs :
  (∀ nm, nm ∈ sorted → nm ∈ name <$> cs) →
  Forall2 (λ nm c, index cs (getRIndex (name <$> cs) nm) = Some c) sorted cbs →
  name <$> cbs = sorted ∧ ∀ c, c ∈ cbs → c ∈ cs.
Proof.
  intros Hsub HF. induction HF as [|nm c sorted cbs Hc HF IH].
  { split; [done|]. intros c Hc. by apply elem_of_nil in Hc. }
  destruct IH as [IH1 IH2]; [intros; apply Hsub; by right|].
  destruct (index_getRIndex cs nm) as (c' & Hc' & Hn & Hin); [apply Hsub; by left|].
  rewrite Hc in Hc'. apply (inj Some) in Hc' as <-.
  split; [simpl; by f_equal|].
  intros c0 [->|?]%elem_of_cons; auto.
Qed.

(** With pairwise distinct names, looking every name up yields every
    callback once. *)
Lemma lookup_all_perm cs sorted cbs :
  NoDup (name <$> cs) → NoDup sorted →
  (∀ nm, nm ∈ sorted ↔ nm ∈ name <$> cs) →
  Forall2 (λ nm c, index cs (getRIndex (name <$> cs) nm) = Some c) sorted cbs →
  cbs ≡ₚ cs.
Proof.
  intros Hnd Hs Hiff HF.
  destruct (lookup_all_names cs sorted cbs) as [Hnames Hin]; [by apply Hiff|done|].
  apply NoDup_Permutation.
  - apply (NoDup_fmap_1 name). by rewrite Hnames.
  - by apply (NoDup_fmap_1 name).
  - intros c. split; [by apply Hin|]. intros Hc.
    assert (name c ∈ name <$> cbs) as (c' & Hn & Hc')%list_elem_of_fmap.
    { rewrite Hnames. apply Hiff. by apply list_elem_of_fmap_2. }
    assert (c = c') as ->; [|done].
    eapply (NoDup_fmap_inj name); eauto.
Qed.

Lemma filter_handlers_core cs cs' :
  core <$> cs' = core <$> cs →
  handler <$> filter (λ c, remove c = false) cs'
  = handler <$> filter (λ c, remove c = false) cs.
Proof.
  revert cs'. induction cs as [|c cs IH]; intros [|c' cs'] H; try done.
  rewrite !fmap_cons in H.
  assert (core c' = core c ∧ core <$> cs' = core <$> cs) as [Hc Ht]
    by (split; congruence).
  assert (remove c' = remove c ∧ handler c' = handler c) as [Hr Hh]
    by (unfold core in Hc; split; congruence).
  rewrite !filter_cons, Hr.
  case_decide; rewrite ?fmap_cons, ?Hh, (IH cs') by done; done.
Qed.

(** What a returning call of [sortCallbacks] has established. *)
Lemma sortCallbacks_Some fuel cs0 cs' warns fns err :
  sortCallbacks fuel cs0 = Some (cs', warns, fns, err) →
  ∃ sorted,
    core <$> cs' = core <$> SliceStable less_callback cs0 ∧
    NoDup sorted ∧ (∀ nm, nm ∈ sorted → nm ∈ name <$> cs') ∧
    match err with
    | Some _ => fns = []
    | None => (∀ nm, nm ∈ name <$> cs' → nm ∈ sorted) ∧
              collect_fns cs' (name <$> cs') sorted [] = Some fns
    end.
Proof.
  unfold sortCallbacks. set (cs := SliceStable less_callback cs0). intros H.
  apply bind_Some in H as ([names w] & Hn & H).
  apply collect_names_names in Hn. simpl in Hn. subst names.
  apply bind_Some in H as ([[cs1 sorted] e] & Hs & H).
  apply sort_each_evolves in Hs as [(Hc & _ & Hsub & Hnd) Hall]. simpl in *.
  exists sorted. rewrite <-(fmap_core_name _ _ Hc) in H.
  assert (∀ nm, nm ∈ sorted → nm ∈ name <$> cs1) as Hsub'.
  { intros nm [Hnm|Hnm]%Hsub; [by apply elem_of_nil in Hnm|].
    by rewrite (fmap_core_name _ _ Hc). }
  destruct e as [e|].
  { simplify_eq. split_and!; [done|apply Hnd; constructor|done|done]. }
  apply bind_Some in H as (fns1 & Hf & H). simplify_eq.
  split_and!; [done|apply Hnd; constructor|done| |done].
  intros nm. rewrite (fmap_core_name _ _ Hc).
  intros (c & -> & [i Hi]%list_elem_of_lookup)%list_elem_of_fmap.
  eapply Hall; [done| |done]. apply elem_of_seq. split; [lia|].
  simpl. by eapply lookup_lt_Some.
Qed.

(** With pairwise distinct names a successful [sortCallbacks] returns the
    handlers of all callbacks that are not removal markers, each once. *)
Lemma sortCallbacks_perm fuel cs0 cs' warns fns :
  NoDup (name <$> cs0) →
  sortCallbacks fuel cs0 = Some (cs', warns, fns, None) →
  fns ≡ₚ handler <$> filter (λ c, remove c = false) cs0.
Proof.
  intros Hnd (sorted & Hc & Hs & Hsub & Hall & Hf)%sortCallbacks_Some.
  apply collect_fns_Some in Hf as (cbs & HF & ->). simpl.
  assert (name <$> cs' ≡ₚ name <$> cs0) as Hnames.
  { rewrite (fmap_core_name _ _ Hc). by rewrite SliceStable_perm. }
  assert (cbs ≡ₚ cs') as ->.
  { apply (lookup_all_perm cs' sorted cbs); [by rewrite Hnames|done| |done].
    split; auto. }
  rewrite (filter_handlers_core _ _ Hc). by rewrite SliceStable_perm.
Qed.
End sortCallbacks_facts.

(** ** Termination of [sortCallback] *)

Section termination.
Context {DB : Type}.
Implicit Types (c : callback DB) (cs : list (callback DB)).
Implicit Types (st : sort_state DB) (names sorted : list string).

Lemma sortCallback_mono fuel fuel' names ci st res :
  fuel ≤ fuel' →
  sortCallback fuel names ci st = Some res →
  sortCallback fuel' names ci st = Some res.
Proof.
  revert fuel' ci st res. induction fuel as [|fuel IH]; intros fuel' ci st res Hle H; [done|].
  destruct fuel' as [|fuel']; [lia|]. cbn [sortCallback] in *.
  destruct (st.1 !! ci) as [c|]; simpl in *; [|done].
  destruct (before_branch names c st) as [[st1|e]|]; simpl in *; [|done|done].
  destruct (st1.1 !! ci) as [c1|]; simpl in *; [|done].
  destruct (after_branch names c1 st1) as [[st2|e|idx st2]|]; simpl in *; try done.
  destruct (sortCallback fuel names idx st2) as [[st3 e3]|] eqn:H3; simpl in *; [|done].
  rewrite (IH fuel' _ _ _ ltac:(lia) H3). simpl.
  destruct e3 as [e|]; [done|].
  destruct (sortCallback fuel names ci st3) as [[st4 e4]|] eqn:H4; simpl in *; [|done].
  rewrite (IH fuel' _ _ _ ltac:(lia) H4). done.
Qed.

Lemma sort_each_mono fuel fuel' names cis st res :
  fuel ≤ fuel' →
  sort_each fuel names cis st = Some res →
  sort_each fuel' names cis st = Some res.
Proof.
  intros Hle. revert st. induction cis as [|ci cis IH]; intros st H; simpl in *; [done|].
  destruct (sortCallback fuel names ci st) as [[st1 e1]|] eqn:H1; simpl in *; [|done].
  rewrite (sortCallback_mono _ _ _ _ _ _ Hle H1). simpl.
  destruct e1; [done|]. by apply IH.
Qed.

Lemma unsorted_mono names sorted sorted' :
  (∀ x, x ∈ sorted → x ∈ sorted') → unsorted names sorted' ≤ unsorted names sorted.
Proof.
  intros Hsub. unfold unsorted. induction names as [|nm names IH]; [done|].
  rewrite !filter_cons. repeat case_decide; simpl; try lia.
  exfalso. naive_solver.
Qed.

Lemma unsorted_lt names sorted sorted' nm :
  (∀ x, x ∈ sorted → x ∈ sorted') → nm ∈ names → nm ∉ sorted → nm ∈ sorted' →
  unsorted names sorted' < unsorted names sorted.
Proof.
  intros Hsub Hin Hn Hs. unfold unsorted. induction Hin as [nm names|nm y names Hin IH].
  - rewrite !filter_cons. rewrite decide_False by naive_solver.
    rewrite decide_True by done. simpl.
    pose proof (unsorted_mono names _ _ Hsub). unfold unsorted in *. lia.
  - specialize (IH Hn Hs). rewrite !filter_cons.
    repeat case_decide; simpl; try lia. exfalso. naive_solver.
Qed.

Lemma getRIndex_index_total cs nm :
  getRIndex (name <$> cs) nm ≠ (-1)%Z →
  ∃ a, index cs (getRIndex (name <$> cs) nm) = Some a ∧ name a = nm.
Proof.
  intros Hin%getRIndex_present. destruct (index_getRIndex cs nm Hin) as (a & ? & ? & _).
  eauto.
Qed.

Lemma before_branch_total c st :
  is_Some (before_branch (name <$> st.1) c st).
Proof.
  destruct st as [cs sorted]. unfold before_branch. simpl.
  repeat case_match; try done.
  destruct (getRIndex_index_total cs (before c)) as (a & Ha & _).
  { by apply Z.eqb_neq, negb_true_iff. }
  unfold update. rewrite Ha. done.
Qed.

Lemma after_branch_total c st :
  is_Some (after_branch (name <$> st.1) c st).
Proof.
  destruct st as [cs sorted]. unfold after_branch. simpl.
  repeat case_match; try done.
  destruct (getRIndex_index_total cs (after c)) as (a & Ha & _).
  { by apply Z.eqb_neq, negb_true_iff. }
  rewrite Ha. simpl. destruct (String.eqb (before a) ""); [|done].
  unfold update. rewrite Ha. done.
Qed.

Lemma respects_alter rank names cs (f : callback DB → callback DB) i a :
  respects rank names cs → cs !! i = Some a →
  ((before (f a) ∈ names → rank (name (f a)) < rank (before (f a))) ∧
   (after (f a) ∈ names → rank (after (f a)) < rank (name (f a)))) →
  respects rank names (alter f i cs).
Proof.
  intros Hr Ha Hf c [j Hj]%list_elem_of_lookup.
  destruct (decide (i = j)) as [<-|Hne].
  - rewrite list_lookup_alter_eq, Ha in Hj. by simplify_eq/=.
  - rewrite list_lookup_alter_ne in Hj by done.
    apply Hr. by eapply list_elem_of_lookup_2.
Qed.

Lemma getRIndex_names_lookup cs nm a :
  index cs (getRIndex (name <$> cs) nm) = Some a → name a = nm ∧ nm ∈ name <$> cs.
Proof.
  intros Ha. destruct (decide (getRIndex (name <$> cs) nm = (-1)%Z)) as [E|E].
  { by rewrite E in Ha. }
  destruct (getRIndex_index_total cs nm E) as (a' & Ha' & ?).
  split; [congruence|]. by apply getRIndex_present.
Qed.

Lemma before_branch_respects rank c st st' :
  c ∈ st.1 → respects rank (name <$> st.1) st.1 →
  before_branch (name <$> st.1) c st = Some (inl st') →
  respects rank (name <$> st.1) st'.1.
Proof.
  destruct st as [cs sorted]. simpl. intros Hc Hr. unfold before_branch.
  repeat case_match; intros Hb; simplify_eq/=; try done.
  apply bind_Some in Hb as (cs' & Hu & Hb). simplify_eq/=.
  assert (getRIndex (name <$> cs) (before c) ≠ (-1)%Z) as Hne
    by by apply Z.eqb_neq, negb_true_iff.
  destruct (getRIndex_index_total cs (before c) Hne) as (a & Ha & Hna).
  pose proof (getRIndex_names_lookup _ _ _ Ha) as [_ Hin].
  apply update_Some in Hu as [_ ->]. apply index_Some in Ha as [_ Ha].
  eapply respects_alter; [done|done|]. simpl. rewrite Hna.
  destruct (Hr a) as [Ha1 Ha2]; [by eapply list_elem_of_lookup_2|].
  rewrite Hna in Ha1. split; [done|]. intros _. by apply (Hr c).
Qed.

Lemma after_branch_respects rank c st r :
  c ∈ st.1 → respects rank (name <$> st.1) st.1 →
  after_branch (name <$> st.1) c st = Some r →
  match r with
  | AfterDone st' => respects rank (name <$> st.1) st'.1
  | AfterFail _ => True
  | AfterRecurse idx st' =>
      respects rank (name <$> st.1) st'.1 ∧
      ∃ a, st'.1 !! idx = Some a ∧ rank (name a) < rank (name c)
  end.
Proof.
  destruct st as [cs sorted]. simpl. intros Hc Hr. unfold after_branch.
  repeat case_match; intros Hb; simplify_eq; try done;
    apply bind_Some in Hb as (a & Ha & Hb);
    apply bind_Some in Hb as (cs' & Hu & Hb); simplify_eq.
  pose proof (getRIndex_names_lookup _ _ _ Ha) as [Hna Hin].
  apply index_Some in Ha as [_ Ha].
  assert (rank (name a) < rank (name c)) as Hlt.
  { rewrite Hna. by apply (Hr c). }
  destruct (String.eqb (before a) "") eqn:Hba; simplify_eq/=; [|by eauto].
  apply update_Some in Hu as [_ ->].
  split.
  - eapply respects_alter; [done|done|]. simpl.
    destruct (Hr a) as [Ha1 Ha2]; [by eapply list_elem_of_lookup_2|]. done.
  - eexists. rewrite list_lookup_alter_eq, Ha. simpl. split; [done|]. done.
Qed.

Lemma sortCallback_respects rank fuel ci st st' err :
  respects rank (name <$> st.1) st.1 →
  sortCallback fuel (name <$> st.1) ci st = Some (st', err) →
  respects rank (name <$> st.1) st'.1.
Proof.
  revert ci st st' err. induction fuel as [|fuel IH]; intros ci st st' err Hr H; [done|].
  cbn [sortCallback] in H.
  apply bind_Some in H as (c & Hc & H). apply bind_Some in H as (r & Hb & H).
  destruct r as [st1|e]; [|by simplify_eq].
  apply bind_Some in H as (c1 & Hc1 & H). apply bind_Some in H as (r & Ha & H).
  assert (evolves st st1) as E1.
  { eapply before_branch_evolves; [|done].
    apply list_elem_of_fmap_2. by eapply list_elem_of_lookup_2. }
  pose proof (evolves_names _ _ E1) as N1.
  apply (before_branch_respects rank) in Hb; [|by eapply list_elem_of_lookup_2|done].
  rewrite <-N1 in Ha, Hb.
  pose proof Ha as Ha'.
  apply after_branch_respects with (rank := rank) in Ha';
    [|by eapply list_elem_of_lookup_2|done].
  destruct r as [st2|e|idx st2].
  - simplify_eq. rewrite <-N1. destruct st2 as [cs2 sorted2].
    unfold append_unsorted. by case_match.
  - simplify_eq. by rewrite <-N1.
  - destruct Ha' as [Hr2 _].
    apply after_branch_recurse in Ha as (E2 & _). pose proof (evolves_names _ _ E2) as N2.
    apply bind_Some in H as ([st3 e3] & H3 & H).
    rewrite <-N1, <-N2 in H3, H. rewrite <-N2 in Hr2.
    pose proof (IH _ _ _ _ Hr2 H3) as Hr3.
    apply sortCallback_evolves in H3 as [E3 _]. pose proof (evolves_names _ _ E3) as N3.
    destruct e3 as [e|]; [simplify_eq; by rewrite <-N1, <-N2|].
    apply bind_Some in H as ([st4 e4] & H4 & H).
    rewrite <-N3 in H4, Hr3.
    pose proof (IH _ _ _ _ Hr3 H4) as Hr4.
    apply sortCallback_evolves in H4 as [E4 _]. pose proof (evolves_names _ _ E4) as N4.
    rewrite <-N1, <-N2, <-N3.
    destruct e4 as [e|]; [by simplify_eq|].
    apply bind_Some in H as (c4 & Hc4 & H). simplify_eq.
    destruct st4 as [cs4 sorted4]. unfold append_unsorted. by case_match.
Qed.

Lemma evolves_lookup st st' i c :
  evolves st st' → st.1 !! i = Some c → ∃ c', st'.1 !! i = Some c' ∧ name c' = name c.
Proof.
  intros E Hc. destruct (lookup_lt_is_Some_2 st'.1 i) as [c' Hc'].
  { rewrite (fmap_core_length _ _ (proj1 E)). by eapply lookup_lt_Some. }
  exists c'. split; [done|]. by eapply evolves_lookup_name.
Qed.

(** [sortCallback] returns whenever the constraints admit a ranking: a
    recursive call either descends in rank or starts from a longer
    [sorted]. *)
Lemma sortCallback_terminates rank names n :
  ∀ r st ci c,
    name <$> st.1 = names → respects rank names st.1 →
    unsorted names st.2 ≤ n → st.1 !! ci = Some c → rank (name c) ≤ r →
    ∃ fuel res, sortCallback fuel names ci st = Some res.
Proof.
  induction n as [n IHn] using lt_wf_ind.
  induction r as [r IHr] using lt_wf_ind. intros st ci c Hn Hr Hu Hc Hrk.
  destruct (before_branch_total c st) as [rb Hb]. rewrite Hn in Hb.
  destruct rb as [st1|e].
  2:{ exists 1, (st, Some e). cbn [sortCallback]. rewrite Hc. simpl. by rewrite Hb. }
  assert (evolves st st1) as E1.
  { eapply before_branch_evolves; [|done].
    apply list_elem_of_fmap_2. by eapply list_elem_of_lookup_2. }
  pose proof (evolves_names _ _ E1) as N1. rewrite Hn in N1.
  destruct (evolves_lookup _ _ _ _ E1 Hc) as (c1 & Hc1 & Hn1).
  assert (respects rank names st1.1) as Hr1.
  { rewrite <-Hn. eapply before_branch_respects; [|by rewrite Hn|by rewrite Hn].
    by eapply list_elem_of_lookup_2. }
  destruct (after_branch_total c1 st1) as [ra Ha]. rewrite N1 in Ha.
  pose proof Ha as Ha'. rewrite <-N1 in Ha'.
  apply after_branch_respects with (rank := rank) in Ha';
    [|by eapply list_elem_of_lookup_2|by rewrite N1]. rewrite N1 in Ha'.
  destruct ra as [st2|e|idx st2].
  - exists 1, (append_unsorted c1 st2, None). cbn [sortCallback].
    rewrite Hc. simpl. rewrite Hb. simpl. rewrite Hc1. simpl. by rewrite Ha.
  - exists 1, (st1, Some e). cbn [sortCallback].
    rewrite Hc. simpl. rewrite Hb. simpl. rewrite Hc1. simpl. by rewrite Ha.
  - destruct Ha' as (Hr2 & a & Hidx & Hlt). rewrite Hn1 in Hlt.
    pose proof Ha as Ha2. apply after_branch_recurse in Ha2 as (E2 & S2 & Hns & Hgi & _).
    pose proof (evolves_names _ _ E2) as N2. rewrite N1 in N2.
    assert (unsorted names st2.2 ≤ n) as Hu2.
    { rewrite S2. etrans; [|exact Hu]. apply unsorted_mono. apply E1. }
    destruct (IHr (rank (name a)) ltac:(lia) st2 idx a N2 Hr2 Hu2 Hidx ltac:(lia))
      as (fuel1 & [st3 e3] & H3).
    destruct e3 as [e|].
    { exists (S fuel1), (st3, Some e). cbn [sortCallback].
      rewrite Hc. simpl. rewrite Hb. simpl. rewrite Hc1. simpl. rewrite Ha. simpl.
      by rewrite H3. }
    pose proof H3 as H3'. apply sortCallback_evolves in H3' as [E3 Hin3].
    destruct (Hin3 eq_refl) as (a' & Ha' & Hain). rewrite Hidx in Ha'.
    apply (inj Some) in Ha' as <-.
    pose proof (evolves_names _ _ E3) as N3. rewrite N2 in N3.
    assert (name a = after c1) as Hna.
    { assert (getRIndex names (after c1) ≠ (-1)%Z) as Hp by lia.
      apply getRIndex_lookup in Hp. rewrite Hgi, Nat2Z.id, <-N2 in Hp.
      rewrite list_lookup_fmap, Hidx in Hp. by simplify_eq/=. }
    assert (respects rank names st3.1) as Hr3.
    { rewrite <-N2. eapply sortCallback_respects; rewrite N2; done. }
    assert (unsorted names st3.2 < n) as Hu3.
    { eapply Nat.lt_le_trans; [|exact Hu2].
      eapply (unsorted_lt _ _ _ (name a)); [apply E3| |by rewrite Hna, S2|done].
      rewrite <-N2. apply list_elem_of_fmap_2. by eapply list_elem_of_lookup_2. }
    assert (evolves st st3) as E by (etrans; [done|]; etrans; done).
    destruct (evolves_lookup _ _ _ _ E Hc) as (c3 & Hc3 & _).
    destruct (IHn _ Hu3 (rank (name c3)) st3 ci c3 N3 Hr3 ltac:(lia) Hc3 ltac:(lia))
      as (fuel2 & [st4 e4] & H4).
    apply (sortCallback_mono _ (fuel1 `max` fuel2)) in H3; [|lia].
    pose proof H4 as H4'.
    apply (sortCallback_mono _ (fuel1 `max` fuel2)) in H4; [|lia].
    destruct e4 as [e|].
    { exists (S (fuel1 `max` fuel2)), (st4, Some e). cbn [sortCallback].
      rewrite Hc. simpl. rewrite Hb. simpl. rewrite Hc1. simpl. rewrite Ha. simpl.
      rewrite H3. simpl. by rewrite H4. }
    apply sortCallback_evolves in H4' as [E4 _].
    destruct (evolves_lookup _ _ _ _ E4 Hc3) as (c4 & Hc4 & _).
    exists (S (fuel1 `max` fuel2)), (append_unsorted c4 st4, None). cbn [sortCallback].
    rewrite Hc. simpl. rewrite Hb. simpl. rewrite Hc1. simpl. rewrite Ha. simpl.
    rewrite H3. simpl. rewrite H4. simpl. by rewrite Hc4.
Qed.
End termination.

(** ** [sortCallbacks] and [compile] as a whole *)

Section compile_facts.
Context {DB : Type}.
Implicit Types (c : callback DB) (cs : list (callback DB)) (p : processor DB).
Implicit Types (st : sort_state DB) (names sorted : list string).

Lemma respects_perm rank names names' cs cs' :
  cs ≡ₚ cs' → (∀ x, x ∈ names ↔ x ∈ names') →
  respects rank names cs → respects rank names' cs'.
Proof.
  intros Hp Hn Hr c Hc. rewrite <-Hp in Hc. destruct (Hr c Hc) as [H1 H2].
  split; intros ?%Hn; auto.
Qed.

Lemma sort_each_terminates rank names cis st :
  name <$> st.1 = names → respects rank names st.1 →
  (∀ ci, ci ∈ cis → ci < length st.1) →
  ∃ fuel res, sort_each fuel names cis st = Some res.
Proof.
  revert st. induction cis as [|ci cis IH]; intros st Hn Hr Hlt.
  { by exists 0, (st, None). }
  destruct (lookup_lt_is_Some_2 st.1 ci) as [c Hc]; [apply Hlt; by left|].
  destruct (sortCallback_terminates rank names _ _ st ci c Hn Hr (le_n _) Hc (le_n _))
    as (fuel1 & [st1 e1] & H1).
  destruct e1 as [e|].
  { exists fuel1, (st1, Some e). simpl. by rewrite H1. }
  pose proof H1 as H1'. apply sortCallback_evolves in H1' as [E1 _].
  destruct (IH st1) as (fuel2 & res & H2).
  - by rewrite (evolves_names _ _ E1).
  - rewrite <-Hn. eapply sortCallback_respects; rewrite Hn; done.
  - intros cj Hcj. rewrite (fmap_core_length _ _ (proj1 E1)). apply Hlt. by right.
  - exists (fuel1 `max` fuel2), res. simpl.
    rewrite (sortCallback_mono fuel1 (fuel1 `max` fuel2) _ _ _ _ ltac:(lia) H1). simpl.
    eapply sort_each_mono; [|done]. lia.
Qed.

Lemma collect_names_total cs rest names warns :
  length names + length rest ≤ length cs →
  is_Some (collect_names cs rest names warns).
Proof.
  revert names warns. induction rest as [|c rest IH]; intros names warns Hl; simpl; [done|].
  simpl in Hl.
  assert (is_Some (if (getRIndex names (name c) >? -1)%Z && negb (replace c)
                      && negb (remove c)
                   then d ← index cs (getRIndex names (name c)); Some (negb (remove d))
                   else Some false)) as [dup ->].
  { destruct (_ && _ && _) eqn:Hg; [|done].
    pose proof (getRIndex_range names (name c)).
    destruct (lookup_lt_is_Some_2 cs (Z.to_nat (getRIndex names (name c)))) as [d Hd].
    { apply andb_true_iff in Hg as [[Hg%Z.gtb_lt _]%andb_true_iff _]. lia. }
    assert (index cs (getRIndex names (name c)) = Some d) as ->; [|done].
    apply index_Some. split; [|done].
    apply andb_true_iff in Hg as [[Hg%Z.gtb_lt _]%andb_true_iff _]. lia. }
  simpl. apply IH. rewrite length_app. simpl. lia.
Qed.

Lemma sortCallbacks_terminates cs0 :
  no_contradiction cs0 → ∃ fuel res, sortCallbacks fuel cs0 = Some res.
Proof.
  intros [rank Hr]. unfold sortCallbacks.
  set (cs := SliceStable less_callback cs0).
  assert (cs ≡ₚ cs0) as Hp by apply SliceStable_perm.
  destruct (collect_names_total cs cs [] []) as [[names warns] Hn]; [simpl; lia|].
  rewrite Hn. simpl. apply collect_names_names in Hn. simpl in Hn. subst names.
  assert (respects rank (name <$> cs) cs) as Hr'.
  { eapply respects_perm; [symmetry; exact Hp| |exact Hr].
    intros x. by rewrite Hp. }
  destruct (sort_each_terminates rank (name <$> cs) (seq 0 (length cs)) (cs, []))
    as (fuel & [[cs' sorted] e] & Hs); [done|done| |].
  { intros ci [_ ?]%elem_of_seq. simpl in *. lia. }
  exists fuel. rewrite Hs. simpl. destruct e as [e|]; [by eexists|].
  apply sort_each_evolves in Hs as [(Hc & _ & Hsub & _) _]. simpl in *.
  destruct (collect_fns_total cs' (name <$> cs) sorted []) as [fns ->]; [|by eexists].
  intros nm [Hnm|Hnm]%Hsub; [by apply elem_of_nil in Hnm|].
  rewrite <-(fmap_core_name _ _ Hc) in Hnm |- *.
  destruct (index_getRIndex cs' nm Hnm) as (c & -> & _). done.
Qed.

(** *** The scan and the pruning of [compile] *)

Lemma compile_scan_spec d cs acc (m : gmap string bool) :
  foldl (λ '(acc, removedMap) c,
           (if match_ok d c then acc ++ [c] else acc,
            if remove c then <[name c := true]> removedMap else removedMap))
    (acc, m) cs
  = (acc ++ filter (λ c, match_ok d c = true) cs,
     foldl (λ m c, if remove c then <[name c := true]> m else m) m cs).
Proof.
  revert acc m. induction cs as [|c cs IH]; intros acc m; simpl.
  { by rewrite app_nil_r. }
  rewrite IH, filter_cons. case_decide as Hd.
  - rewrite Hd. by rewrite <-app_assoc.
  - by destruct (match_ok d c).
Qed.

Lemma removed_names_cons c cs :
  removed_names (c :: cs)
  = if remove c then name c :: removed_names cs else removed_names cs.
Proof.
  unfold removed_names. rewrite filter_cons.
  destruct (remove c) eqn:Hr.
  - by rewrite decide_True by done.
  - by rewrite decide_False by done.
Qed.

Lemma removed_map_lookup cs (m : gmap string bool) nm :
  foldl (λ m c, if remove c then <[name c := true]> m else m) m cs !! nm
  = if decide (nm ∈ removed_names cs) then Some true else m !! nm.
Proof.
  revert m. induction cs as [|c cs IH]; intros m.
  { case_decide as Hin; [|done]. by apply elem_of_nil in Hin. }
  cbn [foldl]. rewrite IH, removed_names_cons.
  destruct (remove c); [|done].
  destruct (decide (nm ∈ removed_names cs)) as [Hin|Hin].
  { rewrite decide_True; [done|]. by right. }
  destruct (decide (nm = name c)) as [->|Hne].
  - rewrite lookup_insert_eq. rewrite decide_True; [done|]. by left.
  - rewrite lookup_insert_ne by done. rewrite decide_False; [done|].
    intros [?|?]%elem_of_cons; done.
Qed.

Lemma removeCallbacks_spec cs (m : gmap string bool) acc :
  foldl (λ acc c, if default false (m !! name c) then acc else acc ++ [c]) acc cs
  = acc ++ filter (λ c, default false (m !! name c) = false) cs.
Proof.
  revert acc. induction cs as [|c cs IH]; intros acc; simpl.
  { by rewrite app_nil_r. }
  rewrite IH, filter_cons. case_decide as Hd.
  - rewrite Hd. by rewrite <-app_assoc.
  - by destruct (default false (m !! name c)).
Qed.

(** [compile] hands exactly the candidate set to [sortCallbacks]. *)
Lemma compile_candidates p :
  (let '(cbs, removedMap) := compile_scan (db p) (callbacks p) in
   if 0 <? size removedMap then removeCallbacks cbs removedMap else cbs)
  = candidates p.
Proof.
  unfold compile_scan. rewrite compile_scan_spec. simpl.
  set (m := foldl _ ∅ (callbacks p)).
  assert (∀ nm, m !! nm = if decide (nm ∈ removed_names (callbacks p))
                          then Some true else None) as Hm.
  { intros nm. subst m. by rewrite removed_map_lookup, lookup_empty. }
  unfold candidates.
  destruct (Nat.ltb_spec 0 (size m)) as [Hs|Hs].
  - unfold removeCallbacks. rewrite removeCallbacks_spec. simpl.
    rewrite list_filter_filter. apply list_filter_iff. intros c.
    rewrite Hm. case_decide; simpl; [|tauto].
    split; [by intros [? _]|by intros [_ ?]].
  - assert (m = ∅) as Hem by (apply map_size_empty_iff; lia).
    apply list_filter_iff. intros c. split; [|tauto]. intros Hok. split; [done|].
    intros Hin. specialize (Hm (name c)). rewrite decide_True in Hm by done.
    by rewrite Hem, lookup_empty in Hm.
Qed.

Lemma compile_Some fuel p p' log err :
  compile fuel p = Some (p', log, err) →
  db p' = db p ∧ Clauses p' = Clauses p ∧
  ∃ warns, sortCallbacks fuel (candidates p) = Some (callbacks p', warns, fns p', err) ∧
           log = warns ++ match err with Some e => [Error_compile e] | None => [] end.
Proof.
  unfold compile. pose proof (compile_candidates p) as Hc.
  destruct (compile_scan _ _) as [cbs m]. rewrite Hc. intros H.
  apply bind_Some in H as ([[[cs' warns] fns'] e] & Hs & H).
  destruct e as [e|]; apply (inj Some) in H; injection H as <- <- <-; simpl;
    (split_and!; [done|done|exists warns; split; [done|]]).
  - done.
  - by rewrite app_nil_r.
Qed.
End compile_facts.

(** ** Registries of unconstrained steps *)

Section unconstrained_facts.
Context {DB : Type}.
Implicit Types (c : callback DB) (cs : list (callback DB)) (p : processor DB).
Implicit Types (names sorted : list string).

Lemma less_callback_unconstrained c c' : unconstrained c' → less_callback c c' = false.
Proof. intros (Hb & Ha & _). unfold less_callback. by rewrite Hb, Ha. Qed.

Lemma SliceStable_unconstrained cs :
  Forall unconstrained cs → SliceStable less_callback cs = cs.
Proof.
  intros Hu. apply SliceStable_sorted. intros i j _. unfold Less.
  destruct (cs !! j) as [x|]; [|done]. destruct (cs !! i) as [y|] eqn:Hi; [|done].
  apply less_callback_unconstrained. eapply Forall_lookup_1; eauto.
Qed.

Lemma collect_names_fresh cs rest names warns :
  NoDup (names ++ (name <$> rest)) →
  collect_names cs rest names warns = Some (names ++ (name <$> rest), warns).
Proof.
  revert names. induction rest as [|c rest IH]; intros names Hnd; simpl.
  { by rewrite app_nil_r. }
  assert (getRIndex names (name c) = (-1)%Z) as ->.
  { apply getRIndex_absent. apply NoDup_app in Hnd as (_ & Hd & _).
    intros Hin. apply (Hd _ Hin). by left. }
  simpl. rewrite IH; rewrite <-app_assoc; done.
Qed.

Lemma sortCallback_unconstrained fuel names i cs sorted c :
  cs !! i = Some c → before c = "" → after c = "" → name c ∉ sorted →
  sortCallback (S fuel) names i (cs, sorted) = Some ((cs, sorted ++ [name c]), None).
Proof.
  intros Hi Hb Ha Hn. cbn [sortCallback]. simpl. rewrite Hi. simpl.
  unfold before_branch. rewrite Hb. simpl. rewrite Hi. simpl.
  unfold after_branch. rewrite Ha. simpl.
  apply getRIndex_eqb_absent in Hn. by rewrite Hn.
Qed.

Lemma sort_each_unconstrained fuel cs k m :
  Forall unconstrained cs → NoDup (name <$> cs) → k + m ≤ length cs →
  sort_each (S fuel) (name <$> cs) (seq k m) (cs, take k (name <$> cs))
  = Some ((cs, take (k + m) (name <$> cs)), None).
Proof.
  intros Hu Hnd. revert k. induction m as [|m IH]; intros k Hk.
  { by rewrite Nat.add_0_r. }
  cbn [seq sort_each].
  destruct (lookup_lt_is_Some_2 cs k) as [c Hc]; [lia|].
  destruct (Forall_lookup_1 _ _ _ _ Hu Hc) as (Hb & Ha & _).
  assert ((name <$> cs) !! k = Some (name c)) as Hnk.
  { by rewrite list_lookup_fmap, Hc. }
  rewrite (sortCallback_unconstrained _ _ _ _ _ c Hc Hb Ha).
  - simpl. rewrite <-(take_S_r _ _ _ Hnk). rewrite IH by lia.
    by rewrite Nat.add_succ_r.
  - intros (j & Hj & Hlt)%elem_of_take.
    pose proof (NoDup_lookup _ _ _ _ Hnd Hj Hnk). lia.
Qed.

Lemma collect_fns_unconstrained cs k fns :
  Forall unconstrained cs → NoDup (name <$> cs) →
  collect_fns cs (name <$> cs) (drop k (name <$> cs)) fns
  = Some (fns ++ (handler <$> drop k cs)).
Proof.
  intros Hu Hnd. remember (length cs - k) as m eqn:Hm.
  revert k fns Hm. induction m as [|m IH]; intros k fns Hm.
  { rewrite !drop_ge by (rewrite ?length_fmap; lia). simpl. by rewrite app_nil_r. }
  destruct (lookup_lt_is_Some_2 cs k) as [c Hc]; [lia|].
  destruct (Forall_lookup_1 _ _ _ _ Hu Hc) as (_ & _ & Hr & _).
  assert ((name <$> cs) !! k = Some (name c)) as Hnk.
  { by rewrite list_lookup_fmap, Hc. }
  rewrite (drop_S _ _ _ Hnk), (drop_S _ _ _ Hc). cbn [collect_fns].
  rewrite (getRIndex_NoDup _ _ _ Hnd Hnk), index_of_nat, Hc. simpl.
  rewrite Hr, IH by lia. by rewrite <-app_assoc.
Qed.

Lemma sortCallbacks_unconstrained fuel cs :
  Forall unconstrained cs → NoDup (name <$> cs) →
  sortCallbacks (S fuel) cs = Some (cs, [], handler <$> cs, None).
Proof.
  intros Hu Hnd. unfold sortCallbacks.
  rewrite SliceStable_unconstrained by done.
  rewrite (collect_names_fresh cs cs [] []) by done. simpl.
  pose proof (sort_each_unconstrained fuel cs 0 (length cs) Hu Hnd (le_n _)) as Hs.
  rewrite take_0 in Hs. rewrite Hs. simpl.
  rewrite take_ge by (rewrite length_fmap; lia).
  pose proof (collect_fns_unconstrained cs 0 [] Hu Hnd) as Hf.
  rewrite !drop_0 in Hf. by rewrite Hf.
Qed.

Lemma candidates_unconstrained p :
  Forall unconstrained (callbacks p) → candidates p = callbacks p.
Proof.
  intros Hu. unfold candidates.
  assert (removed_names (callbacks p) = []) as ->.
  { unfold removed_names. induction Hu as [|c cs (_ & _ & Hr & _) Hu IH]; [done|].
    rewrite filter_cons, decide_False by congruence. done. }
  induction Hu as [|c cs (_ & _ & _ & Hm) Hu IH]; [done|].
  rewrite filter_cons, decide_True; [by rewrite IH|].
  split; [|apply not_elem_of_nil]. unfold match_ok. by rewrite Hm.
Qed.

Lemma compile_unconstrained fuel p :
  Forall unconstrained (callbacks p) → NoDup (name <$> callbacks p) →
  compile (S fuel) p
  = Some (Processor (db p) (Clauses p) (handler <$> callbacks p) (callbacks p), [], None).
Proof.
  intros Hu Hnd. unfold compile. pose proof (compile_candidates p) as Hc.
  destruct (compile_scan _ _) as [cbs m]. rewrite Hc, candidates_unconstrained by done.
  by rewrite sortCallbacks_unconstrained.
Qed.

Lemma unconstrained_plain r : unconstrained (@plain DB r).
Proof. done. Qed.

Lemma fmap_plain_name (regs : list (string * option (DB → DB))) :
  name <$> (plain <$> regs) = regs.*1.
Proof. rewrite <-list_fmap_compose. done. Qed.

Lemma fmap_plain_handler (regs : list (string * option (DB → DB))) :
  handler <$> (plain <$> regs) = regs.*2.
Proof. rewrite <-list_fmap_compose. done. Qed.

Lemma register_all_plain fuel regs : ∀ regs0 p,
  callbacks p = plain <$> regs0 → fns p = regs0.*2 → NoDup ((regs0 ++ regs).*1) →
  ∃ p', register_all (S fuel) regs p
          = Some (p', [], replicate (length regs) None) ∧
        callbacks p' = plain <$> (regs0 ++ regs) ∧ fns p' = (regs0 ++ regs).*2.
Proof.
  induction regs as [|r regs IH]; intros regs0 p Hcb Hfn Hnd.
  { exists p. by rewrite app_nil_r. }
  cbn [register_all]. unfold Register, callback_Register.
  change (set_handler r.2 (set_name r.1 new_callback)) with (plain r).
  assert (callbacks p ++ [plain r] = plain <$> (regs0 ++ [r])) as Hcb1.
  { by rewrite Hcb, fmap_app. }
  assert (NoDup (((regs0 ++ [r]) ++ regs).*1)) as Hnd1 by by rewrite <-app_assoc.
  rewrite compile_unconstrained; simpl; rewrite Hcb1.
  - destruct (IH (regs0 ++ [r])
                (Processor (db p) (Clauses p) (handler <$> (plain <$> (regs0 ++ [r])))
                   (plain <$> (regs0 ++ [r])))) as (p' & -> & Hp');
      [done|apply fmap_plain_handler|done|].
    simpl. exists p'. split; [done|]. by rewrite <-app_assoc in Hp'.
  - apply Forall_fmap, Forall_true. intros r'. apply unconstrained_plain.
  - rewrite fmap_plain_name. rewrite fmap_app in Hnd1.
    by apply NoDup_app in Hnd1 as (? & _).
Qed.
End unconstrained_facts.

(** ** Consequences for [compile] *)

Section compile_consequences.
Context {DB : Type}.
Implicit Types (c : callback DB) (cs : list (callback DB)) (p : processor DB).
Implicit Types (names sorted : list string).

Lemma compile_unfold fuel p :
  compile fuel p =
    '(cs', warns, fns', err) ← sortCallbacks fuel (candidates p);
    match err with
    | Some e => Some (Processor (db p) (Clauses p) fns' cs',
                      warns ++ [Error_compile e], Some e)
    | None => Some (Processor (db p) (Clauses p) fns' cs', warns, None)
    end.
Proof.
  unfold compile. pose proof (compile_candidates p) as Hc.
  destruct (compile_scan _ _) as [cbs m]. by rewrite Hc.
Qed.

Lemma candidates_all p :
  Forall (λ c, remove c = false ∧ match_ok (db p) c = true) (callbacks p) →
  candidates p = callbacks p.
Proof.
  intros Hu. unfold candidates.
  assert (removed_names (callbacks p) = []) as ->.
  { unfold removed_names. induction Hu as [|c cs (Hr & _) Hu IH]; [done|].
    rewrite filter_cons, decide_False by congruence. done. }
  induction Hu as [|c cs (_ & Hm) Hu IH]; [done|].
  rewrite filter_cons, decide_True; [by rewrite IH|].
  split; [done|apply not_elem_of_nil].
Qed.

Lemma candidates_not_removed p c : c ∈ candidates p → remove c = false.
Proof.
  unfold candidates. intros (Hc & Hin)%list_elem_of_filter.
  destruct (remove c) eqn:Hr; [|done]. destruct Hc as [_ Hc]. destruct Hc.
  unfold removed_names. apply list_elem_of_fmap_2. by apply list_elem_of_filter.
Qed.

Lemma candidates_filter_remove p :
  filter (λ c, remove c = false) (candidates p) = candidates p.
Proof.
  assert (Forall (λ c, remove c = false) (candidates p)) as HF.
  { apply Forall_forall. apply candidates_not_removed. }
  induction HF as [|c cs Hc HF IH]; [done|]. by rewrite filter_cons_True, IH.
Qed.

(** The registry a returning [compile] leaves behind holds the candidate
    set, each step with the [core] it was registered with. *)
Lemma compile_core_perm fuel p p' log err :
  compile fuel p = Some (p', log, err) →
  core <$> callbacks p' ≡ₚ core <$> candidates p.
Proof.
  intros (_ & _ & warns & (sorted & Hc & _)%sortCallbacks_Some & _)%compile_Some.
  rewrite Hc. by rewrite SliceStable_perm.
Qed.

Lemma compile_fns_perm fuel p p' log :
  NoDup (name <$> candidates p) →
  compile fuel p = Some (p', log, None) →
  fns p' ≡ₚ handler <$> candidates p.
Proof.
  intros Hnd (_ & _ & warns & Hs & _)%compile_Some.
  apply sortCallbacks_perm in Hs; [|done]. by rewrite candidates_filter_remove in Hs.
Qed.

Lemma compile_fns_error fuel p p' log e :
  compile fuel p = Some (p', log, Some e) → fns p' = [] ∧ Error_compile e ∈ log.
Proof.
  intros (_ & _ & warns & (sorted & _ & _ & _ & Hf)%sortCallbacks_Some & ->)%compile_Some.
  split; [done|]. apply elem_of_app. right. by left.
Qed.

Lemma core_elem_of c cs cs' :
  core <$> cs' ≡ₚ core <$> cs → c ∈ cs → ∃ c', c' ∈ cs' ∧ core c' = core c.
Proof.
  intros Hp Hc. assert (core c ∈ core <$> cs') as (c' & ? & ?)%list_elem_of_fmap.
  { rewrite Hp. by apply list_elem_of_fmap_2. }
  eauto.
Qed.

(** A successful [sortCallbacks] includes the handler of the last
    callback of every name, unless it is a removal marker. *)
Lemma sortCallbacks_fns_elem fuel cs0 cs' warns fns nm :
  sortCallbacks fuel cs0 = Some (cs', warns, fns, None) →
  nm ∈ name <$> cs' →
  ∃ c, index cs' (getRIndex (name <$> cs') nm) = Some c ∧ name c = nm ∧
       (remove c = false → handler c ∈ fns).
Proof.
  intros (sorted & _ & _ & _ & Hall & Hf)%sortCallbacks_Some Hnm.
  apply collect_fns_Some in Hf as (cbs & HF & ->). simpl.
  destruct (index_getRIndex cs' nm Hnm) as (c & Hc & Hn & _).
  exists c. split_and!; [done|done|]. intros Hr.
  apply Hall in Hnm. apply list_elem_of_lookup in Hnm as [i Hi].
  destruct (Forall2_lookup_l _ _ _ _ _ HF Hi) as (c' & Hc' & Hix).
  rewrite Hc in Hix. apply (inj Some) in Hix as <-.
  apply list_elem_of_fmap_2, list_elem_of_filter. split; [done|].
  by eapply list_elem_of_lookup_2.
Qed.
End compile_consequences.

(** ** The insertion sort that [sort.SliceStable] runs on short slices *)

Section insertion_facts.
Context {A : Type} (less : A → A → bool).
Implicit Types (x y : A) (r l data suf : list A).

Lemma Swap_adjacent l y x suf :
  Swap (l ++ y :: x :: suf) (S (length l)) (length l) = l ++ x :: y :: suf.
Proof.
  unfold Swap.
  assert ((l ++ y :: x :: suf) !! S (length l) = Some x) as ->.
  { rewrite lookup_app_r by lia. by replace (S (length l) - length l) with 1 by lia. }
  assert ((l ++ y :: x :: suf) !! length l = Some y) as ->.
  { by rewrite list_lookup_middle. }
  rewrite insert_app_r_alt by lia.
  replace (S (length l) - length l) with 1 by lia. simpl.
  rewrite insert_app_r_alt by lia. by rewrite Nat.sub_diag.
Qed.

Lemma length_sink x r : length (sink less x r) = S (length r).
Proof. induction r as [|y r IH]; simpl; [done|]. destruct (less x y); simpl; lia. Qed.

Lemma insertion_inner_sink r x suf :
  insertion_inner less (reverse r ++ x :: suf) 0 (length r)
  = reverse (sink less x r) ++ suf.
Proof.
  revert suf. induction r as [|y r IH]; intros suf; [done|].
  cbn [length insertion_inner sink].
  rewrite reverse_cons, <-app_assoc. cbn [app].
  assert (Less less (reverse r ++ y :: x :: suf) (S (length r)) (length r) = less x y)
    as ->.
  { unfold Less. rewrite <-(length_reverse r).
    rewrite lookup_app_r by lia.
    replace (S (length (reverse r)) - length (reverse r)) with 1 by lia.
    by rewrite list_lookup_middle. }
  simpl. destruct (less x y).
  - rewrite <-(length_reverse r), Swap_adjacent, length_reverse, IH.
    by rewrite reverse_cons, <-app_assoc.
  - by rewrite !reverse_cons, <-!app_assoc.
Qed.

Lemma insertion_rounds r suf :
  foldl (λ d i, insertion_inner less d 0 i) (reverse r ++ suf)
    (seq (length r) (length suf))
  = reverse (foldl (λ r x, sink less x r) r suf).
Proof.
  revert r. induction suf as [|x suf IH]; intros r; simpl.
  { by rewrite app_nil_r. }
  rewrite insertion_inner_sink. rewrite <-(length_sink x r). apply IH.
Qed.

Lemma insertionSort_sink data :
  insertionSort less data 0 (length data)
  = reverse (foldl (λ r x, sink less x r) [] data).
Proof.
  unfold insertionSort. destruct data as [|x data]; [done|].
  simpl. rewrite Nat.sub_0_r. apply (insertion_rounds [x] data).
Qed.

Lemma SliceStable_short data :
  length data ≤ 20 →
  SliceStable less data = reverse (foldl (λ r x, sink less x r) [] data).
Proof.
  intros Hl. rewrite <-insertionSort_sink. unfold SliceStable, stable.
  destruct (decide (length data = 20)) as [E|E].
  - rewrite E. cbn [insertion_blocks]. simpl (20 <=? 20). cbv iota.
    cbn [insertion_blocks]. simpl (20 + 20 <=? 20). cbv iota beta.
    cbn [merge_passes]. simpl (20 <? 20). cbv iota.
    unfold insertionSort at 1. simpl (seq _ _). done.
  - destruct (length data) as [|n] eqn:En; [done|].
    cbn [insertion_blocks merge_passes].
    destruct (Nat.leb_spec 20 (S n)); [lia|].
    destruct (Nat.ltb_spec 20 (S n)); [lia|]. done.
Qed.

(** [sink] on a prefix made of a block [rw] that [x] may enter and a block
    [rp] that stops it. *)
Lemma sink_stop x rp :
  (∀ y, head rp = Some y → less x y = false) → sink less x rp = x :: rp.
Proof. intros H. destruct rp as [|y rp]; [done|]. simpl. by rewrite H. Qed.

Lemma sink_pass x rw rp :
  Forall (λ y, less x y = true) rw → sink less x (rw ++ rp) = rw ++ sink less x rp.
Proof. induction 1 as [|y rw Hy _ IH]; simpl; [done|]. by rewrite Hy, IH. Qed.

Lemma sink_split x r :
  ∃ r1 r2, r = r1 ++ r2 ∧ Forall (λ y, less x y = true) r1 ∧
           (∀ y, head r2 = Some y → less x y = false) ∧
           sink less x r = r1 ++ x :: r2.
Proof.
  induction r as [|y r (r1 & r2 & -> & H1 & H2 & IH)].
  { exists [], []. by split_and!. }
  simpl. destruct (less x y) eqn:Hy.
  - exists (y :: r1), r2. rewrite IH. split_and!; [done|by constructor|done|done].
  - exists [], (y :: r1 ++ r2). split_and!; [done|constructor| |done].
    intros y' [= <-]. done.
Qed.
End insertion_facts.

(** ** Registries whose steps declare wildcard anchors only *)

Section anchored_facts.
Context {DB : Type}.
Implicit Types (c x y : callback DB) (cs l r rw rp : list (callback DB)).
Implicit Types (p : processor DB) (names sorted : list string).

Lemma less_free_r x y : free_step y → less_callback x y = false.
Proof. intros [Hb Ha]. unfold less_callback. by rewrite Hb, Ha. Qed.

Lemma less_free_l x y :
  free_step x → first_step y ∨ last_step y → less_callback x y = true.
Proof.
  intros [Hb Ha] [[Hb' Ha']|[Hb' Ha']]; unfold less_callback;
    by rewrite Hb, Ha, Hb', Ha'.
Qed.

Lemma less_first_first x y : first_step x → first_step y → less_callback x y = false.
Proof. intros [Hb Ha] [Hb' Ha']. unfold less_callback. by rewrite Hb, Ha, Hb', Ha'. Qed.

Lemma less_first_last x y : first_step x → last_step y → less_callback x y = true.
Proof. intros [Hb Ha] [Hb' Ha']. unfold less_callback. by rewrite Hb, Ha, Hb', Ha'. Qed.

Lemma less_last_first x y : last_step x → first_step y → less_callback x y = true.
Proof. intros [Hb Ha] [Hb' Ha']. unfold less_callback. by rewrite Hb, Ha, Hb', Ha'. Qed.

Lemma less_last_last x y : last_step x → last_step y → less_callback x y = false.
Proof. intros [Hb Ha] [Hb' Ha']. unfold less_callback. by rewrite Hb, Ha, Hb', Ha'. Qed.

Lemma first_not_last c : first_step c → ¬ last_step c.
Proof. intros [Hb _] [Hb' _]. congruence. Qed.

Lemma first_not_free c : first_step c → ¬ free_step c.
Proof. intros [Hb _] [Hb' _]. congruence. Qed.

Lemma last_not_free c : last_step c → ¬ free_step c.
Proof. intros [_ Ha] [_ Ha']. congruence. Qed.

(** An anchored step sinks past the steps of the other anchor only. *)
Lemma sink_anchored (mine other : callback DB → Prop) x rw rp :
  (∀ y, other y → less_callback x y = true) →
  (∀ y, mine y → less_callback x y = false) →
  (∀ y, free_step y → less_callback x y = false) →
  Forall (λ y, mine y ∨ other y) rw → Forall free_step rp →
  ∃ r1 r2, rw = r1 ++ r2 ∧ Forall other r1 ∧
           sink less_callback x (rw ++ rp) = (r1 ++ x :: r2) ++ rp.
Proof.
  intros Ho Hm Hf Hrw Hrp.
  destruct (sink_split less_callback x rw) as (r1 & r2 & -> & H1 & H2 & _).
  exists r1, r2. split_and!; [done| |].
  - apply Forall_app in Hrw as [Hr1 _].
    apply Forall_forall. intros y Hy.
    destruct (proj1 (Forall_forall _ _) Hr1 y Hy) as [Hmy|]; [|done].
    pose proof (Hm y Hmy) as E.
    by rewrite (proj1 (Forall_forall _ _) H1 y Hy) in E.
  - rewrite <-!app_assoc. rewrite sink_pass by done. f_equal.
    apply sink_stop. intros y Hy. destruct r2 as [|y' r2]; simpl in Hy.
    + apply Hf. destruct rp as [|y' rp]; simplify_eq/=. by apply Forall_cons in Hrp as [? _].
    + simplify_eq. by apply H2.
Qed.

Lemma filter_none (P : callback DB → Prop) `{∀ c, Decision (P c)} l :
  Forall (λ c, ¬ P c) l → filter P l = [].
Proof. induction 1 as [|c l Hc _ IH]; [done|]. by rewrite filter_cons_False. Qed.

Lemma filter_all (P : callback DB → Prop) `{∀ c, Decision (P c)} l :
  Forall P l → filter P l = l.
Proof. induction 1 as [|c l Hc _ IH]; [done|]. by rewrite filter_cons_True, IH. Qed.

(** The sorted prefix, listed backwards: the anchored steps, then the free
    ones, each class in its original order. *)
Lemma sink_classes l :
  Forall (λ c, free_step c ∨ first_step c ∨ last_step c) l →
  ∃ rw, foldl (λ r x, sink less_callback x r) [] l = rw ++ reverse (filter free_step l) ∧
        Forall (λ c, first_step c ∨ last_step c) rw ∧
        filter first_step rw = reverse (filter first_step l) ∧
        filter last_step rw = reverse (filter last_step l).
Proof.
  induction l as [|x l IH] using rev_ind; intros Hl.
  { exists []. by split_and!. }
  apply Forall_app in Hl as [Hl Hx]. apply Forall_inv in Hx. simpl in Hx.
  destruct (IH Hl) as (rw & HR & Hrw & Hf & Hla). clear IH.
  rewrite foldl_snoc, HR, !filter_app, !reverse_app.
  assert (Forall free_step (reverse (filter free_step l))) as Hrp.
  { apply Forall_reverse, Forall_forall. by intros c [? _]%list_elem_of_filter. }
  destruct Hx as [Hx|[Hx|Hx]].
  - exists rw. rewrite sink_pass.
    2:{ eapply Forall_impl; [done|]. intros y Hy. by apply less_free_l. }
    rewrite sink_stop.
    2:{ intros y Hy. apply less_free_r.
        destruct (reverse (filter free_step l)) as [|y' rp]; simplify_eq/=.
        by apply Forall_cons in Hrp as [? _]. }
    rewrite (filter_cons_True free_step) by done.
    rewrite (filter_cons_False first_step) by (intros ?; by eapply first_not_free).
    rewrite (filter_cons_False last_step) by (intros ?; by eapply last_not_free).
    by split_and!.
  - destruct (sink_anchored first_step last_step x rw _
                (λ y, less_first_last x y Hx) (λ y, less_first_first x y Hx)
                (λ y Hy, less_free_r x y Hy) Hrw Hrp) as (r1 & r2 & -> & Hr1 & ->).
    exists (r1 ++ x :: r2).
    rewrite (filter_cons_False free_step) by by apply first_not_free.
    rewrite (filter_cons_True first_step) by done.
    rewrite (filter_cons_False last_step) by by apply first_not_last.
    rewrite !filter_app in *. rewrite (filter_cons_True first_step) by done.
    rewrite (filter_cons_False last_step) by by apply first_not_last.
    rewrite (filter_none first_step r1) in *
      by (eapply Forall_impl; [done|]; intros y Hy Hy'; by eapply first_not_last).
    apply Forall_app in Hrw as [Hw1 Hw2].
    split_and!; [done| |by rewrite <-Hf|done].
    apply Forall_app. split; [done|]. constructor; [by left|done].
  - assert (Forall (λ y, last_step y ∨ first_step y) rw) as Hrw'.
    { eapply Forall_impl; [done|]. intros y [?|?]; auto. }
    destruct (sink_anchored last_step first_step x rw _
                (λ y, less_last_first x y Hx) (λ y, less_last_last x y Hx)
                (λ y Hy, less_free_r x y Hy) Hrw' Hrp) as (r1 & r2 & -> & Hr1 & ->).
    exists (r1 ++ x :: r2).
    rewrite (filter_cons_False free_step) by by apply last_not_free.
    rewrite (filter_cons_True last_step) by done.
    rewrite (filter_cons_False first_step) by (intros ?; by eapply first_not_last).
    rewrite !filter_app in *. rewrite (filter_cons_True last_step) by done.
    rewrite (filter_cons_False first_step) by (intros ?; by eapply first_not_last).
    rewrite (filter_none last_step r1) in *
      by (eapply Forall_impl; [done|]; intros y Hy Hy'; by eapply first_not_last).
    apply Forall_app in Hrw as [Hw1 Hw2].
    split_and!; [done| |done|by rewrite <-Hla].
    apply Forall_app. split; [done|]. constructor; [by right|done].
Qed.

Lemma filter_ext_Forall (P Q : callback DB → Prop)
    `{∀ c, Decision (P c)} `{∀ c, Decision (Q c)} l :
  Forall (λ c, P c ↔ Q c) l → filter P l = filter Q l.
Proof.
  induction 1 as [|c l Hc _ IH]; [done|]. rewrite !filter_cons, IH.
  destruct (decide (P c)), (decide (Q c)); tauto.
Qed.

(** On a short slice the sort moves the free steps to the front and keeps
    each class in its original order. *)
Lemma SliceStable_classes cs :
  length cs ≤ 20 →
  Forall (λ c, free_step c ∨ first_step c ∨ last_step c) cs →
  filter first_step (SliceStable less_callback cs) = filter first_step cs ∧
  filter free_step (SliceStable less_callback cs) = filter free_step cs ∧
  filter last_step (SliceStable less_callback cs) = filter last_step cs ∧
  filter (λ c, ¬ first_step c) (SliceStable less_callback cs)
  = filter free_step cs ++ filter last_step cs.
Proof.
  intros Hl Hc. rewrite SliceStable_short by done.
  destruct (sink_classes cs Hc) as (rw & -> & Hrw & Hf & Hla).
  rewrite reverse_app, reverse_involutive, !filter_app, !filter_reverse, Hf, Hla.
  rewrite !reverse_involutive.
  assert (Forall free_step (filter free_step cs)) as Hfree.
  { apply Forall_forall. by intros c [? _]%list_elem_of_filter. }
  rewrite (filter_none first_step (filter free_step cs))
    by (eapply Forall_impl; [done|]; intros c ??; by eapply first_not_free).
  rewrite (filter_none last_step (filter free_step cs))
    by (eapply Forall_impl; [done|]; intros c ??; by eapply last_not_free).
  rewrite (filter_all free_step (filter free_step cs)) by done.
  rewrite (filter_none free_step rw).
  2:{ eapply Forall_impl; [done|]. intros c [?|?] ?;
        [by eapply first_not_free|by eapply last_not_free]. }
  rewrite (filter_all (λ c, ¬ first_step c) (filter free_step cs))
    by (eapply Forall_impl; [done|]; intros c ??; by eapply first_not_free).
  rewrite (filter_ext_Forall (λ c, ¬ first_step c) last_step rw), Hla.
  - by rewrite reverse_involutive, app_nil_r.
  - eapply Forall_impl; [done|]. intros c [Hc1|Hc1]; simpl.
    + split; [done|]. intros ? ?. by eapply first_not_last.
    + split; [done|]. intros _ ?. by eapply first_not_last.
Qed.

Lemma place_spec sorted c :
  place sorted c =
    if (getRIndex sorted (name c) =? -1)%Z
    then if decide (first_step c) then name c :: sorted else sorted ++ [name c]
    else sorted.
Proof.
  unfold place. destruct (getRIndex sorted (name c) =? -1)%Z eqn:E.
  - apply getRIndex_eqb_absent in E. by rewrite decide_False.
  - rewrite decide_True; [done|]. apply getRIndex_present. by apply Z.eqb_neq.
Qed.

Lemma sortCallback_anchored fuel names i cs sorted c :
  cs !! i = Some c → free_step c ∨ first_step c ∨ last_step c → "*" ∉ names →
  sortCallback (S fuel) names i (cs, sorted) = Some ((cs, place sorted c), None).
Proof.
  intros Hi Hc Hstar. apply getRIndex_absent in Hstar.
  rewrite place_spec. cbn [sortCallback]. simpl. rewrite Hi. simpl.
  unfold before_branch, after_branch, append_unsorted.
  destruct Hc as [Hc|[Hc|Hc]]; pose proof Hc as [Hb Ha];
    repeat (progress (simpl; rewrite ?Hi, ?Hb, ?Ha)).
  - rewrite decide_False by (intros ?; by eapply first_not_free).
    by destruct (getRIndex sorted (name c) =? -1)%Z.
  - rewrite decide_True by done. destruct sorted as [|s sorted];
      repeat (progress (simpl; rewrite ?Hi, ?Hb, ?Ha, ?Hstar)); [done|].
    destruct (getRIndex (s :: sorted) (name c) =? -1)%Z eqn:E;
      repeat (progress (simpl; rewrite ?Hi, ?Hb, ?Ha, ?E)); [|done].
    assert ((getRIndex (name c :: s :: sorted) (name c) =? -1)%Z = false) as ->; [|done].
    apply Z.eqb_neq, getRIndex_present. by left.
  - rewrite decide_False by (intros ?; by eapply first_not_last).
    destruct sorted as [|s sorted];
      repeat (progress (simpl; rewrite ?Hi, ?Hb, ?Ha, ?Hstar)); [done|].
    destruct (getRIndex (s :: sorted) (name c) =? -1)%Z eqn:E;
      repeat (progress (simpl; rewrite ?Hi, ?Hb, ?Ha, ?E)); [|done].
    assert ((getRIndex (s :: sorted ++ [name c]) (name c) =? -1)%Z = false) as ->;
      [|done].
    apply Z.eqb_neq, getRIndex_present. right. apply elem_of_app. right. by left.
Qed.

Lemma sort_each_anchored fuel cs m : ∀ k sorted,
  Forall (λ c, free_step c ∨ first_step c ∨ last_step c) cs →
  "*" ∉ name <$> cs → k + m ≤ length cs →
  sort_each (S fuel) (name <$> cs) (seq k m) (cs, sorted)
  = Some ((cs, foldl place sorted (take m (drop k cs))), None).
Proof.
  induction m as [|m IH]; intros k sorted Hc Hstar Hk; [done|].
  destruct (lookup_lt_is_Some_2 cs k) as [c Hi]; [lia|].
  cbn [seq sort_each].
  rewrite (sortCallback_anchored _ _ _ _ _ c Hi);
    [|exact (Forall_lookup_1 _ _ _ _ Hc Hi)|done].
  simpl. rewrite IH by (done || lia).
  by rewrite (drop_S _ _ _ Hi).
Qed.

Lemma foldl_place l : ∀ sorted,
  NoDup (sorted ++ (name <$> l)) →
  foldl place sorted l
  = reverse (name <$> filter first_step l) ++ sorted
    ++ (name <$> filter (λ c, ¬ first_step c) l).
Proof.
  induction l as [|c l IH]; intros sorted Hnd; simpl.
  { by rewrite app_nil_r. }
  assert (name c ∉ sorted) as Hc.
  { apply NoDup_app in Hnd as (_ & Hd & _). intros Hin. apply (Hd _ Hin). by left. }
  unfold place at 2. rewrite decide_False by done. rewrite !filter_cons.
  destruct (decide (first_step c)) as [Hf|Hf].
  - rewrite decide_False by tauto. rewrite IH.
    + rewrite fmap_cons, reverse_cons, <-!app_assoc. done.
    + simpl. apply NoDup_cons. split.
      * apply NoDup_app in Hnd as (_ & _ & Hl). apply NoDup_cons in Hl as [Hl _].
        rewrite not_elem_of_app. done.
      * apply NoDup_app in Hnd as (H1 & H2 & H3). apply NoDup_cons in H3 as [_ H3].
        apply NoDup_app. split_and!; [done| |done].
        intros x Hx Hx'. apply (H2 x Hx). by right.
  - rewrite decide_True by done. rewrite IH.
    + rewrite fmap_cons, <-!app_assoc. done.
    + rewrite <-app_assoc. done.
Qed.

Lemma collect_fns_names cs l fns :
  NoDup (name <$> cs) → (∀ c, c ∈ l → c ∈ cs ∧ remove c = false) →
  collect_fns cs (name <$> cs) (name <$> l) fns = Some (fns ++ (handler <$> l)).
Proof.
  intros Hnd. revert fns. induction l as [|c l IH]; intros fns Hl; simpl.
  { by rewrite app_nil_r. }
  destruct (Hl c) as [[i Hi]%list_elem_of_lookup Hr]; [by left|].
  assert ((name <$> cs) !! i = Some (name c)) as Hn by by rewrite list_lookup_fmap, Hi.
  rewrite (getRIndex_NoDup _ _ _ Hnd Hn), index_of_nat, Hi. simpl.
  rewrite Hr, IH; [by rewrite <-app_assoc|].
  intros c' Hc'. apply Hl. by right.
Qed.

Lemma compile_anchored fuel p :
  length (callbacks p) ≤ 20 → Forall anchored_only (callbacks p) →
  NoDup (name <$> callbacks p) → "*" ∉ name <$> callbacks p →
  compile (S fuel) p
  = Some (Processor (db p) (Clauses p)
            (reverse (handler <$> filter first_step (callbacks p))
             ++ (handler <$> filter free_step (callbacks p))
             ++ (handler <$> filter last_step (callbacks p)))
            (SliceStable less_callback (callbacks p)), [], None).
Proof.
  intros Hlen Hall Hnd Hstar.
  assert (Forall (λ c, free_step c ∨ first_step c ∨ last_step c) (callbacks p)) as Hcl.
  { apply (Forall_impl _ _ _ Hall). intros c Hc. by destruct Hc as [? _]. }
  rewrite compile_unfold, candidates_all.
  2:{ apply (Forall_impl _ _ _ Hall). intros c (_ & Hr & Hm).
      split; [done|]. unfold match_ok. by rewrite Hm. }
  unfold sortCallbacks. set (cs := SliceStable less_callback (callbacks p)).
  assert (cs ≡ₚ callbacks p) as Hp by apply SliceStable_perm.
  assert (NoDup (name <$> cs)) as Hnd' by by rewrite Hp.
  rewrite (collect_names_fresh cs cs [] []) by done. simpl.
  rewrite (sort_each_anchored fuel cs (length cs) 0 []);
    [|by rewrite Hp|by rewrite Hp|done].
  simpl. rewrite drop_0, firstn_all, foldl_place by done.
  rewrite app_nil_l, <-fmap_reverse, <-fmap_app.
  rewrite collect_fns_names; [|done|].
  2:{ intros c Hc. assert (c ∈ cs) as Hc'.
      { apply elem_of_app in Hc as [Hc|Hc].
        - rewrite elem_of_reverse in Hc. by apply list_elem_of_filter in Hc as [_ ?].
        - by apply list_elem_of_filter in Hc as [_ ?]. }
      split; [done|]. rewrite Hp in Hc'.
      by destruct (proj1 (Forall_forall _ _) Hall c Hc') as (_ & ? & _). }
  simpl. subst cs.
  destruct (SliceStable_classes (callbacks p) Hlen Hcl) as (-> & _ & _ & ->).
  by rewrite !fmap_app, fmap_reverse.
Qed.

(** *** Registration through the API *)

Implicit Types (regs : list (anchor * string * option (DB → DB))).

Lemma entry_anchored_only reg : anchored_only (@entry DB reg).
Proof.
  destruct reg as [[[] nm] fn]; (split; [|done]);
    [left|right; left|right; right]; done.
Qed.

Lemma entry_first reg : first_step (@entry DB reg) ↔ reg.1.1 = First.
Proof. destruct reg as [[[] nm] fn]; split; intros H; try done; by destruct H. Qed.

Lemma entry_free reg : free_step (@entry DB reg) ↔ reg.1.1 = Free.
Proof. destruct reg as [[[] nm] fn]; split; intros H; try done; by destruct H. Qed.

Lemma entry_last reg : last_step (@entry DB reg) ↔ reg.1.1 = Last.
Proof. destruct reg as [[[] nm] fn]; split; intros H; try done; by destruct H. Qed.

Lemma filter_entry (P : callback DB → Prop) `{∀ c, Decision (P c)} (a : anchor) regs :
  (∀ reg, P (entry reg) ↔ reg.1.1 = a) →
  handler <$> filter P (entry <$> regs) = actions_of a regs.
Proof.
  intros HP. unfold actions_of. induction regs as [|reg regs IH]; [done|].
  rewrite fmap_cons, !filter_cons.
  destruct (decide (P (entry reg))) as [Hr|Hr], (decide (reg.1.1 = a)) as [Ha|Ha].
  - rewrite !fmap_cons, IH. done.
  - by apply HP in Hr.
  - by apply HP in Ha.
  - done.
Qed.

Lemma register_anchored_spec fuel regs : ∀ regs0 p,
  length (regs0 ++ regs) ≤ 20 →
  NoDup ((regs0 ++ regs).*1.*2) → "*" ∉ (regs0 ++ regs).*1.*2 →
  registry_of regs0 (callbacks p) →
  fns p = reverse (actions_of First regs0) ++ actions_of Free regs0
          ++ actions_of Last regs0 →
  ∃ p', register_anchored (S fuel) regs p
          = Some (p', [], replicate (length regs) None) ∧
        registry_of (regs0 ++ regs) (callbacks p') ∧
        fns p' = reverse (actions_of First (regs0 ++ regs))
                 ++ actions_of Free (regs0 ++ regs)
                 ++ actions_of Last (regs0 ++ regs).
Proof.
  induction regs as [|reg regs IH]; intros regs0 p Hlen Hnd Hstar Hreg Hfns.
  { exists p. by rewrite app_nil_r. }
  replace (regs0 ++ reg :: regs) with ((regs0 ++ [reg]) ++ regs) in * by by rewrite <-app_assoc.
  cbn [register_anchored]. unfold callback_Register, set_callbacks.
  change (set_handler reg.2 (set_name reg.1.2 (anchored reg.1.1))) with (entry reg).
  set (X := callbacks p ++ [entry reg]).
  destruct Hreg as (Hp & Hf1 & Hf2 & Hf3).
  assert (X ≡ₚ entry <$> (regs0 ++ [reg])) as Hp1.
  { subst X. by rewrite Hp, fmap_app. }
  assert (name <$> (entry <$> (regs0 ++ [reg])) = (regs0 ++ [reg]).*1.*2) as Hnames.
  { rewrite <-!list_fmap_compose. apply list_fmap_ext. by intros _ [[[] ?] ?] _. }
  assert (length X ≤ 20) as Hlen1.
  { rewrite Hp1, length_fmap. rewrite length_app in Hlen. lia. }
  assert (Forall anchored_only X) as Hall1.
  { rewrite Hp1. apply Forall_fmap, Forall_true. intros ?. apply entry_anchored_only. }
  assert (((regs0 ++ [reg]) ++ regs).*1.*2
          = (regs0 ++ [reg]).*1.*2 ++ regs.*1.*2) as Hsplit by by rewrite !fmap_app.
  assert (NoDup (name <$> X)) as Hnd1.
  { rewrite Hp1, Hnames. rewrite Hsplit in Hnd. by apply NoDup_app in Hnd as [? _]. }
  assert ("*" ∉ name <$> X) as Hstar1.
  { rewrite Hp1, Hnames. rewrite Hsplit in Hstar.
    by apply not_elem_of_app in Hstar as [? _]. }
  rewrite (compile_anchored fuel (Processor (db p) (Clauses p) (fns p) X)
             Hlen1 Hall1 Hnd1 Hstar1).
  cbn [db Clauses callbacks mbind option_bind].
  assert (Forall (λ c, free_step c ∨ first_step c ∨ last_step c) X) as Hcl.
  { apply (Forall_impl _ _ _ Hall1). intros c Hc. by destruct Hc as [? _]. }
  destruct (SliceStable_classes X Hlen1 Hcl) as (Hs1 & Hs2 & Hs3 & _).
  assert (∀ (P : callback DB → Prop) `{∀ c, Decision (P c)},
            filter P (callbacks p) = filter P (entry <$> regs0) →
            filter P X = filter P (entry <$> (regs0 ++ [reg]))) as Hstep.
  { intros P ? HP. subst X. by rewrite fmap_app, !filter_app, HP. }
  edestruct (IH (regs0 ++ [reg])) as (p' & -> & Hreg' & Hfns'); [done|done|done| | |].
  - unfold registry_of. cbn [callbacks].
    rewrite Hs1, Hs2, Hs3, SliceStable_perm. split_and!; [done|by apply Hstep..].
  - cbn [fns]. rewrite (Hstep first_step _ Hf1), (Hstep free_step _ Hf2),
      (Hstep last_step _ Hf3).
    rewrite (filter_entry first_step First) by apply entry_first.
    rewrite (filter_entry free_step Free) by apply entry_free.
    rewrite (filter_entry last_step Last) by apply entry_last. done.
  - simpl. by exists p'.
Qed.
End anchored_facts.

(** ** A pair of mutually [before] steps among unconstrained ones *)

Section mutual_before.
Context {DB : Type}.
Implicit Types (c : callback DB) (cs l : list (callback DB)).
Implicit Types (names sorted : list string).

Lemma sort_each_app fuel names cis cis' (st : sort_state DB) :
  sort_each fuel names (cis ++ cis') st
  = '(st', err) ← sort_each fuel names cis st;
    match err with
    | Some e => Some (st', Some e)
    | None => sort_each fuel names cis' st'
    end.
Proof.
  revert st. induction cis as [|ci cis IH]; intros st; simpl; [done|].
  destruct (sortCallback fuel names ci st) as [[st1 [e|]]|]; simpl; [done| |done].
  apply IH.
Qed.

Lemma sort_each_free_range fuel names cs m : ∀ k sorted,
  Forall (λ c, before c = "" ∧ after c = "") (take m (drop k cs)) →
  k + m ≤ length cs →
  NoDup (sorted ++ (name <$> take m (drop k cs))) →
  sort_each (S fuel) names (seq k m) (cs, sorted)
  = Some ((cs, sorted ++ (name <$> take m (drop k cs))), None).
Proof.
  induction m as [|m IH]; intros k sorted Hf Hk Hnd.
  { simpl. by rewrite app_nil_r. }
  destruct (lookup_lt_is_Some_2 cs k) as [c Hc]; [lia|].
  rewrite (drop_S _ _ _ Hc) in Hf, Hnd |- *. cbn [take fmap list_fmap] in *.
  apply Forall_cons in Hf as [[Hb Ha] Hf].
  cbn [seq sort_each].
  rewrite (sortCallback_unconstrained _ _ _ _ _ c Hc Hb Ha).
  - simpl. rewrite IH; [by rewrite <-app_assoc|done|lia|by rewrite <-app_assoc].
  - apply NoDup_app in Hnd as (_ & Hd & _). intros Hin. apply (Hd _ Hin). by left.
Qed.

Lemma SliceStable_no_wildcard cs :
  Forall (λ c, before c ≠ "*" ∧ after c ≠ "*") cs → SliceStable less_callback cs = cs.
Proof.
  intros Hu. apply SliceStable_sorted. intros i j _. unfold Less.
  destruct (cs !! j) as [x|]; [|done]. destruct (cs !! i) as [y|] eqn:Hi; [|done].
  destruct (Forall_lookup_1 _ _ _ _ Hu Hi) as [Hb Ha].
  apply String.eqb_neq in Hb, Ha. unfold less_callback. by rewrite Hb, Ha.
Qed.

Lemma sortCallback_before_pending fuel names i j cs sorted c c' :
  cs !! i = Some c → before c ≠ "" → before c ≠ "*" → after c = "" →
  before c ∉ sorted → name c ∉ sorted →
  getRIndex names (before c) = Z.of_nat j → cs !! j = Some c' → i ≠ j →
  sortCallback (S fuel) names i (cs, sorted)
  = Some ((alter (set_after (name c)) j cs, sorted ++ [name c]), None).
Proof.
  intros Hi Hb Hb' Ha Hbs Hns Hj Hc' Hij.
  apply String.eqb_neq in Hb, Hb'. apply getRIndex_eqb_absent in Hbs, Hns.
  cbn [sortCallback]. simpl. rewrite Hi. simpl.
  unfold before_branch. rewrite Hb, Hb', Hbs, Hj. simpl.
  unfold update. rewrite index_of_nat, Hc', Nat2Z.id. simpl.
  assert ((Z.of_nat j =? -1)%Z = false) as -> by (apply Z.eqb_neq; lia). simpl.
  rewrite list_lookup_alter_ne, Hi by done. simpl.
  unfold after_branch. rewrite Ha. simpl. by rewrite Hns.
Qed.

Lemma sortCallback_mutual_conflict fuel names j cs s1 s2 c :
  cs !! j = Some c → before c ≠ "" → before c ≠ "*" → after c = before c →
  NoDup (s1 ++ name c :: before c :: s2) →
  sortCallback (S fuel) names j (cs, s1 ++ before c :: s2)
  = Some ((cs, s1 ++ name c :: before c :: s2), Some (conflict (name c) (before c))).
Proof.
  intros Hj Hb Hb' Ha Hnd.
  assert (NoDup (s1 ++ before c :: s2)) as Hnd'.
  { eapply sublist_NoDup; [exact Hnd|].
    apply sublist_app; [done|]. by apply sublist_cons. }
  assert (name c ∉ s1 ++ before c :: s2) as Hn.
  { apply NoDup_app in Hnd as (_ & Hd & Hnd2). apply NoDup_cons in Hnd2 as [Hn2 _].
    rewrite elem_of_app. intros [Hin|Hin]; [|done]. apply (Hd _ Hin). by left. }
  assert (getRIndex (s1 ++ before c :: s2) (before c) = Z.of_nat (length s1)) as E1.
  { apply getRIndex_NoDup; [done|]. by rewrite list_lookup_middle. }
  assert (getRIndex (s1 ++ name c :: before c :: s2) (before c)
          = Z.of_nat (S (length s1))) as E2.
  { apply getRIndex_NoDup; [done|].
    by rewrite (lookup_app_r s1) by lia; rewrite Nat.sub_succ_l, Nat.sub_diag by lia. }
  assert (getRIndex (s1 ++ name c :: before c :: s2) (name c)
          = Z.of_nat (length s1)) as E3.
  { apply getRIndex_NoDup; [done|]. by rewrite list_lookup_middle. }
  apply String.eqb_neq in Hb, Hb'. apply getRIndex_eqb_absent in Hn.
  cbn [sortCallback]. simpl. rewrite Hj. simpl.
  unfold before_branch. rewrite Hb, Hb', E1, Hn. simpl.
  assert ((Z.of_nat (length s1) =? -1)%Z = false) as -> by (apply Z.eqb_neq; lia).
  simpl. rewrite Nat2Z.id, take_app_length, drop_app_length, Hj. simpl.
  unfold after_branch. rewrite Ha, Hb, Hb', E2, E3. simpl.
  assert ((Z.of_nat (length s1) =? -1)%Z = false) as -> by (apply Z.eqb_neq; lia).
  assert ((Z.of_nat (length s1) <? Z.of_nat (S (length s1)))%Z = true) as ->
    by (apply Z.ltb_lt; lia).
  done.
Qed.

Lemma sortCallbacks_mutual_before fuel (A B : string) (f g : option (DB → DB)) l1 l2 :
  Forall unconstrained l1 → Forall unconstrained l2 →
  NoDup (name <$> l1 ++ set_before B (plain (A, f)) :: l2
                  ++ [set_before A (plain (B, g))]) →
  A ≠ "" → A ≠ "*" → B ≠ "" → B ≠ "*" →
  sortCallbacks (S fuel)
    (l1 ++ set_before B (plain (A, f)) :: l2 ++ [set_before A (plain (B, g))])
  = Some (l1 ++ set_before B (plain (A, f)) :: l2
             ++ [set_after A (set_before A (plain (B, g)))],
          [], [], Some (conflict B A)).
Proof.
  intros Hu1 Hu2 Hnd HA HA' HB HB'.
  set (a := set_before B (plain (A, f))) in *.
  set (b := set_before A (plain (B, g))) in *.
  set (cs := l1 ++ a :: l2 ++ [b]) in *.
  unfold sortCallbacks.
  rewrite SliceStable_no_wildcard.
  2:{ subst cs. rewrite Forall_app, Forall_cons, Forall_app, Forall_singleton.
      split_and!; try done.
      - eapply Forall_impl; [exact Hu1|]. intros c (-> & -> & _). done.
      - eapply Forall_impl; [exact Hu2|]. intros c (-> & -> & _). done. }
  rewrite (collect_names_fresh cs cs [] []) by done. simpl.
  assert (length cs = length l1 + (1 + (length l2 + 1))) as ->.
  { subst cs. rewrite length_app. simpl. rewrite length_app. simpl. lia. }
  rewrite !seq_app. simpl seq.
  assert (Hfree : ∀ l, Forall unconstrained l →
            Forall (λ c, before c = "" ∧ after c = "") l).
  { intros l Hl. eapply Forall_impl; [exact Hl|]. by intros c (? & ? & _). }
  assert (take (length l1) (drop 0 cs) = l1) as Ht1.
  { subst cs. by rewrite drop_0, take_app_length. }
  assert (names_cs : name <$> cs = (name <$> l1) ++ A :: (name <$> l2) ++ [B]).
  { subst cs. by rewrite fmap_app, fmap_cons, fmap_app. }
  rewrite names_cs in Hnd |- *.
  pose proof Hnd as Hnd0.
  apply NoDup_app in Hnd as (Hnd1 & Hd1 & Hnd2).
  set (names := (name <$> l1) ++ A :: (name <$> l2) ++ [B]) in *.
  assert (cs !! length l1 = Some a) as Hia by (subst cs; apply list_lookup_middle; done).
  assert (cs !! (length l1 + S (length l2)) = Some b) as Hib.
  { subst cs. rewrite lookup_app_r by lia.
    replace (length l1 + S (length l2) - length l1) with (S (length l2)) by lia.
    simpl. by rewrite lookup_app_r, Nat.sub_diag by lia. }
  assert (getRIndex names B = Z.of_nat (length l1 + S (length l2))) as HiB.
  { apply getRIndex_NoDup; [done|]. subst names. rewrite lookup_app_r; rewrite length_fmap; [|lia].
    replace (length l1 + S (length l2) - length l1) with (S (length l2)) by lia.
    simpl. by rewrite lookup_app_r, length_fmap, Nat.sub_diag by (rewrite length_fmap; lia). }
  assert (B ∉ (name <$> l1) ++ A :: (name <$> l2)) as HBn.
  { intros Hin. subst names. rewrite app_comm_cons, app_assoc in Hnd0.
    apply NoDup_app in Hnd0 as (_ & Hd & _). apply (Hd _ Hin). by left. }
  rewrite sort_each_app, sort_each_free_range; rewrite ?Ht1;
    [|by apply Hfree|subst cs; rewrite length_app; lia|done].
  cbn [mbind option_bind app sort_each].
  rewrite (sortCallback_before_pending fuel names (length l1)
             (length l1 + S (length l2)) cs (name <$> l1) a b);
    [|done|done|done|done| | |done|done|lia].
  2:{ intros Hin. apply HBn, elem_of_app. by left. }
  2:{ intros Hin. apply (Hd1 _ Hin). by left. }
  cbn [mbind option_bind].
  assert (alter (set_after (name a)) (length l1 + S (length l2)) cs
          = l1 ++ a :: l2 ++ [set_after A b]) as ->.
  { subst cs. rewrite alter_app_r. f_equal. simpl. f_equal.
    clear. induction l2 as [|x l2 IH]; [done|]. simpl. by rewrite IH. }
  set (cs1 := l1 ++ a :: l2 ++ [set_after A b]).
  assert (take (length l2) (drop (length l1 + 1) cs1) = l2) as Ht2.
  { subst cs1. rewrite drop_app_add'; [|done]. simpl. by rewrite drop_0, take_app_length. }
  rewrite sort_each_app, sort_each_free_range; rewrite ?Ht2;
    [|by apply Hfree|subst cs1; rewrite length_app; simpl; rewrite length_app; lia|].
  2:{ change (name a) with A. rewrite <-app_assoc. simpl.
      eapply sublist_NoDup; [exact Hnd0|]. subst names.
      apply sublist_app; [done|]. apply sublist_skip, sublist_inserts_r. done. }
  cbn [mbind option_bind sort_each]. change (name a) with A.
  rewrite <-app_assoc. simpl app.
  assert (cs1 !! (length l1 + 1 + length l2) = Some (set_after A b)) as Hib'.
  { subst cs1. rewrite lookup_app_r by lia.
    replace (length l1 + 1 + length l2 - length l1) with (S (length l2)) by lia.
    simpl. by rewrite lookup_app_r, Nat.sub_diag by lia. }
  rewrite (sortCallback_mutual_conflict fuel names _ cs1 (name <$> l1) (name <$> l2)
             (set_after A b) Hib'); [done|done|done|done|].
  simpl. apply NoDup_app. split; [done|]. split.
  - intros x Hx [->|[->|Hin]%elem_of_cons]%elem_of_cons.
    + apply HBn, elem_of_app. by left.
    + apply (Hd1 _ Hx). by left.
    + apply (Hd1 _ Hx). right. apply elem_of_app. by left.
  - apply NoDup_cons. split.
    + intros Hin. apply HBn, elem_of_app. by right.
    + eapply sublist_NoDup; [exact Hnd2|]. apply sublist_skip, sublist_inserts_r. done.
Qed.
End mutual_before.

(** ** What the merge passes of [sort.SliceStable] do to the slice *)

(** *** [swapRange] and [rotate] exchange neighbouring blocks *)

Section rotation_facts.
Context {A : Type}.
Implicit Types (x y : A) (l pre mid suf U V L R : list A).

Lemma Swap_apart pre x mid y suf :
  Swap (pre ++ x :: mid ++ y :: suf) (length pre) (length pre + S (length mid))
  = pre ++ y :: mid ++ x :: suf.
Proof.
  unfold Swap.
  assert ((pre ++ x :: mid ++ y :: suf) !! length pre = Some x) as ->
    by by rewrite list_lookup_middle.
  assert ((pre ++ x :: mid ++ y :: suf) !! (length pre + S (length mid)) = Some y) as ->.
  { rewrite lookup_app_r by lia.
    replace (length pre + S (length mid) - length pre) with (S (length mid)) by lia.
    simpl. by rewrite list_lookup_middle. }
  rewrite insert_app_r_alt, Nat.sub_diag by lia. simpl.
  rewrite insert_app_r_alt by lia.
  replace (length pre + S (length mid) - length pre) with (S (length mid)) by lia.
  simpl. by rewrite insert_app_r_alt, Nat.sub_diag by lia.
Qed.

Lemma foldl_seq_shift {B} (f : B → nat → B) (d : B) a n :
  foldl f d (seq (S a) n) = foldl (λ d i, f d (S i)) d (seq a n).
Proof.
  revert d a. induction n as [|n IH]; intros d a; simpl; [done|]. by rewrite IH.
Qed.

Lemma foldl_pointwise {B C} (f g : B → C → B) (xs : list C) : ∀ d,
  (∀ d c, f d c = g d c) → foldl f d xs = foldl g d xs.
Proof.
  induction xs as [|c xs IH]; intros d Hfg; simpl; [done|]. by rewrite Hfg, IH.
Qed.

Lemma swapRange_blocks U : ∀ pre mid V suf,
  length V = length U →
  swapRange (pre ++ U ++ mid ++ V ++ suf) (length pre)
    (length pre + length U + length mid) (length U)
  = pre ++ V ++ mid ++ U ++ suf.
Proof.
  unfold swapRange.
  induction U as [|u U IH]; intros pre mid V suf HV.
  { by destruct V. }
  destruct V as [|v V]; [done|]. simpl in HV.
  cbn [length seq foldl app]. rewrite !Nat.add_0_r.
  replace (length pre + S (length U) + length mid)
    with (length pre + S (length (U ++ mid))) by (rewrite length_app; lia).
  rewrite (app_assoc U mid), Swap_apart, <-(app_assoc U mid).
  rewrite foldl_seq_shift.
  specialize (IH (pre ++ [v]) (mid ++ [u]) V suf ltac:(lia)).
  rewrite <-!app_assoc in IH. cbn [app] in IH.
  rewrite !length_app in IH. cbn [length] in IH.
  rewrite <-IH. apply foldl_pointwise. intros d i. rewrite length_app. f_equal; lia.
Qed.
Lemma rotate_loop_blocks k : ∀ pre L R suf,
  L ≠ [] → R ≠ [] → length L + length R ≤ k →
  rotate_loop k (pre ++ L ++ R ++ suf) (length pre + length L) (length L) (length R)
  = pre ++ R ++ L ++ suf.
Proof.
  induction k as [|k IH]; intros pre L R suf HL HR Hk.
  { destruct L; [done|]. simpl in Hk. lia. }
  assert (0 < length L ∧ 0 < length R) as [HL' HR'].
  { destruct L, R; simpl; try done; lia. }
  cbn [rotate_loop].
  replace (length pre + length L - length L) with (length pre) by lia.
  destruct (Nat.eqb_spec (length L) (length R)) as [E|E].
  { pose proof (swapRange_blocks L pre [] R suf (eq_sym E)) as Hs.
    simpl in Hs. by rewrite Nat.add_0_r in Hs. }
  destruct (Nat.ltb_spec (length R) (length L)) as [Hlt|Hge].
  - rewrite <-(take_drop (length R) L) at 1.
    assert (length (take (length R) L) = length R) as Ht by (rewrite length_take; lia).
    assert (length (drop (length R) L) = length L - length R) as Hd
      by by rewrite length_drop.
    pose proof (swapRange_blocks (take (length R) L) pre (drop (length R) L) R suf) as Hs.
    rewrite Ht, Hd in Hs.
    replace (length pre + length R + (length L - length R))
      with (length pre + length L) in Hs by lia.
    rewrite <-app_assoc, Hs by done.
    pose proof (IH (pre ++ R) (drop (length R) L) (take (length R) L) suf) as Hr.
    rewrite length_app, Ht, Hd in Hr.
    replace (length pre + length R + (length L - length R))
      with (length pre + length L) in Hr by lia.
    rewrite <-!app_assoc in Hr. rewrite Hr.
    + by rewrite (app_assoc (take _ L)), take_drop.
    + intros E'. rewrite E' in Hd. simpl in Hd. lia.
    + intros E'. rewrite E' in Ht. simpl in Ht. lia.
    + lia.
  - assert (length L < length R) as Hlt by lia.
    rewrite <-(take_drop (length R - length L) R) at 1.
    assert (length (take (length R - length L) R) = length R - length L) as Ht
      by (rewrite length_take; lia).
    assert (length (drop (length R - length L) R) = length L) as Hd
      by (rewrite length_drop; lia).
    pose proof (swapRange_blocks L pre (take (length R - length L) R)
                  (drop (length R - length L) R) suf Hd) as Hs.
    rewrite Ht in Hs.
    replace (length pre + length L + length R - length L)
      with (length pre + length L + (length R - length L)) by lia.
    rewrite <-app_assoc, Hs.
    pose proof (IH pre (drop (length R - length L) R) (take (length R - length L) R)
                  (L ++ suf)) as Hr.
    rewrite Ht, Hd in Hr. rewrite Hr.
    + by rewrite (app_assoc (take _ R)), take_drop.
    + intros E'. rewrite E' in Hd. simpl in Hd. lia.
    + intros E'. rewrite E' in Ht. simpl in Ht. lia.
    + lia.
Qed.

Lemma rotate_blocks pre L R suf :
  L ≠ [] → R ≠ [] →
  rotate (pre ++ L ++ R ++ suf) (length pre) (length pre + length L)
    (length pre + length L + length R)
  = pre ++ R ++ L ++ suf.
Proof.
  intros HL HR. unfold rotate.
  replace (length pre + length L - length pre) with (length L) by lia.
  replace (length pre + length L + length R - (length pre + length L))
    with (length R) by lia.
  apply rotate_loop_blocks; [done|done|lia].
Qed.
End rotation_facts.

(** *** The loops of the single-element cases, and the binary search *)

Section shift_facts.
Context {A : Type}.
Implicit Types (x y : A) (l pre suf X Y : list A).

(** [for k := a; k < i-1; k++ { data.Swap(k, k+1) }] carries the element
    at [a] behind the block that follows it. *)
Lemma shift_right Y : ∀ pre x suf,
  foldl (λ d k, Swap d k (k + 1)) (pre ++ x :: Y ++ suf) (seq (length pre) (length Y))
  = pre ++ Y ++ x :: suf.
Proof.
  induction Y as [|y Y IH]; intros pre x suf; [done|].
  cbn [length seq foldl app].
  pose proof (Swap_apart pre x [] y (Y ++ suf)) as Hs. simpl in Hs. rewrite Hs.
  specialize (IH (pre ++ [y]) x suf).
  rewrite length_app, <-!app_assoc in IH. simpl in IH.
  by rewrite Nat.add_1_r in IH.
Qed.

(** [for k := m; k > i; k-- { data.Swap(k, k-1) }] carries the element at
    [m] in front of the block that precedes it. *)
Lemma shift_left X : ∀ pre y suf,
  foldl (λ d k, Swap d k (k - 1)) (pre ++ X ++ y :: suf)
    (rev (seq (length pre + 1) (length X)))
  = pre ++ y :: X ++ suf.
Proof.
  induction X as [|x X IH] using rev_ind; intros pre y suf; [done|].
  rewrite length_app, seq_app, rev_app_distr. cbn [length seq rev app foldl].
  replace (length pre + 1 + length X - 1) with (length (pre ++ X))
    by (rewrite length_app; lia).
  replace (length pre + 1 + length X) with (S (length (pre ++ X)))
    by (rewrite length_app; lia).
  rewrite <-(app_assoc X), (app_assoc pre X). cbn [app].
  rewrite Swap_adjacent, <-app_assoc, IH. by rewrite <-app_assoc.
Qed.

Lemma bisect_spec k test : ∀ i j,
  i ≤ j → j - i ≤ k →
  i ≤ bisect k test i j ≤ j ∧
  (bisect k test i j = i ∨ test (bisect k test i j - 1) = true) ∧
  (bisect k test i j = j ∨ test (bisect k test i j) = false).
Proof.
  induction k as [|k IH]; intros i j Hij Hk; cbn [bisect].
  { split; [lia|]. split; [by left|left; lia]. }
  destruct (Nat.ltb_spec i j) as [Hlt|Hge].
  2:{ split; [lia|]. split; [by left|left; lia]. }
  pose proof (half_bounds i j Hlt) as Hh. cbv zeta.
  destruct (test ((i + j) / 2)) eqn:Ht.
  - destruct (IH ((i + j) / 2 + 1) j) as (Hr & [H1|H1] & H2); [lia|lia|..].
    + split; [lia|]. split; [|done]. right.
      rewrite H1. by replace ((i + j) / 2 + 1 - 1) with ((i + j) / 2) by lia.
    + split; [lia|]. split; [by right|done].
  - destruct (IH i ((i + j) / 2)) as (Hr & H1 & [H2|H2]); [lia|lia|..].
    + split; [lia|]. split; [done|]. right. by rewrite H2.
    + split; [lia|]. split; [done|by right].
Qed.
End shift_facts.

(** *** Slices with their low elements first *)

Section low_first_facts.
Context {A : Type} (low : A → Prop) `{!∀ x, Decision (low x)}.
Implicit Types (x y : A) (l pre suf X Y M : list A).

Local Abbreviation high := (λ x, ¬ low x).

Lemma low_first_nil : low_first low [].
Proof. exists [], []. by split_and!. Qed.

Lemma low_first_low l : Forall low l → low_first low l.
Proof. intros Hl. exists l, []. rewrite app_nil_r. by split_and!. Qed.

Lemma low_first_high l : Forall high l → low_first low l.
Proof. intros Hl. exists [], l. by split_and!. Qed.

Lemma low_first_app l1 l2 :
  low_first low (l1 ++ l2) ↔
  low_first low l1 ∧ low_first low l2 ∧ (Forall low l1 ∨ Forall high l2).
Proof.
  split.
  - intros (a & b & E & Ha & Hb).
    apply app_eq_inv in E as [(k & -> & ->)|(k & -> & ->)].
    + apply Forall_app in Hb as [Hk Hb]. split_and!.
      * by exists a, k.
      * by apply low_first_high.
      * by right.
    + apply Forall_app in Ha as [Ha Hk]. split_and!.
      * by apply low_first_low.
      * by exists k, b.
      * by left.
  - intros ((a1 & b1 & -> & Ha1 & Hb1) & (a2 & b2 & -> & Ha2 & Hb2) & [Hl|Hh]).
    + apply Forall_app in Hl as [_ Hl].
      assert (b1 = []) as ->.
      { destruct b1 as [|x b1]; [done|].
        apply Forall_cons in Hl as [? _], Hb1 as [? _]. done. }
      exists (a1 ++ a2), b2. rewrite app_nil_r, <-app_assoc.
      split_and!; [done|by apply Forall_app|done].
    + apply Forall_app in Hh as [Hh _].
      assert (a2 = []) as ->.
      { destruct a2 as [|x a2]; [done|].
        apply Forall_cons in Hh as [? _], Ha2 as [? _]. done. }
      exists a1, (b1 ++ b2). rewrite <-app_assoc.
      split_and!; [done|done|by apply Forall_app].
Qed.

Lemma low_first_take_drop l n :
  low_first low l → low_first low (take n l) ∧ low_first low (drop n l) ∧
                    (Forall low (take n l) ∨ Forall high (drop n l)).
Proof. intros Hl. apply low_first_app. by rewrite take_drop. Qed.

(** A slice with the low elements first that starts with a high one has
    no low element, and one that ends with a low one has no high element. *)
Lemma low_first_head x l : low_first low (x :: l) → ¬ low x → Forall high (x :: l).
Proof.
  intros (a & b & E & Ha & Hb) Hx. destruct a as [|x' a]; simpl in E.
  - by rewrite E.
  - simplify_eq. by apply Forall_cons in Ha as [? _].
Qed.

Lemma low_first_last l x : low_first low (l ++ [x]) → low x → Forall low (l ++ [x]).
Proof.
  intros (a & b & E & Ha & Hb) Hx. destruct b as [|y b _] using rev_ind.
  - rewrite app_nil_r in E. by rewrite E.
  - rewrite app_assoc in E. apply app_inj_tail in E as [_ ->].
    apply Forall_app in Hb as [_ Hb]. by apply Forall_inv in Hb.
Qed.

Lemma filter_low_all l : Forall low l → filter low l = l.
Proof. induction 1 as [|x l Hx _ IH]; [done|]. by rewrite filter_cons_True, IH. Qed.

Lemma filter_low_none l : Forall high l → filter low l = [].
Proof. induction 1 as [|x l Hx _ IH]; [done|]. by rewrite filter_cons_False. Qed.

Lemma filter_low_nil l : filter low l = [] → Forall high l.
Proof.
  induction l as [|x l IH]; [done|]. rewrite filter_cons.
  destruct (decide (low x)); [done|]. intros E. constructor; auto.
Qed.

Lemma filter_low_length l : length (filter low l) = length l → Forall low l.
Proof.
  induction l as [|x l IH]; [done|]. rewrite filter_cons.
  destruct (decide (low x)); simpl.
  - intros E. constructor; [done|]. apply IH. lia.
  - pose proof (length_filter low l). lia.
Qed.

(** Putting the two halves of a symmetric merge together. *)
Lemma merge_parts X1 X2 Y1 Y2 M1 M2 :
  low_first low (X1 ++ X2) → low_first low (Y1 ++ Y2) →
  Forall low X1 ∨ Forall high Y2 →
  Forall high X2 ∨ Y1 = [] →
  low_first low M1 → length M1 = length X1 + length Y1 →
  filter low M1 = filter low X1 ++ filter low Y1 →
  low_first low M2 → length M2 = length X2 + length Y2 →
  filter low M2 = filter low X2 ++ filter low Y2 →
  low_first low (M1 ++ M2) ∧
  filter low (M1 ++ M2) = filter low (X1 ++ X2) ++ filter low (Y1 ++ Y2).
Proof.
  intros (_ & _ & HX)%low_first_app (_ & _ & HY)%low_first_app HF1 HF2
    HM1 Hl1 Hf1 HM2 Hl2 Hf2.
  split.
  - apply low_first_app. split_and!; [done|done|].
    assert ((Forall low X1 ∧ Forall low Y1) ∨ (Forall high X2 ∧ Forall high Y2))
      as [[H1 H2]|[H1 H2]].
    { destruct HF2 as [HF2| ->].
      - destruct HF1 as [HF1|HF1]; [|by right].
        destruct HY as [HY|HY]; [by left|by right].
      - destruct HF1 as [HF1|HF1]; [left; by split|].
        destruct HX as [HX|HX]; [left; by split|by right]. }
    + left. apply filter_low_length.
      by rewrite Hf1, !filter_low_all, length_app.
    + right. apply filter_low_nil. by rewrite Hf2, !filter_low_none.
  - rewrite !filter_app, Hf1, Hf2, <-!app_assoc. f_equal.
    destruct HF2 as [HF2| ->].
    + by rewrite (filter_low_none X2).
    + done.
Qed.
End low_first_facts.

(** *** [symMerge] on two runs with their low elements first *)

Section merge_facts.
Context {A : Type} (less : A → A → bool) (low : A → Prop) `{!∀ x, Decision (low x)}.
Hypothesis less_low_r : ∀ x y, low y → less x y = false.
Hypothesis less_low_l : ∀ x y, low x → ¬ low y → less x y = true.
Implicit Types (x y : A) (l pre suf X Y M data : list A).

Local Abbreviation high := (λ x, ¬ low x).

Lemma Less_apart pre x mid y suf :
  Less less (pre ++ x :: mid ++ y :: suf) (length pre) (length pre + S (length mid))
  = less x y ∧
  Less less (pre ++ x :: mid ++ y :: suf) (length pre + S (length mid)) (length pre)
  = less y x.
Proof.
  unfold Less.
  assert ((pre ++ x :: mid ++ y :: suf) !! length pre = Some x) as ->
    by by rewrite list_lookup_middle.
  assert ((pre ++ x :: mid ++ y :: suf) !! (length pre + S (length mid)) = Some y) as ->.
  { rewrite lookup_app_r by lia.
    replace (length pre + S (length mid) - length pre) with (S (length mid)) by lia.
    simpl. by rewrite list_lookup_middle. }
  done.
Qed.

Lemma Less_low_r data i j y : data !! j = Some y → low y → Less less data i j = false.
Proof.
  intros Hj Hy. unfold Less. rewrite Hj. destruct (data !! i); [|done].
  by apply less_low_r.
Qed.

(** [if m-a == 1 { ... }]: the single element of the left half is
    carried into the right half. *)
Lemma symMerge_single_left k pre x Y suf a m b :
  a = length pre → m = a + 1 → b = m + length Y → Y ≠ [] →
  low_first low Y →
  ∃ M, symMerge less (S k) (pre ++ x :: Y ++ suf) a m b = pre ++ M ++ suf ∧
       length M = 1 + length Y ∧ low_first low M ∧
       filter low M = filter low [x] ++ filter low Y.
Proof.
  intros Ha Hm Hb HY HlY. cbn [symMerge].
  replace (m - a) with 1 by lia. cbn [Nat.eqb]. cbv zeta.
  set (data := pre ++ x :: Y ++ suf).
  set (test := λ h, Less less data h a).
  destruct (bisect_spec (b - m) test m b) as (Hi & Hi1 & Hi2); [lia|lia|].
  set (i := bisect (b - m) test m b) in *.
  assert (data !! a = Some x) as Hax.
  { subst data a. by rewrite list_lookup_middle. }
  destruct (low_first_take_drop low Y (i - m) HlY) as (HlY1 & HlY2 & HY12).
  assert (length (take (i - m) Y) = i - m) as Hlen1 by (rewrite length_take; lia).
  exists (take (i - m) Y ++ x :: drop (i - m) Y).
  assert (foldl (λ d k0, Swap d k0 (k0 + 1)) data (seq a (i - 1 - a))
          = pre ++ (take (i - m) Y ++ x :: drop (i - m) Y) ++ suf) as ->.
  { subst data. rewrite <-(take_drop (i - m) Y) at 1.
    replace (i - 1 - a) with (length (take (i - m) Y)) by lia.
    rewrite Ha. cbn [app]. rewrite <-!app_assoc. cbn [app].
    by rewrite shift_right. }
  split; [done|]. split.
  { rewrite length_app. simpl. rewrite Hlen1, length_drop. lia. }
  destruct (decide (low x)) as [Hx|Hx].
  - assert (i = m) as ->.
    { destruct Hi1 as [?|Hi1]; [done|].
      unfold test in Hi1. by rewrite (Less_low_r data _ a x) in Hi1. }
    rewrite Nat.sub_diag, take_0, drop_0. cbn [app].
    split; [|by rewrite <-filter_app].
    apply (low_first_app low [x] Y). split_and!; [|done|left].
    + apply low_first_low. by constructor.
    + by constructor.
  - assert (Forall high (drop (i - m) Y)) as Hhigh.
    { destruct Hi2 as [Hi2|Hi2].
      - rewrite drop_ge by lia. done.
      - destruct (drop (i - m) Y) as [|y2 Y2] eqn:HY2; [done|].
        apply low_first_head; [done|]. intros Hy2.
        destruct (Less_apart pre x (take (i - m) Y) y2 (Y2 ++ suf)) as [_ HL].
        assert (pre ++ x :: take (i - m) Y ++ y2 :: Y2 ++ suf = data) as Hd.
        { subst data. rewrite <-(take_drop (i - m) Y) at 2. rewrite HY2.
          cbn [app]. by rewrite <-!app_assoc. }
        rewrite Hd, Hlen1 in HL.
        replace (length pre + S (i - m)) with i in HL by lia.
        rewrite <-Ha in HL. unfold test in Hi2. rewrite Hi2 in HL.
        by rewrite less_low_l in HL. }
    split.
    + apply low_first_app. split_and!; [done| |right].
      * apply low_first_high. by constructor.
      * by constructor.
    + rewrite filter_app, !filter_cons_False by done.
      rewrite (filter_low_none low (drop _ _)) by done.
      rewrite <-(take_drop (i - m) Y) at 2.
      rewrite filter_app, (filter_low_none low (drop _ _)) by done. done.
Qed.
(** [if b-m == 1 { ... }]: the single element of the right half is
    carried into the left half. *)
Lemma symMerge_single_right k pre X y suf a m b :
  a = length pre → m = a + length X → b = m + 1 → length X ≠ 1 → X ≠ [] →
  low_first low X →
  ∃ M, symMerge less (S k) (pre ++ X ++ y :: suf) a m b = pre ++ M ++ suf ∧
       length M = length X + 1 ∧ low_first low M ∧
       filter low M = filter low X ++ filter low [y].
Proof.
  intros Ha Hm Hb HX1 HX HlX. cbn [symMerge].
  destruct (Nat.eqb_spec (m - a) 1) as [?|_]; [lia|].
  replace (b - m) with 1 by lia. cbn [Nat.eqb]. cbv zeta.
  set (data := pre ++ X ++ y :: suf).
  set (test := λ h, negb (Less less data m h)).
  destruct (bisect_spec (m - a) test a m) as (Hi & Hi1 & Hi2); [lia|lia|].
  set (i := bisect (m - a) test a m) in *.
  destruct (low_first_take_drop low X (i - a) HlX) as (HlX1 & HlX2 & HX12).
  assert (length (take (i - a) X) = i - a) as Hlen1 by (rewrite length_take; lia).
  assert (length (drop (i - a) X) = m - i) as Hlen2 by (rewrite length_drop; lia).
  assert (data = (pre ++ take (i - a) X) ++ drop (i - a) X ++ y :: suf) as Hdata.
  { subst data. by rewrite <-app_assoc, (app_assoc (take _ _)), take_drop. }
  exists (take (i - a) X ++ y :: drop (i - a) X).
  assert (foldl (λ d k0, Swap d k0 (k0 - 1)) data (rev (seq (i + 1) (m - i)))
          = pre ++ (take (i - a) X ++ y :: drop (i - a) X) ++ suf) as ->.
  { pose proof (shift_left (drop (i - a) X) (pre ++ take (i - a) X) y suf) as Hs.
    rewrite length_app, Hlen1, Hlen2 in Hs.
    replace (length pre + (i - a) + 1) with (i + 1) in Hs by lia.
    rewrite Hdata, Hs. by rewrite <-!app_assoc. }
  split; [done|]. split.
  { rewrite length_app. simpl. lia. }
  assert (Forall high (drop (i - a) X)) as Hhigh.
  { destruct Hi2 as [Hi2|Hi2].
    - rewrite drop_ge by lia. done.
    - destruct (drop (i - a) X) as [|x2 X2] eqn:HX2; [done|].
      apply low_first_head; [done|]. intros Hx2.
      destruct (Less_apart (pre ++ take (i - a) X) x2 X2 y suf) as [_ HL].
      assert ((pre ++ take (i - a) X) ++ x2 :: X2 ++ y :: suf = data) as Hd
        by by rewrite Hdata.
      rewrite Hd, length_app, Hlen1 in HL. simpl in Hlen2.
      replace (length pre + (i - a) + S (length X2)) with m in HL by lia.
      replace (length pre + (i - a)) with i in HL by lia.
      unfold test in Hi2. apply negb_false_iff in Hi2. rewrite Hi2 in HL.
      by rewrite less_low_r in HL. }
  assert (filter low X = filter low (take (i - a) X)) as HfX.
  { rewrite <-(take_drop (i - a) X) at 1.
    by rewrite filter_app, (filter_low_none low (drop _ _)), app_nil_r. }
  destruct (decide (low y)) as [Hy|Hy].
  - assert (Forall low (take (i - a) X)) as Hlow.
    { destruct (take (i - a) X) as [|x1 X1 _] eqn:HX1' using rev_ind; [done|].
      destruct Hi1 as [Hi1|Hi1].
      { rewrite Hi1, Nat.sub_diag in Hlen1. rewrite length_app in Hlen1.
        simpl in Hlen1. lia. }
      apply low_first_last; [done|]. destruct (decide (low x1)) as [|Hx1]; [done|].
      destruct (Less_apart (pre ++ X1) x1 (drop (i - a) X) y suf) as [_ HL].
      assert ((pre ++ X1) ++ x1 :: drop (i - a) X ++ y :: suf = data) as Hd.
      { rewrite Hdata, <-!app_assoc. done. }
      rewrite Hd, length_app, Hlen2 in HL. rewrite length_app in Hlen1.
      simpl in Hlen1.
      replace (length pre + length X1 + S (m - i)) with m in HL by lia.
      replace (length pre + length X1) with (i - 1) in HL by lia.
      unfold test in Hi1. apply negb_true_iff in Hi1. rewrite Hi1 in HL.
      by rewrite less_low_l in HL. }
    split.
    + exists (take (i - a) X ++ [y]), (drop (i - a) X).
      split_and!; [by rewrite <-app_assoc| |done].
      apply Forall_app. split; [done|by constructor].
    + rewrite HfX, filter_app, !filter_cons_True by done.
      by rewrite (filter_low_none low (drop _ _)).
  - split.
    + apply low_first_app. split_and!; [done| |right].
      * apply low_first_high. by constructor.
      * by constructor.
    + rewrite HfX, filter_app, !filter_cons_False by done.
      by rewrite (filter_low_none low (drop _ _)).
Qed.
(** The split point that the symmetric binary search of [symMerge]
    settles on. *)
Lemma split_point_spec data a m b start0 r0 :
  a < m → m < b →
  ((a + b) / 2 < m ∧ start0 = (a + b) / 2 + m - b ∧ r0 = (a + b) / 2) ∨
  (m ≤ (a + b) / 2 ∧ start0 = a ∧ r0 = m) →
  let mid := (a + b) / 2 in
  let s := bisect (r0 - start0)
             (λ c, negb (Less less data (mid + m - 1 - c) c)) start0 r0 in
  let e := mid + m - s in
  a ≤ s ≤ m ∧ s ≤ mid ∧ m ≤ e ≤ b ∧ mid ≤ e ∧ e - m = mid - s ∧ m - s = e - mid ∧
  a + b - 1 ≤ 2 * mid ≤ a + b ∧
  (s = a ∨ e = b ∨ Less less data e (s - 1) = false) ∧
  (s = m ∨ e = m ∨ Less less data (e - 1) s = true).
Proof.
  intros Ham Hmb Hcase mid s e.
  assert (a + b - 1 ≤ 2 * mid ≤ a + b) as Hmid.
  { subst mid. pose proof (Nat.div_mod_eq (a + b) 2).
    pose proof (Nat.mod_upper_bound (a + b) 2). lia. }
  assert (start0 ≤ r0) as Hsr by (destruct Hcase as [(?&->&->)|(?&->&->)]; lia).
  destruct (bisect_spec (r0 - start0)
              (λ c, negb (Less less data (mid + m - 1 - c) c)) start0 r0 Hsr (le_n _))
    as (Hs & Hs1 & Hs2).
  fold s in Hs, Hs1, Hs2.
  assert (a ≤ s ≤ m ∧ s ≤ mid ∧ m ≤ e ≤ b ∧ mid ≤ e) as Hb.
  { subst e. destruct Hcase as [(?&->&->)|(?&->&->)]; fold mid in Hs; lia. }
  split_and!; try lia.
  - destruct Hs1 as [Hs1|Hs1].
    + destruct Hcase as [(?&->&->)|(?&->&->)]; fold mid in Hs1; [|by left].
      right; left. subst e. lia.
    + destruct (decide (s = a)) as [|Hsa]; [by left|]. right; right.
      apply negb_true_iff in Hs1.
      replace (mid + m - 1 - (s - 1)) with e in Hs1 by lia. done.
  - destruct Hs2 as [Hs2|Hs2].
    + destruct Hcase as [(?&->&->)|(?&->&->)]; fold mid in Hs2; [|by left].
      right; left. subst e. lia.
    + right; right. apply negb_false_iff in Hs2.
      replace (mid + m - 1 - s) with (e - 1) in Hs2 by lia. done.
Qed.

(** Merging two neighbouring runs that have their low elements first
    gives such a run, with the low elements in their original order. *)
Lemma symMerge_low_first k : ∀ pre X Y suf a m b,
  a = length pre → m = a + length X → b = m + length Y →
  X ≠ [] → Y ≠ [] → length X + length Y ≤ k →
  low_first low X → low_first low Y →
  ∃ M, symMerge less k (pre ++ X ++ Y ++ suf) a m b = pre ++ M ++ suf ∧
       length M = length X + length Y ∧ low_first low M ∧
       filter low M = filter low X ++ filter low Y.
Proof.
  induction k as [|k IH]; intros pre X Y suf a m b Ha Hm Hb HX HY Hk HlX HlY.
  { destruct X; [done|]. simpl in Hk. lia. }
  destruct (decide (length X = 1)) as [HX1|HX1].
  { destruct X as [|x [|??]]; try done.
    apply (symMerge_single_left k pre x Y suf a m b);
      try done; simpl in *; lia. }
  destruct (decide (length Y = 1)) as [HY1|HY1].
  { destruct Y as [|y [|??]]; try done.
    apply (symMerge_single_right k pre X y suf a m b);
      try done; simpl in *; lia. }
  assert (0 < length X ∧ 0 < length Y) as [HX0 HY0].
  { destruct X, Y; simpl; try done; lia. }
  set (data := pre ++ X ++ Y ++ suf).
  cbn [symMerge].
  destruct (Nat.eqb_spec (m - a) 1) as [?|_]; [lia|].
  destruct (Nat.eqb_spec (b - m) 1) as [?|_]; [lia|].
  cbv zeta.
  assert (∃ s, let mid := (a + b) / 2 in let e := mid + m - s in
            (a ≤ s ≤ m ∧ s ≤ mid ∧ m ≤ e ≤ b ∧ mid ≤ e ∧ e - m = mid - s ∧
             m - s = e - mid ∧ a + b - 1 ≤ 2 * mid ≤ a + b ∧
             (s = a ∨ e = b ∨ Less less data e (s - 1) = false) ∧
             (s = m ∨ e = m ∨ Less less data (e - 1) s = true)) ∧
            (let '(start, r) := if (a + b) / 2 <? m
                                then ((a + b) / 2 + m - b, (a + b) / 2) else (a, m) in
             bisect (r - start)
               (λ c, negb (Less less data ((a + b) / 2 + m - 1 - c) c)) start r) = s)
    as (s & Hs & Es).
  { destruct (Nat.ltb_spec ((a + b) / 2) m) as [Hlt|Hge].
    - eexists. split; [|reflexivity].
      apply (split_point_spec data a m b); [lia|lia|left; done].
    - eexists. split; [|reflexivity].
      apply (split_point_spec data a m b); [lia|lia|right; done]. }
  revert Es. destruct (if _ <? m then _ else _) as [start r]. intros Es.
  rewrite !Es. clear Es start r. cbv zeta in Hs.
  set (mid := (a + b) / 2) in *. set (e := mid + m - s) in *.
  destruct Hs as (Hs1 & Hs2 & He1 & He2 & Hem & Hms & Hmid & HF1 & HF2).
  set (X1 := take (s - a) X). set (X2 := drop (s - a) X).
  set (Y1 := take (e - m) Y). set (Y2 := drop (e - m) Y).
  assert (X = X1 ++ X2) as EX by (subst X1 X2; by rewrite take_drop).
  assert (Y = Y1 ++ Y2) as EY by (subst Y1 Y2; by rewrite take_drop).
  assert (length X1 = s - a) as LX1 by (subst X1; rewrite length_take; lia).
  assert (length X2 = m - s) as LX2 by (subst X2; rewrite length_drop; lia).
  assert (length Y1 = e - m) as LY1 by (subst Y1; rewrite length_take; lia).
  assert (length Y2 = b - e) as LY2 by (subst Y2; rewrite length_drop; lia).
  destruct (low_first_take_drop low X (s - a) HlX) as (HlX1 & HlX2 & _).
  destruct (low_first_take_drop low Y (e - m) HlY) as (HlY1 & HlY2 & _).
  fold X1 X2 in HlX1, HlX2. fold Y1 Y2 in HlY1, HlY2.
  assert (data = pre ++ X1 ++ X2 ++ Y1 ++ Y2 ++ suf) as Hdata.
  { subst data. by rewrite EX, EY, <-!app_assoc. }
  assert (∀ l, length l = 0 → l = []) as Hnil by (by intros []).
  assert ((if (s <? m) && (m <? e) then rotate data s m e else data)
          = pre ++ X1 ++ Y1 ++ X2 ++ Y2 ++ suf) as ->.
  { destruct (Nat.ltb_spec s m) as [Hsm|Hsm]; [destruct (Nat.ltb_spec m e) as [Hme|Hme]|];
      cbn [andb].
    - pose proof (rotate_blocks (pre ++ X1) X2 Y1 (Y2 ++ suf)) as Hr.
      rewrite length_app, LX1, LX2, LY1 in Hr.
      replace (length pre + (s - a)) with s in Hr by lia.
      replace (s + (m - s)) with m in Hr by lia.
      replace (m + (e - m)) with e in Hr by lia.
      rewrite Hdata. rewrite <-!app_assoc in Hr. rewrite Hr; [done| |].
      + intros E. rewrite E in LX2. simpl in LX2. lia.
      + intros E. rewrite E in LY1. simpl in LY1. lia.
    - rewrite Hdata, (Hnil Y1) by lia. done.
    - rewrite Hdata, (Hnil X2) by lia. done. }
  assert (Forall low X1 ∨ Forall high Y2) as HF1'.
  { destruct (X1) as [|x1 X1' _] eqn:EX1 using rev_ind; [by left|].
    destruct Y2 as [|y2 Y2'] eqn:EY2; [by right|].
    rewrite length_app in LX1. simpl in LX1, LY2.
    destruct HF1 as [?|[?|HF1]]; [lia|lia|].
    destruct (Less_apart (pre ++ X1') x1 (X2 ++ Y1) y2 (Y2' ++ suf)) as [_ HL].
    assert ((pre ++ X1') ++ x1 :: (X2 ++ Y1) ++ y2 :: Y2' ++ suf = data) as Hd.
    { rewrite Hdata, <-!app_assoc. done. }
    rewrite Hd, !length_app, LX2, LY1 in HL.
    replace (length pre + length X1' + S (m - s + (e - m))) with e in HL by lia.
    replace (length pre + length X1') with (s - 1) in HL by lia.
    rewrite HF1 in HL.
    destruct (decide (low x1)) as [Hx1|Hx1].
    - left. by apply low_first_last.
    - right. apply low_first_head; [done|]. intros Hy2.
      by rewrite less_low_l in HL. }
  assert (Forall high X2 ∨ Y1 = []) as HF2'.
  { destruct X2 as [|x2 X2'] eqn:EX2; [by left|].
    destruct (Y1) as [|y1 Y1' _] eqn:EY1 using rev_ind; [by right|].
    rewrite length_app in LY1. simpl in LX2, LY1.
    destruct HF2 as [?|[?|HF2]]; [lia|lia|].
    destruct (Less_apart (pre ++ X1) x2 (X2' ++ Y1') y1 (Y2 ++ suf)) as [_ HL].
    assert ((pre ++ X1) ++ x2 :: (X2' ++ Y1') ++ y1 :: Y2 ++ suf = data) as Hd.
    { rewrite Hdata, <-!app_assoc. cbn [app]. by rewrite <-?app_assoc. }
    rewrite Hd, !length_app, LX1 in HL.
    replace (length pre + (s - a) + S (length X2' + length Y1')) with (e - 1) in HL by lia.
    replace (length pre + (s - a)) with s in HL by lia.
    rewrite HF2 in HL. left. apply low_first_head; [done|]. intros Hx2.
    by rewrite less_low_r in HL. }
  assert (∃ M1, (if (a <? s) && (s <? mid)
                 then symMerge less k (pre ++ X1 ++ Y1 ++ X2 ++ Y2 ++ suf) a s mid
                 else pre ++ X1 ++ Y1 ++ X2 ++ Y2 ++ suf)
                = pre ++ M1 ++ X2 ++ Y2 ++ suf ∧
                length M1 = length X1 + length Y1 ∧ low_first low M1 ∧
                filter low M1 = filter low X1 ++ filter low Y1)
    as (M1 & -> & LM1 & HlM1 & HfM1).
  { destruct (Nat.ltb_spec a s) as [Has|Has]; [destruct (Nat.ltb_spec s mid) as [Hsd|Hsd]|];
      cbn [andb].
    - destruct (IH pre X1 Y1 (X2 ++ Y2 ++ suf) a s mid) as (M1 & E1 & HM1);
        [done|lia|lia| | |lia|done|done|].
      + intros E. rewrite E in LX1. simpl in LX1. lia.
      + intros E. rewrite E in LY1. simpl in LY1. lia.
      + exists M1. by split.
    - exists X1. rewrite (Hnil Y1) by lia. rewrite app_nil_r. simpl.
      split_and!; [done|lia|done|done].
    - exists Y1. rewrite (Hnil X1) by lia. simpl. split_and!; done. }
  assert (∃ M2, (if (mid <? e) && (e <? b)
                 then symMerge less k (pre ++ M1 ++ X2 ++ Y2 ++ suf) mid e b
                 else pre ++ M1 ++ X2 ++ Y2 ++ suf)
                = pre ++ M1 ++ M2 ++ suf ∧
                length M2 = length X2 + length Y2 ∧ low_first low M2 ∧
                filter low M2 = filter low X2 ++ filter low Y2)
    as (M2 & -> & LM2 & HlM2 & HfM2).
  { destruct (Nat.ltb_spec mid e) as [Hde|Hde]; [destruct (Nat.ltb_spec e b) as [Heb|Heb]|];
      cbn [andb].
    - destruct (IH (pre ++ M1) X2 Y2 suf mid e b) as (M2 & E2 & HM2);
        [rewrite length_app; lia|lia|lia| | |lia|done|done|].
      + intros E. rewrite E in LX2. simpl in LX2. lia.
      + intros E. rewrite E in LY2. simpl in LY2. lia.
      + exists M2. split; [|done]. rewrite <-!app_assoc in E2. by rewrite E2.
    - exists X2. rewrite (Hnil Y2) by lia. rewrite app_nil_r. simpl.
      split_and!; [done|lia|done|done].
    - exists Y2. rewrite (Hnil X2) by lia. simpl. split_and!; done. }
  exists (M1 ++ M2). rewrite <-app_assoc. split; [done|]. split.
  { rewrite length_app, EX, EY, !length_app. lia. }
  rewrite EX in HlX. rewrite EY in HlY. rewrite EX, EY.
  by apply (merge_parts low X1 X2 Y1 Y2 M1 M2).
Qed.
End merge_facts.

(** *** The insertion sort of a block *)

Section insertion_segment_facts.
Context {A : Type} (less : A → A → bool) (low : A → Prop) `{!∀ x, Decision (low x)}.
Hypothesis less_low_r : ∀ x y, low y → less x y = false.
Hypothesis less_low_l : ∀ x y, low x → ¬ low y → less x y = true.
Implicit Types (x y : A) (r l pre suf X data : list A).

Local Abbreviation high := (λ x, ¬ low x).

Lemma insertion_inner_stop data a : insertion_inner less data a a = data.
Proof. destruct a as [|a]; [done|]. cbn [insertion_inner]. by rewrite Nat.ltb_irrefl. Qed.

Lemma insertion_inner_segment r : ∀ pre x suf,
  insertion_inner less (pre ++ reverse r ++ x :: suf) (length pre)
    (length pre + length r)
  = pre ++ reverse (sink less x r) ++ suf.
Proof.
  induction r as [|y r IH]; intros pre x suf.
  { rewrite Nat.add_0_r. apply insertion_inner_stop. }
  cbn [length sink]. rewrite Nat.add_succ_r. cbn [insertion_inner].
  assert ((length pre <? S (length pre + length r)) = true) as ->
    by (apply Nat.ltb_lt; lia).
  rewrite reverse_cons, <-app_assoc. cbn [app andb].
  destruct (Less_apart less (pre ++ reverse r) y [] x suf) as [_ HL].
  rewrite length_app, length_reverse in HL. cbn [app length] in HL.
  rewrite <-app_assoc, Nat.add_1_r in HL. rewrite HL.
  destruct (less x y).
  - pose proof (Swap_adjacent (pre ++ reverse r) y x suf) as Hs.
    rewrite length_app, length_reverse, <-!app_assoc in Hs. rewrite Hs.
    rewrite IH, reverse_cons. by rewrite <-!app_assoc.
  - by rewrite !reverse_cons, <-!app_assoc.
Qed.

Lemma insertion_rounds_segment rest : ∀ pre r suf,
  foldl (λ d i, insertion_inner less d (length pre) i) (pre ++ reverse r ++ rest ++ suf)
    (seq (length pre + length r) (length rest))
  = pre ++ reverse (foldl (λ r x, sink less x r) r rest) ++ suf.
Proof.
  induction rest as [|x rest IH]; intros pre r suf; [done|].
  cbn [length seq foldl app]. rewrite insertion_inner_segment.
  specialize (IH pre (sink less x r) suf).
  rewrite length_sink, Nat.add_succ_r in IH. done.
Qed.

Lemma insertionSort_segment pre X suf :
  insertionSort less (pre ++ X ++ suf) (length pre) (length pre + length X)
  = pre ++ reverse (foldl (λ r x, sink less x r) [] X) ++ suf.
Proof.
  unfold insertionSort. destruct X as [|x X].
  { rewrite Nat.add_0_r. by replace (length pre - (length pre + 1)) with 0 by lia. }
  cbn [length].
  replace (length pre + S (length X) - (length pre + 1)) with (length X) by lia.
  apply (insertion_rounds_segment X pre [x] suf).
Qed.

(** The sorted prefix, listed backwards: high elements, then the low ones
    in their original order. *)
Lemma sink_low_first X :
  ∃ rw, foldl (λ r x, sink less x r) [] X = rw ++ reverse (filter low X) ∧
        Forall high rw.
Proof.
  induction X as [|x X (rw & IH & Hrw)] using rev_ind.
  { by exists []. }
  rewrite foldl_snoc, IH, filter_app.
  assert (Forall low (reverse (filter low X))) as Hrl.
  { apply Forall_reverse, Forall_forall. by intros y [? _]%list_elem_of_filter. }
  assert (∀ z, head (reverse (filter low X)) = Some z → less x z = false) as Hstop.
  { intros z Hz. apply less_low_r.
    destruct (reverse (filter low X)) as [|z' rl]; simplify_eq/=.
    by apply Forall_cons in Hrl as [? _]. }
  destruct (decide (low x)) as [Hx|Hx].
  - exists rw. rewrite filter_cons_True, filter_nil, reverse_app by done. cbn [reverse app].
    rewrite sink_pass.
    + rewrite sink_stop by done. done.
    + eapply Forall_impl; [done|]. intros y Hy. by apply less_low_l.
  - rewrite filter_cons_False, filter_nil, app_nil_r by done.
    destruct (sink_split less x rw) as (r1 & r2 & -> & H1 & H2 & _).
    exists (r1 ++ x :: r2). split.
    + rewrite <-!app_assoc, sink_pass by done. cbn [app]. f_equal.
      apply sink_stop. intros z Hz. destruct r2 as [|z' r2]; simpl in Hz.
      * by apply Hstop.
      * simplify_eq. by apply H2.
    + apply Forall_app in Hrw as [Hr1 Hr2]. apply Forall_app. split; [done|].
      by constructor.
Qed.

Lemma insertionSort_low_first pre X suf :
  ∃ M, insertionSort less (pre ++ X ++ suf) (length pre) (length pre + length X)
       = pre ++ M ++ suf ∧
       length M = length X ∧ low_first low M ∧ filter low M = filter low X.
Proof.
  rewrite insertionSort_segment.
  destruct (sink_low_first X) as (rw & E & Hrw).
  exists (reverse (foldl (λ r x, sink less x r) [] X)). split; [done|].
  assert (length (foldl (λ r x, sink less x r) [] X) = length X) as Hlen.
  { assert (∀ r, length (foldl (λ r x, sink less x r) r X) = length r + length X)
      as Hr; [|by rewrite Hr].
    clear. induction X as [|x X IH]; intros r; simpl; [lia|].
    rewrite IH, length_sink. lia. }
  split; [by rewrite length_reverse|].
  rewrite E, reverse_app, reverse_involutive. split.
  - exists (filter low X), (reverse rw). split_and!; [done| |by apply Forall_reverse].
    apply Forall_forall. by intros y [? _]%list_elem_of_filter.
  - rewrite filter_app, (filter_low_none low (reverse rw)) by by apply Forall_reverse.
    rewrite app_nil_r. apply filter_low_all.
    apply Forall_forall. by intros y [? _]%list_elem_of_filter.
Qed.
End insertion_segment_facts.

(** *** The blocks through the passes of [stable] *)

Section runs_facts.
Context {A : Type} (less : A → A → bool) (low : A → Prop) `{!∀ x, Decision (low x)}.
Hypothesis less_low_r : ∀ x y, low y → less x y = false.
Hypothesis less_low_l : ∀ x y, low x → ¬ low y → less x y = true.
Implicit Types (x y : A) (l pre suf X M data : list A).

Local Abbreviation high := (λ x, ¬ low x).

(** Replacing the segment of [len] elements at [a] by [M]. *)
Lemma segment_step data data' a len M :
  a + len ≤ length data →
  data' = take a data ++ M ++ drop (a + len) data →
  length M = len → filter low M = filter low (take len (drop a data)) →
  length data' = length data ∧ filter low data' = filter low data ∧
  (∀ i w, i + w ≤ a → take w (drop i data') = take w (drop i data)) ∧
  (∀ i, a + len ≤ i → drop i data' = drop i data) ∧
  take len (drop a data') = M.
Proof.
  intros Hlen -> HM Hf.
  assert (length (take a data) = a) as Hta by (rewrite length_take; lia).
  assert (data = take a data ++ take len (drop a data) ++ drop (a + len) data) as Hd.
  { by rewrite app_assoc, take_take_drop, take_drop. }
  split_and!.
  - rewrite !length_app, Hta, HM, length_drop. lia.
  - rewrite Hd at 3. by rewrite !filter_app, Hf.
  - intros i w Hil. rewrite drop_app_le by lia.
    rewrite take_app_le by (rewrite length_drop; lia).
    rewrite <-(take_drop a data) at 2. rewrite drop_app_le by lia.
    by rewrite take_app_le by (rewrite length_drop; lia).
  - intros i Hi. rewrite app_assoc, drop_app_ge by (rewrite length_app; lia).
    rewrite length_app, Hta, HM, drop_drop. f_equal. lia.
  - by rewrite drop_app_length', take_app_length'.
Qed.

Lemma insertionSort_step data a len :
  a + len ≤ length data →
  ∃ M, insertionSort less data a (a + len) = take a data ++ M ++ drop (a + len) data ∧
       length M = len ∧ low_first low M ∧
       filter low M = filter low (take len (drop a data)).
Proof.
  intros Hlen.
  assert (length (take a data) = a) as Hta by (rewrite length_take; lia).
  assert (length (take len (drop a data)) = len) as Htl
    by (rewrite length_take, length_drop; lia).
  destruct (insertionSort_low_first less low less_low_r less_low_l (take a data)
              (take len (drop a data)) (drop (a + len) data)) as (M & E & HM).
  rewrite app_assoc, take_take_drop, take_drop, Hta, Htl in E. rewrite Htl in HM.
  by exists M.
Qed.

Lemma insertion_blocks_runs n k : ∀ data t a b,
  length data = n → a = 20 * t → b = a + 20 → a ≤ n → n < 20 * (t + k) + 20 →
  (∀ q, q < t → low_first low (take 20 (drop (q * 20) data))) →
  ∃ data' t', insertion_blocks less k data n a b = (data', 20 * t') ∧
              20 * t' ≤ n < 20 * t' + 20 ∧ length data' = n ∧
              filter low data' = filter low data ∧
              (∀ q, q < t' → low_first low (take 20 (drop (q * 20) data'))).
Proof.
  induction k as [|k IH]; intros data t a b Hn Ha -> Han Hk Hruns.
  { exists data, t. cbn [insertion_blocks]. rewrite Ha. split_and!; try done; lia. }
  cbn [insertion_blocks]. destruct (Nat.leb_spec (a + 20) n) as [Hbn|Hbn].
  2:{ exists data, t. rewrite Ha. split_and!; try done; lia. }
  destruct (insertionSort_step data a 20) as (M & E & LM & HM & HfM); [lia|].
  destruct (segment_step data _ a 20 M ltac:(lia) E LM HfM)
    as (Hl & Hf & Hbefore & Hafter & Hat).
  destruct (IH (insertionSort less data a (a + 20)) (S t) (a + 20) (a + 20 + 20))
    as (data' & t' & HR);
    [lia|lia|lia|lia|lia| |].
  - intros q Hq. destruct (decide (q = t)) as [->|Hqt].
    + replace (t * 20) with a by lia. by rewrite Hat.
    + rewrite Hbefore by lia. apply Hruns. lia.
  - exists data', t'. destruct HR as (-> & ? & ? & -> & ?). by rewrite Hf.
Qed.
Lemma take_short l n w : length l ≤ n → length l ≤ w → take n l = take w l.
Proof. intros. by rewrite !take_ge. Qed.

Lemma insertion_phase data n :
  length data = n →
  ∃ d a, insertion_blocks less n data n 0 20 = (d, a) ∧
         length (insertionSort less d a n) = n ∧
         filter low (insertionSort less d a n) = filter low data ∧
         runs low 20 (insertionSort less d a n).
Proof.
  intros Hn.
  destruct (insertion_blocks_runs n n data 0 0 20) as (d & t & E & Ht & Hd & Hf & Hr);
    [done|done|done|lia|lia|intros; lia|].
  exists d, (20 * t). split; [done|].
  destruct (insertionSort_step d (20 * t) (n - 20 * t)) as (M & E' & LM & HM & HfM);
    [lia|].
  destruct (segment_step d _ (20 * t) (n - 20 * t) M ltac:(lia) E' LM HfM)
    as (Hl & Hf' & Hbefore & Hafter & Hat).
  replace (20 * t + (n - 20 * t)) with n in * by lia.
  split_and!; [lia|congruence|].
  intros q. destruct (Nat.lt_trichotomy q t) as [Hq|[->|Hq]].
  - rewrite Hbefore by lia. by apply Hr.
  - replace (t * 20) with (20 * t) by lia.
    rewrite (take_short _ 20 (n - 20 * t)) by (rewrite length_drop; lia).
    by rewrite Hat.
  - rewrite drop_ge by lia. rewrite take_nil. apply low_first_nil.
Qed.

Lemma symMerge_step data n a len1 len2 :
  length data = n → 0 < len1 → 0 < len2 → a + len1 + len2 ≤ n →
  low_first low (take len1 (drop a data)) →
  low_first low (take len2 (drop (a + len1) data)) →
  ∃ M, symMerge less n data a (a + len1) (a + len1 + len2)
       = take a data ++ M ++ drop (a + (len1 + len2)) data ∧
       length M = len1 + len2 ∧ low_first low M ∧
       filter low M = filter low (take (len1 + len2) (drop a data)).
Proof.
  intros Hn H1 H2 Hlen HX HY.
  assert (length (take a data) = a) as Hta by (rewrite length_take; lia).
  assert (length (take len1 (drop a data)) = len1) as Ht1
    by (rewrite length_take, length_drop; lia).
  assert (length (take len2 (drop (a + len1) data)) = len2) as Ht2
    by (rewrite length_take, length_drop; lia).
  destruct (symMerge_low_first less low less_low_r less_low_l n (take a data)
              (take len1 (drop a data)) (take len2 (drop (a + len1) data))
              (drop (a + len1 + len2) data) a (a + len1) (a + len1 + len2))
    as (M & E & LM & HM & HfM); [done|lia|lia| | |lia|done|done|].
  { intros E. rewrite E in Ht1. simpl in Ht1. lia. }
  { intros E. rewrite E in Ht2. simpl in Ht2. lia. }
  assert (take len1 (drop a data) ++ take len2 (drop (a + len1) data)
          = take (len1 + len2) (drop a data)) as HXY.
  { by rewrite <-(drop_drop data len1 a), take_take_drop. }
  exists M. split_and!.
  - rewrite (app_assoc (take len1 _)), HXY, app_assoc, take_take_drop in E.
    rewrite <-Nat.add_assoc, take_drop in E.
    rewrite ?Nat.add_assoc in E. by rewrite ?Nat.add_assoc.
  - lia.
  - done.
  - by rewrite HfM, <-filter_app, HXY.
Qed.
Lemma merge_blocks_runs n bs k : ∀ data t a b,
  0 < bs → length data = n → a = t * (2 * bs) → b = a + 2 * bs → a ≤ n →
  n < (t + k) * (2 * bs) + 2 * bs →
  (∀ q, q < t → low_first low (take (2 * bs) (drop (q * (2 * bs)) data))) →
  (∀ q, 2 * t ≤ q → low_first low (take bs (drop (q * bs) data))) →
  ∃ data' t', merge_blocks less k data n bs a b = (data', t' * (2 * bs)) ∧
              t' * (2 * bs) ≤ n < t' * (2 * bs) + 2 * bs ∧ length data' = n ∧
              filter low data' = filter low data ∧
              (∀ q, q < t' → low_first low (take (2 * bs) (drop (q * (2 * bs)) data'))) ∧
              (∀ q, 2 * t' ≤ q → low_first low (take bs (drop (q * bs) data'))).
Proof.
  induction k as [|k IH]; intros data t a b Hbs Hn Ha -> Han Hk Hdone Htodo.
  { exists data, t. cbn [merge_blocks]. rewrite Ha. split_and!; try done; lia. }
  cbn [merge_blocks]. destruct (Nat.leb_spec (a + 2 * bs) n) as [Hbn|Hbn].
  2:{ exists data, t. rewrite Ha. split_and!; try done; lia. }
  destruct (symMerge_step data n a bs bs) as (M & E & LM & HM & HfM);
    [done|done|done|lia| | |].
  { replace a with (2 * t * bs) by lia. apply Htodo. lia. }
  { replace (a + bs) with ((2 * t + 1) * bs) by lia. apply Htodo. lia. }
  replace (a + bs + bs) with (a + 2 * bs) in E by lia.
  replace (bs + bs) with (2 * bs) in * by lia.
  destruct (segment_step data _ a (2 * bs) M ltac:(lia) E LM HfM)
    as (Hl & Hf & Hbefore & Hafter & Hat).
  destruct (IH (symMerge less n data a (a + bs) (a + 2 * bs)) (S t) (a + 2 * bs)
              (a + 2 * bs + 2 * bs))
    as (data' & t' & HR); [done|lia|lia|lia|lia|lia| | |].
  - intros q Hq. destruct (decide (q = t)) as [->|Hqt].
    + rewrite <-Ha. by rewrite Hat.
    + rewrite Hbefore; [apply Hdone; lia|].
      assert (q < t) as Hlt by lia. clear -Hlt Ha. nia.
  - intros q Hq. rewrite Hafter; [apply Htodo; lia|]. clear -Hq Ha. nia.
  - exists data', t'. destruct HR as (-> & ? & ? & -> & ? & ?). by rewrite Hf.
Qed.

Lemma merge_pass_runs data n bs :
  0 < bs → length data = n → runs low bs data →
  ∃ d a, merge_blocks less n data n bs 0 (2 * bs) = (d, a) ∧
         let data' := if a + bs <? n then symMerge less n d a (a + bs) n else d in
         length data' = n ∧ filter low data' = filter low data ∧
         runs low (2 * bs) data'.
Proof.
  intros Hbs Hn Hruns.
  destruct (merge_blocks_runs n bs n data 0 0 (2 * bs))
    as (d & t & E & Ht & Hd & Hf & Hdone & Htodo);
    [done|done|done|done|lia|nia|intros; lia|intros; apply Hruns|].
  exists d, (t * (2 * bs)). split; [done|]. cbv zeta.
  set (a := t * (2 * bs)) in *.
  assert (∀ q, t < q → n ≤ q * (2 * bs)) as Hbeyond.
  { intros q Hq. subst a. nia. }
  destruct (Nat.ltb_spec (a + bs) n) as [Hlt|Hge].
  - destruct (symMerge_step d n a bs (n - (a + bs))) as (M & E' & LM & HM & HfM);
      [done|done|lia|lia| | |].
    { replace a with (2 * t * bs) by lia. apply Htodo. lia. }
    { rewrite (take_short _ _ bs) by (rewrite length_drop; lia).
      replace (a + bs) with ((2 * t + 1) * bs) by lia. apply Htodo. lia. }
    replace (a + bs + (n - (a + bs))) with n in E' by lia.
    destruct (segment_step d _ a (bs + (n - (a + bs))) M ltac:(lia) E' LM HfM)
      as (Hl & Hf' & Hbefore & Hafter & Hat).
    split_and!; [lia|congruence|].
    intros q. destruct (Nat.lt_trichotomy q t) as [Hq|[->|Hq]].
    + rewrite Hbefore; [by apply Hdone|]. subst a. nia.
    + fold a. rewrite (take_short _ _ (bs + (n - (a + bs))))
        by (rewrite length_drop; lia).
      by rewrite Hat.
    + rewrite drop_ge; [rewrite take_nil; apply low_first_nil|].
      pose proof (Hbeyond q Hq). lia.
  - split_and!; [done|done|].
    intros q. destruct (Nat.lt_trichotomy q t) as [Hq|[->|Hq]].
    + by apply Hdone.
    + fold a. rewrite (take_short _ _ bs) by (rewrite length_drop; lia).
      replace a with (2 * t * bs) by lia. apply Htodo. lia.
    + rewrite drop_ge; [rewrite take_nil; apply low_first_nil|].
      pose proof (Hbeyond q Hq). lia.
Qed.

Lemma merge_passes_runs n k : ∀ data bs,
  0 < bs → length data = n → n < bs + k → runs low bs data →
  low_first low (merge_passes less k data n bs) ∧
  filter low (merge_passes less k data n bs) = filter low data.
Proof.
  assert (∀ data bs, length data ≤ bs → runs low bs data → low_first low data) as Hone.
  { intros data bs Hl Hr. specialize (Hr 0). by rewrite drop_0, take_ge in Hr. }
  induction k as [|k IH]; intros data bs Hbs Hn Hk Hruns; cbn [merge_passes].
  { split; [|done]. apply (Hone data bs); [lia|done]. }
  destruct (Nat.ltb_spec bs n) as [Hlt|Hge].
  2:{ split; [|done]. apply (Hone data bs); [lia|done]. }
  destruct (merge_pass_runs data n bs Hbs Hn Hruns) as (d & a & -> & Hl & Hf & Hr).
  cbv zeta in Hl, Hf, Hr |- *.
  destruct (IH _ (2 * bs) ltac:(lia) Hl ltac:(lia) Hr) as [H1 H2].
  split; [done|]. by rewrite H2.
Qed.

(** The low elements come first in the sorted slice, in their original
    order, whatever the comparison does between two high elements. *)
Lemma SliceStable_low_first data :
  low_first low (SliceStable less data) ∧
  filter low (SliceStable less data) = filter low data.
Proof.
  unfold SliceStable, stable.
  destruct (insertion_phase data (length data) eq_refl) as (d & a & -> & Hl & Hf & Hr).
  destruct (merge_passes_runs (length data) (length data) _ 20 ltac:(lia) Hl
              ltac:(lia) Hr) as [H1 H2].
  split; [done|]. by rewrite H2.
Qed.
End runs_facts.

(** ** Registries with wildcard anchors, of any length *)

Section wildcard_facts.
Context {DB : Type}.
Implicit Types (c x y : callback DB) (cs l : list (callback DB)).
Implicit Types (p : processor DB) (names sorted : list string).
Implicit Types (regs : list (anchor * string * option (DB → DB))).

Lemma less_no_wildcard_r x y : no_wildcard y → less_callback x y = false.
Proof.
  intros [Hb Ha]. apply String.eqb_neq in Hb, Ha.
  unfold less_callback. by rewrite Hb, Ha.
Qed.

Lemma less_no_wildcard_l x y :
  no_wildcard x → ¬ no_wildcard y → less_callback x y = true.
Proof.
  intros [Hb Ha] Hy. apply String.eqb_neq in Hb, Ha.
  unfold less_callback. rewrite Hb, Ha. simpl. rewrite !andb_true_r.
  destruct (String.eqb_spec (before y) "*") as [|Hb']; [done|].
  destruct (String.eqb_spec (after y) "*") as [|Ha']; [done|].
  by destruct Hy.
Qed.

(** The sort leaves the steps without wildcard in front, in their
    original order, on a slice of any length. *)
Lemma SliceStable_no_wildcard_first cs :
  low_first no_wildcard (SliceStable less_callback cs) ∧
  filter no_wildcard (SliceStable less_callback cs) = filter no_wildcard cs.
Proof.
  apply SliceStable_low_first; [apply less_no_wildcard_r|apply less_no_wildcard_l].
Qed.

Lemma anchored_no_wildcard c :
  free_step c ∨ first_step c ∨ last_step c → (no_wildcard c ↔ free_step c).
Proof.
  intros [[Hb Ha]|[[Hb Ha]|[Hb Ha]]]; unfold no_wildcard, free_step;
    rewrite Hb, Ha; split; intros [??]; done.
Qed.

Lemma SliceStable_anchored cs :
  Forall (λ c, free_step c ∨ first_step c ∨ last_step c) cs →
  filter free_step (SliceStable less_callback cs) = filter free_step cs ∧
  filter (λ c, ¬ first_step c) (SliceStable less_callback cs)
  = filter free_step cs ++ filter last_step (SliceStable less_callback cs).
Proof.
  intros Hc. destruct (SliceStable_no_wildcard_first cs) as [(l1 & l2 & E & H1 & H2) Hf].
  assert (Forall (λ c, free_step c ∨ first_step c ∨ last_step c)
            (SliceStable less_callback cs)) as Hc' by by rewrite SliceStable_perm.
  assert (filter free_step (SliceStable less_callback cs) = filter free_step cs) as Hfree.
  { rewrite <-(filter_ext_Forall no_wildcard free_step cs)
      by (eapply Forall_impl; [done|]; apply anchored_no_wildcard).
    rewrite <-Hf. symmetry. apply filter_ext_Forall.
    eapply Forall_impl; [done|]. apply anchored_no_wildcard. }
  split; [done|]. rewrite <-Hfree. rewrite E in Hc' |- *.
  apply Forall_app in Hc' as [Hc1 Hc2].
  assert (Forall free_step l1) as Hl1.
  { apply Forall_forall. intros c Hin.
    apply anchored_no_wildcard; [exact (proj1 (Forall_forall _ _) Hc1 c Hin)|].
    exact (proj1 (Forall_forall _ _) H1 c Hin). }
  assert (Forall (λ c, first_step c ∨ last_step c) l2) as Hl2.
  { apply Forall_forall. intros c Hin.
    destruct (proj1 (Forall_forall _ _) Hc2 c Hin) as [Hfr|?]; [|done].
    destruct (proj1 (Forall_forall _ _) H2 c Hin).
    apply anchored_no_wildcard; [by left|done]. }
  rewrite !filter_app.
  rewrite (filter_all (λ c, ¬ first_step c) l1)
    by (eapply Forall_impl; [done|]; intros c ??; by eapply first_not_free).
  rewrite (filter_all free_step l1) by done.
  rewrite (filter_none free_step l2).
  2:{ eapply Forall_impl; [done|]. intros c [?|?] ?;
        [by eapply first_not_free|by eapply last_not_free]. }
  rewrite (filter_none last_step l1)
    by (eapply Forall_impl; [done|]; intros c ??; by eapply last_not_free).
  rewrite app_nil_r. cbn [app]. f_equal.
  apply filter_ext_Forall. eapply Forall_impl; [done|].
  intros c [Hc0|Hc0]; simpl.
  - split; [done|]. intros ? ?. by eapply first_not_last.
  - split; [done|]. intros _ ?. by eapply first_not_last.
Qed.
Lemma compile_wildcards fuel p :
  Forall anchored_only (callbacks p) →
  NoDup (name <$> callbacks p) → "*" ∉ name <$> callbacks p →
  compile (S fuel) p
  = Some (Processor (db p) (Clauses p)
            (reverse (handler <$> filter first_step
                                    (SliceStable less_callback (callbacks p)))
             ++ (handler <$> filter free_step (callbacks p))
             ++ (handler <$> filter last_step
                               (SliceStable less_callback (callbacks p))))
            (SliceStable less_callback (callbacks p)), [], None).
Proof.
  intros Hall Hnd Hstar.
  assert (Forall (λ c, free_step c ∨ first_step c ∨ last_step c) (callbacks p)) as Hcl.
  { apply (Forall_impl _ _ _ Hall). intros c Hc. by destruct Hc as [? _]. }
  rewrite compile_unfold, candidates_all.
  2:{ apply (Forall_impl _ _ _ Hall). intros c (_ & Hr & Hm).
      split; [done|]. unfold match_ok. by rewrite Hm. }
  unfold sortCallbacks.
  destruct (SliceStable_anchored (callbacks p) Hcl) as [_ Hsplit].
  set (cs := SliceStable less_callback (callbacks p)) in *.
  assert (cs ≡ₚ callbacks p) as Hp by apply SliceStable_perm.
  assert (NoDup (name <$> cs)) as Hnd' by by rewrite Hp.
  rewrite (collect_names_fresh cs cs [] []) by done. simpl.
  rewrite (sort_each_anchored fuel cs (length cs) 0 []);
    [|by rewrite Hp|by rewrite Hp|done].
  simpl. rewrite drop_0, firstn_all, foldl_place by done.
  rewrite app_nil_l, <-fmap_reverse, <-fmap_app.
  rewrite collect_fns_names; [|done|].
  2:{ intros c Hc. assert (c ∈ cs) as Hc'.
      { apply elem_of_app in Hc as [Hc|Hc].
        - rewrite elem_of_reverse in Hc. by apply list_elem_of_filter in Hc as [_ ?].
        - by apply list_elem_of_filter in Hc as [_ ?]. }
      split; [done|]. rewrite Hp in Hc'.
      by destruct (proj1 (Forall_forall _ _) Hall c Hc') as (_ & ? & _). }
  simpl. rewrite Hsplit. by rewrite !fmap_app, fmap_reverse.
Qed.

Lemma register_wildcards fuel regs : ∀ regs0 p,
  NoDup ((regs0 ++ regs).*1.*2) → "*" ∉ (regs0 ++ regs).*1.*2 →
  callbacks p ≡ₚ entry <$> regs0 →
  filter free_step (callbacks p) = filter free_step (entry <$> regs0) →
  (∃ fs ls, fns p = fs ++ actions_of Free regs0 ++ ls ∧
            fs ≡ₚ actions_of First regs0 ∧ ls ≡ₚ actions_of Last regs0) →
  ∃ p' fs ls, register_anchored (S fuel) regs p
                = Some (p', [], replicate (length regs) None) ∧
              fns p' = fs ++ actions_of Free (regs0 ++ regs) ++ ls ∧
              fs ≡ₚ actions_of First (regs0 ++ regs) ∧
              ls ≡ₚ actions_of Last (regs0 ++ regs).
Proof.
  induction regs as [|reg regs IH]; intros regs0 p Hnd Hstar Hp Hfree Hfns.
  { destruct Hfns as (fs & ls & Hfns). exists p, fs, ls. by rewrite app_nil_r. }
  replace (regs0 ++ reg :: regs) with ((regs0 ++ [reg]) ++ regs) in *
    by by rewrite <-app_assoc.
  cbn [register_anchored]. unfold callback_Register, set_callbacks.
  change (set_handler reg.2 (set_name reg.1.2 (anchored reg.1.1))) with (entry reg).
  set (X := callbacks p ++ [entry reg]).
  assert (X ≡ₚ entry <$> (regs0 ++ [reg])) as Hp1.
  { subst X. by rewrite Hp, fmap_app. }
  assert (name <$> (entry <$> (regs0 ++ [reg])) = (regs0 ++ [reg]).*1.*2) as Hnames.
  { rewrite <-!list_fmap_compose. apply list_fmap_ext. by intros _ [[[] ?] ?] _. }
  assert (Forall anchored_only X) as Hall1.
  { rewrite Hp1. apply Forall_fmap, Forall_true. intros ?. apply entry_anchored_only. }
  assert (((regs0 ++ [reg]) ++ regs).*1.*2
          = (regs0 ++ [reg]).*1.*2 ++ regs.*1.*2) as Hsplit by by rewrite !fmap_app.
  assert (NoDup (name <$> X)) as Hnd1.
  { rewrite Hp1, Hnames. rewrite Hsplit in Hnd. by apply NoDup_app in Hnd as [? _]. }
  assert ("*" ∉ name <$> X) as Hstar1.
  { rewrite Hp1, Hnames. rewrite Hsplit in Hstar.
    by apply not_elem_of_app in Hstar as [? _]. }
  rewrite (compile_wildcards fuel (Processor (db p) (Clauses p) (fns p) X)
             Hall1 Hnd1 Hstar1).
  cbn [db Clauses callbacks mbind option_bind].
  assert (Forall (λ c, free_step c ∨ first_step c ∨ last_step c) X) as Hcl.
  { apply (Forall_impl _ _ _ Hall1). intros c Hc. by destruct Hc as [? _]. }
  destruct (SliceStable_anchored X Hcl) as [Hs _].
  assert (filter free_step X = filter free_step (entry <$> (regs0 ++ [reg]))) as Hfree1.
  { subst X. by rewrite fmap_app, !filter_app, Hfree. }
  edestruct (IH (regs0 ++ [reg])) as (p' & fs & ls & -> & Hfns'); [done|done| | | |].
  - cbn [callbacks]. by rewrite SliceStable_perm.
  - cbn [callbacks]. by rewrite Hs.
  - cbn [fns]. eexists _, _. split; [|split].
    + rewrite Hfree1, (filter_entry free_step Free) by apply entry_free. done.
    + rewrite reverse_Permutation, SliceStable_perm, Hp1.
      by rewrite (filter_entry first_step First) by apply entry_first.
    + rewrite SliceStable_perm, Hp1.
      by rewrite (filter_entry last_step Last) by apply entry_last.
  - simpl. by exists p', fs, ls.
Qed.
End wildcard_facts.

(** * The claims *)

(** C10.  Registering steps that declare no [before], no [after] and no
    condition, under pairwise distinct names, always succeeds: every
    [Register] call returns a nil error (and logs nothing), and the compiled
    function list is exactly the registered handlers in registration
    order. *)
Theorem C10_unconstrained_registrations {DB : Type} (d : DB) (fuel : nat)
    (regs : list (string * option (DB → DB))) :
  NoDup regs.*1 →
  ∃ p, register_all (S fuel) regs (initial d)
         = Some (p, [], replicate (length regs) None) ∧
       fns p = regs.*2.
Proof.
  intros Hnd.
  destruct (register_all_plain fuel regs [] (initial d)) as (p & Hp & _ & Hf);
    [done|done|done|].
  by exists p.
Qed.

Lemma C10_witness :
  NoDup ([("create", Some S); ("after_create", None)] : list (string * option (nat → nat))).*1 ∧
  ∃ p, register_all 1 [("create", Some S); ("after_create", None)] (initial 0)
         = Some (p, [], [None; None]) ∧
       fns p = [Some S; None].
Proof.
  assert (NoDup ([("create", Some S); ("after_create", None)]
                   : list (string * option (nat → nat))).*1) as Hnd.
  { apply (bool_decide_unpack _). vm_compute. exact I. }
  split; [exact Hnd|].
  exact (C10_unconstrained_registrations 0 0 _ Hnd).
Defined.

(** C1 (as stated, refuted).  Registering ["Y"] twice with different actions
    through plain [Register] does not make the compiled list run both: the
    list holds the second action only. *)
Lemma C1_counterexample :
  Register 1 "Y" (Some S) (initial 0)
    = Some (Processor 0 [] [Some S] [plain ("Y", Some S)], [], None) ∧
  Register 1 "Y" (Some (Nat.add 2)) (Processor 0 [] [Some S] [plain ("Y", Some S)])
    = Some (Processor 0 [] [Some (Nat.add 2)]
              [plain ("Y", Some S); plain ("Y", Some (Nat.add 2))],
            [Warn_duplicated "Y"], None) ∧
  [Some (Nat.add 2)] ≠ [Some S; Some (Nat.add 2)].
Proof. split_and!; [by vm_compute|by vm_compute|discriminate]. Qed.

(** C1 (amended).  If the same name is registered twice via plain
    [Register], both calls succeed; after the second one the compiled
    function list holds the second action only, a duplicate-name warning has
    been emitted, and [Get] of that name returns the second action. *)
Theorem C1_duplicate_name_last_wins {DB : Type} (d : DB) (fuel : nat)
    (nm : string) (f g : option (DB → DB)) :
  Register (S fuel) nm f (initial d)
    = Some (Processor d [] [f] [plain (nm, f)], [], None) ∧
  Register (S fuel) nm g (Processor d [] [f] [plain (nm, f)])
    = Some (Processor d [] [g] [plain (nm, f); plain (nm, g)],
            [Warn_duplicated nm], None) ∧
  Get (Processor d [] [g] [plain (nm, f); plain (nm, g)]) nm = g.
Proof.
  split_and!.
  - unfold Register, callback_Register. simpl.
    rewrite compile_unconstrained; [done|by apply Forall_singleton|apply NoDup_singleton].
  - unfold Register, callback_Register.
    rewrite compile_unfold, candidates_all by each_callback.
    unfold sortCallbacks. rewrite SliceStable_unconstrained by each_callback.
    by evaluate.
  - unfold Get. by evaluate.
Qed.

(** C3 (as stated, refuted).  A step registered under the name ["X"] after
    [Remove "X"] is compiled like any other: the removal marker does not
    outlive the compilation that processed it. *)
Lemma C3_counterexample :
  Register 1 "X" (Some S) (initial 0)
    = Some (Processor 0 [] [Some S] [plain ("X", Some S)], [], None) ∧
  Remove 1 "X" (Processor 0 [] [Some S] [plain ("X", Some S)])
    = Some (Processor 0 [] [] [], [Warn_removing "X"], None) ∧
  Register 1 "X" (Some (Nat.add 2)) (Processor 0 [] [] [])
    = Some (Processor 0 [] [Some (Nat.add 2)] [plain ("X", Some (Nat.add 2))], [], None).
Proof. split_and!; by vm_compute. Qed.

Lemma Get_loop_absent {DB : Type} (cbs : list (callback DB)) (nm : string) (n : nat) :
  (∀ c, c ∈ cbs → name c ≠ nm) → Get_loop cbs nm n = None.
Proof.
  intros Hn. induction n as [|n IH]; simpl; [done|].
  destruct (cbs !! n) as [v|] eqn:Hv; [|done].
  destruct (String.eqb_spec (name v) nm) as [Heq|_]; [|done].
  destruct (Hn v); [by eapply list_elem_of_lookup_2|done].
Qed.

Lemma removal_marker_excludes {DB : Type} (p : processor DB) (c m : callback DB) :
  c ∈ candidates p → m ∈ callbacks p → remove m = true → name c ≠ name m.
Proof.
  unfold candidates. intros ([_ Hc] & _)%list_elem_of_filter Hm Hr Heq.
  apply Hc. rewrite Heq. unfold removed_names.
  apply list_elem_of_fmap_2. by apply list_elem_of_filter.
Qed.

Lemma removed_names_nil {DB : Type} (cs : list (callback DB)) :
  (∀ c, c ∈ cs → remove c = false) → removed_names cs = [].
Proof.
  intros Hr. unfold removed_names. induction cs as [|c cs IH]; [done|].
  rewrite filter_cons_False.
  - apply IH. intros c' Hc'. apply Hr. by right.
  - rewrite Hr; [done|by left].
Qed.

Lemma index_elem_of {A} (l : list A) i x : index l i = Some x → x ∈ l.
Proof. intros [_ H]%index_Some. by eapply list_elem_of_lookup_2. Qed.

Lemma candidates_subseteq {DB : Type} (p : processor DB) (c : callback DB) :
  c ∈ candidates p → c ∈ callbacks p.
Proof. unfold candidates. by intros (_ & ?)%list_elem_of_filter. Qed.

Lemma appended_candidate {DB : Type} (p : processor DB) (c : callback DB) :
  remove c = false → match_ok (db p) c = true →
  name c ∉ removed_names (callbacks p) →
  c ∈ candidates (set_callbacks (callbacks p ++ [c]) p).
Proof.
  intros Hr Hm Hn. unfold candidates. simpl. apply list_elem_of_filter.
  split; [|apply elem_of_app; right; by left].
  split; [done|]. unfold removed_names in *.
  rewrite filter_app, fmap_app, filter_cons_False, filter_nil, fmap_nil, app_nil_r;
    [done|congruence].
Qed.

Lemma sortCallbacks_fns_from {DB : Type} fuel (cs0 cs' : list (callback DB)) warns fns err fn :
  sortCallbacks fuel cs0 = Some (cs', warns, fns, err) → fn ∈ fns →
  ∃ c, c ∈ cs' ∧ handler c = fn ∧ remove c = false.
Proof.
  intros (sorted & _ & _ & _ & Hf)%sortCallbacks_Some Hfn.
  destruct err as [e|]; [subst; by apply elem_of_nil in Hfn|].
  destruct Hf as [_ Hf]. apply collect_fns_Some in Hf as (cbs & HF & ->). simpl in Hfn.
  apply list_elem_of_fmap in Hfn as (c & -> & (Hr & Hc)%list_elem_of_filter).
  exists c. split_and!; [|done|done].
  apply list_elem_of_lookup in Hc as [i Hi].
  destruct (Forall2_lookup_r _ _ _ _ _ HF Hi) as (nm & _ & Hix).
  by eapply index_elem_of.
Qed.

(** What [Remove name] leaves in the registry comes from a registered step
    of another name that is no removal marker, with its [core] unchanged. *)
Lemma Remove_registry_origin {DB : Type} (fuel : nat) (c : callback DB) (nm : string)
    (p p' : processor DB) (log : list log_entry) (err : option string) (c' : callback DB) :
  callback_Remove fuel c nm p = Some (p', log, err) → c' ∈ callbacks p' →
  ∃ c0, c0 ∈ callbacks p ∧ core c0 = core c' ∧ name c0 ≠ nm ∧ remove c0 = false.
Proof.
  unfold callback_Remove. intros H Hc'.
  apply bind_Some in H as ([[p0 log0] err0] & Hc & H). simplify_eq.
  set (m := set_remove true (set_name nm c)) in *.
  set (p1 := set_callbacks (callbacks p ++ [m]) p) in *.
  pose proof (compile_core_perm _ _ _ _ _ Hc) as Hp.
  destruct (core_elem_of c' _ _ (symmetry Hp) Hc') as (c0 & Hc0 & Hcore).
  pose proof (candidates_not_removed _ _ Hc0) as Hr.
  exists c0. split_and!; [|done| |done].
  - apply candidates_subseteq in Hc0. simpl in Hc0.
    apply elem_of_app in Hc0 as [Hc0|Hc0%list_elem_of_singleton]; [done|].
    subst c0. done.
  - apply (removal_marker_excludes p1 c0 m); [done| |done].
    apply elem_of_app. right. by left.
Qed.

(** C3 (amended).  [Remove name] drops from the registry every step
    registered under that name so far, together with the removal marker
    itself: no entry of that name and no marker is left, and [Get] finds
    nothing.  The compiled list the call leaves behind holds only functions
    of registered steps of other names, and so does the compiled list of
    every later compilation of that registry, apart from the functions of
    the entries appended in between.  A step registered under the same name
    afterwards is compiled normally: whenever that registration compiles, its
    action is in the compiled list. *)
Theorem C3_remove_prunes_registered_steps {DB : Type} (fuel : nat) (c : callback DB)
    (nm : string) (p p' : processor DB) (log : list log_entry) (err : option string) :
  callback_Remove fuel c nm p = Some (p', log, err) →
  (∀ c', c' ∈ callbacks p' → name c' ≠ nm ∧ remove c' = false) ∧
  Get p' nm = None ∧
  (∀ fn, fn ∈ fns p' →
     ∃ c0, c0 ∈ callbacks p ∧ name c0 ≠ nm ∧ remove c0 = false ∧ handler c0 = fn) ∧
  (∀ fuel' later p'' log' err' fn,
     compile fuel' (set_callbacks (callbacks p' ++ later) p') = Some (p'', log', err') →
     fn ∈ fns p'' →
     (∃ c0, c0 ∈ callbacks p ∧ name c0 ≠ nm ∧ remove c0 = false ∧ handler c0 = fn) ∨
     (∃ c1, c1 ∈ later ∧ handler c1 = fn)) ∧
  (∀ fuel' fn p'' log',
     Register fuel' nm fn p' = Some (p'', log', None) → fn ∈ fns p'').
Proof.
  intros Hrm.
  assert (∀ c', c' ∈ callbacks p' →
            ∃ c0, c0 ∈ callbacks p ∧ core c0 = core c' ∧ name c0 ≠ nm
                  ∧ remove c0 = false) as Horigin
    by (intros c'; apply (Remove_registry_origin _ _ _ _ _ _ _ _ Hrm)).
  assert (∀ c', c' ∈ callbacks p' → name c' ≠ nm ∧ remove c' = false) as Hclean.
  { intros c' (c0 & _ & Hcore & Hn & Hr)%Horigin.
    assert (name c0 = name c' ∧ remove c0 = remove c') as [<- <-]
      by (unfold core in Hcore; split; congruence).
    done. }
  assert (∀ c', c' ∈ callbacks p' →
            ∃ c0, c0 ∈ callbacks p ∧ name c0 ≠ nm ∧ remove c0 = false
                  ∧ handler c0 = handler c') as Hhandler.
  { intros c' (c0 & Hc0 & Hcore & Hn & Hr)%Horigin. exists c0.
    split_and!; [done..|]. unfold core in Hcore. congruence. }
  unfold callback_Remove in Hrm.
  apply bind_Some in Hrm as ([[p0 log0] err0] & Hc & H). simplify_eq.
  split_and!; [done| | | |].
  { apply Get_loop_absent. intros c' Hc'. by apply Hclean. }
  { intros fn Hfn.
    apply compile_Some in Hc as (_ & _ & warns & Hs & _).
    destruct (sortCallbacks_fns_from _ _ _ _ _ _ _ Hs Hfn) as (c' & Hc' & <- & _).
    by apply Hhandler. }
  { intros fuel' later p'' log' err' fn Hlater Hfn.
    pose proof (compile_core_perm _ _ _ _ _ Hlater) as Hp.
    apply compile_Some in Hlater as (_ & _ & warns & Hs & _).
    destruct (sortCallbacks_fns_from _ _ _ _ _ _ _ Hs Hfn) as (c2 & Hc2 & <- & _).
    destruct (core_elem_of c2 _ _ (symmetry Hp) Hc2) as (c1 & Hc1 & Hcore).
    assert (handler c1 = handler c2) as <- by (unfold core in Hcore; congruence).
    apply candidates_subseteq in Hc1. simpl in Hc1.
    apply elem_of_app in Hc1 as [Hc1|Hc1]; [left; by apply Hhandler|right; eauto]. }
  intros fuel' fn p'' log' Hreg. unfold Register, callback_Register in Hreg.
  change (set_handler fn (set_name nm new_callback)) with (@plain DB (nm, fn)) in Hreg.
  set (y := plain (nm, fn)) in *.
  set (p2 := set_callbacks (callbacks p' ++ [y]) p') in *.
  assert (y ∈ candidates p2) as Hy.
  { apply appended_candidate; [done|done|].
    rewrite removed_names_nil; [apply not_elem_of_nil|]. intros c' Hc'. by apply Hclean. }
  pose proof (compile_core_perm _ _ _ _ _ Hreg) as Hp.
  apply compile_Some in Hreg as (_ & _ & warns & Hs & _).
  destruct (core_elem_of y _ _ Hp Hy) as (c1 & Hc1 & Hcore1).
  assert (nm ∈ name <$> callbacks p'') as Hnm.
  { apply (list_elem_of_fmap_2' _ _ c1); [done|].
    unfold core in Hcore1. simpl in Hcore1. congruence. }
  destruct (sortCallbacks_fns_elem _ _ _ _ _ _ Hs Hnm) as (c2 & Hix & Hn2 & Hin).
  apply index_elem_of in Hix.
  destruct (core_elem_of c2 _ _ (symmetry Hp) Hix) as (c0 & Hc0 & Hcore0).
  assert (c0 = y) as ->.
  { apply candidates_subseteq in Hc0. simpl in Hc0.
    apply elem_of_app in Hc0 as [Hc0|Hc0%list_elem_of_singleton]; [|done].
    destruct (Hclean c0 Hc0) as [Hne _]. destruct Hne.
    unfold core in Hcore0. congruence. }
  assert (handler c2 = fn ∧ remove c2 = false) as [<- Hr2]
    by (unfold core in Hcore0; simpl in Hcore0; split; congruence).
  by apply Hin.
Qed.

Lemma C3_witness :
  Remove 1 "X" (Processor 0 [] [Some S; Some (Nat.add 2)]
                  [plain ("X", Some S); plain ("Y", Some (Nat.add 2))])
    = Some (Processor 0 [] [Some (Nat.add 2)] [plain ("Y", Some (Nat.add 2))],
            [Warn_removing "X"], None) ∧
  (∀ c', c' ∈ callbacks (Processor 0 [] [Some (Nat.add 2)]
                           [plain ("Y", Some (Nat.add 2))]) →
         name c' ≠ "X" ∧ remove c' = false) ∧
  Get (Processor 0 [] [Some (Nat.add 2)] [plain ("Y", Some (Nat.add 2))]) "X" = None ∧
  (∀ fn, fn ∈ fns (Processor 0 [] [Some (Nat.add 2)] [plain ("Y", Some (Nat.add 2))]) →
     ∃ c0, c0 ∈ callbacks (Processor 0 [] [Some S; Some (Nat.add 2)]
                             [plain ("X", Some S); plain ("Y", Some (Nat.add 2))]) ∧
           name c0 ≠ "X" ∧ remove c0 = false ∧ handler c0 = fn) ∧
  (∀ fuel' later p'' log' err' fn,
     compile fuel'
       (set_callbacks
          (callbacks (Processor 0 [] [Some (Nat.add 2)] [plain ("Y", Some (Nat.add 2))])
             ++ later)
          (Processor 0 [] [Some (Nat.add 2)] [plain ("Y", Some (Nat.add 2))]))
     = Some (p'', log', err') →
     fn ∈ fns p'' →
     (∃ c0, c0 ∈ callbacks (Processor 0 [] [Some S; Some (Nat.add 2)]
                              [plain ("X", Some S); plain ("Y", Some (Nat.add 2))]) ∧
            name c0 ≠ "X" ∧ remove c0 = false ∧ handler c0 = fn) ∨
     (∃ c1, c1 ∈ later ∧ handler c1 = fn)) ∧
  (∀ fuel' fn p'' log',
     Register fuel' "X" fn
       (Processor 0 [] [Some (Nat.add 2)] [plain ("Y", Some (Nat.add 2))])
     = Some (p'', log', None) →
     fn ∈ fns p'').
Proof.
  assert (Remove 1 "X" (Processor 0 [] [Some S; Some (Nat.add 2)]
                          [plain ("X", Some S); plain ("Y", Some (Nat.add 2))])
          = Some (Processor 0 [] [Some (Nat.add 2)] [plain ("Y", Some (Nat.add 2))],
                  [Warn_removing "X"], None)) as H
    by (vm_compute; reflexivity).
  split; [exact H|].
  exact (C3_remove_prunes_registered_steps 1 new_callback "X" _ _ _ _ H).
Defined.

Lemma match_ok_core {DB : Type} (d : DB) (c c' : callback DB) :
  core c = core c' → match_ok d c = match_ok d c'.
Proof. unfold core, match_ok. intros H. by assert (match_ c = match_ c') as -> by congruence. Qed.

Lemma compile_no_markers {DB : Type} fuel (p p' : processor DB) log err c' :
  compile fuel p = Some (p', log, err) → c' ∈ callbacks p' →
  remove c' = false ∧ match_ok (db p) c' = true.
Proof.
  intros Hp%compile_core_perm Hc'.
  destruct (core_elem_of c' _ _ (symmetry Hp) Hc') as (c0 & Hc0 & Hcore).
  rewrite <-(match_ok_core _ _ _ Hcore).
  assert (remove c0 = remove c') as <- by (unfold core in Hcore; congruence).
  split; [by eapply candidates_not_removed|].
  unfold candidates in Hc0. by apply list_elem_of_filter in Hc0 as ([? _] & _).
Qed.

(** C6 (as stated, refuted).  A step whose condition is false when it is
    registered is dropped from the registry by that compilation; a later
    compilation, made when the condition has become true, does not include
    it. *)
Lemma C6_counterexample :
  callback_Register 1 (processor_Match (Some (λ b : bool, b))) "X" (Some negb)
    (initial false)
    = Some (Processor false [] [] [], [], None) ∧
  Register 1 "Z" (Some (λ b : bool, b)) (Processor true [] [] [])
    = Some (Processor true [] [Some (λ b : bool, b)]
              [plain ("Z", Some (λ b : bool, b))], [], None).
Proof. split; by vm_compute. Qed.

(** C6 (amended).  A step whose condition evaluates to false at compile time
    is excluded from that compilation and is dropped from the registry: the
    registry left by [compile] holds only steps whose condition held, every
    compiled action belongs to such a step, and no entry with the registration
    data of a rejected step remains (so later compilations never see it
    again). *)
Theorem C6_false_condition_drops_step {DB : Type} (fuel : nat) (p p' : processor DB)
    (log : list log_entry) (err : option string) :
  compile fuel p = Some (p', log, err) →
  (∀ c', c' ∈ callbacks p' → match_ok (db p) c' = true) ∧
  (∀ fn, fn ∈ fns p' → ∃ c', c' ∈ callbacks p' ∧ handler c' = fn) ∧
  (∀ c, c ∈ callbacks p → match_ok (db p) c = false → core c ∉ core <$> callbacks p').
Proof.
  intros H. split_and!.
  - intros c' Hc'. by eapply compile_no_markers.
  - intros fn Hfn. apply compile_Some in H as (_ & _ & warns & Hs & _).
    destruct (sortCallbacks_fns_from _ _ _ _ _ _ _ Hs Hfn) as (c' & ? & ? & _). eauto.
  - intros c _ Hm (c' & Hcore & Hc')%list_elem_of_fmap.
    destruct (compile_no_markers _ _ _ _ _ _ H Hc') as [_ Hok].
    rewrite (match_ok_core _ _ _ Hcore) in Hm. congruence.
Qed.

Lemma C6_witness :
  compile 1 (Processor false [] []
               [set_handler (Some negb)
                  (set_name "X" (processor_Match (Some (λ b : bool, b))))])
    = Some (Processor false [] [] [], [], None) ∧
  (∀ c', c' ∈ callbacks (Processor false [] [] []) → match_ok false c' = true) ∧
  (∀ fn, fn ∈ fns (Processor false [] [] []) →
         ∃ c', c' ∈ callbacks (Processor false [] [] []) ∧ handler c' = fn) ∧
  (∀ c, c ∈ [set_handler (Some negb)
               (set_name "X" (processor_Match (Some (λ b : bool, b))))] →
        match_ok false c = false →
        core c ∉ core <$> callbacks (Processor false [] [] [])).
Proof.
  assert (compile 1 (Processor false [] []
               [set_handler (Some negb)
                  (set_name "X" (processor_Match (Some (λ b : bool, b))))])
          = Some (Processor false [] [] [], [], None)) as H
    by (vm_compute; reflexivity).
  split; [exact H|].
  exact (C6_false_condition_drops_step 1 _ _ _ _ H).
Defined.

(** C7 (as stated, refuted).  Compiling after the registration of ["B"]
    rewrites the [after] field of the registered step ["B"] from empty to
    ["A"], because ["A"] declares [before = "B"]. *)
Lemma C7_counterexample :
  callback_Register 1 (processor_Before "B") "A" (Some S) (initial 0)
    = Some (Processor 0 [] [Some S] [set_before "B" (plain ("A", Some S))], [], None) ∧
  Register 1 "B" (Some (Nat.add 2))
    (Processor 0 [] [Some S] [set_before "B" (plain ("A", Some S))])
    = Some (Processor 0 [] [Some S; Some (Nat.add 2)]
              [set_before "B" (plain ("A", Some S));
               set_after "A" (plain ("B", Some (Nat.add 2)))], [], None) ∧
  after (set_after "A" (plain ("B", Some (Nat.add 2)))) ≠ after (plain ("B", Some (Nat.add 2))).
Proof. split_and!; [by vm_compute|by vm_compute|discriminate]. Qed.

(** C7 (amended).  Compiling a stage leaves the name, the handler, the
    removal and replacement marks and the condition of every candidate step
    unchanged: the registry it leaves behind holds exactly the candidate
    steps with those fields as registered (in the sorted order).  The
    [before] and [after] fields are not covered: the compiler may overwrite
    them. *)
Theorem C7_compile_preserves_core {DB : Type} (fuel : nat) (p p' : processor DB)
    (log : list log_entry) (err : option string) :
  compile fuel p = Some (p', log, err) →
  core <$> callbacks p' ≡ₚ core <$> candidates p ∧
  db p' = db p ∧ Clauses p' = Clauses p.
Proof.
  intros H. split; [by eapply compile_core_perm|].
  by apply compile_Some in H as (? & ? & _).
Qed.

Lemma C7_witness :
  compile 1 (Processor 0 [] [Some S]
               [set_before "B" (plain ("A", Some S)); plain ("B", Some (Nat.add 2))])
    = Some (Processor 0 [] [Some S; Some (Nat.add 2)]
              [set_before "B" (plain ("A", Some S));
               set_after "A" (plain ("B", Some (Nat.add 2)))], [], None) ∧
  core <$> [set_before "B" (plain ("A", Some S));
            set_after "A" (plain ("B", Some (Nat.add 2)))]
  ≡ₚ core <$> candidates (Processor 0 [] [Some S]
                            [set_before "B" (plain ("A", Some S));
                             plain ("B", Some (Nat.add 2))]) ∧
  0 = 0 ∧ @nil string = [].
Proof.
  assert (compile 1 (Processor 0 [] [Some S]
               [set_before "B" (plain ("A", Some S)); plain ("B", Some (Nat.add 2))])
    = Some (Processor 0 [] [Some S; Some (Nat.add 2)]
              [set_before "B" (plain ("A", Some S));
               set_after "A" (plain ("B", Some (Nat.add 2)))], [], None)) as H
    by (vm_compute; reflexivity).
  split; [exact H|].
  exact (C7_compile_preserves_core 1 _ _ _ _ H).
Defined.

Lemma failed_compile_keeps_appended {DB : Type} fuel (p p' : processor DB)
    (c : callback DB) log e :
  (∀ c0, c0 ∈ callbacks p → remove c0 = false) →
  remove c = false → match_ok (db p) c = true →
  compile fuel (set_callbacks (callbacks p ++ [c]) p) = Some (p', log, Some e) →
  fns p' = [] ∧ Error_compile e ∈ log ∧
  ∃ c', c' ∈ callbacks p' ∧ name c' = name c ∧ handler c' = handler c.
Proof.
  intros Hclean Hr Hm H.
  destruct (compile_fns_error _ _ _ _ _ H) as [Hf Hl]. split_and!; [done|done|].
  assert (c ∈ candidates (set_callbacks (callbacks p ++ [c]) p)) as Hc.
  { apply appended_candidate; [done|done|].
    rewrite removed_names_nil by done. apply not_elem_of_nil. }
  destruct (core_elem_of c _ _ (compile_core_perm _ _ _ _ _ H) Hc) as (c' & Hc' & Hcore).
  exists c'. unfold core in Hcore. split_and!; [done|congruence|congruence].
Qed.

(** C8.  When the recompilation triggered by a registration ([Register] or
    [Replace]) fails with a conflict, nothing is cached: the stage's compiled
    function list is left empty, never partially sorted, and the error is
    logged.  The registration is not rolled back: the offending step, a
    candidate of this compilation (the registry holds no pending removal
    marker, as after every compilation, and the step's condition, if any,
    holds), is still in the registry with its name and action. *)
Theorem C8_failed_compile_caches_nothing {DB : Type} (fuel : nat) (c : callback DB)
    (nm : string) (fn : option (DB → DB)) (p p' : processor DB)
    (log : list log_entry) (e : string) :
  callback_Register fuel c nm fn p = Some (p', log, Some e)
  ∨ callback_Replace fuel c nm fn p = Some (p', log, Some e) →
  fns p' = [] ∧ Error_compile e ∈ log ∧
  ((∀ c0, c0 ∈ callbacks p → remove c0 = false) →
   remove c = false → match_ok (db p) c = true →
   ∃ c', c' ∈ callbacks p' ∧ name c' = nm ∧ handler c' = fn).
Proof.
  intros [H|H].
  - unfold callback_Register in H.
    destruct (compile_fns_error _ _ _ _ _ H) as [Hf Hl]. split_and!; [done|done|].
    intros Hclean Hr Hm. by apply failed_compile_keeps_appended in H as (_ & _ & ?).
  - unfold callback_Replace in H.
    apply bind_Some in H as ([[p0 log0] e0] & H & Heq). simplify_eq.
    destruct (compile_fns_error _ _ _ _ _ H) as [Hf Hl]. split_and!; [done|by right|].
    intros Hclean Hr Hm. by apply failed_compile_keeps_appended in H as (_ & _ & ?).
Qed.

Lemma C8_witness :
  (callback_Register 1 (processor_Before "A") "B" (Some (Nat.add 2))
     (Processor 0 [] [Some S] [set_before "B" (plain ("A", Some S))])
   = Some (Processor 0 [] []
             [set_before "B" (plain ("A", Some S));
              set_after "A" (set_before "A" (plain ("B", Some (Nat.add 2))))],
           [Error_compile "conflicting callback B with before A"],
           Some "conflicting callback B with before A")) ∧
  fns (Processor 0 [] []
         [set_before "B" (plain ("A", Some S));
          set_after "A" (set_before "A" (plain ("B", Some (Nat.add 2))))]) = [] ∧
  Error_compile "conflicting callback B with before A"
    ∈ [Error_compile "conflicting callback B with before A"] ∧
  ((∀ c0, c0 ∈ [set_before "B" (plain ("A", Some S))] → remove c0 = false) →
   remove (processor_Before (DB:=nat) "A") = false →
   match_ok 0 (processor_Before "A") = true →
   ∃ c', c' ∈ [set_before "B" (plain ("A", Some S));
               set_after "A" (set_before "A" (plain ("B", Some (Nat.add 2))))] ∧
         name c' = "B" ∧ handler c' = Some (Nat.add 2)).
Proof.
  assert (callback_Register 1 (processor_Before "A") "B" (Some (Nat.add 2))
     (Processor 0 [] [Some S] [set_before "B" (plain ("A", Some S))])
   = Some (Processor 0 [] []
             [set_before "B" (plain ("A", Some S));
              set_after "A" (set_before "A" (plain ("B", Some (Nat.add 2))))],
           [Error_compile "conflicting callback B with before A"],
           Some "conflicting callback B with before A")) as H
    by (vm_compute; reflexivity).
  split; [exact H|].
  exact (C8_failed_compile_caches_nothing 1 (processor_Before "A") "B"
           (Some (Nat.add 2))
           (Processor 0 [] [Some S] [set_before "B" (plain ("A", Some S))])
           _ _ _ (or_introl H)).
Defined.

(** C2 (as stated, refuted).  Two steps registered under one name, with no
    constraints at all, compile to a list holding only the second action:
    the first step is lost, so the list is not a permutation of the
    candidate set.  And with distinct names, constraints that can be met may
    still be rejected: after ["A"] and ["B"], a step ["C"] declaring
    [before = "A"] and [after = "B"] (the order B, C, A meets both) makes the
    compilation fail with a conflict and an empty list. *)
Lemma C2_counterexample :
  (candidates (Processor 0 [] [] [plain ("Y", Some S); plain ("Y", Some (Nat.add 2))])
     = [plain ("Y", Some S); plain ("Y", Some (Nat.add 2))] ∧
   no_contradiction [plain ("Y", Some S); plain ("Y", Some (Nat.add 2))] ∧
   compile 1 (Processor 0 [] [] [plain ("Y", Some S); plain ("Y", Some (Nat.add 2))])
     = Some (Processor 0 [] [Some (Nat.add 2)]
               [plain ("Y", Some S); plain ("Y", Some (Nat.add 2))],
             [Warn_duplicated "Y"], None) ∧
   ¬ ([Some (Nat.add 2)]
      ≡ₚ handler <$> [plain ("Y", Some S); plain ("Y", Some (Nat.add 2))])) ∧
  (candidates (Processor 0 [] []
                 [plain ("A", Some S); plain ("B", Some (Nat.add 2));
                  set_after "B" (set_before "A" (plain ("C", Some (Nat.add 3))))])
     = [plain ("A", Some S); plain ("B", Some (Nat.add 2));
        set_after "B" (set_before "A" (plain ("C", Some (Nat.add 3))))] ∧
   no_contradiction [plain ("A", Some S); plain ("B", Some (Nat.add 2));
                     set_after "B" (set_before "A" (plain ("C", Some (Nat.add 3))))] ∧
   compile 1 (Processor 0 [] []
                [plain ("A", Some S); plain ("B", Some (Nat.add 2));
                 set_after "B" (set_before "A" (plain ("C", Some (Nat.add 3))))])
     = Some (Processor 0 [] []
               [plain ("A", Some S); plain ("B", Some (Nat.add 2));
                set_after "B" (set_before "A" (plain ("C", Some (Nat.add 3))))],
             [Error_compile (conflict "C" "B")], Some (conflict "C" "B"))).
Proof.
  split; split_and!; try by vm_compute.
  - exists (λ _, 0). intros c Hc. simpl.
    assert (before c = "" ∧ after c = "") as [-> ->].
    { apply elem_of_cons in Hc as [->|Hc]; [done|].
      apply list_elem_of_singleton in Hc as ->. done. }
    split; intros Hin; vm_compute in Hin;
      repeat (apply elem_of_cons in Hin as [Hin|Hin]; [discriminate|]);
      by apply elem_of_nil in Hin.
  - intros Hp. apply Permutation_length in Hp. discriminate.
  - exists (λ nm, if String.eqb nm "B" then 0 else if String.eqb nm "C" then 1 else 2).
    intros c Hc. simpl.
    apply elem_of_cons in Hc as [->|Hc]; [|apply elem_of_cons in Hc as [->|Hc]];
      [| |apply list_elem_of_singleton in Hc as ->]; simpl.
    1,2: split; intros Hin; vm_compute in Hin;
      repeat (apply elem_of_cons in Hin as [Hin|Hin]; [discriminate|]);
      by apply elem_of_nil in Hin.
    split; intros _; lia.
Qed.

(** C2 (amended).  For every candidate set with pairwise distinct names
    whose named constraints can all be met at once (no cyclic demand),
    compilation terminates; and whenever it reports no conflict, the
    compiled function list is a permutation of the candidate set's actions:
    no step lost, none duplicated. *)
Theorem C2_compile_permutes_candidates {DB : Type} (p : processor DB) :
  NoDup (name <$> candidates p) → no_contradiction (candidates p) →
  (∃ fuel p' log err, compile fuel p = Some (p', log, err)) ∧
  (∀ fuel p' log, compile fuel p = Some (p', log, None) →
     fns p' ≡ₚ handler <$> candidates p).
Proof.
  intros Hnd Hnc. split.
  - destruct (sortCallbacks_terminates _ Hnc) as (fuel & [[[cs' warns] fns'] err] & Hs).
    exists fuel. rewrite compile_unfold, Hs. simpl. destruct err; eauto.
  - intros fuel p' log. by apply compile_fns_perm.
Qed.

Lemma C2_witness :
  NoDup (name <$> candidates (Processor 0 [] []
                                [set_before "A" (plain ("B", Some S));
                                 plain ("A", Some (Nat.add 2))])) ∧
  no_contradiction (candidates (Processor 0 [] []
                                  [set_before "A" (plain ("B", Some S));
                                   plain ("A", Some (Nat.add 2))])) ∧
  (∃ fuel p' log err,
     compile fuel (Processor 0 [] []
                     [set_before "A" (plain ("B", Some S));
                      plain ("A", Some (Nat.add 2))]) = Some (p', log, err)) ∧
  (∀ fuel p' log,
     compile fuel (Processor 0 [] []
                     [set_before "A" (plain ("B", Some S));
                      plain ("A", Some (Nat.add 2))]) = Some (p', log, None) →
     fns p' ≡ₚ handler <$> candidates (Processor 0 [] []
                                         [set_before "A" (plain ("B", Some S));
                                          plain ("A", Some (Nat.add 2))])).
Proof.
  assert (NoDup (name <$> candidates (Processor 0 [] []
                                [set_before "A" (plain ("B", Some S));
                                 plain ("A", Some (Nat.add 2))]))) as H1.
  { apply (bool_decide_unpack _). vm_compute. exact I. }
  assert (no_contradiction (candidates (Processor 0 [] []
                                  [set_before "A" (plain ("B", Some S));
                                   plain ("A", Some (Nat.add 2))]))) as H2.
  { exists (λ s, if String.eqb s "A" then 1 else 0). intros c Hc.
    vm_compute in Hc. apply elem_of_cons in Hc as [->|Hc].
    - split; intros Hin; vm_compute; [lia|].
      vm_compute in Hin.
      repeat (apply elem_of_cons in Hin as [Hin|Hin]; [discriminate|]).
      by apply elem_of_nil in Hin.
    - apply list_elem_of_singleton in Hc as ->.
      split; intros Hin; vm_compute in Hin;
        repeat (apply elem_of_cons in Hin as [Hin|Hin]; [discriminate|]);
        by apply elem_of_nil in Hin. }
  split; [exact H1|]. split; [exact H2|].
  exact (C2_compile_permutes_candidates _ H1 H2).
Defined.

Section Execute_facts.
Context {Value Scope Expr Err RValue Ext : Type}.
Local Abbreviation DB := (@Harness.DB Value Scope Expr Err RValue Ext).
Context (executeScopes : DB → DB).
Context (StatementModifier : Value → option (DB → DB)).
Context (Parse : Value → DB → DB * option Err).
Context (is_ErrUnsupportedDataType : Err → bool).
Context (table_not_set : Err → Err).
Context (ErrInvalidValue : Err).
Context (AddError : Err → DB → DB).
Context (indirect : Value → RValue).
Context (IsValid : RValue → bool).

Lemma restore_clauses_statement (reset : bool) (d : DB) :
  Harness.SQL (Harness.restore_clauses reset d) = Harness.SQL d ∧
  Harness.Vars (Harness.restore_clauses reset d) = Harness.Vars d ∧
  Harness.DryRun (Harness.restore_clauses reset d) = Harness.DryRun d.
Proof. by destruct reset. Qed.

(** C9.  Whenever the harness returns: if the dry-run flag is false when
    the callbacks and the tracer are done, the returned context has an
    empty SQL text and an empty parameter list; if the flag is true, the
    SQL text and the parameters the callbacks produced are returned
    intact.  The flag itself is returned as it was. *)
Theorem C9_Execute_resets_statement (fuel : nat) (p : processor DB) (d d' : DB) :
  Harness.Execute executeScopes StatementModifier Parse is_ErrUnsupportedDataType
    table_not_set ErrInvalidValue AddError indirect IsValid fuel p d = Some d' →
  ∃ d1 reset,
    Harness.Execute_run executeScopes StatementModifier Parse
      is_ErrUnsupportedDataType table_not_set ErrInvalidValue AddError indirect
      IsValid fuel p d = Some (d1, reset) ∧
    Harness.DryRun d' = Harness.DryRun d1 ∧
    (Harness.DryRun d1 = false → Harness.SQL d' = "" ∧ Harness.Vars d' = []) ∧
    (Harness.DryRun d1 = true →
       Harness.SQL d' = Harness.SQL d1 ∧ Harness.Vars d' = Harness.Vars d1).
Proof.
  unfold Harness.Execute. intros H.
  apply bind_Some in H as ([d1 reset] & Hrun & H). simplify_eq.
  exists d1, reset. split; [done|].
  destruct (restore_clauses_statement reset (Harness.reset_statement d1))
    as (-> & -> & ->).
  unfold Harness.reset_statement. destruct (Harness.DryRun d1) eqn:Hd; simpl.
  - rewrite Hd. by split_and!.
  - by split_and!.
Qed.
End Execute_facts.

Lemma C9_witness :
  Harness.Execute (λ d, d) (λ _, None) (λ _ d, (d, None)) (λ _, false) (λ e, e) tt
    (λ _ d, d) (λ v, v) (λ _, true) 1
    (Processor Harness.example_context ["SELECT"] [Some Harness.example_callback] [])
    Harness.example_context
  = Some (Harness.set_traces [("SELECT ?", [7], 0%Z, None)] Harness.example_context) ∧
  ∃ d1 reset,
    Harness.Execute_run (λ d, d) (λ _, None) (λ _ d, (d, None)) (λ _, false)
      (λ e, e) tt (λ _ d, d) (λ v, v) (λ _, true) 1
      (Processor Harness.example_context ["SELECT"] [Some Harness.example_callback] [])
      Harness.example_context
    = Some (d1, reset) ∧
    Harness.DryRun
      (Harness.set_traces [("SELECT ?", [7], 0%Z, None)] Harness.example_context)
    = Harness.DryRun d1 ∧
    (Harness.DryRun d1 = false →
       Harness.SQL
         (Harness.set_traces [("SELECT ?", [7], 0%Z, None)] Harness.example_context) = "" ∧
       Harness.Vars
         (Harness.set_traces [("SELECT ?", [7], 0%Z, None)] Harness.example_context) = []) ∧
    (Harness.DryRun d1 = true →
       Harness.SQL
         (Harness.set_traces [("SELECT ?", [7], 0%Z, None)] Harness.example_context)
       = Harness.SQL d1 ∧
       Harness.Vars
         (Harness.set_traces [("SELECT ?", [7], 0%Z, None)] Harness.example_context)
       = Harness.Vars d1).
Proof.
  assert (Harness.Execute (λ d, d) (λ _, None) (λ _ d, (d, None)) (λ _, false)
    (λ e, e) tt (λ _ d, d) (λ v, v) (λ _, true) 1
    (Processor Harness.example_context ["SELECT"] [Some Harness.example_callback] [])
    Harness.example_context
  = Some (Harness.set_traces [("SELECT ?", [7], 0%Z, None)] Harness.example_context))
    as H by (vm_compute; reflexivity).
  split; [exact H|].
  exact (C9_Execute_resets_statement _ _ _ _ _ _ _ _ _ _ _ _ _ H).
Defined.

(** C4 (as stated, refuted).  With two further steps in the registry, [A
    before B] together with [B before A] compiles without any error: the
    [after] field that records A's demand on B is overwritten by D's, and the
    compiled order D, E, B, A silently violates [A before B]. *)
Lemma C4_counterexample :
  callback_Register 9 (processor_After "D") "E" (Some (Nat.add 1)) (initial 0)
    = Some (Processor 0 [] [Some (Nat.add 1)]
              [set_after "D" (plain ("E", Some (Nat.add 1)))], [], None) ∧
  callback_Register 9 (processor_Before "B") "A" (Some (Nat.add 2))
    (Processor 0 [] [Some (Nat.add 1)] [set_after "D" (plain ("E", Some (Nat.add 1)))])
    = Some (Processor 0 [] [Some (Nat.add 1); Some (Nat.add 2)]
              [set_after "D" (plain ("E", Some (Nat.add 1)));
               set_before "B" (plain ("A", Some (Nat.add 2)))], [], None) ∧
  callback_Register 9 (processor_Before "B") "D" (Some (Nat.add 3))
    (Processor 0 [] [Some (Nat.add 1); Some (Nat.add 2)]
       [set_after "D" (plain ("E", Some (Nat.add 1)));
        set_before "B" (plain ("A", Some (Nat.add 2)))])
    = Some (Processor 0 [] [Some (Nat.add 3); Some (Nat.add 1); Some (Nat.add 2)]
              [set_after "D" (plain ("E", Some (Nat.add 1)));
               set_before "B" (plain ("A", Some (Nat.add 2)));
               set_before "B" (plain ("D", Some (Nat.add 3)))], [], None) ∧
  callback_Register 9 (processor_Before "A") "B" (Some (Nat.add 4))
    (Processor 0 [] [Some (Nat.add 3); Some (Nat.add 1); Some (Nat.add 2)]
       [set_after "D" (plain ("E", Some (Nat.add 1)));
        set_before "B" (plain ("A", Some (Nat.add 2)));
        set_before "B" (plain ("D", Some (Nat.add 3)))])
    = Some (Processor 0 []
              [Some (Nat.add 3); Some (Nat.add 1); Some (Nat.add 4); Some (Nat.add 2)]
              [set_after "D" (plain ("E", Some (Nat.add 1)));
               set_before "B" (plain ("A", Some (Nat.add 2)));
               set_before "B" (plain ("D", Some (Nat.add 3)));
               set_after "D" (set_before "A" (plain ("B", Some (Nat.add 4))))],
            [], None).
Proof. split_and!; by vm_compute. Qed.

(** C4 (amended).  When the two mutually-[before] steps have different
    names (neither empty nor the wildcard), every other step in the registry
    is unconstrained, and all names are pairwise distinct, the registration
    of the second of the two returns a conflict error and leaves the compiled
    list empty, wherever the first one stands among the other steps; the
    statement is symmetric in the two names, so it holds in either
    registration order. *)
Theorem C4_mutual_before_conflicts {DB : Type} (d : DB) (Cl : list string)
    (fns0 : list (option (DB → DB))) (fuel : nat) (A B : string)
    (f g : option (DB → DB)) (l1 l2 : list (callback DB)) :
  Forall unconstrained l1 → Forall unconstrained l2 →
  NoDup (name <$> l1 ++ set_before B (plain (A, f)) :: l2) →
  B ∉ name <$> l1 ++ set_before B (plain (A, f)) :: l2 →
  A ≠ "" → A ≠ "*" → B ≠ "" → B ≠ "*" →
  callback_Register (S fuel) (processor_Before A) B g
    (Processor d Cl fns0 (l1 ++ set_before B (plain (A, f)) :: l2))
    = Some (Processor d Cl []
              (l1 ++ set_before B (plain (A, f)) :: l2
                  ++ [set_after A (set_before A (plain (B, g)))]),
            [Error_compile (conflict B A)], Some (conflict B A)).
Proof.
  intros Hu1 Hu2 Hnd HBn HA HA' HB HB'.
  assert (∀ l : list (callback DB), Forall unconstrained l →
            Forall (λ c, remove c = false ∧ match_ok d c = true) l) as Hok.
  { intros l Hl. eapply Forall_impl; [exact Hl|].
    intros c (_ & _ & Hr & Hm). unfold match_ok. by rewrite Hm. }
  unfold callback_Register. rewrite compile_unfold, candidates_all.
  - cbn [callbacks set_callbacks]. rewrite <-app_assoc. cbn [app].
    change (set_handler g (set_name B (processor_Before A)))
      with (set_before A (@plain DB (B, g))).
    rewrite sortCallbacks_mutual_before; [done|done|done| |done|done|done|done].
    rewrite app_comm_cons, app_assoc, fmap_app. apply NoDup_app.
    split; [done|]. split; [|apply NoDup_singleton].
    intros x Hx ->%list_elem_of_singleton. done.
  - cbn [callbacks set_callbacks db]. rewrite !Forall_app, Forall_cons.
    split_and!; [by apply Hok|done|done|by apply Hok|by each_callback].
Qed.

(** C5 (as stated, refuted).  Two steps registered with [before = "*"] are
    compiled in the reverse of their registration order.  And in the
    scenario "A after *, then B before A, then C", B's registration
    overwrites A's [after] field, so that A is compiled before C, a step that
    does not declare [after = "*"]. *)
Lemma C5_counterexample :
  (callback_Register 1 (processor_Before "*") "F1" (Some (Nat.add 1)) (initial 0)
     = Some (Processor 0 [] [Some (Nat.add 1)]
               [set_before "*" (plain ("F1", Some (Nat.add 1)))], [], None) ∧
   callback_Register 1 (processor_Before "*") "F2" (Some (Nat.add 2))
     (Processor 0 [] [Some (Nat.add 1)] [set_before "*" (plain ("F1", Some (Nat.add 1)))])
     = Some (Processor 0 [] [Some (Nat.add 2); Some (Nat.add 1)]
               [set_before "*" (plain ("F1", Some (Nat.add 1)));
                set_before "*" (plain ("F2", Some (Nat.add 2)))], [], None)) ∧
  (callback_Register 1 (processor_After "*") "A" (Some (Nat.add 1)) (initial 0)
     = Some (Processor 0 [] [Some (Nat.add 1)]
               [set_after "*" (plain ("A", Some (Nat.add 1)))], [], None) ∧
   callback_Register 1 (processor_Before "A") "B" (Some (Nat.add 2))
     (Processor 0 [] [Some (Nat.add 1)] [set_after "*" (plain ("A", Some (Nat.add 1)))])
     = Some (Processor 0 [] [Some (Nat.add 2); Some (Nat.add 1)]
               [set_before "A" (plain ("B", Some (Nat.add 2)));
                set_after "B" (plain ("A", Some (Nat.add 1)))], [], None) ∧
   Register 1 "C" (Some (Nat.add 3))
     (Processor 0 [] [Some (Nat.add 2); Some (Nat.add 1)]
        [set_before "A" (plain ("B", Some (Nat.add 2)));
         set_after "B" (plain ("A", Some (Nat.add 1)))])
     = Some (Processor 0 [] [Some (Nat.add 2); Some (Nat.add 1); Some (Nat.add 3)]
               [set_before "A" (plain ("B", Some (Nat.add 2)));
                set_after "B" (plain ("A", Some (Nat.add 1)));
                plain ("C", Some (Nat.add 3))], [], None)).
Proof. split_and!; by vm_compute. Qed.

(** C5 (amended).  When every step is registered with at most a wildcard
    anchor and names no other step, under pairwise distinct names other than
    ["*"], every registration compiles without error or warning, whatever the
    number of steps and the registration order, and in the compiled order
    every [before = "*"] step precedes every other step and every
    [after = "*"] step follows every other step, the steps without anchor
    standing in between in registration order.  With at most 20 steps (the
    range in which [sort.SliceStable] is a plain insertion sort) the
    [before = "*"] steps come in the reverse of their registration order and
    the [after = "*"] steps in registration order. *)
Theorem C5_wildcard_anchors {DB : Type} (d : DB) (fuel : nat)
    (regs : list (anchor * string * option (DB → DB))) :
  NoDup regs.*1.*2 → "*" ∉ regs.*1.*2 →
  ∃ p fs ls, register_anchored (S fuel) regs (initial d)
               = Some (p, [], replicate (length regs) None) ∧
             fns p = fs ++ actions_of Free regs ++ ls ∧
             fs ≡ₚ actions_of First regs ∧ ls ≡ₚ actions_of Last regs ∧
             (length regs ≤ 20 →
              fs = reverse (actions_of First regs) ∧ ls = actions_of Last regs).
Proof.
  intros Hnd Hstar. destruct (decide (length regs ≤ 20)) as [Hlen|Hlen].
  - destruct (register_anchored_spec fuel regs [] (initial d)) as (p & Hp & _ & Hf);
      [done|done|done|by split_and!|done|].
    exists p, (reverse (actions_of First regs)), (actions_of Last regs).
    split_and!; [done|done|apply reverse_Permutation|done|done].
  - destruct (register_wildcards fuel regs [] (initial d)) as (p & fs & ls & Hp & Hf & H1 & H2);
      [done|done|done|done|by exists [], []|].
    exists p, fs, ls. split_and!; [done|done|done|done|]. intros ?. lia.
Qed.

Lemma C5_witness :
  NoDup [(Last, "L", Some (Nat.add 1)); (First, "F1", Some (Nat.add 2));
         (Free, "P", Some (Nat.add 3)); (First, "F2", Some (Nat.add 4))].*1.*2 ∧
  ("*" ∉ [(Last, "L", Some (Nat.add 1)); (First, "F1", Some (Nat.add 2));
          (Free, "P", Some (Nat.add 3)); (First, "F2", Some (Nat.add 4))].*1.*2) ∧
  ∃ p fs ls,
    register_anchored 1
      [(Last, "L", Some (Nat.add 1)); (First, "F1", Some (Nat.add 2));
       (Free, "P", Some (Nat.add 3)); (First, "F2", Some (Nat.add 4))] (initial 0)
      = Some (p, [], [None; None; None; None]) ∧
    fns p = fs ++ [Some (Nat.add 3)] ++ ls ∧
    fs ≡ₚ [Some (Nat.add 2); Some (Nat.add 4)] ∧ ls ≡ₚ [Some (Nat.add 1)] ∧
    (4 ≤ 20 → fs = [Some (Nat.add 4); Some (Nat.add 2)] ∧ ls = [Some (Nat.add 1)]).
Proof.
  assert (NoDup [(Last, "L", Some (Nat.add 1)); (First, "F1", Some (Nat.add 2));
         (Free, "P", Some (Nat.add 3)); (First, "F2", Some (Nat.add 4))].*1.*2) as H2.
  { apply (bool_decide_unpack _). vm_compute. exact I. }
  assert ("*" ∉ [(Last, "L", Some (Nat.add 1)); (First, "F1", Some (Nat.add 2));
         (Free, "P", Some (Nat.add 3)); (First, "F2", Some (Nat.add 4))].*1.*2) as H3.
  { apply (bool_decide_unpack _). vm_compute. exact I. }
  split; [exact H2|]. split; [exact H3|].
  exact (C5_wildcard_anchors 0 0 _ H2 H3).
Defined.

(** Beyond 20 steps the order among the anchored steps follows no such law:
    with 18 steps without anchor, then one [after = "*"] step and two
    [before = "*"] steps, the merge pass of [sort.SliceStable] leaves the two
    [before = "*"] steps in their registration order. *)
Lemma wildcard_order_beyond_20 :
  ∃ p, register_anchored 1
         ([(Free, "a", Some (Nat.add 0)); (Free, "b", Some (Nat.add 1));
           (Free, "c", Some (Nat.add 2)); (Free, "d", Some (Nat.add 3));
           (Free, "e", Some (Nat.add 4)); (Free, "f", Some (Nat.add 5));
           (Free, "g", Some (Nat.add 6)); (Free, "h", Some (Nat.add 7));
           (Free, "i", Some (Nat.add 8)); (Free, "j", Some (Nat.add 9));
           (Free, "k", Some (Nat.add 10)); (Free, "l", Some (Nat.add 11));
           (Free, "m", Some (Nat.add 12)); (Free, "n", Some (Nat.add 13));
           (Free, "o", Some (Nat.add 14)); (Free, "p", Some (Nat.add 15));
           (Free, "q", Some (Nat.add 16)); (Free, "r", Some (Nat.add 17));
           (Last, "L", Some (Nat.add 18)); (First, "F1", Some (Nat.add 19));
           (First, "F2", Some (Nat.add 20))]) (initial 0)
         = Some (p, [], replicate 21 None) ∧
       take 2 (fns p) = [Some (Nat.add 19); Some (Nat.add 20)].
Proof. eexists. split; [by vm_compute|done]. Qed.

Lemma C4_witness :
  Forall unconstrained [plain ("P", Some (Nat.add 1))] ∧
  Forall unconstrained [plain ("Q", Some (Nat.add 3))] ∧
  NoDup (name <$> [plain ("P", Some (Nat.add 1))]
                  ++ set_before "B" (plain ("A", Some S))
                  :: [plain ("Q", Some (Nat.add 3))]) ∧
  ("B" ∉ name <$> [plain ("P", Some (Nat.add 1))]
                  ++ set_before "B" (plain ("A", Some S))
                  :: [plain ("Q", Some (Nat.add 3))]) ∧
  "A" ≠ "" ∧ "A" ≠ "*" ∧ "B" ≠ "" ∧ "B" ≠ "*" ∧
  callback_Register 1 (processor_Before "A") "B" (Some (Nat.add 2))
    (Processor 0 [] [Some (Nat.add 1); Some S; Some (Nat.add 3)]
       [plain ("P", Some (Nat.add 1)); set_before "B" (plain ("A", Some S));
        plain ("Q", Some (Nat.add 3))])
    = Some (Processor 0 [] []
              [plain ("P", Some (Nat.add 1)); set_before "B" (plain ("A", Some S));
               plain ("Q", Some (Nat.add 3));
               set_after "A" (set_before "A" (plain ("B", Some (Nat.add 2))))],
            [Error_compile (conflict "B" "A")], Some (conflict "B" "A")).
Proof.
  assert (Forall unconstrained [@plain nat ("P", Some (Nat.add 1))]) as H1
    by each_callback.
  assert (Forall unconstrained [@plain nat ("Q", Some (Nat.add 3))]) as H2
    by each_callback.
  assert (NoDup (name <$> [plain ("P", Some (Nat.add 1))]
                  ++ set_before "B" (plain ("A", Some S))
                  :: [plain ("Q", Some (Nat.add 3))])) as H3.
  { apply (bool_decide_unpack _). vm_compute. exact I. }
  assert ("B" ∉ name <$> [plain ("P", Some (Nat.add 1))]
                  ++ set_before "B" (plain ("A", Some S))
                  :: [plain ("Q", Some (Nat.add 3))]) as H4.
  { apply (bool_decide_unpack _). vm_compute. exact I. }
  assert ("A" ≠ "") as H5 by discriminate.
  assert ("A" ≠ "*") as H6 by discriminate.
  assert ("B" ≠ "") as H7 by discriminate.
  assert ("B" ≠ "*") as H8 by discriminate.
  split_and!; [exact H1|exact H2|exact H3|exact H4|exact H5|exact H6|exact H7|exact H8|].
  exact (C4_mutual_before_conflicts 0 [] [Some (Nat.add 1); Some S; Some (Nat.add 3)]
           0 "A" "B" (Some S) (Some (Nat.add 2)) _ _ H1 H2 H3 H4 H5 H6 H7 H8).
Defined.

(** * Further properties *)

(** ** [getRIndex] and [Get] *)

(** X1.  [getRIndex] returns [-1] exactly when the string does not occur in
    the slice, and otherwise the position of its last occurrence. *)
Theorem X1_getRIndex_last_occurrence (strs : list string) (str : string) :
  (getRIndex strs str = (-1)%Z ↔ str ∉ strs) ∧
  (∀ i : nat, getRIndex strs str = Z.of_nat i ↔
              strs !! i = Some str ∧ ∀ j, i < j → strs !! j ≠ Some str).
Proof.
  split; [apply getRIndex_absent|].
  induction strs as [|x strs IH] using rev_ind; intros i.
  { rewrite getRIndex_nil. split; [lia|]. by intros [? _]. }
  rewrite getRIndex_snoc. destruct (String.eqb_spec x str) as [->|Hne].
  - split.
    + intros <-%(inj Z.of_nat). split.
      * by rewrite lookup_app_r, Nat.sub_diag by lia.
      * intros j Hj Hl. apply lookup_lt_Some in Hl. rewrite length_app in Hl.
        simpl in Hl. lia.
    + intros [Hi Hlast]. f_equal. pose proof (lookup_lt_Some _ _ _ Hi) as Hlt.
      rewrite length_app in Hlt. simpl in Hlt.
      destruct (decide (i = length strs)) as [|Hn]; [done|].
      destruct (Hlast (length strs)); [lia|]. apply list_lookup_middle. done.
  - rewrite IH. split.
    + intros [Hi Hlast]. split; [by apply lookup_app_l_Some|].
      intros j Hj Hl. apply lookup_app_Some in Hl as [Hl|[_ Hl]].
      * by apply (Hlast j).
      * destruct (j - length strs) as [|?]; simpl in Hl; [congruence|done].
    + intros [Hi Hlast]. apply lookup_app_Some in Hi as [Hi|[_ Hi]].
      * split; [done|]. intros j Hj Hl. apply (Hlast j Hj). by apply lookup_app_l_Some.
      * destruct (i - length strs) as [|?]; simpl in Hi; [congruence|done].
Qed.

Lemma Get_loop_snoc {DB : Type} (cbs : list (callback DB)) (c : callback DB) nm :
  Get_loop (cbs ++ [c]) nm (length (cbs ++ [c]))
  = if String.eqb (name c) nm && negb (remove c) then handler c
    else Get_loop cbs nm (length cbs).
Proof.
  rewrite length_app, Nat.add_1_r. cbn [Get_loop].
  rewrite lookup_app_r, Nat.sub_diag by lia. cbn [lookup list_lookup].
  destruct (_ && _); [done|].
  generalize (le_n (length cbs)). generalize (length cbs) at 1 3 4 as n.
  induction n as [|n IH]; intros Hn; [done|]. cbn [Get_loop].
  rewrite lookup_app_l by lia. rewrite IH by lia. done.
Qed.

(** X2.  [Get] returns the handler of the last entry of the registry that
    carries the name and is not a removal marker, and [nil] when the
    registry has no such entry. *)
Theorem X2_Get_last_entry {DB : Type} (p : processor DB) (nm : string) :
  Get p nm
  = c ← last (filter (λ c, name c = nm ∧ remove c = false) (callbacks p)); handler c.
Proof.
  unfold Get. generalize (callbacks p) as cbs. clear p. intros cbs.
  induction cbs as [|c cbs IH] using rev_ind; [done|].
  rewrite Get_loop_snoc, filter_app, filter_cons, filter_nil.
  destruct (String.eqb_spec (name c) nm) as [Hn|Hn]; simpl.
  - destruct (remove c) eqn:Hr; simpl.
    + rewrite decide_False by (intros [_ ?]; done). by rewrite app_nil_r.
    + rewrite decide_True by done. by rewrite last_snoc.
  - rewrite decide_False by (intros [? _]; done). by rewrite app_nil_r.
Qed.

Lemma Get_loop_getRIndex {DB : Type} (cs : list (callback DB)) (nm : string) c :
  (∀ c', c' ∈ cs → remove c' = false) →
  index cs (getRIndex (name <$> cs) nm) = Some c →
  Get_loop cs nm (length cs) = handler c.
Proof.
  induction cs as [|x cs IH] using rev_ind; intros Hr Hc.
  { by rewrite getRIndex_nil in Hc. }
  rewrite fmap_app in Hc. cbn [fmap list_fmap] in Hc. rewrite getRIndex_snoc in Hc.
  rewrite Get_loop_snoc, (Hr x) by (apply elem_of_app; right; by left).
  rewrite length_fmap in Hc.
  destruct (String.eqb (name x) nm); simpl.
  - rewrite index_of_nat, list_lookup_middle in Hc by done. congruence.
  - apply IH; [intros c' Hc'; apply Hr, elem_of_app; by left|].
    apply index_Some in Hc as [H0 Hc]. apply index_Some. split; [done|].
    pose proof (getRIndex_range (name <$> cs) nm) as Hrange.
    rewrite length_fmap in Hrange. rewrite lookup_app_l in Hc by lia. done.
Qed.

Lemma collect_fns_Get {DB : Type} (cs : list (callback DB)) sorted : ∀ fns0,
  (∀ c', c' ∈ cs → remove c' = false) →
  (∀ nm, nm ∈ sorted → nm ∈ name <$> cs) →
  collect_fns cs (name <$> cs) sorted fns0
  = Some (fns0 ++ ((λ nm, Get_loop cs nm (length cs)) <$> sorted)).
Proof.
  induction sorted as [|nm sorted IH]; intros fns0 Hr Hs; simpl.
  { by rewrite app_nil_r. }
  destruct (index_getRIndex cs nm) as (c & Hc & Hn & Hin); [apply Hs; by left|].
  rewrite Hc. simpl. rewrite (Hr c Hin), IH; [|done|intros; apply Hs; by right].
  by rewrite <-app_assoc, (Get_loop_getRIndex cs nm c).
Qed.

(** ** What a successful compilation leaves behind *)

(** X3.  After a compilation without conflict the compiled list holds
    exactly one function for every name of the registry: the one that [Get]
    returns for that name. *)
Theorem X3_compiled_list_is_Get {DB : Type} (fuel : nat) (p p' : processor DB)
    (log : list log_entry) :
  compile fuel p = Some (p', log, None) →
  ∃ sorted, NoDup sorted ∧ (∀ nm, nm ∈ sorted ↔ nm ∈ name <$> callbacks p') ∧
            fns p' = Get p' <$> sorted.
Proof.
  intros H.
  assert (∀ c', c' ∈ callbacks p' → remove c' = false) as Hr.
  { intros c' Hc'. by destruct (compile_no_markers _ _ _ _ _ _ H Hc'). }
  apply compile_Some in H as (_ & _ & warns & Hs & _).
  apply sortCallbacks_Some in Hs as (sorted & _ & Hnd & Hsub & Hall & Hf).
  exists sorted. split_and!; [done|split; auto|].
  rewrite collect_fns_Get in Hf by done. simpl in Hf. by apply (inj Some) in Hf.
Qed.

Lemma X3_witness :
  compile 1 (Processor 0 [] []
               [plain ("Y", Some S); plain ("Z", None); plain ("Y", Some (Nat.add 2))])
    = Some (Processor 0 [] [Some (Nat.add 2); None]
              [plain ("Y", Some S); plain ("Z", None); plain ("Y", Some (Nat.add 2))],
            [Warn_duplicated "Y"], None) ∧
  ∃ sorted, NoDup sorted ∧
            (∀ nm, nm ∈ sorted ↔
                   nm ∈ name <$> [plain ("Y", Some S); plain ("Z", None);
                                  @plain nat ("Y", Some (Nat.add 2))]) ∧
            [Some (Nat.add 2); None]
            = Get (Processor 0 [] [Some (Nat.add 2); None]
                     [plain ("Y", Some S); plain ("Z", None);
                      plain ("Y", Some (Nat.add 2))]) <$> sorted.
Proof.
  assert (compile 1 (Processor 0 [] []
               [plain ("Y", Some S); plain ("Z", None); plain ("Y", Some (Nat.add 2))])
    = Some (Processor 0 [] [Some (Nat.add 2); None]
              [plain ("Y", Some S); plain ("Z", None); plain ("Y", Some (Nat.add 2))],
            [Warn_duplicated "Y"], None)) as H by (vm_compute; reflexivity).
  split; [exact H|].
  exact (X3_compiled_list_is_Get 1 _ _ _ H).
Defined.

(** ** Registries of unconstrained steps: replacing and removing *)

Section replace_facts.
Context {DB : Type}.
Implicit Types (c : callback DB) (cs l : list (callback DB)).
Implicit Types (names sorted : list string).

Lemma collect_names_app cs l1 l2 : ∀ names warns,
  collect_names cs (l1 ++ l2) names warns
  = '(names', warns') ← collect_names cs l1 names warns;
    collect_names cs l2 names' warns'.
Proof.
  induction l1 as [|c l1 IH]; intros names warns; simpl.
  { by destruct (collect_names cs l2 names warns) as [[??]|]. }
  destruct (if _ : bool then _ else _) as [dup|]; simpl; [|done]. apply IH.
Qed.

Lemma sortCallback_placed fuel names i cs sorted c :
  cs !! i = Some c → before c = "" → after c = "" → name c ∈ sorted →
  sortCallback (S fuel) names i (cs, sorted) = Some ((cs, sorted), None).
Proof.
  intros Hi Hb Ha Hn. cbn [sortCallback]. simpl. rewrite Hi. simpl.
  unfold before_branch. rewrite Hb. simpl. rewrite Hi. simpl.
  unfold after_branch. rewrite Ha. simpl.
  assert ((getRIndex sorted (name c) =? -1)%Z = false) as ->; [|done].
  apply Z.eqb_neq, getRIndex_present. done.
Qed.

Lemma Get_loop_unconstrained cs :
  Forall unconstrained cs → NoDup (name <$> cs) →
  (λ nm, Get_loop cs nm (length cs)) <$> (name <$> cs) = handler <$> cs.
Proof.
  intros Hu Hnd. rewrite <-list_fmap_compose. apply list_fmap_ext.
  intros j c Hj. simpl. apply Get_loop_getRIndex.
  - intros c' Hc'. by destruct (proj1 (Forall_forall _ _) Hu c' Hc') as (_ & _ & ? & _).
  - rewrite (getRIndex_NoDup _ _ j Hnd), index_of_nat; [done|].
    by rewrite list_lookup_fmap, Hj.
Qed.

Lemma fmap_override {B} (g : string → B) names (nm : string) (v : B) i :
  NoDup names → names !! i = Some nm →
  (λ x, if String.eqb nm x then v else g x) <$> names = <[i := v]> (g <$> names).
Proof.
  intros Hnd Hi. apply list_eq. intros j. rewrite list_lookup_fmap.
  destruct (decide (j = i)) as [->|Hji].
  - rewrite list_lookup_insert_eq by (rewrite length_fmap; by eapply lookup_lt_Some).
    rewrite Hi. simpl. by rewrite String.eqb_refl.
  - rewrite list_lookup_insert_ne, list_lookup_fmap by done.
    destruct (names !! j) as [x|] eqn:Hj; [|done]. simpl.
    destruct (String.eqb_spec nm x) as [->|]; [|done].
    destruct Hji. by eapply NoDup_lookup.
Qed.

(** A further entry under a name the registry holds already. *)
Lemma sortCallbacks_same_name fuel cs (nm : string) (fn : option (DB → DB))
    (r : bool) i :
  Forall unconstrained cs → NoDup (name <$> cs) → (name <$> cs) !! i = Some nm →
  sortCallbacks (S fuel) (cs ++ [set_replace r (plain (nm, fn))])
  = Some (cs ++ [set_replace r (plain (nm, fn))],
          if r then [] else [Warn_duplicated nm],
          <[i := fn]> (handler <$> cs), None).
Proof.
  intros Hu Hnd Hi. set (c' := set_replace r (plain (nm, fn))).
  assert (Forall unconstrained (cs ++ [c'])) as Hu'.
  { apply Forall_app. split; [done|]. by apply Forall_singleton. }
  assert (∀ c0, c0 ∈ cs ++ [c'] → remove c0 = false) as Hrm.
  { intros c0 Hc0. by destruct (proj1 (Forall_forall _ _) Hu' c0 Hc0) as (_ & _ & ? & _). }
  unfold sortCallbacks. rewrite SliceStable_unconstrained by done.
  rewrite collect_names_app, (collect_names_fresh _ cs [] []) by done.
  cbn [mbind option_bind app collect_names].
  change (name c') with nm.
  rewrite (getRIndex_NoDup _ _ i Hnd Hi).
  assert ((Z.of_nat i >? -1)%Z = true) as -> by (apply Z.gtb_lt; lia).
  change (replace c') with r. change (remove c') with false.
  destruct (lookup_lt_is_Some_2 cs i) as [ci Hci].
  { apply lookup_lt_Some in Hi. by rewrite length_fmap in Hi. }
  assert (index (cs ++ [c']) (Z.of_nat i) = Some ci) as Hix.
  { rewrite index_of_nat. by apply lookup_app_l_Some. }
  assert ((if true && negb r && negb false
           then index (cs ++ [c']) (Z.of_nat i) ≫= λ d, Some (negb (remove d))
           else Some false) = Some (negb r)) as ->.
  { destruct r; [done|]. rewrite Hix. simpl. rewrite (Hrm ci); [done|].
    apply elem_of_app; left; by eapply list_elem_of_lookup_2. }
  cbn [mbind option_bind].
  rewrite length_app. cbn [length]. rewrite seq_app. cbn [seq].
  rewrite sort_each_app.
  assert (take (length cs) (drop 0 (cs ++ [c'])) = cs) as Ht
    by by rewrite drop_0, take_app_length.
  rewrite sort_each_free_range; rewrite ?Ht;
    [|eapply Forall_impl; [exact Hu|]; by intros c0 (? & ? & _)
     |rewrite length_app; lia|done].
  cbn [mbind option_bind app sort_each].
  rewrite (sortCallback_placed _ _ _ _ _ c'); [|by apply list_lookup_middle|done|done|].
  2:{ change (name c') with nm. by eapply list_elem_of_lookup_2. }
  cbn [mbind option_bind].
  assert (name <$> cs ++ [c'] = (name <$> cs) ++ [nm]) as Hnames by by rewrite fmap_app.
  rewrite <-Hnames, collect_fns_Get; [|done|].
  2:{ intros x Hx. rewrite Hnames. apply elem_of_app. by left. }
  cbn [mbind option_bind app].
  assert ((λ x, Get_loop (cs ++ [c']) x (length (cs ++ [c']))) <$> (name <$> cs)
          = <[i := fn]> (handler <$> cs)) as ->; [|by destruct r].
  rewrite <-(Get_loop_unconstrained cs Hu Hnd), <-(fmap_override _ _ nm fn i Hnd Hi).
  apply list_fmap_ext. intros j x _. simpl.
  rewrite (Get_loop_snoc cs c'). change (name c') with nm.
  change (remove c') with false. change (handler c') with fn.
  by rewrite andb_true_r.
Qed.
End replace_facts.

(** X4.  In a registry of unconstrained steps with distinct names, [Replace]
    and [Register] of a name that is registered at position [i] both put the
    new function at position [i] of the compiled list and leave every other
    function where it was; the entry they override stays in the registry, in
    front of the new one.  [Register] emits a duplicate-name warning,
    [Replace] does not. *)
Theorem X4_same_name_keeps_position {DB : Type} (d : DB) (Cl : list string)
    (fns0 : list (option (DB → DB))) (fuel : nat) (cs : list (callback DB))
    (nm : string) (fn : option (DB → DB)) (i : nat) :
  Forall unconstrained cs → NoDup (name <$> cs) → (name <$> cs) !! i = Some nm →
  Replace (S fuel) nm fn (Processor d Cl fns0 cs)
  = Some (Processor d Cl (<[i := fn]> (handler <$> cs))
            (cs ++ [set_replace true (plain (nm, fn))]),
          [Info_replacing nm], None) ∧
  Register (S fuel) nm fn (Processor d Cl fns0 cs)
  = Some (Processor d Cl (<[i := fn]> (handler <$> cs)) (cs ++ [plain (nm, fn)]),
          [Warn_duplicated nm], None).
Proof.
  intros Hu Hnd Hi. split.
  - unfold Replace, callback_Replace. rewrite compile_unfold.
    cbn [callbacks set_callbacks db Clauses].
    change (set_replace true (set_handler fn (set_name nm new_callback)))
      with (set_replace true (@plain DB (nm, fn))).
    rewrite candidates_unconstrained.
    2:{ apply Forall_app. split; [done|]. by apply Forall_singleton. }
    unfold set_callbacks. cbn [callbacks].
    by rewrite (sortCallbacks_same_name fuel cs nm fn true i).
  - unfold Register, callback_Register. rewrite compile_unfold.
    cbn [callbacks set_callbacks db Clauses].
    change (set_handler fn (set_name nm new_callback))
      with (set_replace false (@plain DB (nm, fn))).
    rewrite candidates_unconstrained.
    2:{ apply Forall_app. split; [done|]. by apply Forall_singleton. }
    unfold set_callbacks. cbn [callbacks].
    by rewrite (sortCallbacks_same_name fuel cs nm fn false i).
Qed.

Lemma X4_witness :
  Forall unconstrained [plain ("A", Some S); @plain nat ("B", Some (Nat.add 2))] ∧
  NoDup (name <$> [plain ("A", Some S); @plain nat ("B", Some (Nat.add 2))]) ∧
  (name <$> [plain ("A", Some S); @plain nat ("B", Some (Nat.add 2))]) !! 0
    = Some "A" ∧
  Replace 1 "A" (Some (Nat.add 3))
    (Processor 0 [] [Some S; Some (Nat.add 2)]
       [plain ("A", Some S); plain ("B", Some (Nat.add 2))])
  = Some (Processor 0 [] [Some (Nat.add 3); Some (Nat.add 2)]
            [plain ("A", Some S); plain ("B", Some (Nat.add 2));
             set_replace true (plain ("A", Some (Nat.add 3)))],
          [Info_replacing "A"], None) ∧
  Register 1 "A" (Some (Nat.add 3))
    (Processor 0 [] [Some S; Some (Nat.add 2)]
       [plain ("A", Some S); plain ("B", Some (Nat.add 2))])
  = Some (Processor 0 [] [Some (Nat.add 3); Some (Nat.add 2)]
            [plain ("A", Some S); plain ("B", Some (Nat.add 2));
             plain ("A", Some (Nat.add 3))],
          [Warn_duplicated "A"], None).
Proof.
  assert (Forall unconstrained [plain ("A", Some S); @plain nat ("B", Some (Nat.add 2))])
    as H1 by each_callback.
  assert (NoDup (name <$> [plain ("A", Some S); @plain nat ("B", Some (Nat.add 2))]))
    as H2.
  { apply (bool_decide_unpack _). vm_compute. exact I. }
  assert ((name <$> [plain ("A", Some S); @plain nat ("B", Some (Nat.add 2))]) !! 0
          = Some "A") as H3 by reflexivity.
  split; [exact H1|]. split; [exact H2|]. split; [exact H3|].
  exact (X4_same_name_keeps_position 0 [] [Some S; Some (Nat.add 2)] 0 _ "A"
           (Some (Nat.add 3)) 0 H1 H2 H3).
Defined.

Section remove_facts.
Context {DB : Type}.
Implicit Types (c : callback DB) (cs l : list (callback DB)).

Lemma removed_names_unconstrained cs : Forall unconstrained cs → removed_names cs = [].
Proof.
  intros Hu. apply removed_names_nil. intros c Hc.
  by destruct (proj1 (Forall_forall _ _) Hu c Hc) as (_ & _ & ? & _).
Qed.

Lemma candidates_marker (d : DB) Cl fns0 cs c (nm : string) :
  Forall unconstrained cs →
  candidates (Processor d Cl fns0 (cs ++ [set_remove true (set_name nm c)]))
  = filter (λ c0, name c0 ≠ nm) cs.
Proof.
  intros Hu. unfold candidates. cbn [callbacks db].
  assert (removed_names (cs ++ [set_remove true (set_name nm c)]) = [nm]) as ->.
  { unfold removed_names. rewrite filter_app, fmap_app.
    fold (removed_names cs). rewrite removed_names_unconstrained by done.
    by rewrite filter_cons_True. }
  rewrite filter_app, filter_cons_False, filter_nil, app_nil_r.
  2:{ intros [_ Hn]. apply Hn. by left. }
  induction Hu as [|c0 cs0 (_ & _ & _ & Hm) _ IH]; [done|].
  rewrite !filter_cons, IH.
  destruct (decide (name c0 ≠ nm)) as [Hne|He].
  - rewrite decide_True; [done|]. split; [unfold match_ok; by rewrite Hm|].
    by intros E%list_elem_of_singleton.
  - rewrite decide_False; [done|]. intros [_ Hn]. apply Hn.
    apply list_elem_of_singleton. by destruct (decide (name c0 = nm)).
Qed.

Lemma filter_unconstrained (P : callback DB → Prop) `{∀ c, Decision (P c)} cs :
  Forall unconstrained cs → NoDup (name <$> cs) →
  Forall unconstrained (filter P cs) ∧ NoDup (name <$> filter P cs).
Proof.
  intros Hu Hnd. split.
  - apply Forall_forall. intros c [_ Hc]%list_elem_of_filter.
    exact (proj1 (Forall_forall _ _) Hu c Hc).
  - clear Hu. induction cs as [|c cs IH]; [constructor|].
    rewrite fmap_cons in Hnd. apply NoDup_cons in Hnd as [Hc Hnd].
    rewrite filter_cons. destruct (decide (P c)); [|by apply IH].
    rewrite fmap_cons. apply NoDup_cons. split; [|by apply IH].
    intros (c' & Hn & [_ Hc']%list_elem_of_filter)%list_elem_of_fmap.
    apply Hc. rewrite Hn. by apply list_elem_of_fmap_2.
Qed.
End remove_facts.

(** X5.  In a registry of unconstrained steps with distinct names,
    [Remove] drops the step of that name from the registry and from the
    compiled list and leaves the other steps in their order; nothing of the
    removal marker stays behind.  The call logs its warning and returns a nil
    error. *)
Theorem X5_Remove_drops_step {DB : Type} (d : DB) (Cl : list string)
    (fns0 : list (option (DB → DB))) (fuel : nat) (cs : list (callback DB))
    (nm : string) :
  Forall unconstrained cs → NoDup (name <$> cs) →
  Remove (S fuel) nm (Processor d Cl fns0 cs)
  = Some (Processor d Cl (handler <$> filter (λ c, name c ≠ nm) cs)
            (filter (λ c, name c ≠ nm) cs),
          [Warn_removing nm], None).
Proof.
  intros Hu Hnd. unfold Remove, callback_Remove. rewrite compile_unfold.
  unfold set_callbacks. cbn [callbacks db Clauses fns].
  rewrite candidates_marker by done.
  destruct (filter_unconstrained (λ c, name c ≠ nm) cs Hu Hnd) as [Hu' Hnd'].
  by rewrite sortCallbacks_unconstrained.
Qed.

Lemma X5_witness :
  Forall unconstrained [plain ("A", Some S); @plain nat ("B", Some (Nat.add 2))] ∧
  NoDup (name <$> [plain ("A", Some S); @plain nat ("B", Some (Nat.add 2))]) ∧
  Remove 1 "A" (Processor 0 [] [Some S; Some (Nat.add 2)]
                  [plain ("A", Some S); plain ("B", Some (Nat.add 2))])
  = Some (Processor 0 [] [Some (Nat.add 2)] [plain ("B", Some (Nat.add 2))],
          [Warn_removing "A"], None).
Proof.
  assert (Forall unconstrained [plain ("A", Some S); @plain nat ("B", Some (Nat.add 2))])
    as H1 by each_callback.
  assert (NoDup (name <$> [plain ("A", Some S); @plain nat ("B", Some (Nat.add 2))]))
    as H2.
  { apply (bool_decide_unpack _). vm_compute. exact I. }
  split; [exact H1|]. split; [exact H2|].
  exact (X5_Remove_drops_step 0 [] [Some S; Some (Nat.add 2)] 0 _ "A" H1 H2).
Defined.

(** ** One ordering constraint among unconstrained steps *)

Section single_constraint_facts.
Context {DB : Type}.
Implicit Types (c t : callback DB) (cs l : list (callback DB)).
Implicit Types (names sorted : list string).

Lemma sortCallback_unfold fuel names ci (st : sort_state DB) :
  sortCallback (S fuel) names ci st
  = c ← st.1 !! ci;
    r ← before_branch names c st;
    match r with
    | inr e => Some (st, Some e)
    | inl st1 =>
        c1 ← st1.1 !! ci;
        r ← after_branch names c1 st1;
        match r with
        | AfterFail e => Some (st1, Some e)
        | AfterDone st2 => Some (append_unsorted c1 st2, None)
        | AfterRecurse idx st2 =>
            '(st3, err) ← sortCallback fuel names idx st2;
            match err with
            | Some e => Some (st3, Some e)
            | None =>
                '(st4, err) ← sortCallback fuel names ci st3;
                match err with
                | Some e => Some (st4, Some e)
                | None => c4 ← st4.1 !! ci; Some (append_unsorted c4 st4, None)
                end
            end
        end
    end.
Proof. done. Qed.

Lemma sortCallback_before_sorted fuel names i cs s1 s2 c :
  cs !! i = Some c → before c ≠ "" → before c ≠ "*" → after c = "" →
  NoDup (s1 ++ name c :: before c :: s2) →
  sortCallback (S fuel) names i (cs, s1 ++ before c :: s2)
  = Some ((cs, s1 ++ name c :: before c :: s2), None).
Proof.
  intros Hi Hb Hb' Ha Hnd.
  assert (NoDup (s1 ++ before c :: s2)) as Hnd'.
  { eapply sublist_NoDup; [exact Hnd|].
    apply sublist_app; [done|]. by apply sublist_cons. }
  assert (name c ∉ s1 ++ before c :: s2) as Hn.
  { apply NoDup_app in Hnd as (_ & Hd & Hnd2). apply NoDup_cons in Hnd2 as [Hn2 _].
    rewrite elem_of_app. intros [Hin|Hin]; [|done]. apply (Hd _ Hin). by left. }
  assert (getRIndex (s1 ++ before c :: s2) (before c) = Z.of_nat (length s1)) as E1.
  { apply getRIndex_NoDup; [done|]. by rewrite list_lookup_middle. }
  assert (getRIndex (s1 ++ name c :: before c :: s2) (name c) ≠ (-1)%Z) as E3.
  { apply getRIndex_present, elem_of_app. right. by left. }
  apply String.eqb_neq in Hb, Hb'. apply getRIndex_eqb_absent in Hn.
  apply Z.eqb_neq in E3.
  cbn [sortCallback]. simpl. rewrite Hi. simpl.
  unfold before_branch. rewrite Hb, Hb', E1, Hn. simpl.
  assert ((Z.of_nat (length s1) =? -1)%Z = false) as -> by (apply Z.eqb_neq; lia).
  simpl. rewrite Nat2Z.id, take_app_length, drop_app_length, Hi. simpl.
  unfold after_branch. rewrite Ha. simpl. by rewrite E3.
Qed.

Lemma sortCallback_after_sorted fuel names i cs sorted c :
  cs !! i = Some c → before c = "" → after c ≠ "" → after c ≠ "*" →
  after c ∈ sorted → name c ∉ sorted →
  sortCallback (S fuel) names i (cs, sorted)
  = Some ((cs, sorted ++ [name c]), None).
Proof.
  intros Hi Hb Ha Ha' Hin Hn.
  apply String.eqb_neq in Ha, Ha'. apply getRIndex_eqb_absent in Hn.
  apply getRIndex_present, Z.eqb_neq in Hin.
  assert ((getRIndex (sorted ++ [name c]) (name c) =? -1)%Z = false) as E.
  { apply Z.eqb_neq, getRIndex_present, elem_of_app. right. by left. }
  cbn [sortCallback]. simpl. rewrite Hi. simpl.
  unfold before_branch. rewrite Hb. simpl. rewrite Hi. simpl.
  unfold after_branch. rewrite Ha, Ha', Hin, Hn. simpl. by rewrite E.
Qed.

Lemma sortCallback_settled fuel names i cs sorted c :
  cs !! i = Some c → before c ≠ "" → before c ≠ "*" → after c = "" →
  name c ∈ sorted → before c ∈ sorted →
  (getRIndex sorted (name c) < getRIndex sorted (before c))%Z →
  sortCallback (S fuel) names i (cs, sorted) = Some ((cs, sorted), None).
Proof.
  intros Hi Hb Hb' Ha Hn Hin Hlt.
  apply String.eqb_neq in Hb, Hb'.
  apply getRIndex_present, Z.eqb_neq in Hin, Hn.
  cbn [sortCallback]. simpl. rewrite Hi. simpl.
  unfold before_branch. rewrite Hb, Hb', Hin, Hn. simpl.
  assert ((getRIndex sorted (name c) >? getRIndex sorted (before c))%Z = false) as ->.
  { rewrite Z.gtb_ltb. apply Z.ltb_ge. lia. }
  simpl. rewrite Hi. simpl. unfold after_branch. rewrite Ha. simpl. by rewrite Hn.
Qed.

Lemma sortCallback_after_pending fuel names i j cs sorted c t :
  cs !! i = Some c → before c = "" → after c ≠ "" → after c ≠ "*" →
  name c ≠ "" → name c ≠ "*" → name c ≠ after c →
  after c ∉ sorted → name c ∉ sorted →
  getRIndex names (after c) = Z.of_nat j → getRIndex names (name c) = Z.of_nat i →
  cs !! j = Some t → name t = after c → before t = "" → after t = "" → i ≠ j →
  sortCallback (S (S fuel)) names i (cs, sorted)
  = Some ((alter (set_after (after c)) i (alter (set_before (name c)) j cs),
           sorted ++ [after c; name c]), None).
Proof.
  intros Hi Hb Ha Ha' Hn Hn' Hne HTs Hcs Hj Hii Ht HtT Htb Hta Hij.
  set (cs1 := alter (set_before (name c)) j cs).
  set (cs2 := alter (set_after (after c)) i cs1).
  assert (cs1 !! j = Some (set_before (name c) t)) as Ht1
    by (subst cs1; by rewrite list_lookup_alter_eq, Ht).
  assert (cs1 !! i = Some c) as Hi1
    by (subst cs1; by rewrite list_lookup_alter_ne by done).
  assert (cs2 !! i = Some (set_after (after c) c)) as Hi2
    by (subst cs2; by rewrite list_lookup_alter_eq, Hi1).
  pose proof (sortCallback_before_pending fuel names j i cs1 sorted
                (set_before (name c) t) c Ht1) as Hcall2.
  cbn [before after name set_before] in Hcall2. rewrite HtT in Hcall2.
  specialize (Hcall2 Hn Hn' Hta Hcs HTs Hii Hi1 (not_eq_sym Hij)).
  fold cs2 in Hcall2.
  pose proof (sortCallback_after_sorted fuel names i cs2 (sorted ++ [after c])
                (set_after (after c) c) Hi2) as Hcall3.
  cbn [before after name set_after] in Hcall3.
  specialize (Hcall3 Hb Ha Ha').
  rewrite <-app_assoc in Hcall3. cbn [app] in Hcall3.
  pose proof Ha as Ha0. pose proof Ha' as Ha0'.
  apply String.eqb_neq in Ha, Ha'. apply getRIndex_eqb_absent in HTs.
  assert ((getRIndex (sorted ++ [after c; name c]) (name c) =? -1)%Z = false) as E.
  { apply Z.eqb_neq, getRIndex_present, elem_of_app. right. right. by left. }
  rewrite (sortCallback_unfold (S fuel)). cbn [fst]. rewrite Hi. cbn [mbind option_bind].
  unfold before_branch at 1. rewrite Hb. cbn [String.eqb negb fst mbind option_bind].
  rewrite Hi. cbn [mbind option_bind].
  unfold after_branch at 1. rewrite Ha, Ha', HTs, Hj. cbn [negb andb].
  assert ((Z.of_nat j =? -1)%Z = false) as -> by (apply Z.eqb_neq; lia).
  cbn [negb]. rewrite index_of_nat, Ht. cbn [mbind option_bind]. rewrite Htb.
  cbn [String.eqb]. unfold update. rewrite index_of_nat, Ht, Nat2Z.id.
  cbn [mbind option_bind]. fold cs1.
  rewrite Hcall2. cbn [mbind option_bind]. rewrite Hcall3.
  - cbn [mbind option_bind fst]. rewrite Hi2. cbn [mbind option_bind].
    unfold append_unsorted. cbn [name set_after]. by rewrite E.
  - apply elem_of_app. right. by left.
  - rewrite not_elem_of_app, list_elem_of_singleton. done.
Qed.
End single_constraint_facts.

Section single_constraint_runs.
Context {DB : Type}.
Implicit Types (b c : callback DB) (cs l : list (callback DB)).
Implicit Types (names sorted : list string) (f g : option (DB → DB)).

Lemma unconstrained_free l :
  Forall unconstrained l → Forall (λ c, before c = "" ∧ after c = "") l.
Proof. intros Hl. eapply Forall_impl; [exact Hl|]. by intros c (? & ? & _). Qed.

Lemma unconstrained_no_wildcard l :
  Forall unconstrained l → Forall (λ c, before c ≠ "*" ∧ after c ≠ "*") l.
Proof. intros Hl. eapply Forall_impl; [exact Hl|]. by intros c (-> & -> & _). Qed.

Lemma unconstrained_kept l c : Forall unconstrained l → c ∈ l → remove c = false.
Proof. intros Hl Hc. by destruct (proj1 (Forall_forall _ _) Hl c Hc) as (_ & _ & ? & _). Qed.

(** [p.Before(B).Register(A, f)] when [B] is registered. *)
Lemma sortCallbacks_before_present fuel l1 b l2 (A : string) f :
  Forall unconstrained (l1 ++ b :: l2) →
  NoDup (name <$> (l1 ++ b :: l2) ++ [set_before (name b) (plain (A, f))]) →
  name b ≠ "" → name b ≠ "*" →
  sortCallbacks (S fuel) ((l1 ++ b :: l2) ++ [set_before (name b) (plain (A, f))])
  = Some ((l1 ++ b :: l2) ++ [set_before (name b) (plain (A, f))], [],
          (handler <$> l1) ++ f :: handler b :: (handler <$> l2), None).
Proof.
  intros Hu Hnd HB HB'.
  set (a := set_before (name b) (plain (A, f))) in *.
  set (cs0 := l1 ++ b :: l2) in *. set (cs := cs0 ++ [a]) in *.
  assert (name <$> cs = (name <$> cs0) ++ [A]) as Hnames by (subst cs; by rewrite fmap_app).
  assert (name <$> cs0 = (name <$> l1) ++ name b :: (name <$> l2)) as Hnames0
    by (subst cs0; by rewrite fmap_app).
  pose proof Hnd as Hnd0. rewrite Hnames in Hnd0.
  apply NoDup_app in Hnd0 as (Hnd0 & Hfresh & _).
  assert (NoDup ((name <$> l1) ++ A :: name b :: (name <$> l2))) as Hnd1.
  { rewrite <-Permutation_middle. apply NoDup_cons. rewrite <-Hnames0. split; [|done].
    intros Hin. apply (Hfresh _ Hin). by left. }
  unfold sortCallbacks. rewrite SliceStable_no_wildcard.
  2:{ subst cs. apply Forall_app. split; [by apply unconstrained_no_wildcard|].
      by apply Forall_singleton. }
  rewrite (collect_names_fresh cs cs [] []) by done. cbn [mbind option_bind app].
  assert (length cs = length cs0 + 1) as -> by (subst cs; by rewrite length_app).
  rewrite seq_app. cbn [seq]. rewrite sort_each_app.
  assert (take (length cs0) (drop 0 cs) = cs0) as Ht
    by (subst cs; by rewrite drop_0, take_app_length).
  rewrite sort_each_free_range; rewrite ?Ht;
    [|by apply unconstrained_free|subst cs; rewrite length_app; lia|done].
  cbn [mbind option_bind app sort_each]. rewrite Hnames0.
  rewrite (sortCallback_before_sorted fuel _ _ cs (name <$> l1) (name <$> l2) a);
    [|subst cs; by apply list_lookup_middle|done|done|done|done].
  cbn [mbind option_bind].
  change ((name <$> l1) ++ name a :: before a :: (name <$> l2))
    with ((name <$> l1) ++ name a :: name b :: (name <$> l2)).
  assert ((name <$> l1) ++ name a :: name b :: (name <$> l2)
          = name <$> (l1 ++ a :: b :: l2)) as -> by by rewrite fmap_app.
  rewrite collect_fns_names; [|done|].
  - cbn [mbind option_bind app]. by rewrite fmap_app.
  - intros c Hc. assert (c ∈ cs0 ∨ c = a) as [Hc0| ->].
    { subst cs0. apply elem_of_app in Hc as [Hc|[->|Hc]%elem_of_cons].
      - left. apply elem_of_app. by left.
      - by right.
      - left. apply elem_of_app. by right. }
    + split; [subst cs; apply elem_of_app; by left|by eapply unconstrained_kept].
    + split; [subst cs; apply elem_of_app; right; by left|done].
Qed.

(** [p.After(B).Register(A, f)] when [B] is registered. *)
Lemma sortCallbacks_after_present fuel l1 b l2 (A : string) f :
  Forall unconstrained (l1 ++ b :: l2) →
  NoDup (name <$> (l1 ++ b :: l2) ++ [set_after (name b) (plain (A, f))]) →
  name b ≠ "" → name b ≠ "*" →
  sortCallbacks (S fuel) ((l1 ++ b :: l2) ++ [set_after (name b) (plain (A, f))])
  = Some ((l1 ++ b :: l2) ++ [set_after (name b) (plain (A, f))], [],
          (handler <$> l1 ++ b :: l2) ++ [f], None).
Proof.
  intros Hu Hnd HB HB'.
  set (a := set_after (name b) (plain (A, f))) in *.
  set (cs0 := l1 ++ b :: l2) in *. set (cs := cs0 ++ [a]) in *.
  assert (name <$> cs = (name <$> cs0) ++ [A]) as Hnames by (subst cs; by rewrite fmap_app).
  pose proof Hnd as Hnd0. rewrite Hnames in Hnd0.
  apply NoDup_app in Hnd0 as (Hnd0 & Hfresh & _).
  unfold sortCallbacks. rewrite SliceStable_no_wildcard.
  2:{ subst cs. apply Forall_app. split; [by apply unconstrained_no_wildcard|].
      by apply Forall_singleton. }
  rewrite (collect_names_fresh cs cs [] []) by done. cbn [mbind option_bind app].
  assert (length cs = length cs0 + 1) as -> by (subst cs; by rewrite length_app).
  rewrite seq_app. cbn [seq]. rewrite sort_each_app.
  assert (take (length cs0) (drop 0 cs) = cs0) as Ht
    by (subst cs; by rewrite drop_0, take_app_length).
  rewrite sort_each_free_range; rewrite ?Ht;
    [|by apply unconstrained_free|subst cs; rewrite length_app; lia|done].
  cbn [mbind option_bind app sort_each].
  rewrite (sortCallback_after_sorted fuel _ _ cs (name <$> cs0) a);
    [|subst cs; by apply list_lookup_middle|done|done|done| |].
  2:{ change (after a) with (name b). subst cs0. rewrite fmap_app.
      apply elem_of_app. right. by left. }
  2:{ intros Hin. apply (Hfresh _ Hin). by left. }
  cbn [mbind option_bind]. change (name a) with A.
  rewrite <-Hnames, (collect_fns_names cs cs); [|done|].
  - cbn [mbind option_bind app]. subst cs. by rewrite fmap_app.
  - intros c Hc. split; [done|].
    subst cs. apply elem_of_app in Hc as [Hc| ->%list_elem_of_singleton]; [|done].
    by eapply unconstrained_kept.
Qed.
Lemma alter_last (h : callback DB → callback DB) l c :
  alter h (length l) (l ++ [c]) = l ++ [h c].
Proof. induction l as [|x l IH]; [done|]. simpl. f_equal. apply IH. Qed.

Lemma alter_middle (h : callback DB → callback DB) l c l' :
  alter h (length l) (l ++ c :: l') = l ++ h c :: l'.
Proof. induction l as [|x l IH]; [done|]. simpl. f_equal. apply IH. Qed.

Lemma lookup_around l1 (a : callback DB) l2 b :
  (l1 ++ a :: l2 ++ [b]) !! length l1 = Some a ∧
  (l1 ++ a :: l2 ++ [b]) !! (length l1 + S (length l2)) = Some b.
Proof.
  split; [by apply list_lookup_middle|].
  rewrite lookup_app_r by lia.
  replace (length l1 + S (length l2) - length l1) with (S (length l2)) by lia.
  simpl. by rewrite lookup_app_r, Nat.sub_diag by lia.
Qed.

(** [p.Register(B, g)] when a step [A] that declares [before = B] is
    registered. *)
Lemma sortCallbacks_before_absent fuel (A B : string) f g l1 l2 :
  Forall unconstrained l1 → Forall unconstrained l2 →
  NoDup (name <$> l1 ++ set_before B (plain (A, f)) :: l2 ++ [plain (B, g)]) →
  A ≠ "" → A ≠ "*" → B ≠ "" → B ≠ "*" →
  sortCallbacks (S fuel) (l1 ++ set_before B (plain (A, f)) :: l2 ++ [plain (B, g)])
  = Some (l1 ++ set_before B (plain (A, f)) :: l2 ++ [set_after A (plain (B, g))],
          [], (handler <$> l1) ++ f :: (handler <$> l2) ++ [g], None).
Proof.
  intros Hu1 Hu2 Hnd HA HA' HB HB'.
  set (a := set_before B (plain (A, f))) in *.
  set (b := @plain DB (B, g)) in *.
  set (cs := l1 ++ a :: l2 ++ [b]) in *.
  unfold sortCallbacks. rewrite SliceStable_no_wildcard.
  2:{ subst cs. rewrite Forall_app, Forall_cons, Forall_app, Forall_singleton.
      split_and!; try done; by apply unconstrained_no_wildcard. }
  rewrite (collect_names_fresh cs cs [] []) by done. cbn [mbind option_bind app].
  assert (length cs = length l1 + (1 + (length l2 + 1))) as ->.
  { subst cs. rewrite length_app. simpl. rewrite length_app. simpl. lia. }
  rewrite !seq_app. simpl seq.
  assert (take (length l1) (drop 0 cs) = l1) as Ht1
    by (subst cs; by rewrite drop_0, take_app_length).
  assert (names_cs : name <$> cs = (name <$> l1) ++ A :: (name <$> l2) ++ [B]).
  { subst cs. by rewrite fmap_app, fmap_cons, fmap_app. }
  rewrite names_cs in Hnd |- *. pose proof Hnd as Hnd0.
  apply NoDup_app in Hnd as (Hnd1 & Hd1 & Hnd2).
  set (names := (name <$> l1) ++ A :: (name <$> l2) ++ [B]) in *.
  destruct (lookup_around l1 a l2 b) as [Hia Hib]. fold cs in Hia, Hib.
  assert (getRIndex names B = Z.of_nat (length l1 + S (length l2))) as HiB.
  { apply getRIndex_NoDup; [done|]. rewrite <-names_cs, list_lookup_fmap, Hib. done. }
  assert (B ∉ (name <$> l1) ++ A :: (name <$> l2)) as HBn.
  { intros Hin. subst names. rewrite app_comm_cons, app_assoc in Hnd0.
    apply NoDup_app in Hnd0 as (_ & Hd & _). apply (Hd _ Hin). by left. }
  rewrite sort_each_app, sort_each_free_range; rewrite ?Ht1;
    [|by apply unconstrained_free|subst cs; rewrite length_app; lia|done].
  cbn [mbind option_bind app sort_each].
  rewrite (sortCallback_before_pending fuel names (length l1)
             (length l1 + S (length l2)) cs (name <$> l1) a b);
    [|done|done|done|done| | |done|done|lia].
  2:{ intros Hin. apply HBn, elem_of_app. by left. }
  2:{ intros Hin. apply (Hd1 _ Hin). by left. }
  cbn [mbind option_bind].
  assert (alter (set_after (name a)) (length l1 + S (length l2)) cs
          = l1 ++ a :: l2 ++ [set_after A b]) as ->.
  { subst cs. rewrite alter_app_r. f_equal. simpl. f_equal. apply alter_last. }
  set (cs1 := l1 ++ a :: l2 ++ [set_after A b]).
  assert (take (length l2) (drop (length l1 + 1) cs1) = l2) as Ht2.
  { subst cs1. rewrite drop_app_add'; [|done]. simpl. by rewrite drop_0, take_app_length. }
  assert (NoDup (((name <$> l1) ++ [A]) ++ (name <$> l2))) as Hnd3.
  { rewrite <-app_assoc. simpl.
    eapply sublist_NoDup; [exact Hnd0|]. subst names.
    apply sublist_app; [done|]. apply sublist_skip, sublist_inserts_r. done. }
  rewrite sort_each_app, sort_each_free_range; rewrite ?Ht2;
    [|by apply unconstrained_free
     |subst cs1; rewrite length_app; simpl; rewrite length_app; lia|done].
  cbn [mbind option_bind sort_each]. change (name a) with A.
  destruct (lookup_around l1 a l2 (set_after A b)) as [_ Hib']. fold cs1 in Hib'.
  replace (length l1 + 1 + length l2) with (length l1 + S (length l2)) by lia.
  rewrite (sortCallback_after_sorted fuel names _ cs1 _ (set_after A b) Hib');
    [|done|done|done| |].
  2:{ rewrite <-app_assoc. apply elem_of_app. right. by left. }
  2:{ change (name (set_after A b)) with B. by rewrite <-app_assoc. }
  cbn [mbind option_bind]. change (name (set_after A b)) with B.
  assert ((((name <$> l1) ++ [A]) ++ (name <$> l2)) ++ [B] = name <$> cs1) as ->.
  { subst cs1. by rewrite <-!app_assoc, fmap_app, fmap_cons, fmap_app. }
  assert (names = name <$> cs1) as ->.
  { subst cs1 names. by rewrite fmap_app, fmap_cons, fmap_app. }
  rewrite (collect_fns_names cs1 cs1).
  - cbn [mbind option_bind app]. subst cs1. by rewrite fmap_app, fmap_cons, fmap_app.
  - exact Hnd0.
  - intros c Hc. split; [done|]. subst cs1.
    apply elem_of_app in Hc as [Hc|[->|[Hc| ->%list_elem_of_singleton]%elem_of_app]%elem_of_cons];
      [exact (unconstrained_kept _ _ Hu1 Hc)|done|exact (unconstrained_kept _ _ Hu2 Hc)|done].
Qed.

(** [p.Register(B, g)] when a step [A] that declares [after = B] is
    registered. *)
Lemma sortCallbacks_after_absent fuel (A B : string) f g l1 l2 :
  Forall unconstrained l1 → Forall unconstrained l2 →
  NoDup (name <$> l1 ++ set_after B (plain (A, f)) :: l2 ++ [plain (B, g)]) →
  A ≠ "" → A ≠ "*" → B ≠ "" → B ≠ "*" →
  sortCallbacks (S (S fuel)) (l1 ++ set_after B (plain (A, f)) :: l2 ++ [plain (B, g)])
  = Some (l1 ++ set_after B (plain (A, f)) :: l2 ++ [set_before A (plain (B, g))],
          [], (handler <$> l1) ++ g :: f :: (handler <$> l2), None).
Proof.
  intros Hu1 Hu2 Hnd HA HA' HB HB'.
  set (a := set_after B (plain (A, f))) in *.
  set (b := @plain DB (B, g)) in *.
  set (cs := l1 ++ a :: l2 ++ [b]) in *.
  unfold sortCallbacks. rewrite SliceStable_no_wildcard.
  2:{ subst cs. rewrite Forall_app, Forall_cons, Forall_app, Forall_singleton.
      split_and!; try done; by apply unconstrained_no_wildcard. }
  rewrite (collect_names_fresh cs cs [] []) by done. cbn [mbind option_bind app].
  assert (length cs = length l1 + (1 + (length l2 + 1))) as ->.
  { subst cs. rewrite length_app. simpl. rewrite length_app. simpl. lia. }
  rewrite !seq_app. simpl seq.
  assert (take (length l1) (drop 0 cs) = l1) as Ht1
    by (subst cs; by rewrite drop_0, take_app_length).
  assert (names_cs : name <$> cs = (name <$> l1) ++ A :: (name <$> l2) ++ [B]).
  { subst cs. by rewrite fmap_app, fmap_cons, fmap_app. }
  rewrite names_cs in Hnd |- *. pose proof Hnd as Hnd0.
  apply NoDup_app in Hnd as (Hnd1 & Hd1 & Hnd2).
  set (names := (name <$> l1) ++ A :: (name <$> l2) ++ [B]) in *.
  destruct (lookup_around l1 a l2 b) as [Hia Hib]. fold cs in Hia, Hib.
  assert (getRIndex names B = Z.of_nat (length l1 + S (length l2))) as HiB.
  { apply getRIndex_NoDup; [done|]. rewrite <-names_cs, list_lookup_fmap, Hib. done. }
  assert (getRIndex names A = Z.of_nat (length l1)) as HiA.
  { apply getRIndex_NoDup; [done|]. rewrite <-names_cs, list_lookup_fmap, Hia. done. }
  assert (B ∉ (name <$> l1) ++ A :: (name <$> l2)) as HBn.
  { intros Hin. subst names. rewrite app_comm_cons, app_assoc in Hnd0.
    apply NoDup_app in Hnd0 as (_ & Hd & _). apply (Hd _ Hin). by left. }
  assert (A ≠ B) as HAB.
  { intros ->. apply HBn, elem_of_app. right. by left. }
  rewrite sort_each_app, sort_each_free_range; rewrite ?Ht1;
    [|by apply unconstrained_free|subst cs; rewrite length_app; lia|done].
  cbn [mbind option_bind app sort_each].
  rewrite (sortCallback_after_pending fuel names (length l1)
             (length l1 + S (length l2)) cs (name <$> l1) a b);
    [|done|done|done|done|done|done|done| | |done|done|done|done|done|done|lia].
  2:{ intros Hin. apply HBn, elem_of_app. by left. }
  2:{ intros Hin. apply (Hd1 _ Hin). by left. }
  cbn [mbind option_bind].
  assert (alter (set_after (after a)) (length l1)
            (alter (set_before (name a)) (length l1 + S (length l2)) cs)
          = l1 ++ a :: l2 ++ [set_before A b]) as ->.
  { assert (alter (set_before (name a)) (length l1 + S (length l2)) cs
            = l1 ++ a :: l2 ++ [set_before A b]) as ->.
    { subst cs. rewrite alter_app_r. f_equal. simpl. f_equal. apply alter_last. }
    by rewrite alter_middle. }
  set (cs1 := l1 ++ a :: l2 ++ [set_before A b]).
  assert (take (length l2) (drop (length l1 + 1) cs1) = l2) as Ht2.
  { subst cs1. rewrite drop_app_add'; [|done]. simpl. by rewrite drop_0, take_app_length. }
  change (after a) with B. change (name a) with A.
  assert (NoDup ((name <$> l1) ++ B :: A :: (name <$> l2))) as Hnd3.
  { rewrite <-Permutation_middle. apply NoDup_cons. split.
    - intros Hin. apply HBn. by rewrite <-Permutation_middle in Hin |- *.
    - eapply sublist_NoDup; [exact Hnd0|]. subst names.
      apply sublist_app; [done|]. apply sublist_skip, sublist_inserts_r. done. }
  rewrite sort_each_app, sort_each_free_range; rewrite ?Ht2;
    [|by apply unconstrained_free
     |subst cs1; rewrite length_app; simpl; rewrite length_app; lia
     |by rewrite <-app_assoc].
  cbn [mbind option_bind sort_each]. rewrite <-app_assoc. cbn [app].
  destruct (lookup_around l1 a l2 (set_before A b)) as [_ Hib']. fold cs1 in Hib'.
  replace (length l1 + 1 + length l2) with (length l1 + S (length l2)) by lia.
  rewrite (sortCallback_settled (S fuel) names _ cs1 _ (set_before A b) Hib');
    [|done|done|done| | |].
  2:{ apply elem_of_app. right. by left. }
  2:{ apply elem_of_app. right. right. by left. }
  2:{ cbn [name before set_before b plain set_handler set_name fst snd new_callback].
      rewrite (getRIndex_NoDup _ B (length l1) Hnd3).
      2:{ rewrite <-(length_fmap name l1). by apply list_lookup_middle. }
      rewrite (getRIndex_NoDup _ A (S (length l1)) Hnd3); [lia|].
      rewrite lookup_app_r by (rewrite length_fmap; lia).
      by rewrite length_fmap, Nat.sub_succ_l, Nat.sub_diag by lia. }
  cbn [mbind option_bind].
  assert ((name <$> l1) ++ B :: A :: (name <$> l2)
          = name <$> (l1 ++ set_before A b :: a :: l2)) as -> by by rewrite fmap_app.
  assert (names = name <$> cs1) as ->.
  { subst cs1 names. by rewrite fmap_app, fmap_cons, fmap_app. }
  rewrite collect_fns_names.
  - cbn [mbind option_bind app]. by rewrite fmap_app.
  - exact Hnd0.
  - intros c Hc. subst cs1.
    apply elem_of_app in Hc as [Hc|[->|[->|Hc]%elem_of_cons]%elem_of_cons].
    + split; [apply elem_of_app; by left|exact (unconstrained_kept _ _ Hu1 Hc)].
    + split; [|done]. apply elem_of_app. right. right. apply elem_of_app. right. by left.
    + split; [|done]. apply elem_of_app. right. by left.
    + split; [|exact (unconstrained_kept _ _ Hu2 Hc)].
      apply elem_of_app. right. right. apply elem_of_app. by left.
Qed.
End single_constraint_runs.

Section single_constraint_compile.
Context {DB : Type}.
Implicit Types (c : callback DB) (l cs : list (callback DB)).

Lemma unconstrained_candidate (d : DB) l :
  Forall unconstrained l → Forall (λ c, remove c = false ∧ match_ok d c = true) l.
Proof.
  intros Hl. eapply Forall_impl; [exact Hl|].
  intros c (_ & _ & Hr & Hm). unfold match_ok. by rewrite Hm.
Qed.

Lemma compile_all_candidates (d : DB) Cl fns0 fuel cs cs' fns' :
  Forall (λ c, remove c = false ∧ match_ok d c = true) cs →
  sortCallbacks fuel cs = Some (cs', [], fns', None) →
  compile fuel (Processor d Cl fns0 cs) = Some (Processor d Cl fns' cs', [], None).
Proof.
  intros Hc Hs. rewrite compile_unfold, candidates_all by done.
  cbn [callbacks db Clauses]. by rewrite Hs.
Qed.
End single_constraint_compile.

(** X6.  [Before(B).Register(A, f)] on a registry of unconstrained steps that
    holds [B] puts [f] directly in front of [B]'s function and leaves the
    other functions in registration order. *)
Theorem X6_Before_registered_target {DB : Type} (d : DB) (Cl : list string)
    (fns0 : list (option (DB → DB))) (fuel : nat) (A : string)
    (f : option (DB → DB)) (l1 l2 : list (callback DB)) (b : callback DB) :
  Forall unconstrained (l1 ++ b :: l2) →
  NoDup (A :: (name <$> l1 ++ b :: l2)) →
  name b ≠ "" → name b ≠ "*" →
  callback_Register (S fuel) (processor_Before (name b)) A f
    (Processor d Cl fns0 (l1 ++ b :: l2))
  = Some (Processor d Cl ((handler <$> l1) ++ f :: handler b :: (handler <$> l2))
            ((l1 ++ b :: l2) ++ [set_before (name b) (plain (A, f))]),
          [], None).
Proof.
  intros Hu Hnd Hb Hb'. unfold callback_Register.
  change (set_handler f (set_name A (processor_Before (name b))))
    with (set_before (name b) (@plain DB (A, f))).
  unfold set_callbacks. cbn [callbacks db Clauses fns].
  apply compile_all_candidates.
  - apply Forall_app. split; [by apply unconstrained_candidate|].
    by apply Forall_singleton.
  - apply sortCallbacks_before_present; [done| |done|done].
    rewrite fmap_app. apply NoDup_app. apply NoDup_cons in Hnd as [Hn Hnd].
    split_and!; [done| |apply NoDup_singleton].
    by intros x Hx ->%list_elem_of_singleton.
Qed.

Lemma X6_witness :
  Forall unconstrained ([plain ("X", Some S)] ++ @plain nat ("B", Some (Nat.add 2))
                          :: [plain ("Y", Some (Nat.add 3))]) ∧
  NoDup ("A" :: (name <$> [plain ("X", Some S)] ++ @plain nat ("B", Some (Nat.add 2))
                          :: [plain ("Y", Some (Nat.add 3))])) ∧
  name (@plain nat ("B", Some (Nat.add 2))) ≠ "" ∧
  name (@plain nat ("B", Some (Nat.add 2))) ≠ "*" ∧
  callback_Register 1 (processor_Before "B") "A" (Some (Nat.add 9))
    (Processor 0 [] [] [plain ("X", Some S); plain ("B", Some (Nat.add 2));
                        plain ("Y", Some (Nat.add 3))])
  = Some (Processor 0 []
            [Some S; Some (Nat.add 9); Some (Nat.add 2); Some (Nat.add 3)]
            [plain ("X", Some S); plain ("B", Some (Nat.add 2));
             plain ("Y", Some (Nat.add 3));
             set_before "B" (plain ("A", Some (Nat.add 9)))],
          [], None).
Proof.
  assert (Forall unconstrained ([plain ("X", Some S)] ++ @plain nat ("B", Some (Nat.add 2))
                                  :: [plain ("Y", Some (Nat.add 3))])) as H1
    by each_callback.
  assert (NoDup ("A" :: (name <$> [plain ("X", Some S)]
                   ++ @plain nat ("B", Some (Nat.add 2))
                   :: [plain ("Y", Some (Nat.add 3))]))) as H2.
  { apply (bool_decide_unpack _). vm_compute. exact I. }
  assert (name (@plain nat ("B", Some (Nat.add 2))) ≠ "") as H3 by done.
  assert (name (@plain nat ("B", Some (Nat.add 2))) ≠ "*") as H4 by done.
  split_and!; [exact H1|exact H2|exact H3|exact H4|].
  exact (X6_Before_registered_target 0 [] [] 0 "A" (Some (Nat.add 9))
           [plain ("X", Some S)] [plain ("Y", Some (Nat.add 3))]
           (plain ("B", Some (Nat.add 2))) H1 H2 H3 H4).
Defined.

(** X7.  When a step [A] was registered with [Before(B)] while no step [B]
    existed, a later [Register(B, g)] succeeds, keeps [A]'s function at [A]'s
    registration position with [g] at the end, and records [after = A] on
    the new entry for [B]. *)
Theorem X7_Before_target_registered_later {DB : Type} (d : DB) (Cl : list string)
    (fns0 : list (option (DB → DB))) (fuel : nat) (A B : string)
    (f g : option (DB → DB)) (l1 l2 : list (callback DB)) :
  Forall unconstrained l1 → Forall unconstrained l2 →
  NoDup (B :: (name <$> l1 ++ set_before B (plain (A, f)) :: l2)) →
  A ≠ "" → A ≠ "*" → B ≠ "" → B ≠ "*" →
  Register (S fuel) B g (Processor d Cl fns0 (l1 ++ set_before B (plain (A, f)) :: l2))
  = Some (Processor d Cl ((handler <$> l1) ++ f :: (handler <$> l2) ++ [g])
            (l1 ++ set_before B (plain (A, f)) :: l2 ++ [set_after A (plain (B, g))]),
          [], None).
Proof.
  intros Hu1 Hu2 Hnd HA HA' HB HB'. unfold Register, callback_Register.
  change (set_handler g (set_name B new_callback)) with (@plain DB (B, g)).
  unfold set_callbacks. cbn [callbacks db Clauses fns].
  rewrite <-app_assoc. cbn [app].
  apply compile_all_candidates.
  - rewrite Forall_app, Forall_cons, Forall_app, Forall_singleton.
    split_and!; [by apply unconstrained_candidate|done|done
                |by apply unconstrained_candidate|done|done].
  - apply sortCallbacks_before_absent; try done.
    apply NoDup_cons in Hnd as [Hn Hnd].
    rewrite app_comm_cons, app_assoc, fmap_app. apply NoDup_app.
    split_and!; [done| |apply NoDup_singleton].
    by intros x Hx ->%list_elem_of_singleton.
Qed.

Lemma X7_witness :
  Forall unconstrained [@plain nat ("X", Some S)] ∧
  Forall unconstrained [@plain nat ("Y", Some (Nat.add 3))] ∧
  NoDup ("B" :: (name <$> [plain ("X", Some S)]
                  ++ set_before "B" (@plain nat ("A", Some (Nat.add 9)))
                  :: [plain ("Y", Some (Nat.add 3))])) ∧
  "A" ≠ "" ∧ "A" ≠ "*" ∧ "B" ≠ "" ∧ "B" ≠ "*" ∧
  Register 1 "B" (Some (Nat.add 2))
    (Processor 0 [] [] [plain ("X", Some S);
                        set_before "B" (plain ("A", Some (Nat.add 9)));
                        plain ("Y", Some (Nat.add 3))])
  = Some (Processor 0 []
            [Some S; Some (Nat.add 9); Some (Nat.add 3); Some (Nat.add 2)]
            [plain ("X", Some S); set_before "B" (plain ("A", Some (Nat.add 9)));
             plain ("Y", Some (Nat.add 3));
             set_after "A" (plain ("B", Some (Nat.add 2)))],
          [], None).
Proof.
  assert (Forall unconstrained [@plain nat ("X", Some S)]) as H1 by each_callback.
  assert (Forall unconstrained [@plain nat ("Y", Some (Nat.add 3))]) as H2
    by each_callback.
  assert (NoDup ("B" :: (name <$> [plain ("X", Some S)]
                  ++ set_before "B" (@plain nat ("A", Some (Nat.add 9)))
                  :: [plain ("Y", Some (Nat.add 3))]))) as H3.
  { apply (bool_decide_unpack _). vm_compute. exact I. }
  assert ("A" ≠ "") as H4 by done. assert ("A" ≠ "*") as H5 by done.
  assert ("B" ≠ "") as H6 by done. assert ("B" ≠ "*") as H7 by done.
  split_and!; [exact H1|exact H2|exact H3|exact H4|exact H5|exact H6|exact H7|].
  exact (X7_Before_target_registered_later 0 [] [] 0 "A" "B" (Some (Nat.add 9))
           (Some (Nat.add 2)) _ _ H1 H2 H3 H4 H5 H6 H7).
Defined.

(** X8.  [After(B).Register(A, f)] on a registry of unconstrained steps that
    holds [B] appends [f] after all registered functions, not directly behind
    [B]'s function. *)
Theorem X8_After_registered_target {DB : Type} (d : DB) (Cl : list string)
    (fns0 : list (option (DB → DB))) (fuel : nat) (A : string)
    (f : option (DB → DB)) (l1 l2 : list (callback DB)) (b : callback DB) :
  Forall unconstrained (l1 ++ b :: l2) →
  NoDup (A :: (name <$> l1 ++ b :: l2)) →
  name b ≠ "" → name b ≠ "*" →
  callback_Register (S fuel) (processor_After (name b)) A f
    (Processor d Cl fns0 (l1 ++ b :: l2))
  = Some (Processor d Cl ((handler <$> l1 ++ b :: l2) ++ [f])
            ((l1 ++ b :: l2) ++ [set_after (name b) (plain (A, f))]),
          [], None).
Proof.
  intros Hu Hnd Hb Hb'. unfold callback_Register.
  change (set_handler f (set_name A (processor_After (name b))))
    with (set_after (name b) (@plain DB (A, f))).
  unfold set_callbacks. cbn [callbacks db Clauses fns].
  apply compile_all_candidates.
  - apply Forall_app. split; [by apply unconstrained_candidate|].
    by apply Forall_singleton.
  - apply sortCallbacks_after_present; [done| |done|done].
    rewrite fmap_app. apply NoDup_app. apply NoDup_cons in Hnd as [Hn Hnd].
    split_and!; [done| |apply NoDup_singleton].
    by intros x Hx ->%list_elem_of_singleton.
Qed.

Lemma X8_witness :
  Forall unconstrained ([plain ("X", Some S)] ++ @plain nat ("B", Some (Nat.add 2))
                          :: [plain ("Y", Some (Nat.add 3))]) ∧
  NoDup ("A" :: (name <$> [plain ("X", Some S)] ++ @plain nat ("B", Some (Nat.add 2))
                          :: [plain ("Y", Some (Nat.add 3))])) ∧
  name (@plain nat ("B", Some (Nat.add 2))) ≠ "" ∧
  name (@plain nat ("B", Some (Nat.add 2))) ≠ "*" ∧
  callback_Register 1 (processor_After "B") "A" (Some (Nat.add 9))
    (Processor 0 [] [] [plain ("X", Some S); plain ("B", Some (Nat.add 2));
                        plain ("Y", Some (Nat.add 3))])
  = Some (Processor 0 []
            [Some S; Some (Nat.add 2); Some (Nat.add 3); Some (Nat.add 9)]
            [plain ("X", Some S); plain ("B", Some (Nat.add 2));
             plain ("Y", Some (Nat.add 3));
             set_after "B" (plain ("A", Some (Nat.add 9)))],
          [], None).
Proof.
  assert (Forall unconstrained ([plain ("X", Some S)] ++ @plain nat ("B", Some (Nat.add 2))
                                  :: [plain ("Y", Some (Nat.add 3))])) as H1
    by each_callback.
  assert (NoDup ("A" :: (name <$> [plain ("X", Some S)]
                   ++ @plain nat ("B", Some (Nat.add 2))
                   :: [plain ("Y", Some (Nat.add 3))]))) as H2.
  { apply (bool_decide_unpack _). vm_compute. exact I. }
  assert (name (@plain nat ("B", Some (Nat.add 2))) ≠ "") as H3 by done.
  assert (name (@plain nat ("B", Some (Nat.add 2))) ≠ "*") as H4 by done.
  split_and!; [exact H1|exact H2|exact H3|exact H4|].
  exact (X8_After_registered_target 0 [] [] 0 "A" (Some (Nat.add 9))
           [plain ("X", Some S)] [plain ("Y", Some (Nat.add 3))]
           (plain ("B", Some (Nat.add 2))) H1 H2 H3 H4).
Defined.

(** X9.  When a step [A] was registered with [After(B)] while no step [B]
    existed, a later [Register(B, g)] succeeds and puts [g] directly in front
    of [A]'s function, at [A]'s registration position, ahead of the steps
    registered between the two; the new entry for [B] records [before = A]. *)
Theorem X9_After_target_registered_later {DB : Type} (d : DB) (Cl : list string)
    (fns0 : list (option (DB → DB))) (fuel : nat) (A B : string)
    (f g : option (DB → DB)) (l1 l2 : list (callback DB)) :
  Forall unconstrained l1 → Forall unconstrained l2 →
  NoDup (B :: (name <$> l1 ++ set_after B (plain (A, f)) :: l2)) →
  A ≠ "" → A ≠ "*" → B ≠ "" → B ≠ "*" →
  Register (S (S fuel)) B g
    (Processor d Cl fns0 (l1 ++ set_after B (plain (A, f)) :: l2))
  = Some (Processor d Cl ((handler <$> l1) ++ g :: f :: (handler <$> l2))
            (l1 ++ set_after B (plain (A, f)) :: l2 ++ [set_before A (plain (B, g))]),
          [], None).
Proof.
  intros Hu1 Hu2 Hnd HA HA' HB HB'. unfold Register, callback_Register.
  change (set_handler g (set_name B new_callback)) with (@plain DB (B, g)).
  unfold set_callbacks. cbn [callbacks db Clauses fns].
  rewrite <-app_assoc. cbn [app].
  apply compile_all_candidates.
  - rewrite Forall_app, Forall_cons, Forall_app, Forall_singleton.
    split_and!; [by apply unconstrained_candidate|done|done
                |by apply unconstrained_candidate|done|done].
  - apply sortCallbacks_after_absent; try done.
    apply NoDup_cons in Hnd as [Hn Hnd].
    rewrite app_comm_cons, app_assoc, fmap_app. apply NoDup_app.
    split_and!; [done| |apply NoDup_singleton].
    by intros x Hx ->%list_elem_of_singleton.
Qed.

Lemma X9_witness :
  Forall unconstrained [@plain nat ("X", Some S)] ∧
  Forall unconstrained [@plain nat ("Y", Some (Nat.add 3))] ∧
  NoDup ("B" :: (name <$> [plain ("X", Some S)]
                  ++ set_after "B" (@plain nat ("A", Some (Nat.add 9)))
                  :: [plain ("Y", Some (Nat.add 3))])) ∧
  "A" ≠ "" ∧ "A" ≠ "*" ∧ "B" ≠ "" ∧ "B" ≠ "*" ∧
  Register 2 "B" (Some (Nat.add 2))
    (Processor 0 [] [] [plain ("X", Some S);
                        set_after "B" (plain ("A", Some (Nat.add 9)));
                        plain ("Y", Some (Nat.add 3))])
  = Some (Processor 0 []
            [Some S; Some (Nat.add 2); Some (Nat.add 9); Some (Nat.add 3)]
            [plain ("X", Some S); set_after "B" (plain ("A", Some (Nat.add 9)));
             plain ("Y", Some (Nat.add 3));
             set_before "A" (plain ("B", Some (Nat.add 2)))],
          [], None).
Proof.
  assert (Forall unconstrained [@plain nat ("X", Some S)]) as H1 by each_callback.
  assert (Forall unconstrained [@plain nat ("Y", Some (Nat.add 3))]) as H2
    by each_callback.
  assert (NoDup ("B" :: (name <$> [plain ("X", Some S)]
                  ++ set_after "B" (@plain nat ("A", Some (Nat.add 9)))
                  :: [plain ("Y", Some (Nat.add 3))]))) as H3.
  { apply (bool_decide_unpack _). vm_compute. exact I. }
  assert ("A" ≠ "") as H4 by done. assert ("A" ≠ "*") as H5 by done.
  assert ("B" ≠ "") as H6 by done. assert ("B" ≠ "*") as H7 by done.
  split_and!; [exact H1|exact H2|exact H3|exact H4|exact H5|exact H6|exact H7|].
  exact (X9_After_target_registered_later 0 [] [] 0 "A" "B" (Some (Nat.add 9))
           (Some (Nat.add 2)) _ _ H1 H2 H3 H4 H5 H6 H7).
Defined.

(** ** Constraints that [sortCallback] follows without end *)

Section endless_recursion.
Context {DB : Type}.
Implicit Types (c t : callback DB) (cs l : list (callback DB)).
Implicit Types (names sorted : list string).

Lemma before_branch_pending names c cs sorted j t :
  before c ≠ "" → before c ≠ "*" → before c ∉ sorted →
  getRIndex names (before c) = Z.of_nat j → cs !! j = Some t →
  before_branch names c (cs, sorted)
  = Some (inl (alter (set_after (name c)) j cs, sorted)).
Proof.
  intros Hb Hb' Hbs Hj Ht.
  apply String.eqb_neq in Hb, Hb'. apply getRIndex_eqb_absent in Hbs.
  unfold before_branch. rewrite Hb, Hb', Hbs, Hj. cbn [negb andb].
  assert ((Z.of_nat j =? -1)%Z = false) as -> by (apply Z.eqb_neq; lia).
  cbn [negb]. unfold update. by rewrite index_of_nat, Ht, Nat2Z.id.
Qed.

Lemma after_branch_pending names c cs sorted j t :
  after c ≠ "" → after c ≠ "*" → after c ∉ sorted →
  getRIndex names (after c) = Z.of_nat j → cs !! j = Some t →
  after_branch names c (cs, sorted)
  = Some (AfterRecurse j
            (if String.eqb (before t) "" then alter (set_before (name c)) j cs else cs,
             sorted)).
Proof.
  intros Ha Ha' Has Hj Ht.
  apply String.eqb_neq in Ha, Ha'. apply getRIndex_eqb_absent in Has.
  unfold after_branch. rewrite Ha, Ha', Has, Hj. cbn [negb andb].
  assert ((Z.of_nat j =? -1)%Z = false) as -> by (apply Z.eqb_neq; lia).
  cbn [negb]. rewrite index_of_nat, Ht. cbn [mbind option_bind].
  unfold update. rewrite index_of_nat, Ht, Nat2Z.id.
  by destruct (String.eqb (before t) "").
Qed.

(** A step that names itself both as [before] and as [after] target. *)
Lemma sortCallback_self_loop names sorted i nm : ∀ fuel cs c,
  cs !! i = Some c → name c = nm → before c = nm → after c = nm →
  nm ≠ "" → nm ≠ "*" → nm ∉ sorted → getRIndex names nm = Z.of_nat i →
  sortCallback fuel names i (cs, sorted) = None.
Proof.
  induction fuel as [|fuel IH]; intros cs c Hi Hn Hb Ha Hnm Hnm' Hs Hidx; [done|].
  rewrite sortCallback_unfold. cbn [fst]. rewrite Hi. cbn [mbind option_bind].
  rewrite (before_branch_pending names c cs sorted i c) by (rewrite ?Hb; done).
  cbn [mbind option_bind fst]. rewrite list_lookup_alter_eq, Hi.
  cbn [fmap option_fmap option_map mbind option_bind].
  rewrite (after_branch_pending names _ _ sorted i (set_after (name c) c));
    [|by rewrite ?Ha, ?Hn..|by rewrite list_lookup_alter_eq, Hi].
  cbn [before set_after]. rewrite Hb.
  apply String.eqb_neq in Hnm as Hnm0. rewrite Hnm0.
  cbn [mbind option_bind].
  rewrite (IH _ (set_after (name c) c)); [done| |done|done|by rewrite Hn|done..].
  by rewrite list_lookup_alter_eq, Hi.
Qed.

(** Two steps that name each other as [after] target, once the second one
    has received the first one's name as [before]. *)
Lemma sortCallback_mutual_loop names sorted i j (A B : string) :
  i ≠ j → A ≠ "" → A ≠ "*" → B ≠ "" → B ≠ "*" → A ∉ sorted → B ∉ sorted →
  getRIndex names A = Z.of_nat i → getRIndex names B = Z.of_nat j →
  ∀ fuel cs a b,
    cs !! i = Some a → cs !! j = Some b →
    name a = A → after a = B → name b = B → before b = A → after b = A →
    (before a = "" ∨ before a = B) →
    sortCallback fuel names j (cs, sorted) = None ∧
    (before a = B → sortCallback fuel names i (cs, sorted) = None).
Proof.
  intros Hij HA HA' HB HB' HAs HBs HiA HiB.
  induction fuel as [|fuel IH]; intros cs a b Hi Hj Hna Haa Hnb Hbb Hab Hba; [done|].
  split.
  - rewrite sortCallback_unfold. cbn [fst]. rewrite Hj. cbn [mbind option_bind].
    rewrite (before_branch_pending names b cs sorted i a) by (rewrite ?Hbb; done).
    cbn [mbind option_bind fst]. rewrite list_lookup_alter_ne, Hj by done.
    cbn [mbind option_bind]. set (cs1 := alter (set_after (name b)) i cs).
    assert (cs1 !! i = Some (set_after (name b) a)) as Hi1
      by (subst cs1; by rewrite list_lookup_alter_eq, Hi).
    assert (cs1 !! j = Some b) as Hj1
      by (subst cs1; by rewrite list_lookup_alter_ne, Hj by done).
    rewrite (after_branch_pending names b cs1 sorted i _) by (rewrite ?Hab; done).
    cbn [before set_after mbind option_bind].
    destruct Hba as [Hba|Hba]; rewrite Hba.
    + cbn [String.eqb].
      destruct (IH (alter (set_before (name b)) i cs1)
                  (set_before (name b) (set_after (name b) a)) b) as [_ Hloop];
        [by rewrite list_lookup_alter_eq, Hi1|by rewrite list_lookup_alter_ne, Hj1
        |done|by rewrite <-Hnb|done|done|done|by right|].
      by rewrite Hloop.
    + apply String.eqb_neq in HB as HB0. rewrite HB0.
      destruct (IH cs1 (set_after (name b) a) b) as [_ Hloop];
        [done|done|done|by rewrite <-Hnb|done|done|done|by right|].
      by rewrite Hloop.
  - intros Hba'. rewrite sortCallback_unfold. cbn [fst]. rewrite Hi.
    cbn [mbind option_bind].
    rewrite (before_branch_pending names a cs sorted j b) by (rewrite ?Hba'; done).
    cbn [mbind option_bind fst]. rewrite list_lookup_alter_ne, Hi by done.
    cbn [mbind option_bind]. set (cs1 := alter (set_after (name a)) j cs).
    assert (cs1 !! j = Some (set_after (name a) b)) as Hj1
      by (subst cs1; by rewrite list_lookup_alter_eq, Hj).
    assert (cs1 !! i = Some a) as Hi1
      by (subst cs1; by rewrite list_lookup_alter_ne, Hi by done).
    rewrite (after_branch_pending names a cs1 sorted j _) by (rewrite ?Haa; done).
    cbn [before set_after mbind option_bind]. rewrite Hbb.
    apply String.eqb_neq in HA as HA0. rewrite HA0.
    destruct (IH cs1 a (set_after (name a) b)) as [Hloop _];
      [done|done|done|done|done|done|by rewrite <-Hna|by right|].
    by rewrite Hloop.
Qed.

Lemma sort_each_None fuel names cis ci cis' (st st' : sort_state DB) :
  sort_each fuel names cis st = Some (st', None) →
  sortCallback fuel names ci st' = None →
  sort_each fuel names (cis ++ ci :: cis') st = None.
Proof.
  intros H1 H2. rewrite sort_each_app, H1. cbn [mbind option_bind sort_each].
  by rewrite H2.
Qed.

Lemma compile_None (d : DB) Cl fns0 fuel cs :
  Forall (λ c, remove c = false ∧ match_ok d c = true) cs →
  sortCallbacks fuel cs = None →
  compile fuel (Processor d Cl fns0 cs) = None.
Proof.
  intros Hc Hs. rewrite compile_unfold, candidates_all by done.
  cbn [callbacks]. by rewrite Hs.
Qed.

(** The sorting loop does not come back from a self-referring step that
    follows unconstrained ones. *)
Lemma sortCallbacks_self_loop fuel l c nm :
  Forall unconstrained l → NoDup (name <$> l ++ [c]) →
  name c = nm → nm ≠ "" → nm ≠ "*" →
  (before c = nm ∧ after c = "") ∨ (before c = "" ∧ after c = nm) →
  sortCallbacks fuel (l ++ [c]) = None.
Proof.
  intros Hu Hnd Hn Hnm Hnm' Hc.
  assert (getRIndex (name <$> l ++ [c]) nm = Z.of_nat (length l)) as Hidx.
  { apply getRIndex_NoDup; [done|].
    by rewrite list_lookup_fmap, list_lookup_middle, <-Hn. }
  assert (nm ∉ name <$> l) as Hfresh.
  { rewrite fmap_app in Hnd. apply NoDup_app in Hnd as (_ & Hd & _).
    intros Hin. apply (Hd _ Hin). rewrite <-Hn. by left. }
  assert ((l ++ [c]) !! length l = Some c) as Hi by by apply list_lookup_middle.
  unfold sortCallbacks. rewrite SliceStable_no_wildcard.
  2:{ apply Forall_app. split; [by apply unconstrained_no_wildcard|].
      apply Forall_singleton. destruct Hc as [[-> ->]|[-> ->]]; done. }
  rewrite (collect_names_fresh _ _ [] []) by done. cbn [mbind option_bind app].
  rewrite length_app, seq_app. cbn [length seq Nat.add].
  destruct fuel as [|fuel].
  { destruct l; done. }
  rewrite (sort_each_None _ _ _ _ _ _ (l ++ [c], name <$> l)); [done| |].
  - rewrite (sort_each_free_range fuel _ _ (length l) 0 []);
      rewrite ?drop_0, ?take_app_length; [done|by apply unconstrained_free| |].
    + rewrite length_app. lia.
    + rewrite fmap_app in Hnd. by apply NoDup_app in Hnd as (? & _).
  - rewrite sortCallback_unfold. cbn [fst Nat.add]. rewrite ?Nat.add_0_l, Hi.
    cbn [mbind option_bind]. destruct Hc as [[Hb Ha]|[Hb Ha]].
    + rewrite (before_branch_pending _ c _ _ (length l) c) by (rewrite ?Hb; done).
      cbn [mbind option_bind fst]. rewrite list_lookup_alter_eq, Hi.
      cbn [fmap option_fmap option_map mbind option_bind].
      rewrite (after_branch_pending _ _ _ _ (length l) (set_after (name c) c));
        [|by rewrite ?Hn..|by rewrite list_lookup_alter_eq, Hi].
      cbn [before set_after]. rewrite Hb.
      apply String.eqb_neq in Hnm as Hnm0. rewrite Hnm0. cbn [mbind option_bind].
      rewrite (sortCallback_self_loop _ _ _ nm fuel _ (set_after (name c) c));
        [done| |done|done|by rewrite Hn|done..].
      by rewrite list_lookup_alter_eq, Hi.
    + unfold before_branch at 1. rewrite Hb. cbn [String.eqb negb mbind option_bind fst].
      rewrite Hi. cbn [mbind option_bind].
      rewrite (after_branch_pending _ c _ _ (length l) c) by (rewrite ?Ha; done).
      rewrite Hb. cbn [String.eqb mbind option_bind].
      rewrite (sortCallback_self_loop _ _ _ nm fuel _ (set_before (name c) c));
        [done| |done|by rewrite Hn|done..].
      by rewrite list_lookup_alter_eq, Hi.
Qed.

(** Nor from a step that waits for a step waiting for it. *)
Lemma sortCallbacks_mutual_after fuel (A B : string) f g l1 l2 :
  Forall unconstrained l1 → Forall unconstrained l2 →
  NoDup (name <$> l1 ++ set_after B (plain (A, f)) :: l2
                    ++ [set_after A (plain (B, g))]) →
  A ≠ "" → A ≠ "*" → B ≠ "" → B ≠ "*" →
  sortCallbacks fuel (l1 ++ set_after B (plain (A, f)) :: l2
                         ++ [set_after A (plain (B, g))]) = None.
Proof.
  intros Hu1 Hu2 Hnd HA HA' HB HB'.
  set (a := set_after B (plain (A, f))) in *.
  set (b := set_after A (@plain DB (B, g))) in *.
  set (cs := l1 ++ a :: l2 ++ [b]) in *.
  destruct (lookup_around l1 a l2 b) as [Hia Hib]. fold cs in Hia, Hib.
  assert (names_cs : name <$> cs = (name <$> l1) ++ A :: (name <$> l2) ++ [B]).
  { subst cs. by rewrite fmap_app, fmap_cons, fmap_app. }
  assert (getRIndex (name <$> cs) B = Z.of_nat (length l1 + S (length l2))) as HiB.
  { apply getRIndex_NoDup; [done|]. by rewrite list_lookup_fmap, Hib. }
  assert (getRIndex (name <$> cs) A = Z.of_nat (length l1)) as HiA.
  { apply getRIndex_NoDup; [done|]. by rewrite list_lookup_fmap, Hia. }
  pose proof Hnd as Hnd0. rewrite names_cs in Hnd0.
  apply NoDup_app in Hnd0 as (Hnd1 & Hd1 & Hnd2).
  assert (A ∉ name <$> l1) as HAn by (intros Hin; apply (Hd1 _ Hin); by left).
  assert (B ∉ name <$> l1) as HBn.
  { intros Hin. apply (Hd1 _ Hin). right. apply elem_of_app. right. by left. }
  unfold sortCallbacks. rewrite SliceStable_no_wildcard.
  2:{ subst cs. rewrite Forall_app, Forall_cons, Forall_app, Forall_singleton.
      split_and!; try done; by apply unconstrained_no_wildcard. }
  rewrite (collect_names_fresh cs cs [] []) by done. cbn [mbind option_bind app].
  assert (length cs = length l1 + (1 + (length l2 + 1))) as ->.
  { subst cs. rewrite length_app. simpl. rewrite length_app. simpl. lia. }
  rewrite seq_app. cbn [seq Nat.add].
  destruct fuel as [|fuel].
  { destruct l1; done. }
  rewrite (sort_each_None _ _ _ _ _ _ (cs, name <$> l1)); [done| |].
  - rewrite (sort_each_free_range fuel _ _ (length l1) 0 []);
      replace (take (length l1) (drop 0 cs)) with l1
        by (subst cs; by rewrite drop_0, take_app_length);
      [done|by apply unconstrained_free| |done].
    subst cs. rewrite length_app. lia.
  - rewrite sortCallback_unfold. cbn [fst Nat.add]. rewrite ?Nat.add_0_l, Hia.
    cbn [mbind option_bind]. unfold before_branch at 1.
    cbn [before a set_after plain set_handler set_name new_callback
         String.eqb negb mbind option_bind fst].
    rewrite Hia. cbn [mbind option_bind].
    rewrite (after_branch_pending _ a _ _ (length l1 + S (length l2)) b);
      [|done..].
    cbn [before b set_after plain set_handler set_name new_callback String.eqb].
    cbn [mbind option_bind].
    destruct (sortCallback_mutual_loop (name <$> cs) (name <$> l1) (length l1)
                (length l1 + S (length l2)) A B) with
      (fuel := fuel)
      (cs := alter (set_before (name a)) (length l1 + S (length l2)) cs)
      (a := a) (b := set_before (name a) b) as [Hloop _];
      [lia|done..| | |done|done|done|done|done|by left|].
    + by rewrite list_lookup_alter_ne, Hia by lia.
    + by rewrite list_lookup_alter_eq, Hib.
    + by rewrite Hloop.
Qed.
End endless_recursion.

(** X10.  A step registered under a name with [Before] or [After] of that
    same name makes the registration call end without a result, for any
    bound on the depth of the recursion of [sortCallback]: the closure keeps
    calling itself on that step. *)
Theorem X10_self_reference_never_returns {DB : Type} (d : DB) (Cl : list string)
    (fns0 : list (option (DB → DB))) (cs : list (callback DB)) (nm : string)
    (fn : option (DB → DB)) :
  Forall unconstrained cs → NoDup (nm :: (name <$> cs)) → nm ≠ "" → nm ≠ "*" →
  ∀ fuel,
    callback_Register fuel (processor_Before nm) nm fn (Processor d Cl fns0 cs) = None ∧
    callback_Register fuel (processor_After nm) nm fn (Processor d Cl fns0 cs) = None.
Proof.
  intros Hu Hnd Hnm Hnm' fuel. apply NoDup_cons in Hnd as [Hn Hnd].
  assert (NoDup ((name <$> cs) ++ [nm])) as Hnd'.
  { apply NoDup_app. split_and!; [done| |apply NoDup_singleton].
    by intros x Hx ->%list_elem_of_singleton. }
  unfold callback_Register, set_callbacks. cbn [callbacks db Clauses fns].
  split; apply compile_None.
  - apply Forall_app. split; [by apply unconstrained_candidate|].
    by apply Forall_singleton.
  - apply (sortCallbacks_self_loop _ _ _ nm); [done|by rewrite fmap_app|done..|by left].
  - apply Forall_app. split; [by apply unconstrained_candidate|].
    by apply Forall_singleton.
  - apply (sortCallbacks_self_loop _ _ _ nm); [done|by rewrite fmap_app|done..|by right].
Qed.

Lemma X10_witness :
  Forall unconstrained [@plain nat ("X", Some S)] ∧
  NoDup ("A" :: (name <$> [@plain nat ("X", Some S)])) ∧ "A" ≠ "" ∧ "A" ≠ "*" ∧
  ∀ fuel,
    callback_Register fuel (processor_Before "A") "A" (Some (Nat.add 2))
      (Processor 0 [] [Some S] [plain ("X", Some S)]) = None ∧
    callback_Register fuel (processor_After "A") "A" (Some (Nat.add 2))
      (Processor 0 [] [Some S] [plain ("X", Some S)]) = None.
Proof.
  assert (Forall unconstrained [@plain nat ("X", Some S)]) as H1 by each_callback.
  assert (NoDup ("A" :: (name <$> [@plain nat ("X", Some S)]))) as H2.
  { apply (bool_decide_unpack _). vm_compute. exact I. }
  assert ("A" ≠ "") as H3 by done. assert ("A" ≠ "*") as H4 by done.
  split_and!; [exact H1|exact H2|exact H3|exact H4|].
  exact (X10_self_reference_never_returns 0 [] [Some S] _ "A" (Some (Nat.add 2))
           H1 H2 H3 H4).
Defined.

(** X11.  When a step [A] is registered with [After(B)] and [B] is then
    registered with [After(A)], the second registration ends without a
    result for any bound on the recursion depth: unlike two steps that name
    each other with [Before], no conflict error is reported. *)
Theorem X11_mutual_after_never_returns {DB : Type} (d : DB) (Cl : list string)
    (fns0 : list (option (DB → DB))) (A B : string) (f g : option (DB → DB))
    (l1 l2 : list (callback DB)) :
  Forall unconstrained l1 → Forall unconstrained l2 →
  NoDup (B :: (name <$> l1 ++ set_after B (plain (A, f)) :: l2)) →
  A ≠ "" → A ≠ "*" → B ≠ "" → B ≠ "*" →
  ∀ fuel,
    callback_Register fuel (processor_After A) B g
      (Processor d Cl fns0 (l1 ++ set_after B (plain (A, f)) :: l2)) = None.
Proof.
  intros Hu1 Hu2 Hnd HA HA' HB HB' fuel. apply NoDup_cons in Hnd as [Hn Hnd].
  unfold callback_Register, set_callbacks. cbn [callbacks db Clauses fns].
  change (set_handler g (set_name B (processor_After A)))
    with (set_after A (@plain DB (B, g))).
  rewrite <-app_assoc. cbn [app]. apply compile_None.
  - rewrite Forall_app, Forall_cons, Forall_app, Forall_singleton.
    split_and!; [by apply unconstrained_candidate|done|done
                |by apply unconstrained_candidate|done|done].
  - apply sortCallbacks_mutual_after; try done.
    rewrite app_comm_cons, app_assoc, fmap_app. apply NoDup_app.
    split_and!; [done| |apply NoDup_singleton].
    by intros x Hx ->%list_elem_of_singleton.
Qed.

Lemma X11_witness :
  Forall unconstrained [@plain nat ("X", Some S)] ∧
  Forall unconstrained [@plain nat ("Y", Some (Nat.add 3))] ∧
  NoDup ("B" :: (name <$> [plain ("X", Some S)]
                  ++ set_after "B" (@plain nat ("A", Some (Nat.add 9)))
                  :: [plain ("Y", Some (Nat.add 3))])) ∧
  "A" ≠ "" ∧ "A" ≠ "*" ∧ "B" ≠ "" ∧ "B" ≠ "*" ∧
  ∀ fuel,
    callback_Register fuel (processor_After "A") "B" (Some (Nat.add 2))
      (Processor 0 [] [] [plain ("X", Some S);
                          set_after "B" (plain ("A", Some (Nat.add 9)));
                          plain ("Y", Some (Nat.add 3))]) = None.
Proof.
  assert (Forall unconstrained [@plain nat ("X", Some S)]) as H1 by each_callback.
  assert (Forall unconstrained [@plain nat ("Y", Some (Nat.add 3))]) as H2
    by each_callback.
  assert (NoDup ("B" :: (name <$> [plain ("X", Some S)]
                  ++ set_after "B" (@plain nat ("A", Some (Nat.add 9)))
                  :: [plain ("Y", Some (Nat.add 3))]))) as H3.
  { apply (bool_decide_unpack _). vm_compute. exact I. }
  assert ("A" ≠ "") as H4 by done. assert ("A" ≠ "*") as H5 by done.
  assert ("B" ≠ "") as H6 by done. assert ("B" ≠ "*") as H7 by done.
  split_and!; [exact H1|exact H2|exact H3|exact H4|exact H5|exact H6|exact H7|].
  exact (X11_mutual_after_never_returns 0 [] [] "A" "B" (Some (Nat.add 9))
           (Some (Nat.add 2)) _ _ H1 H2 H3 H4 H5 H6 H7).
Defined.

(** ** The removal filter, the sort pass and the harness *)

(** X12.  [removeCallbacks] returns, in their order, exactly the callbacks
    whose name the map does not send to [true]; names absent from the map
    and names mapped to [false] are kept. *)
Theorem X12_removeCallbacks_filters {DB : Type} (cs : list (callback DB))
    (nameMap : gmap string bool) :
  removeCallbacks cs nameMap = filter (λ c, nameMap !! name c ≠ Some true) cs.
Proof.
  unfold removeCallbacks. rewrite removeCallbacks_spec. cbn [app].
  induction cs as [|c cs IH]; [done|].
  rewrite !filter_cons, IH.
  destruct (nameMap !! name c) as [[]|] eqn:E; simpl;
    repeat case_decide; try done; congruence.
Qed.

(** X13.  The sort at the head of [sortCallbacks] only rearranges the
    registry: its result is a permutation of the slice, the steps that
    declare no wildcard come first and keep their registration order, and a
    registry without wildcards is left as it is. *)
Theorem X13_sort_pass_keeps_plain_steps {DB : Type} (cs : list (callback DB)) :
  SliceStable less_callback cs ≡ₚ cs ∧
  low_first no_wildcard (SliceStable less_callback cs) ∧
  filter no_wildcard (SliceStable less_callback cs) = filter no_wildcard cs ∧
  (Forall no_wildcard cs → SliceStable less_callback cs = cs).
Proof.
  split; [apply SliceStable_perm|].
  destruct (SliceStable_no_wildcard_first cs) as [H1 H2].
  split; [done|]. split; [done|]. apply SliceStable_no_wildcard.
Qed.

Section Execute_more.
Context {Value Scope Expr Err RValue Ext : Type}.
Local Abbreviation DB := (@Harness.DB Value Scope Expr Err RValue Ext).
Context (executeScopes : DB → DB).
Context (StatementModifier : Value → option (DB → DB)).
Context (Parse : Value → DB → DB * option Err).
Context (is_ErrUnsupportedDataType : Err → bool).
Context (table_not_set : Err → Err).
Context (ErrInvalidValue : Err).
Context (AddError : Err → DB → DB).
Context (indirect : Value → RValue).
Context (IsValid : RValue → bool).

Local Abbreviation Execute :=
  (Harness.Execute executeScopes StatementModifier Parse is_ErrUnsupportedDataType
     table_not_set ErrInvalidValue AddError indirect IsValid).
Local Abbreviation Execute_run :=
  (Harness.Execute_run executeScopes StatementModifier Parse
     is_ErrUnsupportedDataType table_not_set ErrInvalidValue AddError indirect
     IsValid).

Lemma call_fns_None (fs : list (option (DB → DB))) (d : DB) :
  Harness.call_fns fs d = None ↔ None ∈ fs.
Proof.
  revert d. induction fs as [|[f|] fs IH]; intros d; simpl.
  - split; [done|]. by intros ?%elem_of_nil.
  - rewrite IH. split; [by right|]. by intros [?|?]%elem_of_cons.
  - split; [by left|done].
Qed.

Lemma reset_statement_BuildClauses (d : DB) :
  Harness.BuildClauses (Harness.reset_statement d) = Harness.BuildClauses d.
Proof. unfold Harness.reset_statement. by destruct (Harness.DryRun d). Qed.

Lemma trace_BuildClauses (d : DB) :
  Harness.BuildClauses (Harness.trace d) = Harness.BuildClauses d.
Proof.
  unfold Harness.trace. by destruct (0 <? String.length (Harness.SQL d)).
Qed.

Lemma Execute_nil_function (fuel : nat) (p : processor DB) (d : DB) :
  None ∈ fns p → Execute fuel p d = None.
Proof.
  intros Hin. unfold Harness.Execute, Harness.Execute_run.
  destruct (Harness.call_scopes executeScopes fuel d) as [d0|]; [|done]. simpl.
  destruct (Harness.adopt_clauses p d0) as [d1 reset].
  by rewrite (proj2 (call_fns_None (fns p) _) Hin).
Qed.

Lemma call_scopes_done (fuel : nat) (d d0 : DB) :
  Harness.call_scopes executeScopes fuel d = Some d0 → Harness.scopes d0 = [].
Proof.
  revert d. induction fuel as [|fuel IH]; intros d H; [done|]. simpl in H.
  destruct (0 <? length (Harness.scopes d)) eqn:E; [by eapply IH|].
  simplify_eq. apply Nat.ltb_ge in E. destruct (Harness.scopes d0); [done|].
  simpl in E. lia.
Qed.

(** X14.  [Execute] returns only when the loop over the scopes has come to
    an end, with no scope left, and no function of the compiled list is
    nil: a nil function makes it fail wherever it stands in the list. *)
Theorem X14_Execute_returns_without_nil_function (fuel : nat) (p : processor DB)
    (d d' : DB) :
  Execute fuel p d = Some d' →
  (None ∉ fns p) ∧
  ∃ d0, Harness.call_scopes executeScopes fuel d = Some d0 ∧ Harness.scopes d0 = [].
Proof.
  intros H. split.
  - intros Hin. by rewrite Execute_nil_function in H.
  - unfold Harness.Execute, Harness.Execute_run in H.
    destruct (Harness.call_scopes executeScopes fuel d) as [d0|] eqn:E; [|done].
    exists d0. split; [done|]. by eapply call_scopes_done.
Qed.

(** X15.  When the statement holds no build clauses once the scopes have
    run, [Execute] returns with none, whatever the callbacks stored there;
    when it holds some, [Execute] returns the build clauses as the
    callbacks left them. *)
Theorem X15_Execute_restores_BuildClauses (fuel : nat) (p : processor DB)
    (d d' : DB) :
  Execute fuel p d = Some d' →
  ∃ d0 d1 reset,
    Harness.call_scopes executeScopes fuel d = Some d0 ∧
    Execute_run fuel p d = Some (d1, reset) ∧
    (Harness.BuildClauses d0 = [] → Harness.BuildClauses d' = []) ∧
    (Harness.BuildClauses d0 ≠ [] →
       Harness.BuildClauses d' = Harness.BuildClauses d1).
Proof.
  unfold Harness.Execute. intros H.
  apply bind_Some in H as ([d1 reset] & Hrun & H). simplify_eq.
  unfold Harness.Execute_run in Hrun |- *.
  destruct (Harness.call_scopes executeScopes fuel d) as [d0|]; [|done].
  exists d0, d1, reset. split; [done|]. cbn [mbind option_bind] in Hrun |- *.
  unfold Harness.adopt_clauses in Hrun |- *.
  destruct (Harness.BuildClauses d0) as [|x l] eqn:E; cbn [length Nat.eqb] in Hrun |- *.
  - apply bind_Some in Hrun as (d2 & Hfns & Hrun). simplify_eq.
    rewrite Hfns. split; [done|]. split; [done|done].
  - apply bind_Some in Hrun as (d2 & Hfns & Hrun). simplify_eq.
    rewrite Hfns. split; [done|]. split; [done|]. intros _.
    cbn [Harness.restore_clauses]. apply reset_statement_BuildClauses.
Qed.

(** X16.  [Register] accepts a nil function: on a registry of
    unconstrained steps it compiles without error and stores the nil
    function in the compiled list, and every later [Execute] of the
    processor ends without a result. *)
Theorem X16_nil_function_registered_then_called (fuel fuel' : nat) (d0 d : DB)
    (Cl : list string) (fns0 : list (option (DB → DB)))
    (cs : list (callback DB)) (nm : string) :
  Forall unconstrained cs → NoDup (nm :: (name <$> cs)) →
  ∃ p, Register (S fuel) nm None (Processor d0 Cl fns0 cs) = Some (p, [], None) ∧
       fns p = (handler <$> cs) ++ [None] ∧
       Execute fuel' p d = None.
Proof.
  intros Hu Hnd. apply NoDup_cons in Hnd as [Hn Hnd].
  unfold Register, callback_Register.
  change (set_handler None (set_name nm new_callback)) with (@plain DB (nm, None)).
  rewrite compile_unconstrained.
  - cbn [callbacks set_callbacks db Clauses mbind option_bind].
    eexists. split; [done|]. cbn [fns]. split; [by rewrite fmap_app|].
    apply Execute_nil_function. cbn [fns]. rewrite fmap_app. apply elem_of_app. right. by left.
  - apply Forall_app. split; [done|]. by apply Forall_singleton.
  - cbn [callbacks set_callbacks]. rewrite fmap_app. apply NoDup_app.
    split_and!; [done| |apply NoDup_singleton].
    by intros x Hx ->%list_elem_of_singleton.
Qed.
End Execute_more.

Lemma X14_witness :
  Harness.Execute (λ d, d) (λ _, None) (λ _ d, (d, None)) (λ _, false) (λ e, e) tt
    (λ _ d, d) (λ v, v) (λ _, true) 1
    (Processor Harness.example_context ["SELECT"] [Some Harness.example_callback] [])
    Harness.example_context
  = Some (Harness.set_traces [("SELECT ?", [7], 0%Z, None)] Harness.example_context) ∧
  (None ∉ fns (Processor Harness.example_context ["SELECT"]
                 [Some Harness.example_callback] [])) ∧
  ∃ d0, Harness.call_scopes (λ d, d) 1 Harness.example_context = Some d0 ∧
        Harness.scopes d0 = [].
Proof.
  assert (Harness.Execute (λ d, d) (λ _, None) (λ _ d, (d, None)) (λ _, false)
    (λ e, e) tt (λ _ d, d) (λ v, v) (λ _, true) 1
    (Processor Harness.example_context ["SELECT"] [Some Harness.example_callback] [])
    Harness.example_context
  = Some (Harness.set_traces [("SELECT ?", [7], 0%Z, None)] Harness.example_context))
    as H by (vm_compute; reflexivity).
  split; [exact H|].
  exact (X14_Execute_returns_without_nil_function _ _ _ _ _ _ _ _ _ _ _ _ _ H).
Defined.

Lemma X15_witness :
  Harness.Execute (λ d, d) (λ _, None) (λ _ d, (d, None)) (λ _, false) (λ e, e) tt
    (λ _ d, d) (λ v, v) (λ _, true) 1
    (Processor Harness.example_context ["SELECT"]
       [Some (Harness.set_BuildClauses ["FROM"])] [])
    Harness.example_context
  = Some Harness.example_context ∧
  ∃ d0 d1 reset,
    Harness.call_scopes (λ d, d) 1 Harness.example_context = Some d0 ∧
    Harness.Execute_run (λ d, d) (λ _, None) (λ _ d, (d, None)) (λ _, false)
      (λ e, e) tt (λ _ d, d) (λ v, v) (λ _, true) 1
      (Processor Harness.example_context ["SELECT"]
         [Some (Harness.set_BuildClauses ["FROM"])] [])
      Harness.example_context
    = Some (d1, reset) ∧
    (Harness.BuildClauses d0 = [] →
       Harness.BuildClauses Harness.example_context = []) ∧
    (Harness.BuildClauses d0 ≠ [] →
       Harness.BuildClauses Harness.example_context = Harness.BuildClauses d1).
Proof.
  assert (Harness.Execute (λ d, d) (λ _, None) (λ _ d, (d, None)) (λ _, false)
    (λ e, e) tt (λ _ d, d) (λ v, v) (λ _, true) 1
    (Processor Harness.example_context ["SELECT"]
       [Some (Harness.set_BuildClauses ["FROM"])] [])
    Harness.example_context
  = Some Harness.example_context) as H by (vm_compute; reflexivity).
  split; [exact H|].
  exact (X15_Execute_restores_BuildClauses _ _ _ _ _ _ _ _ _ _ _ _ _ H).
Defined.

Lemma X16_witness :
  Forall unconstrained [plain ("A", Some Harness.example_callback)] ∧
  NoDup ("B" :: (name <$> [plain ("A", Some Harness.example_callback)])) ∧
  ∃ p, Register 1 "B" None
         (Processor Harness.example_context [] [Some Harness.example_callback]
            [plain ("A", Some Harness.example_callback)])
       = Some (p, [], None) ∧
       fns p = (handler <$> [plain ("A", Some Harness.example_callback)]) ++ [None] ∧
       Harness.Execute (λ d, d) (λ _, None) (λ _ d, (d, None)) (λ _, false) (λ e, e) tt
         (λ _ d, d) (λ v, v) (λ _, true) 1 p Harness.example_context = None.
Proof.
  assert (Forall unconstrained [plain ("A", Some Harness.example_callback)]) as H1
    by each_callback.
  assert (NoDup ("B" :: (name <$> [plain ("A", Some Harness.example_callback)])))
    as H2.
  { apply (bool_decide_unpack _). vm_compute. exact I. }
  split; [exact H1|]. split; [exact H2|].
  exact (X16_nil_function_registered_then_called (λ d, d) (λ _, None)
           (λ _ d, (d, None)) (λ _, false) (λ e, e) tt (λ _ d, d) (λ v, v)
           (λ _, true) 0 1 Harness.example_context Harness.example_context []
           [Some Harness.example_callback] _ "B" H1 H2).
Defined.

(** X17.  [Remove] undoes [Register]: in a registry of unconstrained steps
    with distinct names, registering a function under a new name and then
    removing that name leaves the registry as it was, and the compiled list
    holds the functions of the registry in registration order. *)
Theorem X17_Remove_undoes_Register {DB : Type} (d : DB) (Cl : list string)
    (fns0 : list (option (DB → DB))) (fuel fuel' : nat) (cs : list (callback DB))
    (nm : string) (fn : option (DB → DB)) :
  Forall unconstrained cs → NoDup (nm :: (name <$> cs)) →
  ∃ p, Register (S fuel) nm fn (Processor d Cl fns0 cs) = Some (p, [], None) ∧
       fns p = (handler <$> cs) ++ [fn] ∧
       Remove (S fuel') nm p
       = Some (Processor d Cl (handler <$> cs) cs, [Warn_removing nm], None).
Proof.
  intros Hu Hnd. apply NoDup_cons in Hnd as [Hn Hnd].
  assert (Forall unconstrained (cs ++ [plain (nm, fn)])) as Hu'.
  { apply Forall_app. split; [done|]. by apply Forall_singleton. }
  assert (NoDup (name <$> cs ++ [plain (nm, fn)])) as Hnd'.
  { rewrite fmap_app. apply NoDup_app. split_and!; [done| |apply NoDup_singleton].
    by intros x Hx ->%list_elem_of_singleton. }
  assert (filter (λ c, name c ≠ nm) (cs ++ [plain (nm, fn)]) = cs) as Hf.
  { rewrite filter_app, filter_cons_False, filter_nil, app_nil_r by (by intros ?).
    clear Hu Hnd Hu' Hnd'. induction cs as [|c cs IH]; [done|].
    rewrite fmap_cons, not_elem_of_cons in Hn. destruct Hn as [Hc Hn].
    rewrite filter_cons_True by done. by rewrite IH. }
  unfold Register, callback_Register.
  change (set_handler fn (set_name nm new_callback)) with (@plain DB (nm, fn)).
  rewrite compile_unconstrained by done.
  cbn [callbacks set_callbacks db Clauses mbind option_bind].
  eexists. split; [done|]. cbn [fns]. split; [by rewrite fmap_app|].
  unfold Remove, callback_Remove. rewrite compile_unfold.
  unfold set_callbacks. cbn [callbacks db Clauses fns].
  rewrite candidates_marker, Hf by done.
  by rewrite sortCallbacks_unconstrained.
Qed.

Lemma X17_witness :
  Forall unconstrained [@plain nat ("A", Some S)] ∧
  NoDup ("B" :: (name <$> [@plain nat ("A", Some S)])) ∧
  ∃ p, Register 1 "B" (Some (Nat.add 2)) (Processor 0 [] [Some S] [plain ("A", Some S)])
       = Some (p, [], None) ∧
       fns p = (handler <$> [@plain nat ("A", Some S)]) ++ [Some (Nat.add 2)] ∧
       Remove 1 "B" p
       = Some (Processor 0 [] (handler <$> [@plain nat ("A", Some S)])
                 [plain ("A", Some S)],
               [Warn_removing "B"], None).
Proof.
  assert (Forall unconstrained [@plain nat ("A", Some S)]) as H1 by each_callback.
  assert (NoDup ("B" :: (name <$> [@plain nat ("A", Some S)]))) as H2.
  { apply (bool_decide_unpack _). vm_compute. exact I. }
  split; [exact H1|]. split; [exact H2|].
  exact (X17_Remove_undoes_Register 0 [] [Some S] 0 0 _ "B" (Some (Nat.add 2)) H1 H2).
Defined.

(** ** A step with both constraints *)

Section two_constraints.
Context {DB : Type}.
Implicit Types (c : callback DB) (cs l : list (callback DB)).
Implicit Types (names sorted : list string).

(** A step that is to come before a placed step and after another one. *)
Lemma sortCallback_between fuel names i cs s1 s2 c :
  cs !! i = Some c → before c ≠ "" → before c ≠ "*" → after c ≠ "" → after c ≠ "*" →
  NoDup (s1 ++ name c :: before c :: s2) →
  (after c ∈ s1 →
     sortCallback (S fuel) names i (cs, s1 ++ before c :: s2)
     = Some ((cs, s1 ++ name c :: before c :: s2), None)) ∧
  (after c ∈ s2 →
     sortCallback (S fuel) names i (cs, s1 ++ before c :: s2)
     = Some ((cs, s1 ++ name c :: before c :: s2),
             Some (conflict (name c) (after c)))).
Proof.
  intros Hi Hb Hb' Ha Ha' Hnd.
  assert (NoDup (s1 ++ before c :: s2)) as Hnd'.
  { eapply sublist_NoDup; [exact Hnd|].
    apply sublist_app; [done|]. by apply sublist_cons. }
  assert (name c ∉ s1 ++ before c :: s2) as Hn.
  { apply NoDup_app in Hnd as (_ & Hd & Hnd2). apply NoDup_cons in Hnd2 as [Hn2 _].
    rewrite elem_of_app. intros [Hin|Hin]; [|done]. apply (Hd _ Hin). by left. }
  assert (getRIndex (s1 ++ before c :: s2) (before c) = Z.of_nat (length s1)) as E1.
  { apply getRIndex_NoDup; [done|]. by rewrite list_lookup_middle. }
  assert (getRIndex (s1 ++ name c :: before c :: s2) (name c)
          = Z.of_nat (length s1)) as E3.
  { apply getRIndex_NoDup; [done|]. by rewrite list_lookup_middle. }
  assert (sortCallback (S fuel) names i (cs, s1 ++ before c :: s2)
          = r ← after_branch names c (cs, s1 ++ name c :: before c :: s2);
            match r with
            | AfterFail e => Some ((cs, s1 ++ name c :: before c :: s2), Some e)
            | AfterDone st2 => Some (append_unsorted c st2, None)
            | AfterRecurse idx st2 =>
                '(st3, err) ← sortCallback fuel names idx st2;
                match err with
                | Some e => Some (st3, Some e)
                | None =>
                    '(st4, err) ← sortCallback fuel names i st3;
                    match err with
                    | Some e => Some (st4, Some e)
                    | None => c4 ← st4.1 !! i; Some (append_unsorted c4 st4, None)
                    end
                end
            end) as ->.
  { apply String.eqb_neq in Hb, Hb'. apply getRIndex_eqb_absent in Hn.
    rewrite sortCallback_unfold. cbn [fst]. rewrite Hi. cbn [mbind option_bind].
    unfold before_branch. rewrite Hb, Hb', E1, Hn. cbn [negb andb].
    assert ((Z.of_nat (length s1) =? -1)%Z = false) as -> by (apply Z.eqb_neq; lia).
    cbn [negb]. rewrite Nat2Z.id, take_app_length, drop_app_length.
    cbn [mbind option_bind fst]. by rewrite Hi. }
  apply String.eqb_neq in Ha, Ha'.
  assert ((Z.of_nat (length s1) =? -1)%Z = false) as E0 by (apply Z.eqb_neq; lia).
  split; intros Hin.
  - apply list_elem_of_lookup in Hin as [k Hk].
    pose proof (lookup_lt_Some _ _ _ Hk) as Hlt.
    assert (getRIndex (s1 ++ name c :: before c :: s2) (after c) = Z.of_nat k) as E2.
    { apply getRIndex_NoDup; [done|]. by apply lookup_app_l_Some. }
    unfold after_branch. rewrite Ha, Ha', E2, E3, E0. cbn [negb andb].
    assert ((Z.of_nat k =? -1)%Z = false) as -> by (apply Z.eqb_neq; lia).
    assert ((Z.of_nat (length s1) <? Z.of_nat k)%Z = false) as ->
      by (apply Z.ltb_ge; lia).
    cbn [negb mbind option_bind]. unfold append_unsorted. by rewrite E3, E0.
  - apply list_elem_of_lookup in Hin as [k Hk].
    assert (getRIndex (s1 ++ name c :: before c :: s2) (after c)
            = Z.of_nat (length s1 + S (S k))) as E2.
    { apply getRIndex_NoDup; [done|]. rewrite lookup_app_r by lia.
      by replace (length s1 + S (S k) - length s1) with (S (S k)) by lia. }
    unfold after_branch. rewrite Ha, Ha', E2, E3, E0. cbn [negb andb].
    assert ((Z.of_nat (length s1 + S (S k)) =? -1)%Z = false) as ->
      by (apply Z.eqb_neq; lia).
    assert ((Z.of_nat (length s1) <? Z.of_nat (length s1 + S (S k)))%Z = true) as ->
      by (apply Z.ltb_lt; lia).
    done.
Qed.

(** The sorting loop on a registry of unconstrained steps followed by
    such a step. *)
Lemma sort_each_between fuel cs0 c s1 s2 :
  Forall unconstrained cs0 → name <$> cs0 = s1 ++ before c :: s2 →
  before c ≠ "" → before c ≠ "*" → after c ≠ "" → after c ≠ "*" →
  NoDup (name <$> cs0 ++ [c]) →
  (after c ∈ s1 →
     sort_each (S fuel) (name <$> cs0 ++ [c]) (seq 0 (length (cs0 ++ [c])))
       (cs0 ++ [c], [])
     = Some ((cs0 ++ [c], s1 ++ name c :: before c :: s2), None)) ∧
  (after c ∈ s2 →
     sort_each (S fuel) (name <$> cs0 ++ [c]) (seq 0 (length (cs0 ++ [c])))
       (cs0 ++ [c], [])
     = Some ((cs0 ++ [c], s1 ++ name c :: before c :: s2),
             Some (conflict (name c) (after c)))).
Proof.
  intros Hu Hnames Hb Hb' Ha Ha' Hnd.
  assert (NoDup (s1 ++ name c :: before c :: s2)) as Hnd1.
  { rewrite fmap_app in Hnd. apply NoDup_app in Hnd as (Hnd0 & Hfresh & _).
    rewrite <-Permutation_middle. apply NoDup_cons. rewrite <-Hnames.
    split; [|done]. intros Hin. apply (Hfresh _ Hin). by left. }
  assert (take (length cs0) (drop 0 (cs0 ++ [c])) = cs0) as Ht
    by by rewrite drop_0, take_app_length.
  assert (sort_each (S fuel) (name <$> cs0 ++ [c]) (seq 0 (length (cs0 ++ [c])))
            (cs0 ++ [c], [])
          = sortCallback (S fuel) (name <$> cs0 ++ [c]) (length cs0)
              (cs0 ++ [c], s1 ++ before c :: s2) ≫= λ '(st', err),
              match err with
              | Some e => Some (st', Some e)
              | None => Some (st', None)
              end) as ->.
  { rewrite length_app, seq_app. cbn [length seq Nat.add]. rewrite sort_each_app.
    rewrite sort_each_free_range; rewrite ?Ht;
      [|by apply unconstrained_free|rewrite length_app; lia
       |rewrite fmap_app in Hnd; by apply NoDup_app in Hnd as (? & _)].
    cbn [mbind option_bind app sort_each]. rewrite Hnames.
    by destruct (sortCallback _ _ _ _) as [[? []]|]. }
  destruct (sortCallback_between fuel (name <$> cs0 ++ [c]) (length cs0) (cs0 ++ [c])
              s1 s2 c) as [Hok Hfail]; [by apply list_lookup_middle|done..|].
  split; intros Hin; [rewrite Hok|rewrite Hfail]; done.
Qed.
End two_constraints.

(** X18.  [Before(B).After(C).Register(A, f)] on a registry of unconstrained
    steps in which [C] stands before [B] compiles without error and puts
    [f] directly in front of [B]'s function, behind [C]'s. *)
Theorem X18_between_registered_steps {DB : Type} (d : DB) (Cl : list string)
    (fns0 : list (option (DB → DB))) (fuel : nat) (A : string)
    (f : option (DB → DB)) (l1 l2 l3 : list (callback DB)) (b c : callback DB) :
  Forall unconstrained (l1 ++ c :: l2 ++ b :: l3) →
  NoDup (A :: (name <$> l1 ++ c :: l2 ++ b :: l3)) →
  name b ≠ "" → name b ≠ "*" → name c ≠ "" → name c ≠ "*" →
  callback_Register (S fuel) (callback_After (name c) (processor_Before (name b))) A f
    (Processor d Cl fns0 (l1 ++ c :: l2 ++ b :: l3))
  = Some (Processor d Cl
            ((handler <$> l1) ++ handler c :: (handler <$> l2)
               ++ f :: handler b :: (handler <$> l3))
            ((l1 ++ c :: l2 ++ b :: l3)
               ++ [set_after (name c) (set_before (name b) (plain (A, f)))]),
          [], None).
Proof.
  intros Hu Hnd Hb Hb' Hc Hc'. unfold callback_Register.
  change (set_handler f (set_name A (callback_After (name c) (processor_Before (name b)))))
    with (set_after (name c) (set_before (name b) (@plain DB (A, f)))).
  set (a := set_after (name c) (set_before (name b) (plain (A, f)))).
  set (cs0 := l1 ++ c :: l2 ++ b :: l3) in *.
  unfold set_callbacks. cbn [callbacks db Clauses fns].
  assert (name <$> cs0 = ((name <$> l1) ++ name c :: (name <$> l2))
                         ++ before a :: (name <$> l3)) as Hnames.
  { subst cs0. rewrite fmap_app, fmap_cons, fmap_app, <-app_assoc. done. }
  apply NoDup_cons in Hnd as [Hn Hnd].
  assert (NoDup (name <$> cs0 ++ [a])) as Hnd'.
  { rewrite fmap_app. apply NoDup_app. split_and!; [done| |apply NoDup_singleton].
    by intros x Hx ->%list_elem_of_singleton. }
  destruct (sort_each_between fuel cs0 a _ _ Hu Hnames) as [Hok _]; [done..|].
  apply compile_all_candidates.
  { apply Forall_app. split; [by apply unconstrained_candidate|].
    by apply Forall_singleton. }
  unfold sortCallbacks. rewrite SliceStable_no_wildcard.
  2:{ apply Forall_app. split; [by apply unconstrained_no_wildcard|].
      by apply Forall_singleton. }
  rewrite (collect_names_fresh _ _ [] []) by done. cbn [mbind option_bind app].
  rewrite Hok by (apply elem_of_app; right; by left).
  cbn [mbind option_bind].
  assert (((name <$> l1) ++ name c :: (name <$> l2)) ++ name a :: before a :: (name <$> l3)
          = name <$> (l1 ++ c :: l2 ++ a :: b :: l3)) as ->.
  { by rewrite fmap_app, fmap_cons, fmap_app, <-app_assoc. }
  rewrite collect_fns_names; [|done|].
  - cbn [mbind option_bind app]. by rewrite fmap_app, fmap_cons, fmap_app.
  - intros x Hx. assert (x ∈ cs0 ∨ x = a) as [Hx0| ->].
    { subst cs0.
      apply elem_of_app in Hx
        as [Hx|[->|[Hx|[->|[->|Hx]%elem_of_cons]%elem_of_cons]%elem_of_app]%elem_of_cons];
        [left; apply elem_of_app; by left
        |left; apply elem_of_app; right; by left
        |left; apply elem_of_app; right; right; apply elem_of_app; by left
        |by right
        |left; apply elem_of_app; right; right; apply elem_of_app; right; by left
        |left; apply elem_of_app; right; right; apply elem_of_app; right; by right]. }
    + split; [apply elem_of_app; by left|by eapply unconstrained_kept].
    + split; [apply elem_of_app; right; by left|done].
Qed.

Lemma X18_witness :
  Forall unconstrained ([] ++ @plain nat ("C", Some S) :: [plain ("Y", Some (Nat.add 3))]
                           ++ plain ("B", Some (Nat.add 2)) :: []) ∧
  NoDup ("A" :: (name <$> [] ++ @plain nat ("C", Some S)
                           :: [plain ("Y", Some (Nat.add 3))]
                           ++ plain ("B", Some (Nat.add 2)) :: [])) ∧
  name (@plain nat ("B", Some (Nat.add 2))) ≠ "" ∧
  name (@plain nat ("B", Some (Nat.add 2))) ≠ "*" ∧
  name (@plain nat ("C", Some S)) ≠ "" ∧ name (@plain nat ("C", Some S)) ≠ "*" ∧
  callback_Register 1 (callback_After "C" (processor_Before "B")) "A"
    (Some (Nat.add 9))
    (Processor 0 [] [] [plain ("C", Some S); plain ("Y", Some (Nat.add 3));
                        plain ("B", Some (Nat.add 2))])
  = Some (Processor 0 []
            [Some S; Some (Nat.add 3); Some (Nat.add 9); Some (Nat.add 2)]
            [plain ("C", Some S); plain ("Y", Some (Nat.add 3));
             plain ("B", Some (Nat.add 2));
             set_after "C" (set_before "B" (plain ("A", Some (Nat.add 9))))],
          [], None).
Proof.
  assert (Forall unconstrained
            ([] ++ @plain nat ("C", Some S) :: [plain ("Y", Some (Nat.add 3))]
                ++ plain ("B", Some (Nat.add 2)) :: [])) as H1 by each_callback.
  assert (NoDup ("A" :: (name <$> [] ++ @plain nat ("C", Some S)
                           :: [plain ("Y", Some (Nat.add 3))]
                           ++ plain ("B", Some (Nat.add 2)) :: []))) as H2.
  { apply (bool_decide_unpack _). vm_compute. exact I. }
  assert (name (@plain nat ("B", Some (Nat.add 2))) ≠ "") as H3 by done.
  assert (name (@plain nat ("B", Some (Nat.add 2))) ≠ "*") as H4 by done.
  assert (name (@plain nat ("C", Some S)) ≠ "") as H5 by done.
  assert (name (@plain nat ("C", Some S)) ≠ "*") as H6 by done.
  split_and!; [exact H1|exact H2|exact H3|exact H4|exact H5|exact H6|].
  exact (X18_between_registered_steps 0 [] [] 0 "A" (Some (Nat.add 9)) []
           [plain ("Y", Some (Nat.add 3))] [] (plain ("B", Some (Nat.add 2)))
           (plain ("C", Some S)) H1 H2 H3 H4 H5 H6).
Defined.

(** X19.  [Before(B).After(C).Register(A, f)] on a registry of unconstrained
    steps in which [B] stands before [C] returns a conflict error that names
    [A] and [C], and leaves the compiled list empty; the new entry stays in
    the registry. *)
Theorem X19_between_steps_in_the_wrong_order {DB : Type} (d : DB) (Cl : list string)
    (fns0 : list (option (DB → DB))) (fuel : nat) (A : string)
    (f : option (DB → DB)) (l1 l2 l3 : list (callback DB)) (b c : callback DB) :
  Forall unconstrained (l1 ++ b :: l2 ++ c :: l3) →
  NoDup (A :: (name <$> l1 ++ b :: l2 ++ c :: l3)) →
  name b ≠ "" → name b ≠ "*" → name c ≠ "" → name c ≠ "*" →
  callback_Register (S fuel) (callback_After (name c) (processor_Before (name b))) A f
    (Processor d Cl fns0 (l1 ++ b :: l2 ++ c :: l3))
  = Some (Processor d Cl []
            ((l1 ++ b :: l2 ++ c :: l3)
               ++ [set_after (name c) (set_before (name b) (plain (A, f)))]),
          [Error_compile (conflict A (name c))], Some (conflict A (name c))).
Proof.
  intros Hu Hnd Hb Hb' Hc Hc'. unfold callback_Register.
  change (set_handler f (set_name A (callback_After (name c) (processor_Before (name b)))))
    with (set_after (name c) (set_before (name b) (@plain DB (A, f)))).
  set (a := set_after (name c) (set_before (name b) (plain (A, f)))).
  set (cs0 := l1 ++ b :: l2 ++ c :: l3) in *.
  assert (name <$> cs0 = (name <$> l1)
                         ++ before a :: ((name <$> l2) ++ name c :: (name <$> l3)))
    as Hnames.
  { subst cs0. by rewrite fmap_app, fmap_cons, fmap_app. }
  apply NoDup_cons in Hnd as [Hn Hnd].
  assert (NoDup (name <$> cs0 ++ [a])) as Hnd'.
  { rewrite fmap_app. apply NoDup_app. split_and!; [done| |apply NoDup_singleton].
    by intros x Hx ->%list_elem_of_singleton. }
  destruct (sort_each_between fuel cs0 a _ _ Hu Hnames) as [_ Hfail]; [done..|].
  rewrite compile_unfold, candidates_all.
  2:{ unfold set_callbacks. cbn [callbacks db]. apply Forall_app.
      split; [by apply unconstrained_candidate|]. by apply Forall_singleton. }
  unfold set_callbacks. cbn [callbacks db Clauses fns].
  unfold sortCallbacks. rewrite SliceStable_no_wildcard.
  2:{ apply Forall_app. split; [by apply unconstrained_no_wildcard|].
      by apply Forall_singleton. }
  rewrite (collect_names_fresh _ _ [] []) by done. cbn [mbind option_bind app].
  rewrite Hfail by (apply elem_of_app; right; by left).
  done.
Qed.

Lemma X19_witness :
  Forall unconstrained ([] ++ @plain nat ("B", Some (Nat.add 2))
                           :: [plain ("Y", Some (Nat.add 3))]
                           ++ plain ("C", Some S) :: []) ∧
  NoDup ("A" :: (name <$> [] ++ @plain nat ("B", Some (Nat.add 2))
                           :: [plain ("Y", Some (Nat.add 3))]
                           ++ plain ("C", Some S) :: [])) ∧
  name (@plain nat ("B", Some (Nat.add 2))) ≠ "" ∧
  name (@plain nat ("B", Some (Nat.add 2))) ≠ "*" ∧
  name (@plain nat ("C", Some S)) ≠ "" ∧ name (@plain nat ("C", Some S)) ≠ "*" ∧
  callback_Register 1 (callback_After "C" (processor_Before "B")) "A"
    (Some (Nat.add 9))
    (Processor 0 [] [] [plain ("B", Some (Nat.add 2)); plain ("Y", Some (Nat.add 3));
                        plain ("C", Some S)])
  = Some (Processor 0 [] []
            [plain ("B", Some (Nat.add 2)); plain ("Y", Some (Nat.add 3));
             plain ("C", Some S);
             set_after "C" (set_before "B" (plain ("A", Some (Nat.add 9))))],
          [Error_compile (conflict "A" "C")], Some (conflict "A" "C")).
Proof.
  assert (Forall unconstrained
            ([] ++ @plain nat ("B", Some (Nat.add 2)) :: [plain ("Y", Some (Nat.add 3))]
                ++ plain ("C", Some S) :: [])) as H1 by each_callback.
  assert (NoDup ("A" :: (name <$> [] ++ @plain nat ("B", Some (Nat.add 2))
                           :: [plain ("Y", Some (Nat.add 3))]
                           ++ plain ("C", Some S) :: []))) as H2.
  { apply (bool_decide_unpack _). vm_compute. exact I. }
  assert (name (@plain nat ("B", Some (Nat.add 2))) ≠ "") as H3 by done.
  assert (name (@plain nat ("B", Some (Nat.add 2))) ≠ "*") as H4 by done.
  assert (name (@plain nat ("C", Some S)) ≠ "") as H5 by done.
  assert (name (@plain nat ("C", Some S)) ≠ "*") as H6 by done.
  split_and!; [exact H1|exact H2|exact H3|exact H4|exact H5|exact H6|].
  exact (X19_between_steps_in_the_wrong_order 0 [] [] 0 "A" (Some (Nat.add 9)) []
           [plain ("Y", Some (Nat.add 3))] [] (plain ("B", Some (Nat.add 2)))
           (plain ("C", Some S)) H1 H2 H3 H4 H5 H6).
Defined.

(** ** The WHERE clause *)

Section Where_facts.
Import Stdlib.Strings.Ascii.
Context {Vars Other : Type}.
Context (negation : Other → bool) (contains_join : string → bool).
Local Abbreviation Expression := (@Where.Expression Vars Other).
Local Abbreviation call := (@Where.call Vars Other).
Local Abbreviation Build := (Where.Build negation contains_join).
Implicit Types (e : Expression) (es Exprs : list Expression) (cs : list call).

Lemma Expression_nested_ind (P : Expression → Prop) :
  (∀ sql v, P (Where.Expr sql v)) →
  (∀ sql v, P (Where.NamedExpr sql v)) →
  (∀ es, Forall P es → P (Where.AndConditions es)) →
  (∀ es, Forall P es → P (Where.OrConditions es)) →
  (∀ es, Forall P es → P (Where.NotConditions es)) →
  (∀ x, P (Where.OtherExpression x)) →
  ∀ e, P e.
Proof.
  intros HE HN HA HO HT HX. fix IH 1. intros [sql v|sql v|es|es|es|x].
  - apply HE.
  - apply HN.
  - apply HA. induction es as [|e es IHes]; constructor; [apply IH|apply IHes].
  - apply HO. induction es as [|e es IHes]; constructor; [apply IH|apply IHes].
  - apply HT. induction es as [|e es IHes]; constructor; [apply IH|apply IHes].
  - apply HX.
Qed.

(** *** Parentheses *)

Lemma open_after_app cs cs' n :
  Where.open_after n (cs ++ cs') = m ← Where.open_after n cs; Where.open_after m cs'.
Proof.
  revert n. induction cs as [|c cs IH]; intros n; [done|].
  destruct c as [a|s|e|e]; simpl; try apply IH.
  destruct a as [[] [] [] [] [] [] [] []]; simpl; try apply IH.
  destruct n; [done|apply IH].
Qed.

Local Abbreviation level cs := (∀ n, Where.open_after n (cs : list call) = Some n).

Lemma level_nil : level [].
Proof. done. Qed.

Lemma level_app cs cs' : level cs → level cs' → level (cs ++ cs').
Proof. intros H1 H2 n. by rewrite open_after_app, H1; simpl. Qed.

Lemma level_WriteString s : level [Where.WriteString s].
Proof. done. Qed.

Lemma level_wrapped cs :
  level cs → level ([Where.WriteByte "("%char] ++ cs ++ [Where.WriteByte ")"%char]).
Proof.
  intros H n. cbn [app Where.open_after].
  by rewrite open_after_app, H.
Qed.

Lemma level_wrapped_if (b : bool) cs :
  level cs →
  level ((if b then [Where.WriteByte "("%char] else []) ++ cs
         ++ (if b then [Where.WriteByte ")"%char] else [])).
Proof.
  intros H. destruct b; [by apply level_wrapped|]. by rewrite app_nil_r.
Qed.

Lemma level_buildExprs_from many joinCond es : ∀ idx,
  Forall (λ e, level (Build e)) es →
  level (Where.buildExprs_from contains_join Build many joinCond idx es).
Proof.
  induction es as [|e es IH]; intros idx Hes; [done|].
  apply Forall_cons in Hes as [He Hes]. cbn [Where.buildExprs_from].
  repeat apply level_app; [by destruct (0 <? idx)| |by apply IH].
  destruct (many && _); [by apply level_wrapped|done].
Qed.

Lemma level_negation_loop es : ∀ idx,
  Forall (λ e, level (Build e)) es →
  level (Where.negation_loop negation contains_join Build idx es).
Proof.
  induction es as [|e es IH]; intros idx Hes; [done|].
  apply Forall_cons in Hes as [He Hes]. cbn [Where.negation_loop].
  repeat apply level_app; [by destruct (0 <? idx)| |by apply IH].
  destruct (Where.NegationExpressionBuilder negation e); [done|].
  apply level_app; [done|]. by apply level_wrapped_if.
Qed.

Lemma level_plain_loop es : ∀ idx,
  Forall (λ e, level (Build e)) es →
  level (Where.plain_loop contains_join Build idx es).
Proof.
  induction es as [|e es IH]; intros idx Hes; [done|].
  apply Forall_cons in Hes as [He Hes]. cbn [Where.plain_loop].
  apply level_app; [by destruct (0 <? idx)|].
  rewrite !app_assoc, <-(app_assoc _ (Build e)).
  apply level_app; [by apply level_wrapped_if|by apply IH].
Qed.

Lemma level_Build e : level (Build e).
Proof.
  induction e as [sql v|sql v|es IH|es IH|es IH|x] using Expression_nested_ind;
    try done.
  - cbn [Where.Build]. unfold Where.buildExprs_with.
    destruct (1 <? length es);
      [apply level_wrapped|]; by apply level_buildExprs_from.
  - cbn [Where.Build]. unfold Where.buildExprs_with.
    destruct (1 <? length es);
      [apply level_wrapped|]; by apply level_buildExprs_from.
  - cbn [Where.Build]. destruct (existsb _ es).
    + apply level_wrapped_if. by apply level_negation_loop.
    + apply level_app; [done|]. apply level_wrapped_if. by apply level_plain_loop.
Qed.

(** *** The conditions built *)

Lemma built_app cs cs' : Where.built (cs ++ cs') = Where.built cs ++ Where.built cs'.
Proof. apply omap_app. Qed.

Lemma built_wrapped_if (b : bool) cs :
  Where.built ((if b then [Where.WriteByte "("%char] else []) ++ cs
               ++ (if b then [Where.WriteByte ")"%char] else []))
  = Where.built cs.
Proof. rewrite !built_app. destruct b; simpl; by rewrite app_nil_r. Qed.

Lemma built_buildExprs_from many joinCond es : ∀ idx,
  Forall (λ e, Where.built (Build e) = Where.leaves e) es →
  Where.built (Where.buildExprs_from contains_join Build many joinCond idx es)
  = flat_map Where.leaves es.
Proof.
  induction es as [|e es IH]; intros idx Hes; [done|].
  apply Forall_cons in Hes as [He Hes]. cbn [Where.buildExprs_from flat_map].
  rewrite !built_app, IH by done.
  assert (Where.built (if 0 <? idx
                       then [Where.WriteString
                               (if Where.single_or e then Where.OrWithSpace
                                else joinCond)]
                       else []) = []) as -> by by destruct (0 <? idx).
  destruct (many && _); [|by rewrite He].
  by rewrite (built_wrapped_if true), He.
Qed.

Lemma built_negation_loop es : ∀ idx,
  Forall (λ e, Where.built (Build e) = Where.leaves e) es →
  Where.built (Where.negation_loop negation contains_join Build idx es)
  = flat_map Where.leaves es.
Proof.
  induction es as [|e es IH]; intros idx Hes; [done|].
  apply Forall_cons in Hes as [He Hes]. cbn [Where.negation_loop flat_map].
  rewrite !built_app, IH by done.
  assert (Where.built (if 0 <? idx then [Where.WriteString Where.AndWithSpace]
                       else []) = []) as -> by by destruct (0 <? idx).
  cbn [app]. f_equal.
  destruct (Where.NegationExpressionBuilder negation e) eqn:E.
  - by destruct e.
  - rewrite <-He. apply (built_wrapped_if _ (Build e)).
Qed.

Lemma built_plain_loop es : ∀ idx,
  Forall (λ e, Where.built (Build e) = Where.leaves e) es →
  Where.built (Where.plain_loop contains_join Build idx es)
  = flat_map Where.leaves es.
Proof.
  induction es as [|e es IH]; intros idx Hes; [done|].
  apply Forall_cons in Hes as [He Hes]. cbn [Where.plain_loop flat_map].
  rewrite built_app.
  assert (Where.built (if 0 <? idx
                       then [Where.WriteString
                               match e with
                               | Where.OrConditions _ => Where.OrWithSpace
                               | _ => Where.AndWithSpace
                               end]
                       else []) = []) as -> by by destruct (0 <? idx).
  cbn [app]. rewrite !app_assoc, <-(app_assoc _ (Build e)).
  by rewrite built_app, built_wrapped_if, IH, He.
Qed.

Lemma built_Build e : Where.built (Build e) = Where.leaves e.
Proof.
  induction e as [sql v|sql v|es IH|es IH|es IH|x] using Expression_nested_ind;
    try done.
  - cbn [Where.Build Where.leaves]. unfold Where.buildExprs_with.
    destruct (1 <? length es);
      rewrite ?(built_wrapped_if true); by apply built_buildExprs_from.
  - cbn [Where.Build Where.leaves]. unfold Where.buildExprs_with.
    destruct (1 <? length es);
      rewrite ?(built_wrapped_if true); by apply built_buildExprs_from.
  - cbn [Where.Build Where.leaves]. destruct (existsb _ es).
    + rewrite built_wrapped_if. by apply built_negation_loop.
    + rewrite built_app, built_wrapped_if. by apply built_plain_loop.
Qed.

(** *** The exchange in [Where.Build] *)

Lemma first_lead_Some es : ∀ idx k,
  Where.first_lead idx es = Some k →
  ∃ i e, k = idx + i ∧ es !! i = Some e ∧ Where.leads e = true ∧
         Forall (λ e', Where.leads e' = false) (take i es).
Proof.
  induction es as [|e es IH]; intros idx k Hk; [done|]. simpl in Hk.
  destruct (Where.leads e) eqn:E.
  - simplify_eq. exists 0, e. split_and!; [lia|done|done|constructor].
  - apply IH in Hk as (i & e' & -> & Hi & He' & Hpre).
    exists (S i), e'. split_and!; [lia|done|done|by constructor].
Qed.

Lemma first_lead_None es : ∀ idx,
  Where.first_lead idx es = None → Forall (λ e, Where.leads e = false) es.
Proof.
  induction es as [|e es IH]; intros idx Hk; [constructor|]. simpl in Hk.
  destruct (Where.leads e) eqn:E; [done|]. constructor; [done|by eapply IH].
Qed.

Lemma swap_first_perm i es : Where.swap_first i es ≡ₚ es.
Proof.
  unfold Where.swap_first. destruct es as [|a es]; [done|]. simpl.
  destruct i as [|i]; simpl; [done|].
  destruct (es !! i) as [b|] eqn:Hi; [|done]. simpl.
  rewrite <-(take_drop_middle es i b Hi) at 2.
  rewrite insert_take_drop by (by eapply lookup_lt_Some).
  rewrite <-!Permutation_middle. apply perm_swap.
Qed.

Lemma swap_first_head i es a b :
  es !! 0 = Some a → es !! i = Some b → head (Where.swap_first i es) = Some b.
Proof.
  intros H0 Hi. unfold Where.swap_first. rewrite H0, Hi.
  destruct es as [|x es]; [done|]. destruct i; simpl in *; by simplify_eq.
Qed.

(** X20.  The parentheses that [Build] and [Where.Build] write are
    balanced: no closing parenthesis comes without an open one before it,
    and none is left open at the end, whatever the expression. *)
Theorem X20_Build_balances_parentheses :
  (∀ e, Where.open_after 0 (Build e) = Some 0) ∧
  (∀ Exprs,
     Where.open_after 0 (Where.Where_Build negation contains_join Exprs) = Some 0).
Proof.
  split; [intros e; apply level_Build|].
  intros Exprs. unfold Where.Where_Build, Where.buildExprs, Where.buildExprs_with.
  apply level_buildExprs_from. apply Forall_forall. intros e _. apply level_Build.
Qed.

(** X21.  [Build] hands the builder to every condition of the tree that
    is not an AND, OR or NOT node exactly once, from left to right;
    [Where.Build] does so for every condition of the clause, in an order
    that differs from theirs by the one exchange at most. *)
Theorem X21_Build_visits_each_condition_once :
  (∀ e, Where.built (Build e) = Where.leaves e) ∧
  (∀ Exprs,
     Where.built (Where.Where_Build negation contains_join Exprs)
     ≡ₚ flat_map Where.leaves Exprs).
Proof.
  split; [apply built_Build|].
  intros Exprs. unfold Where.Where_Build, Where.buildExprs, Where.buildExprs_with.
  rewrite built_buildExprs_from
    by (apply Forall_forall; intros e _; apply built_Build).
  unfold Where.Where_arrange.
  set (exprs := match Exprs with
                | [Where.AndConditions es] => es
                | _ => Exprs
                end).
  assert (flat_map Where.leaves exprs = flat_map Where.leaves Exprs) as <-.
  { subst exprs. destruct Exprs as [|[] []]; try done.
    cbn [flat_map Where.leaves]. by rewrite app_nil_r. }
  destruct (Where.first_lead 0 exprs) as [idx|]; [|done].
  destruct (negb (idx =? 0)); [|done].
  apply Permutation_flat_map, swap_first_perm.
Qed.

(** X22.  After the exchange of [Where.Build] the slice starts with a
    condition that is not an OR of at most one expression, unless every
    condition of the slice is such an OR. *)
Theorem X22_Where_Build_leads_with_a_plain_condition Exprs :
  Forall (λ e, Where.leads e = false) (Where.Where_arrange Exprs) ∨
  ∃ e, head (Where.Where_arrange Exprs) = Some e ∧ Where.leads e = true.
Proof.
  unfold Where.Where_arrange.
  set (exprs := match Exprs with
                | [Where.AndConditions es] => es
                | _ => Exprs
                end).
  destruct (Where.first_lead 0 exprs) as [idx|] eqn:E.
  - right. apply first_lead_Some in E as (i & e & -> & Hi & He & _).
    exists e. split; [|done]. simpl. destruct i as [|i]; simpl.
    + by destruct exprs.
    + destruct exprs as [|a exprs']; [done|].
      by apply (swap_first_head (S i) (a :: exprs') a e).
  - left. by eapply first_lead_None.
Qed.

(** X23.  [And] and [Or] of a single expression build what the expression
    itself builds: no parenthesis and no joining word is added. *)
Theorem X23_And_Or_of_one_expression e :
  Build <$> Where.And [e] = Some (Build e) ∧
  Build <$> Where.Or [e] = Some (Build e).
Proof.
  split.
  - destruct e as [| | |es| |]; try done.
    cbn [Where.And fmap option_fmap option_map].
    change (Build (Where.AndConditions [Where.OrConditions es]))
      with ([] ++ Build (Where.OrConditions es) ++ []).
    by rewrite app_nil_r.
  - cbn [Where.Or fmap option_fmap option_map].
    change (Build (Where.OrConditions [e])) with ([] ++ Build e ++ []).
    by rewrite app_nil_r.
Qed.

(** X24.  [MergeClause] accumulates: merging WHERE clauses one after the
    other into a clause leaves one WHERE clause there, holding the
    expressions the clause had as a WHERE clause (none if it held another
    expression or nil) followed by those of each merged clause, in the
    order of the calls. *)
Theorem X24_MergeClause_accumulates {Clause : Type} (w : list Expression)
    (ws : list (list Expression))
    (clause : option (@Where.clause_expression Vars Other Clause)) :
  foldl (λ c Exprs, Where.MergeClause Exprs c) clause (w :: ws)
  = Some (Where.IsWhere
            (match clause with
             | Some (Where.IsWhere w0) => w0
             | _ => []
             end ++ w ++ concat ws)).
Proof.
  cbn [foldl].
  assert (∀ acc, foldl (λ c Exprs, Where.MergeClause Exprs c)
                   (Some (Where.IsWhere acc)) ws
                 = Some (@Where.IsWhere Vars Other Clause (acc ++ concat ws))) as H.
  { induction ws as [|w' ws IH]; intros acc; simpl; [by rewrite app_nil_r|].
    by rewrite IH, <-app_assoc. }
  destruct clause as [[w0|x]|]; simpl; rewrite H; by rewrite <-?app_assoc.
Qed.
End Where_facts.

(** ** The schema constraints *)

Section Schema_facts.
Import Stdlib.Strings.Ascii.
Context (CheckerName UniqueName : string → string → string).
Implicit Types (s nm rest chk : string) (field : Schema.Field).
Implicit Types (schema : Schema.Schema) (order : list Schema.Field).

Local Abbreviation comma := (","%char).

(** The bytes of a string. *)
Local Abbreviation bytes := String.list_ascii_of_string.

Lemma Split_nonempty s : ∃ x parts, Schema.Split s = x :: parts.
Proof.
  destruct s as [|c s]; simpl; [by eexists _, _|].
  destruct (Ascii.eqb c comma); [by eexists _, _|].
  destruct (Schema.Split s); by eexists _, _.
Qed.

Lemma Split_no_comma s : Forall (λ x, comma ∉ bytes x) (Schema.Split s).
Proof.
  induction s as [|c s IH]; simpl.
  { constructor; [apply not_elem_of_nil|constructor]. }
  destruct (Ascii.eqb_spec c comma) as [->|Hc].
  - constructor; [apply not_elem_of_nil|done].
  - destruct (Schema.Split s) as [|x parts]; simpl.
    + constructor; [|done]. simpl. by intros [?|?%elem_of_nil]%elem_of_cons.
    + apply Forall_cons in IH as [Hx Hrest]. constructor; [|done].
      simpl. by intros [?|?]%elem_of_cons.
Qed.

Lemma Join_Split s : Schema.Join (Schema.Split s) = s.
Proof.
  induction s as [|c s IH]; [done|]. cbn [Schema.Split].
  destruct (Ascii.eqb_spec c comma) as [->|Hc].
  - destruct (Split_nonempty s) as (x & parts & E). rewrite E in IH |- *.
    cbn [Schema.Join]. cbn [Schema.Join] in IH. by rewrite IH.
  - destruct (Schema.Split s) as [|x [|y parts]]; simpl in *; by rewrite <-?IH.
Qed.

Lemma Split_prefix nm rest :
  comma ∉ bytes nm →
  Schema.Split (nm +:+ String comma rest) = nm :: Schema.Split rest.
Proof.
  induction nm as [|c nm IH]; intros Hc; [done|].
  simpl in Hc. apply not_elem_of_cons in Hc as [Hc Hnm].
  change (String c nm +:+ String comma rest)
    with (String c (nm +:+ String comma rest)).
  cbn [Schema.Split]. rewrite IH by done.
  by destruct (Ascii.eqb_spec c comma).
Qed.

Lemma regEnLetterAndMidline_no_comma nm :
  Schema.regEnLetterAndMidline nm = true → comma ∉ bytes nm.
Proof.
  unfold Schema.regEnLetterAndMidline. intros [_ H]%andb_prop.
  induction nm as [|c nm IH]; [apply not_elem_of_nil|].
  simpl in H. apply andb_prop in H as [Hc H]. simpl.
  apply not_elem_of_cons. split; [|by apply IH]. by intros <-.
Qed.

Lemma append_not_empty nm rest : nm +:+ String comma rest ≠ EmptyString.
Proof. by destruct nm. Qed.

(** X25.  A CHECK tag of the form [name,text], where [name] consists of
    ASCII letters, digits, [_] and [-], yields the constraint called [name]
    whose text is everything after the first comma, further commas
    included. *)
Theorem X25_named_check_constraint schema field nm rest :
  Schema.TagSettings field !! "CHECK" = Some (nm +:+ "," +:+ rest) →
  Schema.regEnLetterAndMidline nm = true →
  Schema.check_of CheckerName schema field
  = Some (Some (Schema.mkCheckConstraint nm rest field)).
Proof.
  change ("," +:+ rest) with (String comma rest).
  intros Htag Hnm. unfold Schema.check_of. rewrite Htag. cbn [default from_option id].
  rewrite (proj2 (String.eqb_neq _ _) (append_not_empty nm rest)). cbn [negb].
  rewrite Split_prefix by by apply regEnLetterAndMidline_no_comma.
  cbn [lookup list_lookup mbind option_bind drop].
  assert ((1 <? length (nm :: Schema.Split rest)) = true) as ->.
  { by destruct (Split_nonempty rest) as (x & parts & ->). }
  by rewrite Hnm, drop_0, Join_Split.
Qed.

(** X26.  A CHECK tag that does not start with such a name and a comma
    yields a constraint called as the namer says for the table and the
    column; its text is the whole tag, without the comma the tag may start
    with. *)
Theorem X26_unnamed_check_constraint schema field chk :
  Schema.TagSettings field !! "CHECK" = Some chk → chk ≠ EmptyString →
  (∀ nm rest, chk = nm +:+ "," +:+ rest →
              Schema.regEnLetterAndMidline nm = false) →
  Schema.check_of CheckerName schema field
  = Some (Some (Schema.mkCheckConstraint
                  (CheckerName (Schema.Table schema) (Schema.DBName field))
                  (match chk with
                   | String c s => if Ascii.eqb c comma then s else chk
                   | EmptyString => chk
                   end)
                  field)).
Proof.
  intros Htag Hne Hun. unfold Schema.check_of. rewrite Htag. cbn [default from_option id].
  rewrite (proj2 (String.eqb_neq _ _) Hne). cbn [negb].
  pose proof (Join_Split chk) as HJ. pose proof (Split_no_comma chk) as HS.
  destruct (Schema.Split chk) as [|n0 names] eqn:E.
  { by destruct (Split_nonempty chk) as (? & ? & ?). }
  cbn [lookup list_lookup mbind option_bind drop].
  apply Forall_cons in HS as [Hn0 _].
  assert ((1 <? length (n0 :: names)) && Schema.regEnLetterAndMidline n0 = false)
    as ->.
  { destruct names as [|n1 names]; [done|]. simpl.
    apply (Hun n0 (Schema.Join (n1 :: names))). by rewrite <-HJ. }
  do 3 f_equal. destruct (String.eqb_spec n0 EmptyString) as [->|Hn].
  - destruct names as [|n1 names]; [by rewrite <-HJ in Hne|].
    rewrite <-HJ. done.
  - destruct chk as [|c s]; [done|]. destruct (Ascii.eqb_spec c comma) as [->|]; [|done].
    destruct Hn0. destruct n0 as [|c0 n0]; [done|].
    assert (c0 = comma) as ->; [|by left].
    destruct names as [|n1 names]; simpl in HJ; by injection HJ.
Qed.

(** The constraints the fields yield, in the order of the visit. *)
Local Abbreviation yields schema order :=
  (omap (λ field, default None (Schema.check_of CheckerName schema field)) order).

Lemma check_of_returns schema field :
  ∃ r, Schema.check_of CheckerName schema field = Some r.
Proof.
  unfold Schema.check_of. destruct (negb _); [|by eexists].
  destruct (Split_nonempty (default EmptyString (Schema.TagSettings field !! "CHECK")))
    as (x & parts & ->).
  cbn [lookup list_lookup mbind option_bind]. destruct (_ && _); by eexists.
Qed.

Lemma last_filter_cons {A} (P : A → Prop) `{∀ x, Decision (P x)} (x : A) l :
  last (filter P (x :: l))
  = match last (filter P l) with
    | Some y => Some y
    | None => if decide (P x) then Some x else None
    end.
Proof.
  rewrite filter_cons. destruct (decide (P x)); [|by destruct (last _)].
  destruct (filter P l) as [|y l'] eqn:E; [done|].
  rewrite last_cons. by destruct (last (y :: l')) eqn:E'.
Qed.

Lemma ParseCheckConstraints_loop_lookup schema order : ∀ checks,
  ∃ checks', Schema.ParseCheckConstraints_loop CheckerName schema order checks
             = Some checks' ∧
    ∀ k, checks' !! k
         = match last (filter (λ c, Schema.Name c = k) (yields schema order)) with
           | Some c => Some c
           | None => checks !! k
           end.
Proof.
  induction order as [|field order IH]; intros checks.
  { exists checks. by split. }
  destruct (check_of_returns schema field) as (r & Hr).
  assert (yields schema (field :: order)
          = match r with
            | Some c => c :: yields schema order
            | None => yields schema order
            end) as ->.
  { cbn [omap list_omap]. rewrite Hr. by destruct r. }
  cbn [Schema.ParseCheckConstraints_loop]. rewrite Hr. cbn [mbind option_bind].
  destruct r as [c|].
  - destruct (IH (<[Schema.Name c := c]> checks)) as (checks' & -> & Hl).
    exists checks'. split; [done|]. intros k.
    rewrite Hl, last_filter_cons.
    destruct (last (filter _ (yields schema order))); [done|].
    destruct (decide (Schema.Name c = k)) as [<-|Hk].
    + by rewrite lookup_insert_eq.
    + by rewrite lookup_insert_ne.
  - destruct (IH checks) as (checks' & -> & Hl). by exists checks'.
Qed.

(** X27.  [ParseCheckConstraints] returns, and the entry it stores under a
    name is the constraint of the field visited last among those that
    yield a constraint of that name; a name no field yields has no entry,
    and a field without CHECK tag yields nothing. *)
Theorem X27_ParseCheckConstraints_entries schema order :
  ∃ checks, Schema.ParseCheckConstraints CheckerName schema order = Some checks ∧
    ∀ k, checks !! k = last (filter (λ c, Schema.Name c = k) (yields schema order)).
Proof.
  destruct (ParseCheckConstraints_loop_lookup schema order ∅) as (checks & H & Hl).
  exists checks. split; [done|]. intros k. rewrite Hl, lookup_empty.
  by destruct (last _).
Qed.

Lemma filter_name_unique {A} (f : A → string) (l l' : list A) k :
  NoDup (f <$> l) → l ≡ₚ l' →
  last (filter (λ x, f x = k) l) = last (filter (λ x, f x = k) l').
Proof.
  intros Hnd Hp.
  assert (∀ l0 : list A, NoDup (f <$> l0) → length (filter (λ x, f x = k) l0) ≤ 1)
    as Hlen.
  { clear. induction l0 as [|x l0 IH]; intros Hnd; [simpl; lia|].
    rewrite fmap_cons in Hnd. apply NoDup_cons in Hnd as [Hx Hnd].
    rewrite filter_cons. destruct (decide (f x = k)) as [<-|]; [|by apply IH].
    assert (filter (λ y, f y = f x) l0 = []) as ->; [|simpl; lia].
    clear IH Hnd. induction l0 as [|y l0 IH]; [done|].
    rewrite fmap_cons, not_elem_of_cons in Hx. destruct Hx as [Hy Hx].
    rewrite filter_cons_False by done. by apply IH. }
  assert (filter (λ x, f x = k) l ≡ₚ filter (λ x, f x = k) l') as Hf
    by by rewrite Hp.
  pose proof (Hlen l Hnd) as H1.
  destruct (filter (λ x, f x = k) l) as [|x [|y t]]; simpl in H1; [| |lia].
  - by apply Permutation_nil_l in Hf as ->.
  - by apply Permutation_singleton_l in Hf as ->.
Qed.

(** X28.  When no two fields yield constraints of the same name, the
    result of [ParseCheckConstraints] does not depend on the order in
    which the map of fields is visited. *)
Theorem X28_ParseCheckConstraints_any_order schema order order' :
  order ≡ₚ order' → NoDup (Schema.Name <$> yields schema order) →
  Schema.ParseCheckConstraints CheckerName schema order
  = Schema.ParseCheckConstraints CheckerName schema order'.
Proof.
  intros Hp Hnd.
  destruct (ParseCheckConstraints_loop_lookup schema order ∅) as (m & H & Hl).
  destruct (ParseCheckConstraints_loop_lookup schema order' ∅) as (m' & H' & Hl').
  unfold Schema.ParseCheckConstraints. rewrite H, H'. f_equal.
  apply map_eq. intros k. rewrite Hl, Hl'.
  by rewrite (filter_name_unique Schema.Name (yields schema order)
                (yields schema order') k Hnd) by by rewrite Hp.
Qed.

(** X29.  [ParseUniqueConstraints] stores under a name the constraint of
    the last field of [schema.Fields] that is unique and for which the
    namer gives that name; a name that no unique field gets has no
    entry. *)
Theorem X29_ParseUniqueConstraints_entries schema k :
  Schema.ParseUniqueConstraints UniqueName schema !! k
  = Schema.mkUniqueConstraint k
    <$> last (filter (λ field,
                        Schema.Unique field = true ∧
                        UniqueName (Schema.Table schema) (Schema.DBName field) = k)
                (Schema.Fields schema)).
Proof.
  unfold Schema.ParseUniqueConstraints.
  induction (Schema.Fields schema) as [|field fields IH] using rev_ind; [done|].
  rewrite foldl_snoc, filter_app, filter_cons, filter_nil.
  destruct (Schema.Unique field) eqn:E.
  - destruct (decide (UniqueName (Schema.Table schema) (Schema.DBName field) = k))
      as [<-|Hk].
    + rewrite lookup_insert_eq, decide_True by done. by rewrite last_snoc.
    + rewrite lookup_insert_ne by done.
      rewrite decide_False by (by intros [_ ?]). by rewrite app_nil_r.
  - rewrite decide_False by (by intros [? _]). by rewrite app_nil_r.
Qed.
End Schema_facts.

Lemma X25_witness :
  Schema.TagSettings
    (Schema.mkField "name" {["CHECK" := "name_checker,name <> 'a,b'"]} false)
    !! "CHECK"
  = Some ("name_checker" +:+ "," +:+ "name <> 'a,b'") ∧
  Schema.regEnLetterAndMidline "name_checker" = true ∧
  Schema.check_of (λ table column, "chk_" +:+ table +:+ "_" +:+ column)
    (Schema.mkSchema "users" [] ∅)
    (Schema.mkField "name" {["CHECK" := "name_checker,name <> 'a,b'"]} false)
  = Some (Some (Schema.mkCheckConstraint "name_checker" "name <> 'a,b'"
                  (Schema.mkField "name"
                     {["CHECK" := "name_checker,name <> 'a,b'"]} false))).
Proof.
  assert (Schema.TagSettings
            (Schema.mkField "name" {["CHECK" := "name_checker,name <> 'a,b'"]} false)
            !! "CHECK"
          = Some ("name_checker" +:+ "," +:+ "name <> 'a,b'")) as H1
    by (vm_compute; reflexivity).
  assert (Schema.regEnLetterAndMidline "name_checker" = true) as H2
    by (vm_compute; reflexivity).
  split; [exact H1|]. split; [exact H2|].
  exact (X25_named_check_constraint _ (Schema.mkSchema "users" [] ∅) _ _ _ H1 H2).
Defined.

Lemma X26_witness :
  Schema.TagSettings (Schema.mkField "age" {["CHECK" := ",age > 13"]} false) !! "CHECK"
  = Some ",age > 13" ∧
  ",age > 13" ≠ EmptyString ∧
  (∀ nm rest, ",age > 13" = nm +:+ "," +:+ rest →
              Schema.regEnLetterAndMidline nm = false) ∧
  Schema.check_of (λ table column, "chk_" +:+ table +:+ "_" +:+ column)
    (Schema.mkSchema "users" [] ∅)
    (Schema.mkField "age" {["CHECK" := ",age > 13"]} false)
  = Some (Some (Schema.mkCheckConstraint "chk_users_age" "age > 13"
                  (Schema.mkField "age" {["CHECK" := ",age > 13"]} false))).
Proof.
  assert (Schema.TagSettings (Schema.mkField "age" {["CHECK" := ",age > 13"]} false)
            !! "CHECK" = Some ",age > 13") as H1 by (vm_compute; reflexivity).
  assert (",age > 13" ≠ EmptyString) as H2 by discriminate.
  assert (∀ nm rest, ",age > 13" = nm +:+ "," +:+ rest →
                     Schema.regEnLetterAndMidline nm = false) as H3.
  { intros [|c nm] rest H; [reflexivity|]. injection H as <- _. reflexivity. }
  split; [exact H1|]. split; [exact H2|]. split; [exact H3|].
  exact (X26_unnamed_check_constraint
           (λ table column, "chk_" +:+ table +:+ "_" +:+ column)
           (Schema.mkSchema "users" [] ∅) _ _ H1 H2 H3).
Defined.

Lemma X28_witness :
  [Schema.mkField "age" {["CHECK" := "age > 13"]} false;
   Schema.mkField "name" {["CHECK" := "name_checker,name <> ''"]} false]
  ≡ₚ [Schema.mkField "name" {["CHECK" := "name_checker,name <> ''"]} false;
      Schema.mkField "age" {["CHECK" := "age > 13"]} false] ∧
  NoDup (Schema.Name
           <$> omap (λ field,
                       default None
                         (Schema.check_of
                            (λ table column, "chk_" +:+ table +:+ "_" +:+ column)
                            (Schema.mkSchema "users" [] ∅) field))
                 [Schema.mkField "age" {["CHECK" := "age > 13"]} false;
                  Schema.mkField "name" {["CHECK" := "name_checker,name <> ''"]}
                    false]) ∧
  Schema.ParseCheckConstraints (λ table column, "chk_" +:+ table +:+ "_" +:+ column)
    (Schema.mkSchema "users" [] ∅)
    [Schema.mkField "age" {["CHECK" := "age > 13"]} false;
     Schema.mkField "name" {["CHECK" := "name_checker,name <> ''"]} false]
  = Schema.ParseCheckConstraints (λ table column, "chk_" +:+ table +:+ "_" +:+ column)
      (Schema.mkSchema "users" [] ∅)
      [Schema.mkField "name" {["CHECK" := "name_checker,name <> ''"]} false;
       Schema.mkField "age" {["CHECK" := "age > 13"]} false].
Proof.
  assert ([Schema.mkField "age" {["CHECK" := "age > 13"]} false;
           Schema.mkField "name" {["CHECK" := "name_checker,name <> ''"]} false]
          ≡ₚ [Schema.mkField "name" {["CHECK" := "name_checker,name <> ''"]} false;
              Schema.mkField "age" {["CHECK" := "age > 13"]} false]) as H1
    by apply perm_swap.
  assert (NoDup (Schema.Name
           <$> omap (λ field,
                       default None
                         (Schema.check_of
                            (λ table column, "chk_" +:+ table +:+ "_" +:+ column)
                            (Schema.mkSchema "users" [] ∅) field))
                 [Schema.mkField "age" {["CHECK" := "age > 13"]} false;
                  Schema.mkField "name" {["CHECK" := "name_checker,name <> ''"]}
                    false])) as H2.
  { apply (bool_decide_unpack _). vm_compute. exact I. }
  split; [exact H1|]. split; [exact H2|].
  exact (X28_ParseCheckConstraints_any_order _ _ _ _ H1 H2).
Defined.
